(** * StonePass: a shallow embedding of the cryptographic core

    The development follows the dependency order of the C++ sources:
    [stBlock.h] (blocks of machine words), [stChaCha.h] (quarter round, block
    permutation, state builder), [stCompressor.h], the sponge hash, the
    memory-hard [StoneKey], the [StoneRNG] generator and the password
    composer [generate_password] of [StonePass.h].

    Machine words are integers of [Z] with the wrap-around written out.
    Arrays that the C++ code updates in place are lists updated by index. *)

From Stdlib Require Import ZArith Lia Bool String Ascii List DecimalString.
From Stdlib Require Import DecimalZ DecimalPos.
From stdpp Require Import base tactics option list.

Local Open Scope Z_scope.

(* ===================================================================== *)
(** * Machine words *)
(* ===================================================================== *)

Module Word.

Definition MAX32 : Z := 4294967295.
Definition MAX64 : Z := 18446744073709551615.   (* UINT64_MAX *)

Definition wrap32 (z : Z) : Z := z mod 2 ^ 32.
Definition wrap64 (z : Z) : Z := z mod 2 ^ 64.

Definition add32 (a b : Z) : Z := wrap32 (a + b).
Definition add64 (a b : Z) : Z := wrap64 (a + b).
Definition mul64 (a b : Z) : Z := wrap64 (a * b).
Definition shl64 (a n : Z) : Z := wrap64 (Z.shiftl a n).

(* std::rotl on uint32_t and uint64_t *)
Definition rotl32 (x n : Z) : Z :=
  wrap32 (Z.lor (Z.shiftl x n) (Z.shiftr x (32 - n))).
Definition rotl64 (x n : Z) : Z :=
  wrap64 (Z.lor (Z.shiftl x n) (Z.shiftr x (64 - n))).

Definition is_u32 (z : Z) : Prop := 0 <= z < 2 ^ 32.
Definition is_u64 (z : Z) : Prop := 0 <= z < 2 ^ 64.

End Word.

(* ===================================================================== *)
(** * stBlock.h: blocks as arrays of 32-bit words *)
(* ===================================================================== *)

Module Block.
Import Word.

(* The union is modelled by its u32 view; the other views are derived,
   little-endian. Block64 has 16 words, Block32 has 8. *)
Definition zero (nwords : nat) : list Z := replicate nwords 0.

(* b.u32[i] *)
Definition u32_at (b : list Z) (i : nat) : Z := b !!! i.

(* b.u64[i] *)
Definition u64_at (b : list Z) (i : nat) : Z :=
  b !!! (2 * i)%nat + 2 ^ 32 * b !!! (2 * i + 1)%nat.

(* b.u64[i] = v *)
Definition u64_set (b : list Z) (i : nat) (v : Z) : list Z :=
  <[(2 * i + 1)%nat := Z.shiftr v 32]> (<[(2 * i)%nat := wrap32 v]> b).

(* operator^ / operator^= on blocks *)
Definition xor (a b : list Z) : list Z := zip_with Z.lxor a b.

(* the bytes[] view of one word, and of a block *)
Definition word_bytes (w : Z) : list Z :=
  [Z.land w 255; Z.land (Z.shiftr w 8) 255;
   Z.land (Z.shiftr w 16) 255; Z.land (Z.shiftr w 24) 255].

Definition bytes (b : list Z) : list Z := concat (map word_bytes b).

(* memcpy of bytes into the word view *)
Fixpoint of_bytes (nwords : nat) (bs : list Z) : list Z :=
  match nwords with
  | O => []
  | S n =>
      (bs !!! 0%nat + 2 ^ 8 * bs !!! 1%nat
       + 2 ^ 16 * bs !!! 2%nat + 2 ^ 24 * bs !!! 3%nat)
        :: of_bytes n (drop 4 bs)
  end.

(** The member functions and operators below go through the u64 view and
    finish on the bytes behind the last whole qword. A block is its
    32-bit words here, so it has 4 * length bytes; with an odd number
    of words the last word is the tail that the byte loops work on. In
    the loops [n] counts the iterations left and [i] is the loop
    variable. *)

(* byte k of a 32-bit word, and the word with its byte k set to v *)
Definition word_byte (w : Z) (k : nat) : Z :=
  Z.land (Z.shiftr w (8 * Z.of_nat k)) 255.
Definition word_with_byte (w : Z) (k : nat) (v : Z) : Z :=
  Z.lor (Z.land w (Z.lnot (Z.shiftl 255 (8 * Z.of_nat k))))
    (Z.shiftl v (8 * Z.of_nat k)).

(* b.bytes[i] *)
Definition byte_at (b : list Z) (i : nat) : Z :=
  word_byte (b !!! (i / 4)%nat) (i mod 4).

(* b.bytes[i] = v *)
Definition byte_set (b : list Z) (i : nat) (v : Z) : list Z :=
  <[(i / 4)%nat := word_with_byte (b !!! (i / 4)%nat) (i mod 4) v]> b.

(* NBytes *)
Definition size_in_bytes (b : list Z) : nat := (4 * length b)%nat.

(* size_in_u64() *)
Definition size_in_u64 (b : list Z) : nat := (length b / 2)%nat.

(* void clear(): for (i = 0; i < size_in_u64(); ++i) v64[i] = 0; *)
Fixpoint clear_from (n i : nat) (b : list Z) : list Z :=
  match n with
  | O => b
  | S n' => clear_from n' (S i) (u64_set b i 0)
  end.

(* for (i = 8 * size_in_u64(); i < NBytes; ++i) v8[i] = std::byte{ 0 }; *)
Fixpoint clear_tail (n i : nat) (b : list Z) : list Z :=
  match n with
  | O => b
  | S n' => clear_tail n' (S i) (byte_set b i 0)
  end.

Definition clear (b : list Z) : list Z :=
  let qwords := size_in_u64 b in
  let tail := (size_in_bytes b - 8 * qwords)%nat in
  clear_tail tail (8 * qwords) (clear_from qwords 0 b).

(* bool operator==(const Block& other): each loop returns false at the
   first qword, or byte, that differs; for the same object the function
   returns true at once *)
Fixpoint eq_from (n i : nat) (a b : list Z) : bool :=
  match n with
  | O => true
  | S n' =>
      if negb (u64_at a i =? u64_at b i) then false else eq_from n' (S i) a b
  end.

Fixpoint eq_tail (n i : nat) (a b : list Z) : bool :=
  match n with
  | O => true
  | S n' =>
      if negb (byte_at a i =? byte_at b i) then false else eq_tail n' (S i) a b
  end.

Definition eqb (a b : list Z) : bool :=
  let qwords := size_in_u64 a in
  let tail := (size_in_bytes a - 8 * qwords)%nat in
  if negb (eq_from qwords 0 a b) then false
  else eq_tail tail (8 * qwords) a b.

(* bool is_zero() *)
Fixpoint zero_from (n i : nat) (b : list Z) : bool :=
  match n with
  | O => true
  | S n' => if negb (u64_at b i =? 0) then false else zero_from n' (S i) b
  end.

Fixpoint zero_tail (n i : nat) (b : list Z) : bool :=
  match n with
  | O => true
  | S n' => if negb (byte_at b i =? 0) then false else zero_tail n' (S i) b
  end.

Definition is_zero (b : list Z) : bool :=
  let qwords := size_in_u64 b in
  let tail := (size_in_bytes b - 8 * qwords)%nat in
  if negb (zero_from qwords 0 b) then false
  else zero_tail tail (8 * qwords) b.

(* operator^=(a, b): a.u64[i] ^= b.u64[i]; *)
Fixpoint xor_assign_from (n i : nat) (a b : list Z) : list Z :=
  match n with
  | O => a
  | S n' =>
      xor_assign_from n' (S i)
        (u64_set a i (Z.lxor (u64_at a i) (u64_at b i))) b
  end.

(* for (i = 0; i < tail; ++i)
     a.bytes[8 * qwords + i] ^= b.bytes[8 * qwords + i]; *)
Fixpoint xor_assign_tail (n i qwords : nat) (a b : list Z) : list Z :=
  match n with
  | O => a
  | S n' =>
      let j := (8 * qwords + i)%nat in
      xor_assign_tail n' (S i) qwords
        (byte_set a j (Z.lxor (byte_at a j) (byte_at b j))) b
  end.

Definition xor_assign (a b : list Z) : list Z :=
  let qwords := size_in_u64 a in
  let tail := (size_in_bytes a - 8 * qwords)%nat in
  xor_assign_tail tail 0 qwords (xor_assign_from qwords 0 a b) b.

(* operator^(a, b): result.u64[i] = a.u64[i] ^ b.u64[i]; the source
   leaves [result] uninitialised and the two loops write every byte of
   it; here it starts as zeros *)
Fixpoint xor_into_from (n i : nat) (result a b : list Z) : list Z :=
  match n with
  | O => result
  | S n' =>
      xor_into_from n' (S i)
        (u64_set result i (Z.lxor (u64_at a i) (u64_at b i))) a b
  end.

(* for (i = 0; i < tail; ++i)
     result.bytes[8 * qwords + i]
       = a.bytes[8 * qwords + i] ^ b.bytes[8 * qwords + i]; *)
Fixpoint xor_into_tail (n i qwords : nat) (result a b : list Z) : list Z :=
  match n with
  | O => result
  | S n' =>
      let j := (8 * qwords + i)%nat in
      xor_into_tail n' (S i) qwords
        (byte_set result j (Z.lxor (byte_at a j) (byte_at b j))) a b
  end.

Definition xor_new (a b : list Z) : list Z :=
  let qwords := size_in_u64 a in
  let tail := (size_in_bytes a - 8 * qwords)%nat in
  xor_into_tail tail 0 qwords
    (xor_into_from qwords 0 (zero (length a)) a b) a b.

End Block.

(* ===================================================================== *)
(** * stChaCha.h *)
(* ===================================================================== *)

Module ChaCha.
Import Word.

Definition ChaCha20_constants : list Z :=
  [0x61707865; 0x3320646e; 0x79622d32; 0x6b206574].

(* ChaCha20 quarter round on four words *)
Definition QR (a b c d : Z) : Z * Z * Z * Z :=
  let a := add32 a b in let d := Z.lxor d a in let d := rotl32 d 16 in
  let c := add32 c d in let b := Z.lxor b c in let b := rotl32 b 12 in
  let a := add32 a b in let d := Z.lxor d a in let d := rotl32 d 8 in
  let c := add32 c d in let b := Z.lxor b c in let b := rotl32 b 7 in
  (a, b, c, d).

(* QR(x[i], x[j], x[k], x[l]): the four words are passed by reference *)
Definition QR_at (i j k l : nat) (x : list Z) : list Z :=
  let '(a, b, c, d) := QR (x !!! i) (x !!! j) (x !!! k) (x !!! l) in
  <[l := d]> (<[k := c]> (<[j := b]> (<[i := a]> x))).

(* the body of the loop [for (int r = 0; r < 10; ++r)] *)
Definition double_round (x : list Z) : list Z :=
  let x := QR_at 0 4 8 12 x in
  let x := QR_at 1 5 9 13 x in
  let x := QR_at 2 6 10 14 x in
  let x := QR_at 3 7 11 15 x in
  let x := QR_at 0 5 10 15 x in
  let x := QR_at 1 6 11 12 x in
  let x := QR_at 2 7 8 13 x in
  let x := QR_at 3 4 9 14 x in
  x.

(** Memory is a flat array of 32-bit words; [out] and [inp] are word
    offsets into it, so that aliasing can be expressed. *)

(* std::memcpy(x, in, sizeof(x)) *)
Definition load16 (p : nat) (m : list Z) : list Z := take 16 (drop p m).

(* for (int i = 0; i < 16; ++i) out[i] = x[i] + in[i];
   [n] counts the iterations left, [i] is the loop variable *)
Fixpoint add_input (n i : nat) (out inp : nat) (x m : list Z) : list Z :=
  match n with
  | O => m
  | S n' =>
      add_input n' (S i) out inp x
        (<[(out + i)%nat := add32 (x !!! i) (m !!! (inp + i)%nat)]> m)
  end.

Definition permute_block (out inp : nat) (m : list Z) : list Z :=
  let x := load16 inp m in
  let x := Nat.iter 10 double_round x in
  add_input 16 0 out inp x m.

(* permute_block(Block64& out, const Block64& in) with out and in the
   same object: the object is the whole memory *)
Definition permute_inplace (s : list Z) : list Z := permute_block 0 0 s.

(* ... and with out a different object than in; out's old value is
   overwritten *)
Definition permute_into (out_old s : list Z) : list Z :=
  drop 16 (permute_block 16 0 (s ++ out_old)).

(* build_state(key, nonce, block_counter), Bernstein layout *)
Definition build_state (key nonce : list Z) (block_counter : Z) : list Z :=
  let state := Block.zero 16 in
  let state := <[0%nat := ChaCha20_constants !!! 0%nat]> state in
  let state := <[1%nat := ChaCha20_constants !!! 1%nat]> state in
  let state := <[2%nat := ChaCha20_constants !!! 2%nat]> state in
  let state := <[3%nat := ChaCha20_constants !!! 3%nat]> state in
  let state := <[4%nat := key !!! 0%nat]> state in
  let state := <[5%nat := key !!! 1%nat]> state in
  let state := <[6%nat := key !!! 2%nat]> state in
  let state := <[7%nat := key !!! 3%nat]> state in
  let state := <[8%nat := key !!! 4%nat]> state in
  let state := <[9%nat := key !!! 5%nat]> state in
  let state := <[10%nat := key !!! 6%nat]> state in
  let state := <[11%nat := key !!! 7%nat]> state in
  let state := <[12%nat := wrap32 block_counter]> state in
  let state := <[13%nat := wrap32 (Z.shiftr block_counter 32)]> state in
  let state := <[14%nat := nonce !!! 0%nat]> state in
  let state := <[15%nat := nonce !!! 1%nat]> state in
  state.

(** The permutation as the specification words it: ten double rounds
    over the column and diagonal index quartets, then the word-wise sum
    with the original input. *)

Definition column_quartets : list (nat * nat * nat * nat) :=
  [(0, 4, 8, 12); (1, 5, 9, 13); (2, 6, 10, 14); (3, 7, 11, 15)]%nat.
Definition diagonal_quartets : list (nat * nat * nat * nat) :=
  [(0, 5, 10, 15); (1, 6, 11, 12); (2, 7, 8, 13); (3, 4, 9, 14)]%nat.

Definition quarter_rounds (qs : list (nat * nat * nat * nat)) (x : list Z)
  : list Z :=
  fold_left (fun x '(i, j, k, l) => QR_at i j k l x) qs x.

Definition double_round_spec (x : list Z) : list Z :=
  quarter_rounds diagonal_quartets (quarter_rounds column_quartets x).

Definition permute_spec (s : list Z) : list Z :=
  zip_with add32 (Nat.iter 10 double_round_spec s) s.

(* build_state(key, nonce, block_counter) with a 96-bit nonce and a
   32-bit counter, RFC 8439 layout *)
Definition build_state96 (key nonce : list Z) (block_counter : Z) : list Z :=
  let state := Block.zero 16 in
  let state := <[0%nat := ChaCha20_constants !!! 0%nat]> state in
  let state := <[1%nat := ChaCha20_constants !!! 1%nat]> state in
  let state := <[2%nat := ChaCha20_constants !!! 2%nat]> state in
  let state := <[3%nat := ChaCha20_constants !!! 3%nat]> state in
  let state := <[4%nat := key !!! 0%nat]> state in
  let state := <[5%nat := key !!! 1%nat]> state in
  let state := <[6%nat := key !!! 2%nat]> state in
  let state := <[7%nat := key !!! 3%nat]> state in
  let state := <[8%nat := key !!! 4%nat]> state in
  let state := <[9%nat := key !!! 5%nat]> state in
  let state := <[10%nat := key !!! 6%nat]> state in
  let state := <[11%nat := key !!! 7%nat]> state in
  let state := <[12%nat := block_counter]> state in
  let state := <[13%nat := nonce !!! 0%nat]> state in
  let state := <[14%nat := nonce !!! 1%nat]> state in
  let state := <[15%nat := nonce !!! 2%nat]> state in
  state.

Definition XXH_PRIME64_2 : Z := 0xC2B2AE3D27D4EB4F.
Definition XXH_PRIME64_3 : Z := 0x165667B19E3779F9.

(* u64 XXH64_avalanche(u64 hash) *)
Definition XXH64_avalanche (hash : Z) : Z :=
  let hash := Z.lxor hash (Z.shiftr hash 33) in
  let hash := mul64 hash XXH_PRIME64_2 in
  let hash := Z.lxor hash (Z.shiftr hash 29) in
  let hash := mul64 hash XXH_PRIME64_3 in
  let hash := Z.lxor hash (Z.shiftr hash 32) in
  hash.

End ChaCha.

(* ===================================================================== *)
(** * Outcomes of a call *)
(* ===================================================================== *)

(** A C++ call returns, throws, runs into undefined behaviour (an access
    out of bounds), or, in this model, exhausts the fuel that bounds the
    one loop of the sources without a bound of its own. *)

Inductive exn : Type :=
| invalid_argument (msg : string)
| runtime_error (msg : string).

Inductive outcome (A : Type) : Type :=
| Ok (a : A)
| Throw (e : exn)
| Undefined
| OutOfFuel.

Arguments Ok {A} a.
Arguments Throw {A} e.
Arguments Undefined {A}.
Arguments OutOfFuel {A}.

(* sequencing outside a generator: the first call that does not return
   ends the computation *)
Definition outcome_bind {A B} (o : outcome A) (k : A -> outcome B) : outcome B :=
  match o with
  | Ok a => k a
  | Throw e => Throw e
  | Undefined => Undefined
  | OutOfFuel => OutOfFuel
  end.

(* for (i = init; i < bound; i = step i) body, with [fuel] iterations at
   most; every use below passes a fuel that the loop cannot outlast *)
Fixpoint for_loop {S : Type} (fuel : nat) (i bound : nat) (step : nat -> nat)
    (body : nat -> S -> S) (s : S) : S :=
  match fuel with
  | O => s
  | Datatypes.S fuel' =>
      if (i <? bound)%nat
      then for_loop fuel' (step i) bound step body (body i s)
      else s
  end.

(* the bytes of a std::string *)
Definition bytes_of_string (s : list ascii) : list Z :=
  map (fun c => Z.of_N (N_of_ascii c)) s.

(* a string literal as a std::string_view of its characters *)
Definition lit (s : string) : list ascii := list_ascii_of_string s.

(* operator== of two characters, and with it of two strings *)
#[global] Instance ascii_eq_dec : EqDecision ascii := Ascii.ascii_dec.

(** Of the C library *)

(* std::isspace in the default "C" locale: the space and the control
   characters \t, \n, \v, \f and \r *)
Definition isspace (c : ascii) : bool :=
  let n := nat_of_ascii c in
  (n =? 32)%nat || ((9 <=? n)%nat && (n <=? 13)%nat).

(* isdigit(int) *)
Definition isdigit (ch : Z) : bool := (48 <=? ch) && (ch <=? 57).

Definition INT_MIN : Z := - 2 ^ 31.
Definition INT_MAX : Z := 2 ^ 31 - 1.

(* the characters of [s] from its first one that is no space *)
Fixpoint skip_spaces (s : list ascii) : list ascii :=
  match s with
  | [] => []
  | c :: rest => if isspace c then skip_spaces rest else s
  end.

(* the decimal digits that [s] starts with, read from the left onto
   [acc], and how many they are *)
Fixpoint read_digits (acc : Z) (s : list ascii) : Z * nat :=
  match s with
  | [] => (acc, 0%nat)
  | c :: rest =>
      let d := Z.of_N (N_of_ascii c) in
      if isdigit d
      then let '(v, n) := read_digits (10 * acc + (d - 48)) rest in (v, S n)
      else (acc, 0%nat)
  end.

(* std::stoi(str): strtol in base 10 skips spaces, takes a sign and the
   digits that follow; None is the exception that stoi throws when there
   is no digit (std::invalid_argument) or when the number is no int
   (std::out_of_range) *)
Definition stoi (str : list ascii) : option Z :=
  let s := skip_spaces str in
  let '(negative, s) :=
    match s with
    | "-"%char :: rest => (true, rest)
    | "+"%char :: rest => (false, rest)
    | _ => (false, s)
    end in
  let '(v, n) := read_digits 0 s in
  let v := if negative then - v else v in
  if (n =? 0)%nat then None
  else if (INT_MIN <=? v) && (v <=? INT_MAX) then Some v
  else None.

(* ===================================================================== *)
(** * stCompressor.h *)
(* ===================================================================== *)

Module Compressor.
Import Word.

Record t : Type := { state : list Z }.

Definition init : t := {| state := Block.zero 16 |}.

(* void update(const Block64& block) *)
Definition update (block : list Z) (c : t) : t :=
  let state := Block.xor (state c) block in
  {| state := ChaCha.permute_inplace state |}.

(** [finalize] works on a local copy [h] of the state. In memory the
    object's state sits at word offset [this] and the local at [h]. *)
Definition finalize_mem (this h : nat) (total_bytes : Z) (m : list Z)
  : list Z :=
  (* Block64 h = state; *)
  let m := take h m ++ ChaCha.load16 this m ++ drop (h + 16) m in
  (* h.u32[0] ^= 0x01u; *)
  let m := <[h := Z.lxor (m !!! h) 1]> m in
  let bit_len := rotl64 total_bytes 3 in
  (* h.u32[12] ^= static_cast<u32>(bit_len); *)
  let m := <[(h + 12)%nat := Z.lxor (m !!! (h + 12)%nat) (wrap32 bit_len)]> m in
  (* h.u32[13] ^= static_cast<u32>(bit_len >> 32); *)
  let m := <[(h + 13)%nat :=
               Z.lxor (m !!! (h + 13)%nat) (wrap32 (Z.shiftr bit_len 32))]> m in
  (* ChaCha::permute_block(h, h); *)
  ChaCha.permute_block h h m.

(* Block64 finalize(uint64_t total_bytes) const: the frame of the call
   holds the object at offset 0 and the local h at offset 16; the digest
   is h, and the object is what the call leaves at offset 0 *)
Definition finalize (total_bytes : Z) (c : t) : list Z * t :=
  let m := finalize_mem 0 16 total_bytes (state c ++ Block.zero 16) in
  (ChaCha.load16 16 m, {| state := ChaCha.load16 0 m |}).

(* void wipe() *)
Definition wipe (c : t) : t := {| state := Block.zero 16 |}.

(* the calls a client can make on a compressor *)
Inductive call : Type :=
| Update (block : list Z)
| Finalize (total_bytes : Z).

(* run a sequence of calls, collecting the digests returned *)
Fixpoint run (calls : list call) (c : t) : list (list Z) * t :=
  match calls with
  | [] => ([], c)
  | Update block :: rest => run rest (update block c)
  | Finalize total_bytes :: rest =>
      let '(digest, c) := finalize total_bytes c in
      let '(digests, c) := run rest c in
      (digest :: digests, c)
  end.

(* the local h of finalize as it stands before the permutation: a copy
   of the state with the final-block flag and the rotated length XOR-ed
   into words 0, 12 and 13 *)
Definition finalize_block (total_bytes : Z) (state : list Z) : list Z :=
  let h := state in
  let h := <[0%nat := Z.lxor (h !!! 0%nat) 1]> h in
  let bit_len := rotl64 total_bytes 3 in
  let h := <[12%nat := Z.lxor (h !!! 12%nat) (wrap32 bit_len)]> h in
  let h := <[13%nat := Z.lxor (h !!! 13%nat) (wrap32 (Z.shiftr bit_len 32))]> h in
  h.

End Compressor.

(* ===================================================================== *)
(** * The sponge hash *)
(* ===================================================================== *)

Module StoneHash.
Import Word.

(** StoneHash.h is not among the sources; the sponge is modelled from
    section 4.2 of the specification, over the compressor above. *)

(** Modelled from the spec: the sponge state, missing with StoneHash.h:
    a 64-byte block (here the compressor that holds it), a pending buffer
    of up to 63 bytes and the count of the bytes absorbed. *)
Record t : Type := {
  comp : Compressor.t;
  pending : list Z;
  total_bytes : Z
}.

(** Modelled from the spec: the fresh StoneHash object, missing with
    StoneHash.h: a zero state, nothing pending, nothing absorbed. *)
Definition init : t :=
  {| comp := Compressor.init; pending := []; total_bytes := 0 |}.

(** Modelled from the spec: absorbing one byte, missing with StoneHash.h.
    "When the buffer fills, XOR it into the 64-byte state and apply the
    ChaCha block permutation to the state; reset the buffer." *)
Definition absorb_byte (h : t) (b : Z) : t :=
  let p := pending h ++ [b] in
  let n := add64 (total_bytes h) 1 in
  if (length p =? 64)%nat
  then {| comp := Compressor.update (Block.of_bytes 16 p) (comp h);
          pending := []; total_bytes := n |}
  else {| comp := comp h; pending := p; total_bytes := n |}.

(** Modelled from the spec: StoneHash::update, missing with StoneHash.h.
    Raw bytes, strings and blocks are absorbed with the same byte
    semantics. *)
Definition update (bs : list Z) (h : t) : t := fold_left absorb_byte bs h.

(** Modelled from the spec: StoneHash::finalize, missing with StoneHash.h.
    "XOR any residual pending bytes into the state (zero-padded to 64
    bytes)", then the final-block flag, the length injection and one
    permutation, which are the compressor's finalize. *)
Definition finalize (h : t) : list Z :=
  let padded := pending h ++ replicate (64 - length (pending h)) 0 in
  let c := {| Compressor.state :=
               Block.xor (Compressor.state (comp h)) (Block.of_bytes 16 padded) |} in
  fst (Compressor.finalize (total_bytes h) c).

(** Modelled from the spec: StoneHash::hash256, missing with StoneHash.h:
    the first 256 bits of the digest. *)
Definition hash256 (h : t) : list Z := take 8 (finalize h).

(* the compressor state of a sponge is a Block64 *)
Definition wf (h : t) : Prop := length (Compressor.state (comp h)) = 16%nat.

End StoneHash.

(* ===================================================================== *)
(** * StoneKey.h *)
(* ===================================================================== *)

Module StoneKey.
Import Word.

Definition STONEKEY_V2_M_COST : Z := 20.
Definition STONEKEY_V2_T_COST : Z := 3.
Definition GOLDEN_GAMMA : Z := 0x9e3779b97f4a7c15.

(* the eight bytes of a size_t, as h.update((const void* )&i, sizeof(i))
   reads them *)
Definition size_t_bytes (i : Z) : list Z :=
  Block.word_bytes (wrap32 i) ++ Block.word_bytes (Z.shiftr i 32).

(* Phase 1, the body of the loop over i *)
Definition fill_block (password context : list ascii) (i : nat) : list Z :=
  let h := StoneHash.init in
  let h := StoneHash.update (bytes_of_string (lit "StoneHash::v2::fill")) h in
  let h := if (0 <? length context)%nat
           then StoneHash.update (bytes_of_string context) h else h in
  let h := StoneHash.update (size_t_bytes (Z.of_nat i)) h in
  let h := if (i =? 0)%nat
           then StoneHash.update (bytes_of_string password) h else h in
  StoneHash.finalize h.

Definition counter_seed (password : list ascii) : Z :=
  let tmp := StoneHash.init in
  let tmp := StoneHash.update
               (bytes_of_string (lit "StoneHash::v2::counter_seed")) tmp in
  let tmp := StoneHash.update (bytes_of_string password) tmp in
  Z.lxor GOLDEN_GAMMA (Block.u64_at (StoneHash.finalize tmp) 0).

(* Phase 2, the body of the innermost loop *)
Definition butterfly (counter : Z) (a b : nat) (memory : list (list Z))
  : list (list Z) :=
  let x := memory !!! a in
  let y := memory !!! b in
  let mix := Z.lxor counter (Z.lor (shl64 (Z.of_nat a) 32) (Z.of_nat b)) in
  let y := imap (fun i yi =>
             Z.lxor yi (Z.lxor (x !!! i)
                          (wrap32 (Z.shiftr mix (Z.of_nat i * 4))))) y in
  let y := ChaCha.QR_at 0 4 8 12 y in
  let y := ChaCha.QR_at 1 5 9 13 y in
  let y := ChaCha.QR_at 2 6 10 14 y in
  let y := ChaCha.QR_at 3 7 11 15 y in
  let memory := <[b := y]> memory in
  let x := zip_with Z.lxor x y in
  <[a := x]> memory.

Definition mix_round (n_blocks : nat) (counter : Z) (memory : list (list Z))
  : list (list Z) :=
  for_loop n_blocks 1 n_blocks (fun span => 2 * span)%nat
    (fun span memory =>
       for_loop n_blocks 0 n_blocks (fun start => start + 2 * span)%nat
         (fun start memory =>
            for_loop span 0 span Datatypes.S
              (fun k memory =>
                 let a := (start + k)%nat in
                 let b := (a + span)%nat in
                 butterfly counter a b memory)
              memory)
         memory)
    memory.

(* Phase 3, the body of the loop over i *)
Definition compress_step (memory : list (list Z)) (i : nat) (acc : list Z)
  : list Z :=
  let acc := Block.xor acc (memory !!! i) in
  let i := Z.of_nat i in
  let acc := Block.u64_set acc 0 (Z.lxor (Block.u64_at acc 0) i) in
  let acc := Block.u64_set acc 1 (Z.lxor (Block.u64_at acc 1) (shl64 i 32)) in
  let acc := Block.u64_set acc 2
               (Z.lxor (Block.u64_at acc 2) (mul64 i GOLDEN_GAMMA)) in
  let acc := Block.u64_set acc 3
               (Z.lxor (Block.u64_at acc 3)
                  (mul64 i (Z.shiftr GOLDEN_GAMMA 13))) in
  ChaCha.permute_inplace acc.

Definition StoneKey (password context : list ascii) (m_cost t_cost : Z)
  : outcome (list Z) :=
  if 26 <? m_cost
  then Throw (invalid_argument "StoneKey: m_cost too high (max 26: 4 GiB)")
  else if t_cost =? 0
  then Throw (invalid_argument "StoneKey: t_cost must be >= 1")
  else if (length password =? 0)%nat
  then Throw (invalid_argument "StoneKey: password is empty")
  else
    let n_blocks := Z.to_nat (Z.shiftl 1 m_cost) in
    (* Phase 1: fill *)
    let memory :=
      for_loop n_blocks 0 n_blocks Datatypes.S
        (fun i memory => <[i := fill_block password context i]> memory)
        (replicate n_blocks (Block.zero 16)) in
    (* Phase 2: butterfly mixing *)
    let counter := counter_seed password in
    let '(counter, memory) :=
      for_loop (Z.to_nat t_cost) 0 (Z.to_nat t_cost) Datatypes.S
        (fun _ '(counter, memory) =>
           let counter := add64 counter GOLDEN_GAMMA in
           (counter, mix_round n_blocks counter memory))
        (counter, memory) in
    (* Phase 3: compression *)
    let acc :=
      for_loop n_blocks 0 n_blocks Datatypes.S (compress_step memory)
        (Block.zero 16) in
    let acc := ChaCha.permute_inplace acc in
    (* Phase 4 overwrites the arena with zeros; the result does not
       depend on it *)
    (* Phase 5: extraction *)
    let out := StoneHash.init in
    let out := StoneHash.update (bytes_of_string (lit "StoneKey::v2::final")) out in
    let out := StoneHash.update (bytes_of_string password) out in
    let out := StoneHash.update (bytes_of_string context) out in
    let out := StoneHash.update (Block.bytes acc) out in
    Ok (StoneHash.hash256 out).

(* the call throws std::invalid_argument *)
Definition rejected (password context : list ascii) (m_cost t_cost : Z) : Prop :=
  exists msg,
    StoneKey password context m_cost t_cost = Throw (invalid_argument msg).

(** The butterflies of one mixing round over 2^m blocks, as index pairs
    in the order in which the three nested loops reach them: for
    span = 2^j, for start = q * (2 * span) and for k < span, the pair of
    a = start + k and b = a + span. *)
Definition butterfly_network (m : nat) : list (nat * nat) :=
  flat_map
    (fun j =>
       let span := (2 ^ j)%nat in
       flat_map
         (fun q =>
            let start := (q * (2 * span))%nat in
            map (fun k => ((start + k)%nat, (start + k + span)%nat))
              (seq 0 span))
         (seq 0 (2 ^ (m - 1 - j))))
    (seq 0 m).

(* the arena [memory]: blocks of sixteen 32-bit words *)
Definition is_mblock (x : list Z) : Prop :=
  length x = 16%nat /\ Forall is_u32 x.
Definition is_arena (memory : list (list Z)) : Prop := Forall is_mblock memory.

End StoneKey.

(* ===================================================================== *)
(** * StoneRNG.h *)
(* ===================================================================== *)

Module StoneRNG.
Import Word.

Record t : Type := {
  key : list Z;            (* 8 words *)
  nonce : list Z;          (* 2 words *)
  block_counter : Z;
  buffer : list Z;         (* Block64 *)
  word_index : Z           (* size_t *)
}.

(** Member functions run in a state monad over the object: a call
    returns an outcome and the object as the call leaves it, which for
    a call that throws is the object at the throw. *)
Definition M (A : Type) : Type := t -> outcome A * t.

Definition ret {A} (a : A) : M A := fun s => (Ok a, s).

Definition bind {A B} (m : M A) (k : A -> M B) : M B :=
  fun s =>
    match m s with
    | (Ok a, s') => k a s'
    | (Throw e, s') => (Throw e, s')
    | (Undefined, s') => (Undefined, s')
    | (OutOfFuel, s') => (OutOfFuel, s')
    end.

Definition throw {A} (e : exn) : M A := fun s => (Throw e, s).
Definition undefined {A} : M A := fun s => (Undefined, s).
Definition get {A} (f : t -> A) : M A := fun s => (Ok (f s), s).

(* assignments to the members *)
Definition with_word_index (w : Z) (s : t) : t :=
  {| key := key s; nonce := nonce s; block_counter := block_counter s;
     buffer := buffer s; word_index := w |}.
Definition with_block_counter (c : Z) (s : t) : t :=
  {| key := key s; nonce := nonce s; block_counter := c;
     buffer := buffer s; word_index := word_index s |}.
Definition with_buffer (b : list Z) (s : t) : t :=
  {| key := key s; nonce := nonce s; block_counter := block_counter s;
     buffer := b; word_index := word_index s |}.

Definition set_word_index (w : Z) : M unit :=
  fun s => (Ok tt, with_word_index w s).
Definition set_block_counter (c : Z) : M unit :=
  fun s => (Ok tt, with_block_counter c s).
Definition set_buffer (b : list Z) : M unit :=
  fun s => (Ok tt, with_buffer b s).

Declare Scope rng_scope.
Delimit Scope rng_scope with rng.
Notation "x <- m ;; k" := (bind m (fun x => k))
  (at level 100, m at next level, right associativity) : rng_scope.
Notation "m ;; k" := (bind m (fun _ => k))
  (at level 100, right associativity) : rng_scope.
Local Open Scope rng_scope.

Definition exhausted : exn := runtime_error "StoneRNG: key/nonce pair exhausted".
Definition discard_overflow : exn :=
  runtime_error "StoneRNG: block_counter overflow during discard".

(* void refill_buffer() *)
Definition refill_buffer : M unit :=
  key <- get key ;;
  nonce <- get nonce ;;
  block_counter <- get block_counter ;;
  let state := ChaCha.build_state key
                 [nonce !!! 0%nat; nonce !!! 1%nat] block_counter in
  old <- get buffer ;;
  set_buffer (ChaCha.permute_into old state) ;;
  set_word_index 0 ;;
  set_block_counter (add64 block_counter 1) ;;
  block_counter <- get StoneRNG.block_counter ;;
  if block_counter =? 0 then throw exhausted else ret tt.

(* result_type operator()() *)
Definition next : M Z :=
  w <- get word_index ;;
  (if 8 <=? w then refill_buffer else ret tt) ;;
  w <- get word_index ;;
  b <- get buffer ;;
  set_word_index (wrap64 (w + 1)) ;;
  ret (Block.u64_at b (Z.to_nat w)).

(* do { value = ( *this)(); } while (value > limit); *)
Fixpoint draw_until (fuel : nat) (limit : Z) : M Z :=
  match fuel with
  | O => fun s => (OutOfFuel, s)
  | S fuel' =>
      value <- next ;;
      if limit <? value then draw_until fuel' limit else ret value
  end.

(* the value that the rejection loop accepts, and what is returned for it *)
Definition unbiased_range (lo hi : Z) : Z := wrap64 (hi - lo + 1).
Definition unbiased_limit (lo hi : Z) : Z :=
  MAX64 - MAX64 mod unbiased_range lo hi.
Definition unbiased_accepts (lo hi value : Z) : bool :=
  negb (unbiased_limit lo hi <? value).
Definition unbiased_value (lo hi value : Z) : Z :=
  wrap64 (lo + value mod unbiased_range lo hi).

(* result_type unbiased(std::uint64_t lo, std::uint64_t hi) *)
Definition unbiased (fuel : nat) (lo hi : Z) : M Z :=
  let '(lo, hi) := if hi <? lo then (hi, lo) else (lo, hi) in
  if lo =? hi then ret lo
  else if wrap64 (hi - lo) =? MAX64 then next
  else
    value <- draw_until fuel (unbiased_limit lo hi) ;;
    ret (unbiased_value lo hi value).

(* void discard(std::uint64_t n) *)
Definition discard (n : Z) : M unit :=
  if n =? 0 then ret tt
  else
    w <- get word_index ;;
    let remaining := wrap64 (8 - w) in
    if n <? remaining then set_word_index (wrap64 (w + n))
    else
      let n := wrap64 (n - remaining) in
      set_word_index 8 ;;
      let full_blocks := n / 8 in
      let remainder := n mod 8 in
      (if 0 <? full_blocks
       then
         c <- get block_counter ;;
         if MAX64 - full_blocks <? c then throw discard_overflow
         else set_block_counter (add64 c full_blocks)
       else ret tt) ;;
      if negb (remainder =? 0)
      then refill_buffer ;; set_word_index remainder
      else ret tt.

(* the object with key, nonce and counter set, before the constructor
   body runs: the buffer is zero and word_index is 8 *)
Definition fresh (k n : list Z) (c : Z) : t :=
  {| key := k; nonce := n; block_counter := c;
     buffer := Block.zero 16; word_index := 8 |}.

(* a constructor that throws constructs no object *)
Definition construct (k n : list Z) (c : Z) : outcome t :=
  match refill_buffer (fresh k n c) with
  | (Ok _, s) => Ok s
  | (Throw e, _) => Throw e
  | (Undefined, _) => Undefined
  | (OutOfFuel, _) => OutOfFuel
  end.

(* StoneRNG(const KEY& k, NONCE& n, u64 initial_counter = 0) *)
Definition make (k n : list Z) (initial_counter : Z) : outcome t :=
  construct k n initial_counter.

(* StoneRNG(const Block64& block) *)
Definition of_block64 (block : list Z) : outcome t :=
  let temp := ChaCha.permute_inplace block in
  construct (take 8 temp) (take 2 (drop 8 temp)) 0.

(* StoneRNG(const Block32& block) *)
Definition of_block32 (block : list Z) : outcome t :=
  let temp := take 8 block ++ Block.zero 8 in
  let temp := ChaCha.permute_inplace temp in
  construct (take 8 temp) (take 2 (drop 8 temp)) 0.

(* StoneRNG(): the 64 bytes of entropy come from the platform *)
Definition of_entropy (entropy : list Z) : outcome t :=
  let e := Block.of_bytes 16 entropy in
  construct (take 8 e) (take 2 (drop 8 e)) (Block.u64_at e 5).

(* void reseed(const KEY& k, const std::array<u32, 2>& n) *)
Definition reseed (k n : list Z) : M unit :=
  fun s =>
    refill_buffer {| key := k; nonce := n; block_counter := 0;
                     buffer := buffer s; word_index := word_index s |}.

(* the loop of operator==: key_diff |= lhs.key[i] ^ rhs.key[i] *)
Definition key_diff (lhs rhs : list Z) : Z :=
  for_loop 8 0 8 S
    (fun i key_diff => Z.lor key_diff (Z.lxor (lhs !!! i) (rhs !!! i))) 0.

(* std::array<u32, 2>::operator== *)
Definition nonce_eqb (a b : list Z) : bool :=
  (a !!! 0%nat =? b !!! 0%nat) && (a !!! 1%nat =? b !!! 1%nat).

(* friend bool operator==(const StoneRNG& lhs, const StoneRNG& rhs) *)
Definition eqb (lhs rhs : t) : bool :=
  (key_diff (key lhs) (key rhs) =? 0)
  && nonce_eqb (nonce lhs) (nonce rhs)
  && (block_counter lhs =? block_counter rhs)
  && (word_index lhs =? word_index rhs).

(** The public interface, as a type of calls, and the states it reaches *)

Inductive call : Type :=
| Next
| Unbiased (fuel : nat) (lo hi : Z)
| Discard (n : Z)
| Reseed (k n : list Z).

Inductive result : Type :=
| Word (o : outcome Z)
| Done (o : outcome unit).

Definition run_call (c : call) (s : t) : result * t :=
  match c with
  | Next => let '(o, s) := next s in (Word o, s)
  | Unbiased fuel lo hi => let '(o, s) := unbiased fuel lo hi s in (Word o, s)
  | Discard n => let '(o, s) := discard n s in (Done o, s)
  | Reseed k n => let '(o, s) := reseed k n s in (Done o, s)
  end.

Fixpoint run (calls : list call) (s : t) : list result * t :=
  match calls with
  | [] => ([], s)
  | c :: rest =>
      let '(r, s) := run_call c s in
      let '(rs, s) := run rest s in
      (r :: rs, s)
  end.

Definition is_key (k : list Z) : Prop := length k = 8%nat.
Definition is_nonce (n : list Z) : Prop := length n = 2%nat.
Definition valid_call (c : call) : Prop :=
  match c with
  | Next => True
  | Unbiased _ lo hi => is_u64 lo /\ is_u64 hi
  | Discard n => is_u64 n
  | Reseed k n => is_key k /\ is_nonce n
  end.

(* every constructor sets key, nonce and counter and then refills *)
Inductive reachable : t -> Prop :=
| reach_construct k n c s :
    is_key k -> is_nonce n -> is_u64 c ->
    construct k n c = Ok s -> reachable s
| reach_call c s :
    reachable s -> valid_call c -> reachable (snd (run_call c s)).

(* n consecutive calls of operator(), keeping the last result *)
Fixpoint next_n (n : nat) (first : Z) : M Z :=
  match n with
  | O => ret first
  | S n' => v <- next ;; next_n n' v
  end.

(* the keystream block with counter c *)
Definition block_of (s : t) (c : Z) : list Z :=
  ChaCha.permute_spec
    (ChaCha.build_state (key s) [nonce s !!! 0%nat; nonce s !!! 1%nat] c).

(** Notions the statements below use *)

(* the object after the assignments of refill_buffer *)
Definition refilled (s : t) : t :=
  {| key := key s; nonce := nonce s;
     block_counter := add64 (block_counter s) 1;
     buffer := ChaCha.permute_into (buffer s)
                 (ChaCha.build_state (key s)
                    [nonce s !!! 0%nat; nonce s !!! 1%nat] (block_counter s));
     word_index := 0 |}.

(* the object after word_index++ *)
Definition bump (s : t) : t :=
  with_word_index (wrap64 (word_index s + 1)) s.

(* the shape of the members *)
Definition wf (s : t) : Prop :=
  is_key (key s) /\ is_nonce (nonce s) /\ is_u64 (block_counter s)
  /\ length (buffer s) = 16%nat /\ 0 <= word_index s <= 8.

(* while words of the buffer are left, the buffer is the block of the
   counter's previous value *)
Definition inv (s : t) : Prop :=
  wf s /\
  (word_index s < 8 ->
   buffer s = block_of s (wrap64 (block_counter s - 1))).

(* two objects that differ in an exhausted buffer at most *)
Definition stale_eq (s1 s2 : t) : Prop :=
  key s1 = key s2 /\ nonce s1 = nonce s2
  /\ block_counter s1 = block_counter s2
  /\ word_index s1 = 8 /\ word_index s2 = 8
  /\ length (buffer s1) = 16%nat /\ length (buffer s2) = 16%nat.

Definition equiv (s1 s2 : t) : Prop := s1 = s2 \/ stale_eq s1 s2.

(* Word p of the keystream, counted from the start of the block that the
   buffer holds, and the object once that word has been returned *)
Definition stream_word (s : t) (p : Z) : Z :=
  Block.u64_at (block_of s (wrap64 (block_counter s - 1 + p / 8)))
    (Z.to_nat (p mod 8)).

Definition state_at (s : t) (p : Z) : t :=
  {| key := key s; nonce := nonce s;
     block_counter := block_counter s + p / 8;
     buffer := block_of s (wrap64 (block_counter s - 1 + p / 8));
     word_index := p mod 8 + 1 |}.

(* the words left before the counter wraps *)
Definition words_left (s : t) : Z :=
  (2 ^ 64 - block_counter s) * 8 + (8 - word_index s).

(* What a call on an object that satisfies [inv] may come to: a value
   that satisfies Q, or the exhaustion error; nothing undefined; and it
   runs out of fuel only when given less than the keystream is long. In
   each case the object still satisfies [inv]. *)
Definition returns {A} (fuel : nat) (Q : A -> Prop) (r : outcome A * t) : Prop :=
  inv (snd r) /\
  match fst r with
  | Ok a => Q a
  | Throw e => e = exhausted
  | Undefined => False
  | OutOfFuel => Z.of_nat fuel <= 2 ^ 67 + 8
  end.

(* the next n calls of operator() return words, none of them above
   [bound] *)
Fixpoint accepted (n : nat) (bound : Z) (s : t) : Prop :=
  match n with
  | O => True
  | S n' =>
      exists v, fst (next s) = Ok v /\ v <= bound
                /\ accepted n' bound (snd (next s))
  end.

(* a call that returns a value that satisfies Q, and has called operator()
   k times at most, when the words that operator() returns to it are not
   above [bound] *)
Definition draws {A} (k : nat) (bound : Z) (Q : A -> Prop) (m : M A) : Prop :=
  forall n s, accepted (k + n) bound s ->
    exists a s', m s = (Ok a, s') /\ Q a /\ accepted n bound s'.

(* a call that throws nothing but the exhaustion error *)
Definition throws_only_exhausted {A} (m : M A) : Prop :=
  forall s e, fst (m s) = Throw e -> e = exhausted.

(* calls that cannot tell equivalent objects apart *)
Definition respects {A} (m : M A) : Prop :=
  forall s1 s2, equiv s1 s2 ->
    fst (m s1) = fst (m s2) /\ equiv (snd (m s1)) (snd (m s2)).

(** Sample objects: the generator of the zero key and nonce as its
    constructor leaves it; the same after discard(16), its buffer stale;
    and the generator constructed at counter 1 with its first block used up. *)
Definition sample : t := refilled (fresh (Block.zero 8) (Block.zero 2) 0).
Definition sample_skipped : t := snd (run_call (Discard 16) sample).
Definition sample_drained : t :=
  snd (run (repeat Next 8) (refilled (fresh (Block.zero 8) (Block.zero 2) 1))).

(* the number of keystream words that lie before the next word returned,
   counted from the first word of block 0 *)
Definition position (s : t) : Z := 8 * (block_counter s - 1) + word_index s.

(** Serialization: operator<< and operator>>. An input stream is the
    list of the bytes still to be read, and its state: once a read has
    failed the stream is no longer good, and a later read extracts
    nothing. *)
Record istream : Type := { input : list Z; good : bool }.

(* is.read(p, n): extracts n bytes, or the bytes that are left and
   fails; the bytes extracted are stored from p on *)
Definition read (n : nat) (ins : istream) : list Z * istream :=
  if good ins
  then (take n (input ins),
        {| input := drop n (input ins);
           good := (n <=? length (input ins))%nat |})
  else ([], ins).

(* is.get(): the next byte, or EOF (-1) and the stream fails *)
Definition get_byte (ins : istream) : Z * istream :=
  if good ins
  then match input ins with
       | c :: rest => (c, {| input := rest; good := true |})
       | [] => (-1, {| input := []; good := false |})
       end
  else (-1, ins).

(* the bytes of an object after a read has stored what it extracted *)
Definition store (extracted old : list Z) : list Z :=
  extracted ++ drop (length extracted) old.

(* the eight bytes of a uint64_t, and the uint64_t of eight bytes *)
Definition u64_bytes (v : Z) : list Z :=
  Block.word_bytes (wrap32 v) ++ Block.word_bytes (Z.shiftr v 32).
Definition u64_of_bytes (bs : list Z) : Z :=
  Block.u64_at (Block.of_bytes 2 bs) 0.

Definition magic : list Z := bytes_of_string (lit "StoneRNG").

(* operator<<(os, rng): the bytes written to os *)
Definition serialize (rng : t) : list Z :=
  magic ++ [1]
    ++ Block.bytes (key rng) ++ Block.bytes (nonce rng)
    ++ u64_bytes (block_counter rng)
    ++ [word_index rng mod 256]
    ++ replicate 7 0.

Definition bad_magic : exn :=
  runtime_error "StoneRNG: invalid or corrupted stream (bad magic)".
Definition unsupported_version : exn :=
  runtime_error "StoneRNG: unsupported version".
Definition corrupted_word_index : exn :=
  runtime_error "StoneRNG: corrupted word_index".
Definition read_error : exn :=
  runtime_error "StoneRNG: stream read error during deserialization".
Definition cannot_restore : exn :=
  runtime_error
    "StoneRNG: cannot restore mid-block state at block_counter == 0".

Definition set_key (k : list Z) : M unit :=
  fun s => (Ok tt, {| key := k; nonce := nonce s;
                      block_counter := block_counter s;
                      buffer := buffer s; word_index := word_index s |}).
Definition set_nonce (n : list Z) : M unit :=
  fun s => (Ok tt, {| key := key s; nonce := n;
                      block_counter := block_counter s;
                      buffer := buffer s; word_index := word_index s |}).

(* the end of operator>>: if (rng.word_index < 8) { ... } *)
Definition regenerate (idx : Z) : M unit :=
  w <- get word_index ;;
  if w <? 8
  then
    saved_counter <- get block_counter ;;
    if saved_counter =? 0 then throw cannot_restore
    else
      set_block_counter (wrap64 (saved_counter - 1)) ;;
      refill_buffer ;;
      set_block_counter saved_counter ;;
      set_word_index idx
  else ret tt.

(* operator>>(is, rng); the result is the stream as the call leaves it *)
Definition deserialize (ins : istream) : M istream :=
  (* char magic[8] = {}; is.read(magic, 8); *)
  let '(extracted, ins) := read 8 ins in
  if negb (good ins)
     || negb (bool_decide (store extracted (replicate 8 0) = magic))
  then throw bad_magic
  else
    (* version = static_cast<std::uint8_t>(is.get()) *)
    let '(c, ins) := get_byte ins in
    if negb (good ins) || negb (c mod 256 =? 1) then throw unsupported_version
    else
      let '(key_bytes, ins) := read 32 ins in
      k <- get key ;;
      set_key (Block.of_bytes 8 (store key_bytes (Block.bytes k))) ;;
      let '(nonce_bytes, ins) := read 8 ins in
      n <- get nonce ;;
      set_nonce (Block.of_bytes 2 (store nonce_bytes (Block.bytes n))) ;;
      let '(counter_bytes, ins) := read 8 ins in
      c <- get block_counter ;;
      set_block_counter (u64_of_bytes (store counter_bytes (u64_bytes c))) ;;
      let '(idx, ins) := get_byte ins in
      if negb (good ins) || (idx <? 0) || (8 <? idx)
      then throw corrupted_word_index
      else
        set_word_index idx ;;
        (* char padding[7]; is.read(padding, 7); *)
        let '(_, ins) := read 7 ins in
        if negb (good ins) then throw read_error
        else regenerate idx ;; ret ins.

(* how many of the 2^64 words v satisfy p; [n] is the number of words *)
Fixpoint count_words (p : Z -> bool) (n : nat) : Z :=
  match n with
  | O => 0
  | S n' => count_words p n' + (if p (Z.of_nat n') then 1 else 0)
  end.

(* the number of keystream words for which unbiased(lo, hi) returns r *)
Definition accepted_words (lo hi r : Z) : Z :=
  count_words
    (fun v => unbiased_accepts lo hi v && (unbiased_value lo hi v =? r))
    (Z.to_nat (2 ^ 64)).

End StoneRNG.

(* ===================================================================== *)
(** * ui.h, ui.cpp: the form of the Windows interface *)
(* ===================================================================== *)

(** What the functions write to the console is not modelled; what they
    do to the fields and to the index of the active field is. The keys
    that _getch hands out are an argument. *)

Module UI.

Inductive FieldType : Type :=
| DISPLAY | LABEL | STRING_INPUT | INT_INPUT | BUTTON.

#[global] Instance FieldType_eq_dec : EqDecision FieldType.
Proof. solve_decision. Defined.

Record InputField : Type := {
  row : Z;
  col : Z;
  prompt : list ascii;
  type : FieldType;
  value_str : list ascii;
  value_int : Z;
  max_len : Z;
  button_text : list ascii;
}.

Definition FIELDS : Type := list InputField.

Definition with_value_str (f : InputField) (s : list ascii) : InputField :=
  {| row := row f; col := col f; prompt := prompt f; type := type f;
     value_str := s; value_int := value_int f; max_len := max_len f;
     button_text := button_text f |}.

Definition with_value_int (f : InputField) (v : Z) : InputField :=
  {| row := row f; col := col f; prompt := prompt f; type := type f;
     value_str := value_str f; value_int := v; max_len := max_len f;
     button_text := button_text f |}.

(* fields.size() as an int *)
Definition size (fields : FIELDS) : Z := Z.of_nat (length fields).

(* fields[i]: None when i is no index of the vector *)
Definition at_index (fields : FIELDS) (i : Z) : option InputField :=
  if i <? 0 then None else fields !! Z.to_nat i.

(* fields[i] = f *)
Definition set_index (fields : FIELDS) (i : Z) (f : InputField) : FIELDS :=
  <[Z.to_nat i := f]> fields.

Definition is_focusable (f : InputField) : bool :=
  bool_decide (type f = STRING_INPUT) || bool_decide (type f = INT_INPUT)
  || bool_decide (type f = BUTTON).

(* the do-while loop of move_focus, entered with the values of [steps]
   and [active]; [fuel] bounds the number of passes. The sum of
   [active += direction] is one of ints: outside their range it is
   undefined behaviour. The fields are counted in ints as well, so a
   form has INT_MAX fields at most; for a longer one the model keeps
   the arithmetic of Z. *)
Fixpoint move_focus_loop (fuel : nat) (direction : Z) (fields : FIELDS)
    (steps active : Z) : outcome Z :=
  match fuel with
  | O => OutOfFuel
  | S fuel =>
      let active := active + direction in
      if (size fields <=? INT_MAX)
         && ((active <? INT_MIN) || (INT_MAX <? active))
      then Undefined
      else
        let active := if active <? 0 then size fields - 1 else active in
        let active := if size fields <=? active then 0 else active in
        match at_index fields active with
        | None => Undefined
        | Some f =>
            if is_focusable f then Ok active
            else
              let steps := steps + 1 in
              if steps <? size fields
              then move_focus_loop fuel direction fields steps active
              else Ok active
        end
  end.

(* move_focus(direction, fields, active): the new value of [active] *)
Definition move_focus (direction : Z) (fields : FIELDS) (active : Z)
  : outcome Z :=
  move_focus_loop (S (length fields)) direction fields 0 active.

(* what paint does to one field: value_int follows value_str, and keeps
   its value when stoi throws *)
Definition paint_field (f : InputField) : InputField :=
  if bool_decide (type f = INT_INPUT)
  then match value_str f with
       | [] => with_value_int f 0
       | _ => match stoi (value_str f) with
              | Some v => with_value_int f v
              | None => f
              end
       end
  else f.

Definition paint (fields : FIELDS) (active : Z) : FIELDS :=
  map paint_field fields.

(* CH = (static_cast<uint16_t>(ch) << 8) | ch2, stored in a uint16_t *)
Definition uint16 (x : Z) : Z := x mod 2 ^ 16.

Definition key_code (ch ch2 : Z) : Z :=
  uint16 (Z.lor (Z.shiftl (uint16 ch) 8) ch2).

Definition LEFT : Z := key_code 224 75.
Definition RIGHT : Z := key_code 224 77.
Definition UP : Z := key_code 224 72.
Definition DOWN : Z := key_code 224 80.

(* value_str.empty() *)
Definition empty (s : list ascii) : bool := (length s =? 0)%nat.

(* the backspace branch *)
Definition backspace (f : InputField) : InputField :=
  if bool_decide (type f = STRING_INPUT) && negb (empty (value_str f))
  then with_value_str f (removelast (value_str f))
  else if bool_decide (type f = INT_INPUT) && negb (empty (value_str f))
  then with_value_str f (removelast (value_str f))
  else f.

(* the branch of the printable characters; the comparison of the INT_INPUT
   case is one of a size_t, of 64 bits, with an int *)
Definition type_char (ch : Z) (f : InputField) : InputField :=
  let c := ascii_of_nat (Z.to_nat ch) in
  if bool_decide (type f = STRING_INPUT)
     && (Z.of_nat (length (value_str f)) <? max_len f)
  then with_value_str f (value_str f ++ [c])
  else if bool_decide (type f = INT_INPUT)
  then
    if ((ch =? 45) && empty (value_str f)) || isdigit ch
    then
      if Z.of_nat (length (value_str f)) <? max_len f mod 2 ^ 64
      then with_value_str f (value_str f ++ [c])
      else f
    else f
  else f.

(* one pass of the loop of run_ui ends the function or goes on *)
Inductive progress : Type :=
| Returns (active : Z)
| Continues (fields : FIELDS) (active : Z).

(* the pass for the key [ch] with the second byte [ch2], which is 0 when
   no byte was waiting *)
Definition run_ui_step (ch ch2 : Z) (fields : FIELDS) (active : Z)
  : outcome progress :=
  let CH := key_code ch ch2 in
  if (ch =? 9) || (CH =? RIGHT) || (CH =? DOWN)
  then outcome_bind (move_focus 1 fields active)
         (fun active => Ok (Continues (paint fields active) active))
  else if (CH =? LEFT) || (CH =? UP)
  then outcome_bind (move_focus (-1) fields active)
         (fun active => Ok (Continues (paint fields active) active))
  else if ch =? 27
  then Ok (Returns active)
  else
    match (if ch =? 13
           then option_map (fun f => bool_decide (type f = BUTTON))
                  (at_index fields active)
           else Some false) with
    | None => Undefined
    | Some true => Ok (Returns active)
    | Some false =>
        if ch =? 8
        then match at_index fields active with
             | None => Undefined
             | Some f =>
                 Ok (Continues
                       (paint (set_index fields active (backspace f)) active)
                       active)
             end
        else if (32 <=? ch) && (ch <=? 126)
        then match at_index fields active with
             | None => Undefined
             | Some f =>
                 Ok (Continues
                       (paint (set_index fields active (type_char ch f)) active)
                       active)
             end
        else Ok (Continues (paint fields active) active)
    end.

(* while (!is_focusable(fields[active])) active++; *)
Fixpoint first_focus (fuel : nat) (fields : FIELDS) (active : Z) : outcome Z :=
  match at_index fields active with
  | None => Undefined
  | Some f =>
      if is_focusable f then Ok active
      else match fuel with
           | O => OutOfFuel
           | S fuel => first_focus fuel fields (active + 1)
           end
  end.

(* the loop of run_ui over the keys that are typed; when they are used
   up the function waits for the next one, which is OutOfFuel here *)
Fixpoint run_ui_loop (keys : list (Z * Z)) (fields : FIELDS) (active : Z)
  : outcome Z * FIELDS :=
  match keys with
  | [] => (OutOfFuel, fields)
  | (ch, ch2) :: keys =>
      match run_ui_step ch ch2 fields active with
      | Ok (Returns active) => (Ok active, fields)
      | Ok (Continues fields active) => run_ui_loop keys fields active
      | Throw e => (Throw e, fields)
      | Undefined => (Undefined, fields)
      | OutOfFuel => (OutOfFuel, fields)
      end
  end.

(* run_ui(fields): the index it returns and the fields as it leaves them;
   [keys] are the keys that the loop reads, after the ones that were
   waiting before it have been thrown away *)
Definition run_ui (keys : list (Z * Z)) (fields : FIELDS)
  : outcome Z * FIELDS :=
  match first_focus (length fields) fields 0 with
  | Ok active => run_ui_loop keys (paint fields active) active
  | Throw e => (Throw e, fields)
  | Undefined => (Undefined, fields)
  | OutOfFuel => (OutOfFuel, fields)
  end.

(** Properties of the fields of a form *)

(* the members of a field that only its creation sets *)
Definition layout (f : InputField)
  : Z * Z * list ascii * FieldType * Z * list ascii :=
  (row f, col f, prompt f, type f, max_len f, button_text f).

(* the field takes what is typed *)
Definition is_input (f : InputField) : bool :=
  bool_decide (type f = STRING_INPUT) || bool_decide (type f = INT_INPUT).

(* the text of the field has no more than max_len characters *)
Definition fits (f : InputField) : Prop :=
  Z.of_nat (length (value_str f)) <= max_len f.

(* digits, after a minus sign or without one *)
Definition is_number_text (s : list ascii) : bool :=
  match s with
  | "-"%char :: rest => forallb (fun c => isdigit (Z.of_N (N_of_ascii c))) rest
  | _ => forallb (fun c => isdigit (Z.of_N (N_of_ascii c))) s
  end.

(* what is kept of a field f in the field f' that has its place later:
   the layout, the whole field when it is no input field, a text that
   fits, and in a number field a text that reads as a number *)
Definition kept (f f' : InputField) : Prop :=
  layout f' = layout f
  /\ (is_input f = false -> f' = f)
  /\ (fits f -> fits f')
  /\ (type f = INT_INPUT -> is_number_text (value_str f) = true ->
      is_number_text (value_str f') = true).

(* value_int is what paint makes of value_str *)
Definition in_sync (f : InputField) : Prop :=
  type f = INT_INPUT ->
  (value_str f = [] -> value_int f = 0)
  /\ (forall v, stoi (value_str f) = Some v -> value_int f = v).

End UI.

(* ===================================================================== *)
(** * StonePass.h *)
(* ===================================================================== *)

Module StonePass.
Import Word StoneRNG.
Local Open Scope rng_scope.

Definition STONEPASS_UPPERCASE : list ascii := lit "ABCDEFGHJKLMNPQRSTUVWXYZ".
Definition STONEPASS_LOWERCASE : list ascii := lit "abcdefghijkmnpqrstuvwxyz".
Definition STONEPASS_DIGITS : list ascii := lit "23456789".
Definition STONEPASS_SYMBOLS : list ascii := lit "@#$%&*()[]{};:,.?".

Definition NUL : ascii := "000"%char.

(* What a const char* names: the characters of the array up to its
   first NUL. std::string(const char* ) and operator+(std::string,
   const char* ) take their argument this way. *)
Fixpoint c_str (array : list ascii) : list ascii :=
  match array with
  | [] => []
  | c :: rest => if Ascii.eqb c NUL then [] else c :: c_str rest
  end.

(* std::to_string(int) *)
Definition to_string (n : Z) : list ascii :=
  lit (NilZero.string_of_int (Z.to_int n)).

(* the expression that initialises [context]; '\0' is a char, the
   quoted operands are arrays converted to const char* *)
Definition context (password_version : Z) (username site_name : list ascii)
    (password_length : Z)
    (require_uppercase require_lowercase require_digits require_symbols : bool)
  : list ascii :=
  c_str (lit "StonePassword_v1.0" ++ [NUL])
    ++ to_string password_version ++ [NUL]
    ++ username ++ [NUL] ++ site_name ++ [NUL]
    ++ c_str (lit "len:") ++ to_string password_length
    ++ c_str (NUL :: lit "upper:")
    ++ c_str (lit (if require_uppercase then "1" else "0"))
    ++ c_str (NUL :: lit "lower:")
    ++ c_str (lit (if require_lowercase then "1" else "0"))
    ++ c_str (NUL :: lit "digits:")
    ++ c_str (lit (if require_digits then "1" else "0"))
    ++ c_str (NUL :: lit "symbols:")
    ++ c_str (lit (if require_symbols then "1" else "0")).

(* the lambda [draw]; operator[] of a string_view past its end is
   undefined *)
Definition draw (fuel : nat) (characters : list ascii) : M ascii :=
  let max_index := wrap64 (Z.of_nat (length characters) - 1) in
  i <- unbiased fuel 0 max_index ;;
  if i <? Z.of_nat (length characters)
  then match characters !! Z.to_nat i with
       | Some c => ret c
       | None => undefined
       end
  else undefined.

(* if (require) password += draw(set, rng); *)
Definition draw_required (fuel : nat) (require : bool) (set : list ascii)
    (password : list ascii) : M (list ascii) :=
  if require
  then c <- draw fuel set ;; ret (password ++ [c])
  else ret password.

(* while (password.size() < password_length) password += draw(all_chars, rng);
   [n] bounds the iterations; password_length has passed the validation
   and is positive *)
Fixpoint fill (fuel : nat) (n : nat) (password_length : Z)
    (all_chars password : list ascii) : M (list ascii) :=
  match n with
  | O => ret password
  | S n' =>
      if Z.of_nat (length password) <? password_length
      then c <- draw fuel all_chars ;;
           fill fuel n' password_length all_chars (password ++ [c])
      else ret password
  end.

(* std::swap(password[i], password[j]) *)
Definition swap (i j : nat) (password : list ascii) : option (list ascii) :=
  match password !! i, password !! j with
  | Some a, Some b => Some (<[j := a]> (<[i := b]> password))
  | _, _ => None
  end.

(* for (size_t i = password_length - 1; i > 0; --i) *)
Fixpoint shuffle (fuel : nat) (i : nat) (password : list ascii)
  : M (list ascii) :=
  match i with
  | O => ret password
  | S i' =>
      j <- unbiased fuel 0 (Z.of_nat i) ;;
      match swap i (Z.to_nat j) password with
      | Some password => shuffle fuel i' password
      | None => undefined
      end
  end.

Definition required_count (require_uppercase require_lowercase
    require_digits require_symbols : bool) : Z :=
  (if require_uppercase then 1 else 0) + (if require_lowercase then 1 else 0)
  + (if require_digits then 1 else 0) + (if require_symbols then 1 else 0).

Definition all_chars (uppercase lowercase digits symbols : list ascii)
    (require_uppercase require_lowercase require_digits require_symbols : bool)
  : list ascii :=
  (if require_uppercase then uppercase else [])
    ++ (if require_lowercase then lowercase else [])
    ++ (if require_digits then digits else [])
    ++ (if require_symbols then symbols else []).

(* the part of generate_password that consumes the generator *)
Definition compose (fuel : nat) (password_length : Z)
    (uppercase lowercase digits symbols : list ascii)
    (require_uppercase require_lowercase require_digits require_symbols : bool)
  : M (list ascii) :=
  let all := all_chars uppercase lowercase digits symbols
               require_uppercase require_lowercase require_digits
               require_symbols in
  password <- draw_required fuel require_uppercase uppercase [] ;;
  password <- draw_required fuel require_lowercase lowercase password ;;
  password <- draw_required fuel require_digits digits password ;;
  password <- draw_required fuel require_symbols symbols password ;;
  password <- fill fuel (Z.to_nat password_length) password_length all password ;;
  shuffle fuel (Z.to_nat (password_length - 1)) password.

Definition is_empty (s : list ascii) : bool := (length s =? 0)%nat.

Definition generate_password (fuel : nat)
    (username master_password site_name : list ascii)
    (password_length password_version : Z)
    (uppercase_chars lowercase_chars digit_chars symbol_chars : list ascii)
    (require_uppercase require_lowercase require_digits require_symbols : bool)
  : outcome (list ascii) :=
  if is_empty username
  then Throw (invalid_argument "Username cannot be empty")
  else if is_empty master_password
  then Throw (invalid_argument "Master password cannot be empty")
  else if is_empty site_name
  then Throw (invalid_argument "Site name cannot be empty")
  else if (password_length <? 6) || (128 <? password_length)
  then Throw (invalid_argument "password_length must be 6–128")
  else if password_version <? 1
  then Throw (invalid_argument "Password version must be >= 1")
  else if require_uppercase && is_empty uppercase_chars
  then Throw (invalid_argument
    "Invalid config: cannot require uppercase letters if none are supplied.")
  else if require_lowercase && is_empty lowercase_chars
  then Throw (invalid_argument
    "Invalid config: cannot require lowercase letters if none are supplied.")
  else if require_digits && is_empty digit_chars
  then Throw (invalid_argument
    "Invalid config: cannot require digits if none are supplied.")
  else if require_symbols && is_empty symbol_chars
  then Throw (invalid_argument
    "Invalid config: cannot require symbols if none are supplied.")
  else if password_length <?
            required_count require_uppercase require_lowercase
              require_digits require_symbols
  then Throw (invalid_argument
    "password_length too short for required categories")
  else
    let context := context password_version username site_name
                     password_length require_uppercase require_lowercase
                     require_digits require_symbols in
    outcome_bind
      (StoneKey.StoneKey master_password context
         StoneKey.STONEKEY_V2_M_COST StoneKey.STONEKEY_V2_T_COST)
      (fun hash1 =>
         outcome_bind (StoneRNG.of_block32 hash1)
           (fun rng =>
              fst (compose fuel password_length
                     uppercase_chars lowercase_chars digit_chars symbol_chars
                     require_uppercase require_lowercase require_digits
                     require_symbols rng))).

(** The validation and the policy, as properties of the arguments *)

(* one of the conditions of the validation holds *)
Definition must_reject (username master_password site_name : list ascii)
    (password_length password_version : Z)
    (uppercase_chars lowercase_chars digit_chars symbol_chars : list ascii)
    (require_uppercase require_lowercase require_digits require_symbols : bool)
  : Prop :=
  username = [] \/ master_password = [] \/ site_name = []
  \/ password_length < 6 \/ 128 < password_length
  \/ password_version < 1
  \/ (require_uppercase = true /\ uppercase_chars = [])
  \/ (require_lowercase = true /\ lowercase_chars = [])
  \/ (require_digits = true /\ digit_chars = [])
  \/ (require_symbols = true /\ symbol_chars = [])
  \/ password_length < required_count require_uppercase require_lowercase
                         require_digits require_symbols.

Definition invalid_argument_thrown (o : outcome (list ascii)) : Prop :=
  exists msg, o = Throw (invalid_argument msg).

(* c is a character of some required category *)
Definition in_required (c : ascii)
    (uppercase lowercase digits symbols : list ascii)
    (require_uppercase require_lowercase require_digits require_symbols : bool)
  : Prop :=
  (require_uppercase = true /\ c ∈ uppercase)
  \/ (require_lowercase = true /\ c ∈ lowercase)
  \/ (require_digits = true /\ c ∈ digits)
  \/ (require_symbols = true /\ c ∈ symbols).

(* a required category has a character in the password *)
Definition has_one (require : bool) (set password : list ascii) : Prop :=
  require = true -> exists c, c ∈ password /\ c ∈ set.

Definition conforms (password : list ascii) (password_length : Z)
    (uppercase lowercase digits symbols : list ascii)
    (require_uppercase require_lowercase require_digits require_symbols : bool)
  : Prop :=
  Z.of_nat (length password) = password_length
  /\ has_one require_uppercase uppercase password
  /\ has_one require_lowercase lowercase password
  /\ has_one require_digits digits password
  /\ has_one require_symbols symbols password
  /\ (forall c, c ∈ password ->
        in_required c uppercase lowercase digits symbols
          require_uppercase require_lowercase require_digits require_symbols).

(* the transposition of two indices *)
Definition transpose (i j k : nat) : nat :=
  if decide (k = j) then i else if decide (k = i) then j else k.

(** The helper of the portable interface *)

(* std::find_if over a range: the index of the first element that
   satisfies the predicate, or the length of the range *)
Fixpoint find_if (pred : ascii -> bool) (range : list ascii) : nat :=
  match range with
  | [] => 0%nat
  | c :: rest => if pred c then 0%nat else S (find_if pred rest)
  end.

(* std::string trim(const std::string& str): [start] and [end] are the
   indices that the two iterators stand at; the search from the back
   runs over the reversed string, and base() turns what it finds into
   the index behind it *)
Definition trim (str : list ascii) : list ascii :=
  let not_space := fun c => negb (isspace c) in
  let start := find_if not_space str in
  let end_ := (length str - find_if not_space (rev str))%nat in
  if (start <? end_)%nat then take (end_ - start) (drop start str) else [].

(* prompt_gets: what it returns for the line that std::getline reads *)
Definition prompt_gets (line : list ascii) : list ascii := trim line.

(** generate_password_interactive of the portable interface, for the lines
    that are typed at the first three prompts and the numbers that
    prompt_geti returns: the password and the version that it prints. In
    the call the argument [password_version = 1] is an assignment. *)
Definition generate_password_interactive (fuel : nat)
    (username_line master_password_line site_name_line : list ascii)
    (password_version password_length : Z) : outcome (list ascii * Z) :=
  let username := prompt_gets username_line in
  let master_password := prompt_gets master_password_line in
  let site_name := prompt_gets site_name_line in
  let password_version := 1 in
  outcome_bind
    (generate_password fuel username master_password site_name
       password_length password_version
       (lit "ABCDEFGHJKLMNPQRSTUVWXYZ") (lit "abcdefghijkmnpqrstuvwxyz")
       (lit "23456789") (lit "@#$%&*()[]{};:,.?")
       true true true true)
    (fun result => Ok (result, password_version)).

(** generate_password_interactive of the Windows interface *)

(* an InputField from the values between the braces of a push_back; a
   member that is left out there has its default, written out below *)
Definition field (row col : Z) (prompt : string) (type : UI.FieldType)
    (value_str : string) (value_int max_len : Z) (button_text : string)
  : UI.InputField :=
  {| UI.row := row; UI.col := col; UI.prompt := lit prompt; UI.type := type;
     UI.value_str := lit value_str; UI.value_int := value_int;
     UI.max_len := max_len; UI.button_text := lit button_text |}.

(* the fields that the function pushes *)
Definition form : UI.FIELDS :=
  [ field 1 5 "=== StonePass - Offline Deterministic Password Generator ==="
      UI.DISPLAY EmptyString 0 30 EmptyString;
    field 3 0 EmptyString UI.DISPLAY EmptyString 0 30 EmptyString;
    field 5 5 "Username / Email    : " UI.STRING_INPUT EmptyString 0 60
      EmptyString;
    field 7 5 "Master Password     : " UI.STRING_INPUT EmptyString 0 80
      EmptyString;
    field 9 5 "Site / Domain       : " UI.STRING_INPUT EmptyString 0 80
      EmptyString;
    field 11 5 "Version (counter)   : " UI.INT_INPUT "1" 1 8 EmptyString;
    field 13 5 "Length (8-64)       : " UI.INT_INPUT "20" 20 3 EmptyString;
    field 16 0 "Tab/Arrows = navigate • Enter = button • Esc = quit"
      UI.DISPLAY EmptyString 0 30 EmptyString;
    field 18 12 EmptyString UI.BUTTON EmptyString 0 0 "Generate";
    field 18 32 EmptyString UI.BUTTON EmptyString 0 0 "Exit" ].

(* for the keys that are typed: None when nothing is printed, else the
   password and the version that are printed *)
Definition generate_password_interactive_windows (fuel : nat)
    (keys : list (Z * Z)) : outcome (option (list ascii * Z)) :=
  match UI.run_ui keys form with
  | (Ok active, fields) =>
      match UI.at_index fields active with
      | None => Undefined
      | Some button =>
          if bool_decide (UI.button_text button = lit "Generate")
          then
            match fields !! 2%nat, fields !! 3%nat, fields !! 4%nat,
                  fields !! 5%nat, fields !! 6%nat with
            | Some f2, Some f3, Some f4, Some f5, Some f6 =>
                let username := UI.value_str f2 in
                let master_password := UI.value_str f3 in
                let site_name := UI.value_str f4 in
                let password_version := UI.value_int f5 in
                let password_length := UI.value_int f6 in
                let password_version := 1 in
                outcome_bind
                  (generate_password fuel username master_password site_name
                     password_length password_version
                     (lit "ABCDEFGHJKLMNPQRSTUVWXYZ")
                     (lit "abcdefghijkmnpqrstuvwxyz")
                     (lit "23456789") (lit "@#$%&*()[]{};:,.?")
                     true true true true)
                  (fun result =>
                     if active =? 9 then Ok None
                     else Ok (Some (result, password_version)))
            | _, _, _, _, _ => Undefined
            end
          else Ok None
      end
  | (Throw e, _) => Throw e
  | (Undefined, _) => Undefined
  | (OutOfFuel, _) => OutOfFuel
  end.

(** The context string as the specification writes it *)
Definition context_spec (V : Z) (U S : list ascii) (L : Z)
    (upper lower digits symbols : bool) : list ascii :=
  let b (flag : bool) := lit (if flag then "1" else "0") in
  lit "StonePassword_v1.0" ++ [NUL] ++ to_string V ++ [NUL]
    ++ U ++ [NUL] ++ S ++ [NUL]
    ++ lit "len:" ++ to_string L
    ++ [NUL] ++ lit "upper:" ++ b upper
    ++ [NUL] ++ lit "lower:" ++ b lower
    ++ [NUL] ++ lit "digits:" ++ b digits
    ++ [NUL] ++ lit "symbols:" ++ b symbols.

End StonePass.

(* ===================================================================== *)
(** * Facts *)
(* ===================================================================== *)

Ltac word_consts :=
  unfold Word.is_u64, Word.is_u32, Word.add64, Word.add32, Word.wrap64,
    Word.wrap32, Word.MAX64, Word.MAX32 in *;
  change (2 ^ 64) with 18446744073709551616 in *;
  change (2 ^ 32) with 4294967296 in *.

Ltac word_arith := word_consts; Z.div_mod_to_equations; lia.

Ltac fields :=
  cbn [StoneRNG.key StoneRNG.nonce StoneRNG.block_counter StoneRNG.buffer
       StoneRNG.word_index StoneRNG.with_block_counter
       StoneRNG.with_word_index StoneRNG.with_buffer] in *.

(** ** The block permutation *)

Section Loops.
(* a loop whose variable grows needs no more fuel than the distance to
   its bound *)
Lemma for_loop_more_fuel {S : Type} (fuel extra i bound : nat)
    (step : nat -> nat) (body : nat -> S -> S) (s : S) :
  (forall j, i <= j -> j < step j)%nat -> (bound - i <= fuel)%nat ->
  for_loop (fuel + extra) i bound step body s
  = for_loop fuel i bound step body s.
Proof.
  revert i s. induction fuel as [|fuel IH]; intros i s Hstep Hfuel.
  - destruct extra as [|extra]; [reflexivity|]. cbn [Nat.add for_loop].
    destruct (Nat.ltb_spec i bound); [lia|reflexivity].
  - cbn [Nat.add for_loop]. destruct (Nat.ltb_spec i bound); [|reflexivity].
    pose proof (Hstep i ltac:(lia)).
    apply IH; [|lia]. intros j Hj. apply Hstep. lia.
Qed.
End Loops.

Section ChaChaFacts.
Import Word ChaCha.

Lemma length_QR_at i j k l x : length (QR_at i j k l x) = length x.
Proof.
  unfold QR_at. destruct (QR _ _ _ _) as [[[a b] c] d].
  by rewrite !length_insert.
Qed.

Lemma length_double_round x : length (double_round x) = length x.
Proof. unfold double_round. by rewrite !length_QR_at. Qed.

Lemma length_rounds n x : length (Nat.iter n double_round x) = length x.
Proof.
  induction n as [|n IH]; [done|].
  rewrite Nat.iter_succ, length_double_round. exact IH.
Qed.

Lemma length_add_input n i out inp x m :
  length (add_input n i out inp x m) = length m.
Proof.
  revert i m. induction n as [|n IH]; intros i m; simpl; [done|].
  by rewrite IH, length_insert.
Qed.

Lemma length_permute_block out inp m :
  length (permute_block out inp m) = length m.
Proof. apply length_add_input. Qed.

Lemma length_load16 p m : (p + 16 <= length m)%nat -> length (load16 p m) = 16%nat.
Proof. intros H. unfold load16. rewrite length_take, length_drop. lia. Qed.

Lemma double_round_spec_eq x : double_round_spec x = double_round x.
Proof.
  unfold double_round_spec, quarter_rounds, double_round,
    column_quartets, diagonal_quartets.
  cbn [fold_left]. reflexivity.
Qed.

Lemma rounds_spec_eq n x :
  Nat.iter n double_round_spec x = Nat.iter n double_round x.
Proof.
  induction n as [|n IH]; [change (x = x); reflexivity|].
  rewrite !Nat.iter_succ, IH. apply double_round_spec_eq.
Qed.

(* memory outside the sixteen words written is left alone *)
Lemma add_input_other n i out inp x m a :
  (a < out + i \/ out + i + n <= a)%nat ->
  add_input n i out inp x m !! a = m !! a.
Proof.
  revert i m. induction n as [|n IH]; intros i m Ha; simpl; [done|].
  rewrite IH by lia. apply list_lookup_insert_ne. lia.
Qed.

(* the word written at out + k is x[k] + in[k], provided no earlier
   write of the loop has reached the word in[k] *)
Lemma add_input_written n i out inp x m k :
  (forall j k', i <= j -> j < k' -> k' < i + n -> out + j <> inp + k')%nat ->
  (out + i + n <= length m)%nat ->
  (i <= k < i + n)%nat ->
  add_input n i out inp x m !! (out + k)%nat =
    Some (add32 (x !!! k) (m !!! (inp + k)%nat)).
Proof.
  revert i m. induction n as [|n IH]; intros i m Hsep Hlen Hk; simpl; [lia|].
  destruct (decide (k = i)) as [->|Hne].
  - rewrite add_input_other by lia.
    apply list_lookup_insert_eq. lia.
  - rewrite IH.
    + f_equal. f_equal. apply list_lookup_total_insert_ne.
      apply Hsep; lia.
    + intros j k' ? ? ?. apply Hsep; lia.
    + rewrite length_insert. lia.
    + lia.
Qed.

Lemma load16_lookup p m k :
  (k < 16)%nat -> load16 p m !! k = m !! (p + k)%nat.
Proof. intros Hk. unfold load16. by rewrite lookup_take_lt, lookup_drop. Qed.

Lemma permute_block_load out inp m :
  (inp + 16 <= length m)%nat -> (out + 16 <= length m)%nat ->
  (out = inp \/ out + 16 <= inp \/ inp + 16 <= out)%nat ->
  load16 out (permute_block out inp m) = permute_spec (load16 inp m).
Proof.
  intros Hin Hout Hsep. apply list_eq. intros k.
  unfold permute_spec. rewrite rounds_spec_eq.
  unfold permute_block.
  generalize (length_rounds 10 (load16 inp m)).
  generalize (Nat.iter 10 double_round (load16 inp m)). intros x Hx.
  rewrite length_load16 in Hx by done.
  destruct (decide (k < 16)%nat) as [Hk|Hk].
  - rewrite load16_lookup by done.
    rewrite add_input_written by lia.
    symmetry. apply lookup_zip_with_Some.
    exists (x !!! k), (m !!! (inp + k)%nat). split; [done|]. split.
    + apply list_lookup_lookup_total_lt. lia.
    + rewrite load16_lookup by done. apply list_lookup_lookup_total_lt. lia.
  - rewrite !lookup_ge_None_2; [done| |].
    + rewrite length_zip_with, Hx, length_load16; lia.
    + rewrite length_load16; [lia|]. rewrite length_add_input. lia.
Qed.

Lemma load16_all s : length s = 16%nat -> load16 0 s = s.
Proof. intros Hs. unfold load16. rewrite drop_0, take_ge; [done|lia]. Qed.

Lemma permute_inplace_spec s :
  length s = 16%nat -> permute_inplace s = permute_spec s.
Proof.
  intros Hs. unfold permute_inplace.
  rewrite <- (load16_all (permute_block 0 0 s))
    by (by rewrite length_permute_block).
  rewrite permute_block_load by lia. by rewrite load16_all.
Qed.

Lemma permute_into_spec old s :
  length s = 16%nat -> length old = 16%nat ->
  permute_into old s = permute_spec s.
Proof.
  intros Hs Hold. unfold permute_into.
  assert (Hl : load16 0 (s ++ old) = s).
  { unfold load16. rewrite drop_0, take_app_length'; done. }
  rewrite <- Hl at 2.
  rewrite <- (permute_block_load 16 0 (s ++ old)); rewrite ?length_app; try lia.
  unfold load16. rewrite take_ge; [done|].
  rewrite length_drop, length_permute_block, length_app. lia.
Qed.

Lemma length_permute_spec s : length s = 16%nat -> length (permute_spec s) = 16%nat.
Proof.
  intros Hs. unfold permute_spec.
  rewrite length_zip_with, rounds_spec_eq, length_rounds. lia.
Qed.
Lemma length_build_state k n c : length (build_state k n c) = 16%nat.
Proof. unfold build_state. by rewrite !length_insert. Qed.

Lemma length_permute_into old s :
  length s = 16%nat -> length (permute_into old s) = length old.
Proof.
  intros Hs. unfold permute_into.
  rewrite length_drop, length_permute_block, length_app. lia.
Qed.

Lemma length_permute_inplace s : length (permute_inplace s) = length s.
Proof. apply length_permute_block. Qed.

(* the keystream block of the zero key and nonce at counter 0 starts
   76 b8 e0 ad  a0 f1 3d 90  40 5d 6a e5  53 86 bd 28 *)
Example chacha20_zero_key_block :
  take 4 (permute_spec (build_state (Block.zero 8) (Block.zero 2) 0))
  = [0xade0b876; 0x903df1a0; 0xe56a5d40; 0x28bd8653].
Proof. vm_compute. reflexivity. Qed.
End ChaChaFacts.

Section CompressorFacts.
Import Word ChaCha Compressor.

Lemma length_finalize_mem this h tb m :
  (this + 16 <= length m)%nat -> (h + 16 <= length m)%nat ->
  length (finalize_mem this h tb m) = length m.
Proof.
  intros Ht Hh. unfold finalize_mem.
  rewrite length_permute_block, !length_insert, !length_app, length_take,
    length_load16, length_drop by done. lia.
Qed.

(* finalize writes to its local h only *)
Lemma finalize_mem_other this h tb m a :
  (this + 16 <= length m)%nat -> (h + 16 <= length m)%nat ->
  (a < h \/ h + 16 <= a)%nat ->
  finalize_mem this h tb m !! a = m !! a.
Proof.
  intros Ht Hh Ha. unfold finalize_mem, permute_block.
  rewrite add_input_other by lia.
  rewrite !list_lookup_insert_ne by lia.
  destruct Ha as [Ha|Ha].
  - rewrite lookup_app_l by (rewrite length_take; lia).
    by rewrite lookup_take_lt.
  - rewrite lookup_app_r by (rewrite length_take; lia).
    rewrite lookup_app_r by (rewrite length_take, length_load16; lia).
    rewrite lookup_drop, length_take, length_load16 by done.
    f_equal. lia.
Qed.

Lemma finalize_state tb c :
  length (state c) = 16%nat -> snd (finalize tb c) = c.
Proof.
  intros Hc. destruct c as [st]. simpl in *. f_equal.
  apply list_eq. intros k.
  destruct (decide (k < 16)%nat) as [Hk|Hk].
  - rewrite load16_lookup by done.
    rewrite finalize_mem_other; rewrite ?length_app; simpl; try lia.
    rewrite lookup_app_l by lia. done.
  - rewrite !lookup_ge_None_2; [done|lia|].
    rewrite length_load16; [lia|].
    rewrite length_finalize_mem; rewrite ?length_app; simpl; lia.
Qed.
End CompressorFacts.


Section HashFacts.
Import Word ChaCha.

Lemma length_of_bytes n bs : length (Block.of_bytes n bs) = n.
Proof.
  revert bs. induction n as [|n IH]; intros bs; [done|].
  cbn [Block.of_bytes length]. by rewrite IH.
Qed.

Lemma length_block_bytes b : length (Block.bytes b) = (4 * length b)%nat.
Proof.
  unfold Block.bytes. induction b as [|w b IH]; [done|].
  cbn [map concat length]. rewrite length_app, IH.
  unfold Block.word_bytes. cbn [length]. lia.
Qed.

Lemma length_compressor_update block c :
  length (Compressor.state c) = 16%nat -> length block = 16%nat ->
  length (Compressor.state (Compressor.update block c)) = 16%nat.
Proof.
  intros Hc Hb. unfold Compressor.update, permute_inplace, Block.xor.
  cbn [Compressor.state].
  rewrite length_permute_block, length_zip_with. lia.
Qed.

Lemma length_compressor_finalize tb c :
  length (Compressor.state c) = 16%nat ->
  length (fst (Compressor.finalize tb c)) = 16%nat.
Proof.
  intros Hc. unfold Compressor.finalize. cbn [fst].
  apply length_load16.
  rewrite length_finalize_mem; rewrite ?length_app; unfold Block.zero;
    rewrite ?length_replicate; lia.
Qed.

Lemma sponge_wf_init : StoneHash.wf StoneHash.init.
Proof. reflexivity. Qed.

Lemma sponge_wf_absorb h b : StoneHash.wf h -> StoneHash.wf (StoneHash.absorb_byte h b).
Proof.
  intros Hh. unfold StoneHash.absorb_byte, StoneHash.wf in *.
  destruct (_ =? _)%nat; cbn [StoneHash.comp]; [|done].
  apply length_compressor_update; [done|apply length_of_bytes].
Qed.

Lemma sponge_wf_update bs h : StoneHash.wf h -> StoneHash.wf (StoneHash.update bs h).
Proof.
  unfold StoneHash.update. revert h.
  induction bs as [|b bs IH]; intros h Hh; [done|].
  cbn [fold_left]. apply IH, sponge_wf_absorb, Hh.
Qed.

Lemma length_hash_finalize h : StoneHash.wf h -> length (StoneHash.finalize h) = 16%nat.
Proof.
  intros Hh. unfold StoneHash.finalize.
  apply length_compressor_finalize. cbn [Compressor.state].
  unfold Block.xor. rewrite length_zip_with, length_of_bytes.
  unfold StoneHash.wf in Hh. lia.
Qed.

Lemma length_hash256 h : StoneHash.wf h -> length (StoneHash.hash256 h) = 8%nat.
Proof.
  intros Hh. unfold StoneHash.hash256.
  rewrite length_take, length_hash_finalize by done. lia.
Qed.
End HashFacts.

Section StoneKeyFacts.
Import Word StoneKey.

(* what passes the three checks comes back as a block of eight words *)
Lemma StoneKey_accepts password context m_cost t_cost :
  m_cost <= 26 -> t_cost <> 0 -> password <> [] ->
  exists k, StoneKey password context m_cost t_cost = Ok k
            /\ length k = 8%nat.
Proof.
  intros Hm Ht Hp. unfold StoneKey.
  destruct (Z.ltb_spec 26 m_cost); [lia|].
  destruct (Z.eqb_spec t_cost 0); [lia|].
  destruct password as [|c password]; [done|]. cbn [length Nat.eqb].
  destruct (for_loop (Z.to_nat t_cost) _ _ _ _ _) as [counter memory].
  eexists. split; [reflexivity|].
  apply length_hash256. do 4 apply sponge_wf_update. apply sponge_wf_init.
Qed.

Lemma StoneKey_rejects password context m_cost t_cost :
  rejected password context m_cost t_cost <->
  26 < m_cost \/ t_cost = 0 \/ password = [].
Proof.
  split.
  - intros [msg Hr].
    destruct (Z.ltb_spec 26 m_cost); [by left|].
    destruct (Z.eqb_spec t_cost 0); [by right; left|].
    destruct password as [|c password]; [by right; right|].
    destruct (StoneKey_accepts (c :: password) context m_cost t_cost)
      as (k & Hk & _); [lia|done|done|]. congruence.
  - intros H. unfold rejected, StoneKey.
    destruct (Z.ltb_spec 26 m_cost); [eauto|].
    destruct (Z.eqb_spec t_cost 0); [eauto|].
    destruct password as [|c password]; [eauto|].
    destruct H as [?|[?|?]]; [lia|done|done].
Qed.
End StoneKeyFacts.

Section InPlace.
Import Word ChaCha.
(** C9: permute_block may be called with its output aliasing its input.
    For a block at word offset [s] of the memory, the in-place call leaves
    at [s] the value that the call with a separate output block [out]
    writes to [out], and that value is what the specification describes:
    ten double rounds (four column, then four diagonal quarter rounds)
    added word-wise modulo 2^32 to the original input. *)
Theorem permute_block_in_place (m : list Z) (s out : nat) :
  (s + 16 <= length m)%nat -> (out + 16 <= length m)%nat ->
  (out + 16 <= s \/ s + 16 <= out)%nat ->
  load16 s (permute_block s s m) = load16 out (permute_block out s m)
  /\ load16 s (permute_block s s m) = permute_spec (load16 s m).
Proof.
  intros Hs Hout Hsep. rewrite !permute_block_load by lia. done.
Qed.

(* on the state of the zero key at counter 7, with the output block
   behind it *)
Lemma permute_block_in_place_witness :
  let m := build_state (Block.zero 8) (Block.zero 2) 7 ++ Block.zero 16 in
  load16 0 (permute_block 0 0 m) = load16 16 (permute_block 16 0 m)
  /\ load16 0 (permute_block 0 0 m) = permute_spec (load16 0 m).
Proof.
  apply (permute_block_in_place
           (build_state (Block.zero 8) (Block.zero 2) 7 ++ Block.zero 16) 0 16).
  - vm_compute. lia.
  - vm_compute. lia.
  - right. lia.
Defined.
End InPlace.

Section FinalizeFrame.
Import Word Compressor.
(** C10: Compressor::finalize does not modify the compressor. The call
    returns the compressor it was given; any number of finalize calls
    return each the digest a first call would return (identical digests
    for identical lengths) and leave the compressor as it was; and an
    update after a finalize gives the state it gives without the finalize. *)
Theorem finalize_leaves_state (c : Compressor.t) (total_bytes : Z) :
  length (state c) = 16%nat ->
  snd (finalize total_bytes c) = c
  /\ (forall lengths,
        run (map Finalize lengths) c
        = (map (fun n => fst (finalize n c)) lengths, c))
  /\ (forall block,
        update block (snd (finalize total_bytes c)) = update block c).
Proof.
  intros Hc. split; [by apply finalize_state|]. split.
  - intros lengths. induction lengths as [|n lengths IH]; [reflexivity|].
    cbn [map run]. pose proof (finalize_state n c Hc) as Hn.
    destruct (finalize n c) as [d c']. cbn [snd fst] in *. subst c'.
    by rewrite IH.
  - intros block. by rewrite finalize_state.
Qed.

(* on the initial compressor *)
Lemma finalize_leaves_state_witness :
  snd (finalize 5 init) = init
  /\ (forall lengths,
        run (map Finalize lengths) init
        = (map (fun n => fst (finalize n init)) lengths, init))
  /\ (forall block, update block (snd (finalize 5 init)) = update block init).
Proof. apply (finalize_leaves_state init 5). reflexivity. Defined.
End FinalizeFrame.

Section KeyValidation.
Import Word StoneKey.
(** C4, as amended: StoneKey throws std::invalid_argument exactly when
    m_cost > 26, t_cost == 0 or the password is empty; there is no lower
    bound on m_cost. Every other call returns a key of 32 bytes. *)
Theorem StoneKey_validation (password context : list ascii) (m_cost t_cost : Z) :
  (rejected password context m_cost t_cost
   <-> 26 < m_cost \/ t_cost = 0 \/ password = [])
  /\ (m_cost <= 26 -> t_cost <> 0 -> password <> [] ->
      exists key, StoneKey password context m_cost t_cost = Ok key
                  /\ length (Block.bytes key) = 32%nat).
Proof.
  split; [apply StoneKey_rejects|]. intros Hm Ht Hp.
  destruct (StoneKey_accepts password context m_cost t_cost Hm Ht Hp)
    as (key & Hk & Hlen).
  exists key. split; [done|]. rewrite length_block_bytes, Hlen. reflexivity.
Qed.

(* the smallest memory cost of the specification's range *)
Lemma StoneKey_validation_witness :
  exists key, StoneKey (lit "correct horse battery staple") (lit "example.com") 10 1
              = Ok key
              /\ length (Block.bytes key) = 32%nat.
Proof.
  apply (StoneKey_validation (lit "correct horse battery staple")
           (lit "example.com") 10 1); [lia|lia|discriminate].
Defined.

(* a memory cost of 3, below the bound of 10 that the data model of the
   specification names, is accepted *)
Lemma StoneKey_takes_m_cost_3 :
  (exists key, StoneKey (lit "pw") (lit "ctx") 3 1 = Ok key)
  /\ ~ rejected (lit "pw") (lit "ctx") 3 1.
Proof.
  destruct (StoneKey_accepts (lit "pw") (lit "ctx") 3 1) as (key & Hk & _);
    [lia|lia|discriminate|].
  split; [by exists key|]. intros [msg Hr]. rewrite Hk in Hr. discriminate.
Qed.
End KeyValidation.

(** ** Blocks, the quarter round and the state *)

Section WordFacts.
Import Word.

Lemma wrap32_is_u32 a : is_u32 (wrap32 a).
Proof. word_arith. Qed.

Lemma wrap32_small a : is_u32 a -> wrap32 a = a.
Proof. intros H. unfold wrap32. apply Z.mod_small. exact H. Qed.

Lemma wrap32_lxor a b : wrap32 (Z.lxor a b) = Z.lxor (wrap32 a) (wrap32 b).
Proof.
  unfold wrap32. apply Z.bits_inj'. intros n Hn.
  rewrite Z.lxor_spec, !Z.testbit_mod_pow2, Z.lxor_spec by lia.
  destruct (n <? 32); [reflexivity|]. cbn [andb]. reflexivity.
Qed.

Lemma lxor_u32 a b : is_u32 a -> is_u32 b -> is_u32 (Z.lxor a b).
Proof.
  intros Ha Hb.
  rewrite <- (wrap32_small a Ha), <- (wrap32_small b Hb), <- wrap32_lxor.
  apply wrap32_is_u32.
Qed.

(* the two halves of a qword *)
Lemma qword_low lo hi : is_u32 lo -> is_u32 hi -> wrap32 (lo + 2 ^ 32 * hi) = lo.
Proof. intros Hl Hh. word_arith. Qed.

Lemma qword_high lo hi :
  is_u32 lo -> is_u32 hi -> Z.shiftr (lo + 2 ^ 32 * hi) 32 = hi.
Proof.
  intros Hl Hh. rewrite Z.shiftr_div_pow2 by lia. word_arith.
Qed.

Lemma qword_eq lo hi lo' hi' :
  is_u32 lo -> is_u32 hi -> is_u32 lo' -> is_u32 hi' ->
  lo + 2 ^ 32 * hi = lo' + 2 ^ 32 * hi' <-> lo = lo' /\ hi = hi'.
Proof. intros. word_consts. lia. Qed.

(* the XOR of two qwords is the XOR of their halves *)
Lemma qword_lxor a0 a1 b0 b1 :
  is_u32 a0 -> is_u32 a1 -> is_u32 b0 -> is_u32 b1 ->
  Z.lxor (a0 + 2 ^ 32 * a1) (b0 + 2 ^ 32 * b1)
  = Z.lxor a0 b0 + 2 ^ 32 * Z.lxor a1 b1.
Proof.
  intros Ha0 Ha1 Hb0 Hb1.
  set (x := Z.lxor _ _).
  assert (Hlow : wrap32 x = Z.lxor a0 b0).
  { subst x. by rewrite wrap32_lxor, !qword_low. }
  assert (Hhigh : Z.shiftr x 32 = Z.lxor a1 b1).
  { subst x. by rewrite Z.shiftr_lxor, !qword_high. }
  rewrite <- Hlow, <- Hhigh, Z.shiftr_div_pow2 by lia.
  unfold wrap32. pose proof (Z.div_mod x (2 ^ 32)). lia.
Qed.

(** Bytes of a word *)

Lemma u32_high w n : is_u32 w -> 32 <= n -> Z.testbit w n = false.
Proof.
  intros Hw Hn. rewrite <- (wrap32_small w Hw). unfold wrap32.
  apply Z.mod_pow2_bits_high. lia.
Qed.

Lemma u32_of_bits r :
  0 <= r -> (forall n, 32 <= n -> Z.testbit r n = false) -> is_u32 r.
Proof.
  intros H0 Hhigh. assert (r mod 2 ^ 32 = r) as <-.
  { apply Z.bits_inj'. intros n Hn. rewrite Z.testbit_mod_pow2 by lia.
    destruct (Z.ltb_spec n 32); [done|]. by rewrite Hhigh. }
  apply wrap32_is_u32.
Qed.

Lemma testbit_255 m : 0 <= m -> Z.testbit 255 m = (m <? 8).
Proof.
  intros Hm. change 255 with (Z.ones 8).
  destruct (Z.ltb_spec m 8).
  - apply Z.ones_spec_low. lia.
  - apply Z.ones_spec_high. lia.
Qed.

Lemma testbit_word_byte w k m :
  0 <= m ->
  Z.testbit (Block.word_byte w k) m
  = (m <? 8) && Z.testbit w (m + 8 * Z.of_nat k).
Proof.
  intros Hm. unfold Block.word_byte.
  rewrite Z.land_spec, Z.shiftr_spec, testbit_255 by lia.
  apply andb_comm.
Qed.

Lemma byte_high v n : 0 <= v < 256 -> 8 <= n -> Z.testbit v n = false.
Proof.
  intros Hv Hn. rewrite <- (Z.mod_small v (2 ^ 8)) by (change (2 ^ 8) with 256; lia).
  apply Z.mod_pow2_bits_high. lia.
Qed.

Lemma testbit_word_with_byte w k v n :
  0 <= n -> 0 <= v < 256 ->
  Z.testbit (Block.word_with_byte w k v) n
  = if (8 * Z.of_nat k <=? n) && (n <? 8 * Z.of_nat k + 8)
    then Z.testbit v (n - 8 * Z.of_nat k)
    else Z.testbit w n.
Proof.
  intros Hn Hv. unfold Block.word_with_byte.
  rewrite Z.lor_spec, Z.land_spec, Z.lnot_spec, !Z.shiftl_spec by lia.
  destruct (Z.leb_spec (8 * Z.of_nat k) n); cbn [andb].
  - rewrite testbit_255 by lia.
    destruct (Z.ltb_spec n (8 * Z.of_nat k + 8)).
    + destruct (Z.ltb_spec (n - 8 * Z.of_nat k) 8); [|lia].
      cbn [negb]. by rewrite andb_false_r.
    + destruct (Z.ltb_spec (n - 8 * Z.of_nat k) 8); [lia|].
      cbn [negb]. rewrite andb_true_r, (byte_high v) by lia.
      apply orb_false_r.
  - rewrite !(Z.testbit_neg_r _ (n - 8 * Z.of_nat k)) by lia.
    cbn [negb]. by rewrite andb_true_r, orb_false_r.
Qed.

Lemma word_byte_range w k : 0 <= Block.word_byte w k < 256.
Proof.
  unfold Block.word_byte. change 255 with (Z.ones 8).
  rewrite Z.land_ones by lia. change (2 ^ 8) with 256.
  apply Z.mod_pos_bound. lia.
Qed.

Lemma word_byte_zero k : Block.word_byte 0 k = 0.
Proof. unfold Block.word_byte. by rewrite Z.shiftr_0_l. Qed.

(* writing a byte changes that byte and no other *)
Lemma word_byte_with_byte w k v k' :
  0 <= v < 256 ->
  Block.word_byte (Block.word_with_byte w k v) k'
  = if decide (k = k') then v else Block.word_byte w k'.
Proof.
  intros Hv. apply Z.bits_inj'. intros m Hm.
  rewrite testbit_word_byte, testbit_word_with_byte by lia.
  case_decide as Hk.
  - subst k'. destruct (Z.ltb_spec m 8).
    + destruct (Z.leb_spec (8 * Z.of_nat k) (m + 8 * Z.of_nat k)); [|lia].
      destruct (Z.ltb_spec (m + 8 * Z.of_nat k) (8 * Z.of_nat k + 8)); [|lia].
      cbn [andb]. f_equal. lia.
    + cbn [andb]. symmetry. by apply byte_high.
  - rewrite testbit_word_byte by lia. destruct (Z.ltb_spec m 8); [|done].
    cbn [andb].
    destruct (Z.leb_spec (8 * Z.of_nat k) (m + 8 * Z.of_nat k'));
      destruct (Z.ltb_spec (m + 8 * Z.of_nat k') (8 * Z.of_nat k + 8));
      cbn [andb]; try done.
    lia.
Qed.

Lemma word_with_byte_u32 w k v :
  is_u32 w -> (k < 4)%nat -> 0 <= v < 256 ->
  is_u32 (Block.word_with_byte w k v).
Proof.
  intros Hw Hk Hv. apply u32_of_bits.
  - unfold Block.word_with_byte. apply Z.lor_nonneg. split.
    + apply Z.land_nonneg. left. unfold is_u32 in Hw. lia.
    + apply Z.shiftl_nonneg. lia.
  - intros n Hn. rewrite testbit_word_with_byte by lia.
    destruct (_ && _) eqn:E.
    + apply andb_true_iff in E as [?%Z.leb_le ?%Z.ltb_lt]. lia.
    + by apply u32_high.
Qed.

(* a 32-bit word is its four bytes *)
Lemma word_bytes_eq w w' :
  is_u32 w -> is_u32 w' ->
  (forall k, (k < 4)%nat -> Block.word_byte w k = Block.word_byte w' k) ->
  w = w'.
Proof.
  intros Hw Hw' H. apply Z.bits_inj'. intros n Hn.
  destruct (Z.ltb_spec n 32).
  - pose proof (f_equal (fun x => Z.testbit x (n mod 8))
                  (H (Z.to_nat (n / 8)) ltac:(Z.div_mod_to_equations; lia))) as E.
    cbv beta in E.
    rewrite !testbit_word_byte in E by (Z.div_mod_to_equations; lia).
    destruct (Z.ltb_spec (n mod 8) 8); [|Z.div_mod_to_equations; lia].
    cbn [andb] in E.
    replace (n mod 8 + 8 * Z.of_nat (Z.to_nat (n / 8))) with n in E
      by (Z.div_mod_to_equations; lia).
    exact E.
  - by rewrite !u32_high.
Qed.

Lemma word_byte_lxor a b k :
  Block.word_byte (Z.lxor a b) k
  = Z.lxor (Block.word_byte a k) (Block.word_byte b k).
Proof.
  apply Z.bits_inj'. intros m Hm.
  rewrite Z.lxor_spec, !testbit_word_byte, Z.lxor_spec by lia.
  by destruct (m <? 8).
Qed.

Lemma lxor_byte x y : 0 <= x < 256 -> 0 <= y < 256 -> 0 <= Z.lxor x y < 256.
Proof.
  intros Hx Hy. assert (Z.lxor x y mod 2 ^ 8 = Z.lxor x y) as <-.
  { apply Z.bits_inj'. intros n Hn. rewrite Z.testbit_mod_pow2 by lia.
    destruct (Z.ltb_spec n 8); [done|].
    by rewrite Z.lxor_spec, !byte_high by lia. }
  change (2 ^ 8) with 256. apply Z.mod_pos_bound. lia.
Qed.

(* four bytes written into a 32-bit word make the word of those bytes *)
Lemma word_of_four_bytes w v0 v1 v2 v3 r :
  is_u32 w -> is_u32 r ->
  0 <= v0 < 256 -> 0 <= v1 < 256 -> 0 <= v2 < 256 -> 0 <= v3 < 256 ->
  Block.word_byte r 0 = v0 -> Block.word_byte r 1 = v1 ->
  Block.word_byte r 2 = v2 -> Block.word_byte r 3 = v3 ->
  Block.word_with_byte
    (Block.word_with_byte
       (Block.word_with_byte (Block.word_with_byte w 0 v0) 1 v1) 2 v2) 3 v3
  = r.
Proof.
  intros Hw Hr H0 H1 H2 H3 E0 E1 E2 E3. apply word_bytes_eq; [|done|].
  - by repeat apply word_with_byte_u32; try lia.
  - intros k Hk. rewrite !word_byte_with_byte by done.
    repeat case_decide; subst; try done; lia.
Qed.
End WordFacts.

Section BlockFacts.
Import Word Block.

Lemma length_u64_set b i v : length (u64_set b i v) = length b.
Proof. unfold u64_set. by rewrite !length_insert. Qed.

(* writing a qword writes its two halves *)
Lemma u64_set_halves b i lo hi :
  is_u32 lo -> is_u32 hi ->
  u64_set b i (lo + 2 ^ 32 * hi) = <[(2 * i + 1)%nat := hi]> (<[(2 * i)%nat := lo]> b).
Proof. intros Hl Hh. unfold u64_set. by rewrite qword_low, qword_high. Qed.

Lemma u64_set_lookup b i lo hi k :
  is_u32 lo -> is_u32 hi -> (2 * i + 1 < length b)%nat ->
  u64_set b i (lo + 2 ^ 32 * hi) !! k =
    if decide (k = (2 * i)%nat) then Some lo
    else if decide (k = (2 * i + 1)%nat) then Some hi
    else b !! k.
Proof.
  intros Hl Hh Hlen. rewrite u64_set_halves by done.
  destruct (decide (k = (2 * i)%nat)) as [->|H0].
  - rewrite list_lookup_insert_ne by lia. apply list_lookup_insert_eq. lia.
  - destruct (decide (k = (2 * i + 1)%nat)) as [->|H1].
    + apply list_lookup_insert_eq. rewrite length_insert. lia.
    + by rewrite !list_lookup_insert_ne by lia.
Qed.

Lemma Forall_u32_lookup b k :
  Forall is_u32 b -> is_u32 (b !!! k).
Proof.
  intros Hb. destruct (b !! k) as [w|] eqn:Hw.
  - rewrite (list_lookup_total_correct _ _ _ Hw).
    by eapply Forall_lookup_1.
  - rewrite list_lookup_total_alt, Hw. cbn. word_consts. lia.
Qed.

Lemma Forall_u32_u64_set b i lo hi :
  is_u32 lo -> is_u32 hi -> Forall is_u32 b ->
  Forall is_u32 (u64_set b i (lo + 2 ^ 32 * hi)).
Proof.
  intros Hl Hh Hb. rewrite u64_set_halves by done.
  by repeat apply Forall_insert.
Qed.

(* a block is q qwords, or q qwords and a word *)
Lemma block_shape b :
  exists q,
    size_in_u64 b = q
    /\ ((length b = (2 * q)%nat
         /\ (size_in_bytes b - 8 * q = 0)%nat)
        \/ (length b = (2 * q + 1)%nat
            /\ (size_in_bytes b - 8 * q = 4)%nat)).
Proof.
  unfold size_in_u64, size_in_bytes.
  destruct (Nat.Even_or_Odd (length b)) as [[q Hq]|[q Hq]]; exists q; rewrite Hq.
  - split; [symmetry; apply (Nat.div_unique _ 2 q 0); lia|]. left. lia.
  - split; [symmetry; apply (Nat.div_unique _ 2 q 1); lia|]. right. lia.
Qed.

(* byte j = 8 q + k of a block is byte k of word 2 q *)
Lemma byte_pos j q k :
  j = (8 * q + k)%nat -> (k < 4)%nat ->
  (j / 4 = 2 * q)%nat /\ (j mod 4 = k)%nat.
Proof.
  intros -> Hk. split.
  - symmetry. apply (Nat.div_unique _ 4 _ k); lia.
  - symmetry. apply (Nat.mod_unique _ 4 (2 * q) k); lia.
Qed.

Lemma byte_at_pos b j q k :
  j = (8 * q + k)%nat -> (k < 4)%nat ->
  byte_at b j = word_byte (b !!! (2 * q)%nat) k.
Proof.
  intros Hj Hk. destruct (byte_pos j q k Hj Hk) as [E1 E2].
  unfold byte_at. by rewrite E1, E2.
Qed.

Lemma byte_set_pos b j q k v :
  j = (8 * q + k)%nat -> (k < 4)%nat ->
  byte_set b j v = <[(2 * q)%nat := word_with_byte (b !!! (2 * q)%nat) k v]> b.
Proof.
  intros Hj Hk. destruct (byte_pos j q k Hj Hk) as [E1 E2].
  unfold byte_set. by rewrite E1, E2.
Qed.

(** clear *)

Lemma clear_from_lookup n i b k :
  (2 * (i + n) <= length b)%nat ->
  clear_from n i b !! k =
    if decide (2 * i <= k < 2 * (i + n))%nat then Some 0 else b !! k.
Proof.
  revert i b. induction n as [|n IH]; intros i b Hlen; cbn [clear_from].
  - case_decide; [lia|done].
  - rewrite IH by (rewrite length_u64_set; lia).
    change 0 with (0 + 2 ^ 32 * 0) at 2.
    rewrite u64_set_lookup by (word_consts; lia).
    repeat case_decide; try done; lia.
Qed.

Lemma length_clear_from n i b : length (clear_from n i b) = length b.
Proof.
  revert i b. induction n as [|n IH]; intros i b; cbn [clear_from]; [done|].
  by rewrite IH, length_u64_set.
Qed.

Lemma lookup_total_same (l r : list Z) k : l !! k = r !! k -> l !!! k = r !!! k.
Proof. intros H. by rewrite !list_lookup_total_alt, H. Qed.

Lemma zero_u32 : is_u32 0.
Proof. word_consts. lia. Qed.

(* the tail loop of clear on the word behind the qwords *)
Lemma clear_tail_word b q :
  (2 * q < length b)%nat -> is_u32 (b !!! (2 * q)%nat) ->
  clear_tail 4 (8 * q) b = <[(2 * q)%nat := 0]> b.
Proof.
  intros Hq Hw. cbn [clear_tail].
  rewrite (byte_set_pos b (8 * q) q 0) by lia.
  rewrite (byte_set_pos _ (S (8 * q)) q 1) by lia.
  rewrite (byte_set_pos _ (S (S (8 * q))) q 2) by lia.
  rewrite (byte_set_pos _ (S (S (S (8 * q)))) q 3) by lia.
  rewrite !list_lookup_total_insert_eq by (rewrite ?length_insert; lia).
  rewrite !list_insert_insert_eq. f_equal.
  apply word_of_four_bytes; first [done | apply zero_u32 | lia | apply word_byte_zero].
Qed.

Lemma clear_zero b : Forall is_u32 b -> clear b = zero (length b).
Proof.
  intros Hb. destruct (block_shape b) as (q & Hq & [[Hl Ht]|[Hl Ht]]);
    unfold clear; rewrite Hq, Ht.
  - cbn [clear_tail]. apply list_eq. intros k.
    rewrite clear_from_lookup by lia.
    unfold zero. case_decide as Hk.
    + symmetry. apply lookup_replicate_2. lia.
    + rewrite !lookup_ge_None_2; [done|rewrite length_replicate|]; lia.
  - rewrite clear_tail_word.
    + apply list_eq. intros k. unfold zero.
      destruct (decide (k = (2 * q)%nat)) as [->|Hk].
      * rewrite list_lookup_insert_eq by (rewrite length_clear_from; lia).
        symmetry. apply lookup_replicate_2. lia.
      * rewrite list_lookup_insert_ne by done.
        rewrite clear_from_lookup by lia. case_decide.
        -- symmetry. apply lookup_replicate_2. lia.
        -- rewrite !lookup_ge_None_2; [done|rewrite length_replicate|]; lia.
    + rewrite length_clear_from. lia.
    + rewrite (lookup_total_same _ b) by
        (rewrite clear_from_lookup by lia; case_decide; [lia|done]).
      by apply Forall_u32_lookup.
Qed.

(** is_zero and operator== *)

Lemma zero_from_true n i b :
  Forall is_u32 b ->
  zero_from n i b = true <->
  forall k, (2 * i <= k < 2 * (i + n))%nat -> b !!! k = 0.
Proof.
  intros Hb. revert i. induction n as [|n IH]; intros i; cbn [zero_from].
  - split; [intros _ k; lia|done].
  - pose proof (Forall_u32_lookup b (2 * i) Hb) as H0.
    pose proof (Forall_u32_lookup b (2 * i + 1) Hb) as H1.
    unfold u64_at. destruct (Z.eqb_spec (b !!! (2 * i)%nat + 2 ^ 32 * b !!! (2 * i + 1)%nat) 0) as [E|E];
      cbn [negb].
    + rewrite IH. split.
      * intros H k Hk.
        destruct (decide (k = (2 * i)%nat)) as [->|]; [word_consts; lia|].
        destruct (decide (k = (2 * i + 1)%nat)) as [->|]; [word_consts; lia|].
        apply H. lia.
      * intros H k Hk. apply H. lia.
    + split; [done|]. intros H. exfalso. apply E.
      rewrite (H (2 * i)%nat), (H (2 * i + 1)%nat) by lia. reflexivity.
Qed.

Lemma eq_from_true n i a b :
  Forall is_u32 a -> Forall is_u32 b ->
  eq_from n i a b = true <->
  forall k, (2 * i <= k < 2 * (i + n))%nat -> a !!! k = b !!! k.
Proof.
  intros Ha Hb. revert i. induction n as [|n IH]; intros i; cbn [eq_from].
  - split; [intros _ k; lia|done].
  - pose proof (Forall_u32_lookup a (2 * i) Ha) as A0.
    pose proof (Forall_u32_lookup a (2 * i + 1) Ha) as A1.
    pose proof (Forall_u32_lookup b (2 * i) Hb) as B0.
    pose proof (Forall_u32_lookup b (2 * i + 1) Hb) as B1.
    unfold u64_at.
    destruct (Z.eqb_spec (a !!! (2 * i)%nat + 2 ^ 32 * a !!! (2 * i + 1)%nat)
                (b !!! (2 * i)%nat + 2 ^ 32 * b !!! (2 * i + 1)%nat)) as [E|E];
      cbn [negb].
    + apply qword_eq in E as [E0 E1]; [|done..].
      rewrite IH. split.
      * intros H k Hk.
        destruct (decide (k = (2 * i)%nat)) as [->|]; [done|].
        destruct (decide (k = (2 * i + 1)%nat)) as [->|]; [done|].
        apply H. lia.
      * intros H k Hk. apply H. lia.
    + split; [done|]. intros H. exfalso. apply E.
      rewrite (H (2 * i)%nat), (H (2 * i + 1)%nat) by lia. reflexivity.
Qed.

Lemma zero_tail_word b q :
  is_u32 (b !!! (2 * q)%nat) ->
  zero_tail 4 (8 * q) b = true <-> b !!! (2 * q)%nat = 0.
Proof.
  intros Hw. cbn [zero_tail].
  rewrite (byte_at_pos b (8 * q) q 0) by lia.
  rewrite (byte_at_pos b (S (8 * q)) q 1) by lia.
  rewrite (byte_at_pos b (S (S (8 * q))) q 2) by lia.
  rewrite (byte_at_pos b (S (S (S (8 * q)))) q 3) by lia.
  set (w := b !!! (2 * q)%nat) in *. split.
  - intros H.
    destruct (Z.eqb_spec (word_byte w 0) 0) as [E0|]; [|discriminate].
    destruct (Z.eqb_spec (word_byte w 1) 0) as [E1|]; [|discriminate].
    destruct (Z.eqb_spec (word_byte w 2) 0) as [E2|]; [|discriminate].
    destruct (Z.eqb_spec (word_byte w 3) 0) as [E3|]; [|discriminate].
    apply word_bytes_eq; [done|apply zero_u32|]. intros k Hk.
    rewrite word_byte_zero.
    destruct k as [|[|[|[|k]]]]; first [assumption|lia].
  - intros ->. by rewrite !word_byte_zero.
Qed.

Lemma eq_tail_word a b q :
  is_u32 (a !!! (2 * q)%nat) -> is_u32 (b !!! (2 * q)%nat) ->
  eq_tail 4 (8 * q) a b = true <-> a !!! (2 * q)%nat = b !!! (2 * q)%nat.
Proof.
  intros Ha Hb. cbn [eq_tail].
  rewrite (byte_at_pos a (8 * q) q 0), (byte_at_pos b (8 * q) q 0) by lia.
  rewrite (byte_at_pos a (S (8 * q)) q 1), (byte_at_pos b (S (8 * q)) q 1) by lia.
  rewrite (byte_at_pos a (S (S (8 * q))) q 2),
    (byte_at_pos b (S (S (8 * q))) q 2) by lia.
  rewrite (byte_at_pos a (S (S (S (8 * q)))) q 3),
    (byte_at_pos b (S (S (S (8 * q)))) q 3) by lia.
  set (w := a !!! (2 * q)%nat) in *. set (w' := b !!! (2 * q)%nat) in *. split.
  - intros H.
    destruct (Z.eqb_spec (word_byte w 0) (word_byte w' 0)) as [E0|]; [|discriminate].
    destruct (Z.eqb_spec (word_byte w 1) (word_byte w' 1)) as [E1|]; [|discriminate].
    destruct (Z.eqb_spec (word_byte w 2) (word_byte w' 2)) as [E2|]; [|discriminate].
    destruct (Z.eqb_spec (word_byte w 3) (word_byte w' 3)) as [E3|]; [|discriminate].
    apply word_bytes_eq; [done|done|]. intros k Hk.
    destruct k as [|[|[|[|k]]]]; first [assumption|lia].
  - intros ->. by rewrite !Z.eqb_refl.
Qed.

(* is_zero() and operator== word by word *)
Lemma is_zero_words b :
  Forall is_u32 b ->
  is_zero b = true <-> forall k, (k < length b)%nat -> b !!! k = 0.
Proof.
  intros Hb. destruct (block_shape b) as (q & Hq & [[Hl Ht]|[Hl Ht]]);
    unfold is_zero; rewrite Hq, Ht.
  - cbn [zero_tail]. destruct (zero_from q 0 b) eqn:E; cbn [negb].
    + split; [|done]. intros _ k Hk.
      apply (proj1 (zero_from_true q 0 b Hb) E). lia.
    + split; [done|]. intros H. rewrite <- E.
      apply zero_from_true; [done|]. intros k Hk. apply H. lia.
  - pose proof (zero_tail_word b q (Forall_u32_lookup b _ Hb)) as Ht'.
    destruct (zero_from q 0 b) eqn:E; cbn [negb].
    + rewrite Ht'. split.
      * intros H2 k Hk. destruct (decide (k = (2 * q)%nat)) as [->|]; [done|].
        apply (proj1 (zero_from_true q 0 b Hb) E). lia.
      * intros H. apply H. lia.
    + split; [done|]. intros H. rewrite <- E.
      apply zero_from_true; [done|]. intros k Hk. apply H. lia.
Qed.

Lemma eqb_words a b :
  Forall is_u32 a -> Forall is_u32 b -> length a = length b ->
  Block.eqb a b = true <-> forall k, (k < length a)%nat -> a !!! k = b !!! k.
Proof.
  intros Ha Hb Hlen. destruct (block_shape a) as (q & Hq & [[Hl Ht]|[Hl Ht]]);
    unfold Block.eqb; rewrite Hq, Ht.
  - cbn [eq_tail]. destruct (eq_from q 0 a b) eqn:E; cbn [negb].
    + split; [|done]. intros _ k Hk.
      apply (proj1 (eq_from_true q 0 a b Ha Hb) E). lia.
    + split; [done|]. intros H. rewrite <- E.
      apply eq_from_true; [done|done|]. intros k Hk. apply H. lia.
  - pose proof (eq_tail_word a b q (Forall_u32_lookup a _ Ha)
                  (Forall_u32_lookup b _ Hb)) as Ht'.
    destruct (eq_from q 0 a b) eqn:E; cbn [negb].
    + rewrite Ht'. split.
      * intros H2 k Hk. destruct (decide (k = (2 * q)%nat)) as [->|]; [done|].
        apply (proj1 (eq_from_true q 0 a b Ha Hb) E). lia.
      * intros H. apply H. lia.
    + split; [done|]. intros H. rewrite <- E.
      apply eq_from_true; [done|done|]. intros k Hk. apply H. lia.
Qed.

Lemma list_eq_lookup_total (l r : list Z) :
  length l = length r ->
  (forall k, (k < length l)%nat -> l !!! k = r !!! k) -> l = r.
Proof.
  intros Hlen H. apply list_eq. intros k.
  destruct (decide (k < length l)%nat) as [Hk|Hk].
  - rewrite (list_lookup_lookup_total_lt l k Hk).
    rewrite (list_lookup_lookup_total_lt r k) by lia.
    f_equal. by apply H.
  - rewrite !lookup_ge_None_2; [done|lia..].
Qed.

(** The XOR operators *)

Lemma xor_assign_from_lookup n i a b k :
  Forall is_u32 a -> Forall is_u32 b -> (2 * (i + n) <= length a)%nat ->
  xor_assign_from n i a b !! k =
    if decide (2 * i <= k < 2 * (i + n))%nat
    then Some (Z.lxor (a !!! k) (b !!! k)) else a !! k.
Proof.
  intros Ha Hb. revert i a Ha. induction n as [|n IH]; intros i a Ha Hlen;
    cbn [xor_assign_from].
  - case_decide; [lia|done].
  - pose proof (Forall_u32_lookup a (2 * i) Ha) as A0.
    pose proof (Forall_u32_lookup a (2 * i + 1) Ha) as A1.
    pose proof (Forall_u32_lookup b (2 * i) Hb) as B0.
    pose proof (Forall_u32_lookup b (2 * i + 1) Hb) as B1.
    unfold u64_at. rewrite qword_lxor by done.
    assert (L0 : is_u32 (Z.lxor (a !!! (2 * i)%nat) (b !!! (2 * i)%nat)))
      by (by apply lxor_u32).
    assert (L1 : is_u32 (Z.lxor (a !!! (2 * i + 1)%nat) (b !!! (2 * i + 1)%nat)))
      by (by apply lxor_u32).
    rewrite IH; [|by apply Forall_u32_u64_set|rewrite length_u64_set; lia].
    rewrite u64_set_lookup by (done || lia).
    assert (Hsame : (2 * S i <= k)%nat ->
              u64_set a i (Z.lxor (a !!! (2 * i)%nat) (b !!! (2 * i)%nat)
                           + 2 ^ 32 * Z.lxor (a !!! (2 * i + 1)%nat)
                                        (b !!! (2 * i + 1)%nat)) !!! k
              = a !!! k).
    { intros Hk. rewrite u64_set_halves by done.
      by rewrite !list_lookup_total_insert_ne by lia. }
    repeat case_decide; subst; try lia; try done.
    by rewrite Hsame by lia.
Qed.

Lemma xor_into_from_lookup n i r a b k :
  Forall is_u32 a -> Forall is_u32 b -> (2 * (i + n) <= length r)%nat ->
  xor_into_from n i r a b !! k =
    if decide (2 * i <= k < 2 * (i + n))%nat
    then Some (Z.lxor (a !!! k) (b !!! k)) else r !! k.
Proof.
  intros Ha Hb. revert i r. induction n as [|n IH]; intros i r Hlen;
    cbn [xor_into_from].
  - case_decide; [lia|done].
  - pose proof (Forall_u32_lookup a (2 * i) Ha) as A0.
    pose proof (Forall_u32_lookup a (2 * i + 1) Ha) as A1.
    pose proof (Forall_u32_lookup b (2 * i) Hb) as B0.
    pose proof (Forall_u32_lookup b (2 * i + 1) Hb) as B1.
    unfold u64_at. rewrite qword_lxor by done.
    assert (L0 : is_u32 (Z.lxor (a !!! (2 * i)%nat) (b !!! (2 * i)%nat)))
      by (by apply lxor_u32).
    assert (L1 : is_u32 (Z.lxor (a !!! (2 * i + 1)%nat) (b !!! (2 * i + 1)%nat)))
      by (by apply lxor_u32).
    rewrite IH by (rewrite length_u64_set; lia).
    rewrite u64_set_lookup by (done || lia).
    repeat case_decide; subst; try lia; done.
Qed.

Lemma xor_lookup a b k :
  length a = length b ->
  Block.xor a b !! k =
    if decide (k < length a)%nat then Some (Z.lxor (a !!! k) (b !!! k)) else None.
Proof.
  intros Hlen. unfold Block.xor. rewrite lookup_zip_with.
  case_decide as Hk.
  - rewrite (list_lookup_lookup_total_lt a k Hk).
    rewrite (list_lookup_lookup_total_lt b k) by lia. done.
  - rewrite (lookup_ge_None_2 a) by lia. done.
Qed.

Lemma length_xor_assign_from n i a b :
  length (xor_assign_from n i a b) = length a.
Proof.
  revert i a. induction n as [|n IH]; intros i a; cbn [xor_assign_from]; [done|].
  by rewrite IH, length_u64_set.
Qed.

Lemma length_xor_into_from n i r a b :
  length (xor_into_from n i r a b) = length r.
Proof.
  revert i r. induction n as [|n IH]; intros i r; cbn [xor_into_from]; [done|].
  by rewrite IH, length_u64_set.
Qed.

(* the tail loops of the XOR operators on the word behind the qwords *)
Lemma xor_into_tail_word r a b q :
  (2 * q < length r)%nat -> is_u32 (r !!! (2 * q)%nat) ->
  is_u32 (a !!! (2 * q)%nat) -> is_u32 (b !!! (2 * q)%nat) ->
  xor_into_tail 4 0 q r a b
  = <[(2 * q)%nat := Z.lxor (a !!! (2 * q)%nat) (b !!! (2 * q)%nat)]> r.
Proof.
  intros Hq Hr Ha Hb. cbn [xor_into_tail]. cbv zeta.
  rewrite (byte_set_pos r (8 * q + 0) q 0) by lia.
  rewrite (byte_set_pos _ (8 * q + 1) q 1) by lia.
  rewrite (byte_set_pos _ (8 * q + 2) q 2) by lia.
  rewrite (byte_set_pos _ (8 * q + 3) q 3) by lia.
  rewrite (byte_at_pos a (8 * q + 0) q 0), (byte_at_pos b (8 * q + 0) q 0) by lia.
  rewrite (byte_at_pos a (8 * q + 1) q 1), (byte_at_pos b (8 * q + 1) q 1) by lia.
  rewrite (byte_at_pos a (8 * q + 2) q 2), (byte_at_pos b (8 * q + 2) q 2) by lia.
  rewrite (byte_at_pos a (8 * q + 3) q 3), (byte_at_pos b (8 * q + 3) q 3) by lia.
  rewrite !list_lookup_total_insert_eq by (rewrite ?length_insert; lia).
  rewrite !list_insert_insert_eq. f_equal.
  apply word_of_four_bytes;
    first [ done | by apply lxor_u32
          | apply lxor_byte; apply word_byte_range
          | apply word_byte_lxor ].
Qed.

Lemma xor_assign_tail_word a b q :
  (2 * q < length a)%nat ->
  is_u32 (a !!! (2 * q)%nat) -> is_u32 (b !!! (2 * q)%nat) ->
  xor_assign_tail 4 0 q a b
  = <[(2 * q)%nat := Z.lxor (a !!! (2 * q)%nat) (b !!! (2 * q)%nat)]> a.
Proof.
  intros Hq Ha Hb. cbn [xor_assign_tail]. cbv zeta.
  set (w := a !!! (2 * q)%nat) in *. set (w' := b !!! (2 * q)%nat) in *.
  assert (Hv : forall k, 0 <= Z.lxor (word_byte w k) (word_byte w' k) < 256)
    by (intros k; apply lxor_byte; apply word_byte_range).
  rewrite (byte_at_pos a (8 * q + 0) q 0), (byte_at_pos b (8 * q + 0) q 0) by lia.
  rewrite (byte_set_pos a (8 * q + 0) q 0) by lia.
  fold w w'. set (a1 := <[(2 * q)%nat := _]> a).
  assert (E1 : a1 !!! (2 * q)%nat
               = word_with_byte w 0 (Z.lxor (word_byte w 0) (word_byte w' 0)))
    by (subst a1; by rewrite list_lookup_total_insert_eq by lia).
  rewrite (byte_at_pos a1 (8 * q + 1) q 1), (byte_at_pos b (8 * q + 1) q 1) by lia.
  rewrite (byte_set_pos a1 (8 * q + 1) q 1) by lia.
  fold w'. rewrite E1, word_byte_with_byte, decide_False by (done || lia).
  set (a2 := <[(2 * q)%nat := _]> a1).
  assert (E2 : a2 !!! (2 * q)%nat
               = word_with_byte
                   (word_with_byte w 0 (Z.lxor (word_byte w 0) (word_byte w' 0)))
                   1 (Z.lxor (word_byte w 1) (word_byte w' 1)))
    by (subst a2 a1; by rewrite list_lookup_total_insert_eq
          by (rewrite ?length_insert; lia)).
  rewrite (byte_at_pos a2 (8 * q + 2) q 2), (byte_at_pos b (8 * q + 2) q 2) by lia.
  rewrite (byte_set_pos a2 (8 * q + 2) q 2) by lia.
  fold w'. rewrite E2, !word_byte_with_byte, !decide_False by (done || lia).
  set (a3 := <[(2 * q)%nat := _]> a2).
  assert (E3 : a3 !!! (2 * q)%nat
               = word_with_byte
                   (word_with_byte
                      (word_with_byte w 0 (Z.lxor (word_byte w 0) (word_byte w' 0)))
                      1 (Z.lxor (word_byte w 1) (word_byte w' 1)))
                   2 (Z.lxor (word_byte w 2) (word_byte w' 2)))
    by (subst a3 a2 a1; by rewrite list_lookup_total_insert_eq
          by (rewrite ?length_insert; lia)).
  rewrite (byte_at_pos a3 (8 * q + 3) q 3), (byte_at_pos b (8 * q + 3) q 3) by lia.
  rewrite (byte_set_pos a3 (8 * q + 3) q 3) by lia.
  fold w'. rewrite E3, !word_byte_with_byte, !decide_False by (done || lia).
  subst a3 a2 a1. rewrite !list_insert_insert_eq. f_equal.
  apply word_of_four_bytes;
    first [ done | by apply lxor_u32 | apply Hv | apply word_byte_lxor ].
Qed.

Lemma xor_assign_xor a b :
  Forall is_u32 a -> Forall is_u32 b -> length a = length b ->
  xor_assign a b = Block.xor a b.
Proof.
  intros Ha Hb Hlen. destruct (block_shape a) as (q & Hq & [[Hl Ht]|[Hl Ht]]);
    unfold xor_assign; rewrite Hq, Ht.
  - cbn [xor_assign_tail]. apply list_eq. intros k.
    rewrite xor_assign_from_lookup, xor_lookup by (done || lia).
    repeat case_decide; try done; try lia.
    apply lookup_ge_None_2. lia.
  - assert (Hsame : xor_assign_from q 0 a b !!! (2 * q)%nat = a !!! (2 * q)%nat).
    { apply lookup_total_same. rewrite xor_assign_from_lookup by (done || lia).
      case_decide; [lia|done]. }
    rewrite xor_assign_tail_word;
      [|rewrite length_xor_assign_from; lia
       |rewrite Hsame; by apply Forall_u32_lookup
       |by apply Forall_u32_lookup].
    rewrite Hsame. apply list_eq. intros k. rewrite xor_lookup by done.
    destruct (decide (k = (2 * q)%nat)) as [->|Hk].
    + rewrite list_lookup_insert_eq by (rewrite length_xor_assign_from; lia).
      by rewrite decide_True by lia.
    + rewrite list_lookup_insert_ne by done.
      rewrite xor_assign_from_lookup by (done || lia).
      repeat case_decide; try done; try lia.
      apply lookup_ge_None_2. lia.
Qed.

Lemma xor_new_xor a b :
  Forall is_u32 a -> Forall is_u32 b -> length a = length b ->
  xor_new a b = Block.xor a b.
Proof.
  intros Ha Hb Hlen. destruct (block_shape a) as (q & Hq & [[Hl Ht]|[Hl Ht]]);
    unfold xor_new; rewrite Hq, Ht.
  - cbn [xor_into_tail]. apply list_eq. intros k.
    rewrite xor_into_from_lookup, xor_lookup
      by (done || unfold zero; rewrite ?length_replicate; lia).
    repeat case_decide; try done; try lia.
    apply lookup_ge_None_2. unfold zero. rewrite length_replicate. lia.
  - assert (Hz : xor_into_from q 0 (zero (length a)) a b !!! (2 * q)%nat = 0).
    { rewrite (lookup_total_same _ (zero (length a))).
      - unfold zero. apply list_lookup_total_correct, lookup_replicate_2. lia.
      - rewrite xor_into_from_lookup
          by (done || unfold zero; rewrite ?length_replicate; lia).
        case_decide; [lia|done]. }
    rewrite xor_into_tail_word;
      [|rewrite length_xor_into_from; unfold zero; rewrite length_replicate; lia
       |rewrite Hz; apply zero_u32
       |by apply Forall_u32_lookup..].
    apply list_eq. intros k. rewrite xor_lookup by done.
    destruct (decide (k = (2 * q)%nat)) as [->|Hk].
    + rewrite list_lookup_insert_eq
        by (rewrite length_xor_into_from; unfold zero;
            rewrite length_replicate; lia).
      by rewrite decide_True by lia.
    + rewrite list_lookup_insert_ne by done.
      rewrite xor_into_from_lookup
        by (done || unfold zero; rewrite ?length_replicate; lia).
      repeat case_decide; try done; try lia.
      apply lookup_ge_None_2. unfold zero. rewrite length_replicate. lia.
Qed.

Lemma xor_u32 a b :
  Forall is_u32 a -> Forall is_u32 b -> Forall is_u32 (Block.xor a b).
Proof.
  intros Ha Hb. unfold Block.xor. apply Forall_lookup. intros k w Hw.
  apply lookup_zip_with_Some in Hw as (x & y & -> & Hx & Hy).
  apply lxor_u32;
    [exact (Forall_lookup_1 _ a _ _ Ha Hx)|exact (Forall_lookup_1 _ b _ _ Hb Hy)].
Qed.

Lemma xor_cancel a b :
  length a = length b -> Block.xor (Block.xor a b) b = a.
Proof.
  intros Hlen. apply list_eq. intros k.
  assert (Hl : length (Block.xor a b) = length a).
  { unfold Block.xor. rewrite length_zip_with. lia. }
  rewrite xor_lookup by lia. rewrite Hl.
  case_decide as Hk.
  - rewrite (list_lookup_lookup_total_lt a k Hk). f_equal.
    rewrite (list_lookup_total_alt (Block.xor a b)), xor_lookup by done.
    rewrite decide_True by done. cbn.
    by rewrite Z.lxor_assoc, Z.lxor_nilpotent, Z.lxor_0_r.
  - symmetry. apply lookup_ge_None_2. lia.
Qed.

(* blocks of three words: the last word is the tail of four bytes *)
Example block_tail_word :
  clear [1; 2; 3] = [0; 0; 0]
  /\ is_zero [0; 0; 5] = false
  /\ Block.eqb [1; 2; 3] [1; 2; 4] = false
  /\ xor_assign [1; 2; 3] [1; 2; 4] = [0; 0; 7]
  /\ xor_new [1; 2; 3] [1; 2; 4] = [0; 0; 7].
Proof. by vm_compute. Qed.

(** X1: operator== on blocks compares the contents. For two blocks of the
    same size, given by their 32-bit words, the comparison, which goes
    through the 64-bit view and then through the bytes of the tail,
    returns true exactly when the blocks are equal word for word. *)
Theorem block_eq_decides_equality (a b : list Z) :
  Forall is_u32 a -> Forall is_u32 b -> length a = length b ->
  Block.eqb a b = true <-> a = b.
Proof.
  intros Ha Hb Hlen. rewrite eqb_words by done. split.
  - intros H. by apply list_eq_lookup_total.
  - by intros ->.
Qed.

Lemma block_eq_decides_equality_witness :
  Block.eqb [1; 2; 3] [1; 2; 4] = true <-> [1; 2; 3] = [1; 2; 4].
Proof.
  apply (block_eq_decides_equality [1; 2; 3] [1; 2; 4]).
  - repeat (apply List.Forall_cons; [word_consts; lia|]). apply List.Forall_nil.
  - repeat (apply List.Forall_cons; [word_consts; lia|]). apply List.Forall_nil.
  - reflexivity.
Defined.

(** X2: clear() leaves a block of zeros, for which is_zero() returns true;
    and is_zero() returns true for no other block: it holds exactly when
    every word is 0. This holds for every block of 32-bit words, with or
    without a tail behind the last qword. *)
Theorem clear_then_is_zero (b : list Z) :
  Forall is_u32 b ->
  clear b = zero (length b)
  /\ is_zero (clear b) = true
  /\ (is_zero b = true <-> b = zero (length b)).
Proof.
  intros Hb.
  assert (Hz : forall c, Forall is_u32 c ->
                 is_zero c = true <-> c = zero (length c)).
  { intros c Hc. rewrite is_zero_words by done. split.
    - intros H. apply list_eq_lookup_total.
      + unfold zero. by rewrite length_replicate.
      + intros k Hk. rewrite H by lia. unfold zero.
        symmetry. apply list_lookup_total_correct, lookup_replicate_2. lia.
    - intros Hc0 k Hk. rewrite Hc0. unfold zero.
      apply list_lookup_total_correct, lookup_replicate_2. lia. }
  split; [by apply clear_zero|]. split; [|by apply Hz].
  rewrite clear_zero by done. apply Hz.
  - unfold zero. apply Forall_replicate. apply zero_u32.
  - unfold zero. by rewrite !length_replicate.
Qed.

Lemma clear_then_is_zero_witness :
  clear [7; 0; 4294967295] = zero 3
  /\ is_zero (clear [7; 0; 4294967295]) = true
  /\ (is_zero [7; 0; 4294967295] = true <-> [7; 0; 4294967295] = zero 3).
Proof.
  apply (clear_then_is_zero [7; 0; 4294967295]).
  repeat (apply List.Forall_cons; [word_consts; lia|]). apply List.Forall_nil.
Defined.

(** X3: the XOR operators of a block, which work qword by qword through
    the 64-bit view and byte by byte on the tail, compute the word-wise
    XOR of the 32-bit view, both operator^= on its left operand and
    operator^ on a fresh block; and XOR-ing the same block in twice
    restores the left operand. This holds for every two blocks of the
    same number of 32-bit words. *)
Theorem xor_through_qwords (a b : list Z) :
  Forall is_u32 a -> Forall is_u32 b -> length a = length b ->
  xor_assign a b = Block.xor a b
  /\ xor_new a b = Block.xor a b
  /\ xor_assign (xor_assign a b) b = a.
Proof.
  intros Ha Hb Hlen. split; [by apply xor_assign_xor|].
  split; [by apply xor_new_xor|].
  rewrite (xor_assign_xor a b) by done.
  rewrite xor_assign_xor.
  - by apply xor_cancel.
  - by apply xor_u32.
  - done.
  - unfold Block.xor. rewrite length_zip_with. lia.
Qed.

Lemma xor_through_qwords_witness :
  xor_assign [1; 2; 3] [5; 6; 4294967295] = Block.xor [1; 2; 3] [5; 6; 4294967295]
  /\ xor_new [1; 2; 3] [5; 6; 4294967295] = Block.xor [1; 2; 3] [5; 6; 4294967295]
  /\ xor_assign (xor_assign [1; 2; 3] [5; 6; 4294967295]) [5; 6; 4294967295]
     = [1; 2; 3].
Proof.
  apply (xor_through_qwords [1; 2; 3] [5; 6; 4294967295]).
  - repeat (apply List.Forall_cons; [word_consts; lia|]). apply List.Forall_nil.
  - repeat (apply List.Forall_cons; [word_consts; lia|]). apply List.Forall_nil.
  - reflexivity.
Defined.
End BlockFacts.

Section RotationFacts.
Import Word.

(** Rotation of a w-bit word, for the two widths of the program *)

Lemma low_bits_only w x j :
  0 <= x < 2 ^ w -> 0 <= w <= j -> Z.testbit x j = false.
Proof.
  intros Hx Hj. rewrite <- (Z.mod_small x (2 ^ w)) by done.
  by apply Z.mod_pow2_bits_high.
Qed.

(* bit i of a rotated word *)
Lemma rotl_testbit w x n i :
  0 <= x < 2 ^ w -> 0 < n < w -> 0 <= i ->
  Z.testbit (Z.lor (Z.shiftl x n) (Z.shiftr x (w - n)) mod 2 ^ w) i =
    (i <? w) && (if n <=? i then Z.testbit x (i - n)
                 else Z.testbit x (i + w - n)).
Proof.
  intros Hx Hn Hi.
  rewrite Z.testbit_mod_pow2, Z.lor_spec, Z.shiftl_spec, Z.shiftr_spec by lia.
  destruct (Z.ltb_spec i w); [|reflexivity]. cbn [andb].
  destruct (Z.leb_spec n i).
  - rewrite (low_bits_only w x (i + (w - n))) by (done || lia).
    apply orb_false_r.
  - rewrite (Z.testbit_neg_r x (i - n)) by lia. cbn [orb].
    f_equal. lia.
Qed.

(* rotating back *)
Lemma rotl_inverse w x n :
  0 <= x < 2 ^ w -> 0 < n < w ->
  Z.lor (Z.shiftl (Z.lor (Z.shiftl x n) (Z.shiftr x (w - n)) mod 2 ^ w) (w - n))
        (Z.shiftr (Z.lor (Z.shiftl x n) (Z.shiftr x (w - n)) mod 2 ^ w)
           (w - (w - n))) mod 2 ^ w
  = x.
Proof.
  intros Hx Hn. apply Z.bits_inj'. intros i Hi.
  rewrite rotl_testbit by (try lia; apply Z.mod_pos_bound; lia).
  destruct (Z.ltb_spec i w); cbn [andb];
    [|symmetry; apply (low_bits_only w); [done|lia]].
  destruct (Z.leb_spec (w - n) i).
  - rewrite rotl_testbit by (done || lia).
    destruct (Z.ltb_spec (i - (w - n)) w); [|lia]. cbn [andb].
    destruct (Z.leb_spec n (i - (w - n))); [lia|]. f_equal. lia.
  - rewrite rotl_testbit by (done || lia).
    destruct (Z.ltb_spec (i + w - (w - n)) w); [|lia]. cbn [andb].
    destruct (Z.leb_spec n (i + w - (w - n))); [|lia]. f_equal. lia.
Qed.

Lemma rotl32_is_u32 x n : is_u32 (rotl32 x n).
Proof. apply wrap32_is_u32. Qed.

Lemma add32_is_u32 a b : is_u32 (add32 a b).
Proof. apply wrap32_is_u32. Qed.

Lemma rotl32_inverse x n :
  is_u32 x -> 0 < n < 32 -> rotl32 (rotl32 x n) (32 - n) = x.
Proof. intros Hx Hn. apply (rotl_inverse 32 x n Hx Hn). Qed.

Lemma rotl64_inverse x n :
  is_u64 x -> 0 < n < 64 -> rotl64 (rotl64 x n) (64 - n) = x.
Proof. intros Hx Hn. apply (rotl_inverse 64 x n Hx Hn). Qed.

Lemma rotl32_inj x y n :
  is_u32 x -> is_u32 y -> 0 < n < 32 -> rotl32 x n = rotl32 y n -> x = y.
Proof.
  intros Hx Hy Hn H.
  rewrite <- (rotl32_inverse x n Hx Hn), <- (rotl32_inverse y n Hy Hn).
  by rewrite H.
Qed.

Lemma rotl64_inj x y n :
  is_u64 x -> is_u64 y -> 0 < n < 64 -> rotl64 x n = rotl64 y n -> x = y.
Proof.
  intros Hx Hy Hn H.
  rewrite <- (rotl64_inverse x n Hx Hn), <- (rotl64_inverse y n Hy Hn).
  by rewrite H.
Qed.

(* a rotation by n that shifts no set bit out is the multiplication
   by 2^n *)
Lemma rotl64_small x n :
  0 < n < 64 -> 0 <= x < 2 ^ (64 - n) -> rotl64 x n = 2 ^ n * x.
Proof.
  intros Hn Hx. unfold rotl64, wrap64.
  rewrite (Z.shiftr_div_pow2 x (64 - n)), Z.div_small, Z.lor_0_r by lia.
  rewrite Z.shiftl_mul_pow2 by lia.
  assert (2 ^ n * 2 ^ (64 - n) = 2 ^ 64).
  { rewrite <- Z.pow_add_r by lia. f_equal. lia. }
  pose proof (Z.pow_pos_nonneg 2 n). 
  rewrite Z.mod_small; nia.
Qed.

Lemma lxor_cancel_r a a' c : Z.lxor a c = Z.lxor a' c -> a = a'.
Proof.
  intros H. apply (f_equal (fun z => Z.lxor z c)) in H.
  by rewrite !Z.lxor_assoc, Z.lxor_nilpotent, !Z.lxor_0_r in H.
Qed.

Lemma lxor_cancel_l a c c' : Z.lxor a c = Z.lxor a c' -> c = c'.
Proof.
  rewrite !(Z.lxor_comm a). apply lxor_cancel_r.
Qed.

Lemma add32_cancel_r a a' b :
  is_u32 a -> is_u32 a' -> add32 a b = add32 a' b -> a = a'.
Proof. intros Ha Ha' H. word_arith. Qed.

(* one line of the quarter round, undone: from the sum and the rotated
   word back to the two words that went in *)
Lemma rotl32_lxor_inj x x' c n :
  is_u32 x -> is_u32 x' -> is_u32 c -> 0 < n < 32 ->
  rotl32 (Z.lxor x c) n = rotl32 (Z.lxor x' c) n -> x = x'.
Proof.
  intros Hx Hx' Hc Hn H.
  apply rotl32_inj in H; [|by apply lxor_u32..|done].
  by apply lxor_cancel_r in H.
Qed.
End RotationFacts.

Section QuarterRound.
Import Word ChaCha.

Lemma QR_is_u32 a b c d :
  let '(a', b', c', d') := QR a b c d in
  is_u32 a' /\ is_u32 b' /\ is_u32 c' /\ is_u32 d'.
Proof.
  unfold QR. cbv zeta.
  split_and!; first [apply add32_is_u32|apply rotl32_is_u32].
Qed.

Lemma QR_inj a b c d a' b' c' d' :
  is_u32 a -> is_u32 b -> is_u32 c -> is_u32 d ->
  is_u32 a' -> is_u32 b' -> is_u32 c' -> is_u32 d' ->
  QR a b c d = QR a' b' c' d' ->
  a = a' /\ b = b' /\ c = c' /\ d = d'.
Proof.
  intros Ha Hb Hc Hd Ha' Hb' Hc' Hd' H. unfold QR in H. cbv zeta in H.
  set (a1 := add32 a b) in *. set (d1 := rotl32 (Z.lxor d a1) 16) in *.
  set (c1 := add32 c d1) in *. set (b1 := rotl32 (Z.lxor b c1) 12) in *.
  set (a2 := add32 a1 b1) in *. set (d2 := rotl32 (Z.lxor d1 a2) 8) in *.
  set (c2 := add32 c1 d2) in *.
  set (a1' := add32 a' b') in *. set (d1' := rotl32 (Z.lxor d' a1') 16) in *.
  set (c1' := add32 c' d1') in *. set (b1' := rotl32 (Z.lxor b' c1') 12) in *.
  set (a2' := add32 a1' b1') in *. set (d2' := rotl32 (Z.lxor d1' a2') 8) in *.
  set (c2' := add32 c1' d2') in *.
  injection H as Ea Eb Ec Ed.
  assert (Ua1 : is_u32 a1) by apply add32_is_u32.
  assert (Ua1' : is_u32 a1') by apply add32_is_u32.
  assert (Ud1 : is_u32 d1) by apply rotl32_is_u32.
  assert (Ud1' : is_u32 d1') by apply rotl32_is_u32.
  assert (Uc1 : is_u32 c1) by apply add32_is_u32.
  assert (Uc1' : is_u32 c1') by apply add32_is_u32.
  assert (Ub1 : is_u32 b1) by apply rotl32_is_u32.
  assert (Ub1' : is_u32 b1') by apply rotl32_is_u32.
  assert (Ua2 : is_u32 a2) by apply add32_is_u32.
  assert (Uc2 : is_u32 c2) by apply add32_is_u32.
  (* the last line of the round *)
  rewrite <- Ec in Eb. apply rotl32_lxor_inj in Eb; [|done..|lia].
  unfold c2, c2' in Ec. rewrite <- Ed in Ec.
  apply add32_cancel_r in Ec; [|done..].
  (* the third line *)
  unfold d2, d2' in Ed. rewrite <- Ea in Ed.
  apply rotl32_lxor_inj in Ed; [|done..|lia].
  unfold a2, a2' in Ea. rewrite <- Eb in Ea.
  apply add32_cancel_r in Ea; [|done..].
  (* the second line *)
  unfold b1, b1' in Eb. rewrite <- Ec in Eb.
  apply rotl32_lxor_inj in Eb; [|done..|lia].
  unfold c1, c1' in Ec. rewrite <- Ed in Ec.
  apply add32_cancel_r in Ec; [|done..].
  (* the first line *)
  unfold d1, d1' in Ed. rewrite <- Ea in Ed.
  apply rotl32_lxor_inj in Ed; [|done..|lia].
  unfold a1, a1' in Ea. rewrite <- Eb in Ea.
  apply add32_cancel_r in Ea; [|done..].
  done.
Qed.

(** X4: the quarter round maps four 32-bit words to four 32-bit words and
    loses nothing: two quadruples of 32-bit words with the same result
    are the same quadruple. *)
Theorem QR_is_injective (a b c d a' b' c' d' : Z) :
  is_u32 a -> is_u32 b -> is_u32 c -> is_u32 d ->
  is_u32 a' -> is_u32 b' -> is_u32 c' -> is_u32 d' ->
  (let '(w, x, y, z) := QR a b c d in
   is_u32 w /\ is_u32 x /\ is_u32 y /\ is_u32 z)
  /\ (QR a b c d = QR a' b' c' d' -> (a, b, c, d) = (a', b', c', d')).
Proof.
  intros Ha Hb Hc Hd Ha' Hb' Hc' Hd'. split; [apply QR_is_u32|].
  intros H. apply QR_inj in H as (-> & -> & -> & ->); done.
Qed.

Lemma QR_is_injective_witness :
  (let '(w, x, y, z) := QR 0x11111111 0x01020304 0x9b8d6f43 0x01234567 in
   is_u32 w /\ is_u32 x /\ is_u32 y /\ is_u32 z)
  /\ (QR 0x11111111 0x01020304 0x9b8d6f43 0x01234567
      = QR 0x11111111 0x01020304 0x9b8d6f43 0x01234567 ->
      (0x11111111, 0x01020304, 0x9b8d6f43, 0x01234567)
      = (0x11111111, 0x01020304, 0x9b8d6f43, 0x01234567)).
Proof.
  apply (QR_is_injective 0x11111111 0x01020304 0x9b8d6f43 0x01234567
           0x11111111 0x01020304 0x9b8d6f43 0x01234567);
    word_consts; lia.
Defined.

(* the quarter round of RFC 8439, section 2.1.1 *)
Example QR_test_vector :
  QR 0x11111111 0x01020304 0x9b8d6f43 0x01234567
  = (0xea2a92f4, 0xcb1cf8ce, 0x4581472e, 0x5881c4bb).
Proof. vm_compute. reflexivity. Qed.

(* QR on four words of an array *)
Lemma QR_at_lookup i j k l x n :
  (i < length x)%nat -> (j < length x)%nat -> (k < length x)%nat ->
  (l < length x)%nat ->
  i <> j -> i <> k -> i <> l -> j <> k -> j <> l -> k <> l ->
  QR_at i j k l x !! n =
    let '(a, b, c, d) := QR (x !!! i) (x !!! j) (x !!! k) (x !!! l) in
    if decide (n = i) then Some a
    else if decide (n = j) then Some b
    else if decide (n = k) then Some c
    else if decide (n = l) then Some d
    else x !! n.
Proof.
  intros Hi Hj Hk Hl Hij Hik Hil Hjk Hjl Hkl. unfold QR_at.
  destruct (QR _ _ _ _) as [[[a b] c] d].
  repeat case_decide; subst;
    repeat first
      [ rewrite list_lookup_insert_eq by (rewrite ?length_insert; lia)
      | rewrite list_lookup_insert_ne by done ]; done.
Qed.

Lemma QR_at_u32 i j k l x :
  Forall is_u32 x -> Forall is_u32 (QR_at i j k l x).
Proof.
  intros Hx. unfold QR_at.
  pose proof (QR_is_u32 (x !!! i) (x !!! j) (x !!! k) (x !!! l)) as H.
  destruct (QR _ _ _ _) as [[[a b] c] d]. destruct H as (? & ? & ? & ?).
  by repeat apply Forall_insert.
Qed.

Lemma QR_at_inj i j k l x x' :
  length x = length x' ->
  (i < length x)%nat -> (j < length x)%nat -> (k < length x)%nat ->
  (l < length x)%nat ->
  i <> j -> i <> k -> i <> l -> j <> k -> j <> l -> k <> l ->
  Forall is_u32 x -> Forall is_u32 x' ->
  QR_at i j k l x = QR_at i j k l x' -> x = x'.
Proof.
  intros Hlen Hi Hj Hk Hl Hij Hik Hil Hjk Hjl Hkl Hx Hx' H.
  assert (Hn : forall n, QR_at i j k l x !! n = QR_at i j k l x' !! n)
    by (by rewrite H).
  assert (HQ : QR (x !!! i) (x !!! j) (x !!! k) (x !!! l)
               = QR (x' !!! i) (x' !!! j) (x' !!! k) (x' !!! l)).
  { pose proof (Hn i) as Hi'. pose proof (Hn j) as Hj'.
    pose proof (Hn k) as Hk'. pose proof (Hn l) as Hl'.
    rewrite !QR_at_lookup in Hi', Hj', Hk', Hl' by (done || lia).
    destruct (QR (x !!! i) _ _ _) as [[[a b] c] d].
    destruct (QR (x' !!! i) _ _ _) as [[[a' b'] c'] d'].
    rewrite !decide_True in Hi' by done.
    rewrite !(decide_False (P := j = i)), !decide_True in Hj' by done.
    rewrite !(decide_False (P := k = i)), !(decide_False (P := k = j)),
      !decide_True in Hk' by done.
    rewrite !(decide_False (P := l = i)), !(decide_False (P := l = j)),
      !(decide_False (P := l = k)), !decide_True in Hl' by done.
    congruence. }
  apply QR_inj in HQ as (Ei & Ej & Ek & El); [|by apply Forall_u32_lookup..].
  apply list_eq_lookup_total; [done|]. intros n Hlt.
  destruct (decide (n = i)) as [->|]; [done|].
  destruct (decide (n = j)) as [->|]; [done|].
  destruct (decide (n = k)) as [->|]; [done|].
  destruct (decide (n = l)) as [->|]; [done|].
  specialize (Hn n). rewrite !QR_at_lookup in Hn by (done || lia).
  destruct (QR (x !!! i) _ _ _) as [[[a b] c] d].
  destruct (QR (x' !!! i) _ _ _) as [[[a' b'] c'] d'].
  rewrite !decide_False in Hn by done.
  rewrite !list_lookup_total_alt, Hn. done.
Qed.
End QuarterRound.

Section PermutationFrame.
Import Word ChaCha.

Lemma add_input_u32 n i out inp x m k w :
  (i <= k < i + n)%nat ->
  add_input n i out inp x m !! (out + k)%nat = Some w -> is_u32 w.
Proof.
  revert i m. induction n as [|n IH]; intros i m Hk; cbn [add_input]; [lia|].
  destruct (decide (k = i)) as [->|Hne].
  - rewrite add_input_other by lia. intros Hw.
    apply list_lookup_insert_Some in Hw as [(_ & <- & _)|[? _]]; [|lia].
    apply add32_is_u32.
  - apply IH. lia.
Qed.

Lemma permute_spec_u32 s : Forall is_u32 (permute_spec s).
Proof.
  unfold permute_spec. apply Forall_lookup. intros k w Hw.
  apply lookup_zip_with_Some in Hw as (x & y & -> & _ & _).
  apply add32_is_u32.
Qed.

(** X5: permute_block writes the sixteen words of its output block and
    nothing else: the memory keeps its size, every word outside
    out[0..15] keeps its value, and the sixteen words written are 32-bit
    words. *)
Theorem permute_block_frame (m : list Z) (out inp : nat) :
  (out + 16 <= length m)%nat -> (inp + 16 <= length m)%nat ->
  length (permute_block out inp m) = length m
  /\ (forall a, (a < out \/ out + 16 <= a)%nat ->
        permute_block out inp m !! a = m !! a)
  /\ Forall is_u32 (load16 out (permute_block out inp m)).
Proof.
  intros Hout Hin. split; [apply length_permute_block|]. split.
  - intros a Ha. unfold permute_block. apply add_input_other. lia.
  - apply Forall_lookup. intros k w Hw.
    assert (Hk : (k < 16)%nat).
    { apply lookup_lt_Some in Hw. rewrite length_load16 in Hw; [done|].
      by rewrite length_permute_block. }
    rewrite load16_lookup in Hw by done. unfold permute_block in Hw.
    apply add_input_u32 in Hw; [done|lia].
Qed.

Lemma permute_block_frame_witness :
  let m := build_state (Block.zero 8) (Block.zero 2) 7 ++ Block.zero 16 in
  length (permute_block 16 0 m) = length m
  /\ (forall a, (a < 16 \/ 16 + 16 <= a)%nat ->
        permute_block 16 0 m !! a = m !! a)
  /\ Forall is_u32 (load16 16 (permute_block 16 0 m)).
Proof.
  apply (permute_block_frame
           (build_state (Block.zero 8) (Block.zero 2) 7 ++ Block.zero 16) 16 0).
  - vm_compute. lia.
  - vm_compute. lia.
Defined.
End PermutationFrame.

Section StateLayout.
Import Word ChaCha.

Lemma qword_parts c :
  is_u64 c -> c = wrap32 c + 2 ^ 32 * wrap32 (Z.shiftr c 32).
Proof.
  intros Hc. rewrite Z.shiftr_div_pow2 by lia. word_arith.
Qed.

(** X6: the state that build_state lays out determines what went in:
    two states built from keys of eight words, nonces of two words and
    64-bit counters are equal exactly when keys, nonces and counters
    are. *)
Theorem build_state_injective (k n k' n' : list Z) (c c' : Z) :
  length k = 8%nat -> length k' = 8%nat ->
  length n = 2%nat -> length n' = 2%nat ->
  is_u64 c -> is_u64 c' ->
  build_state k n c = build_state k' n' c' <-> k = k' /\ n = n' /\ c = c'.
Proof.
  intros Hk Hk' Hn Hn' Hc Hc'. split; [|by intros (-> & -> & ->)]. intros H.
  do 9 (destruct k as [|? k]; try discriminate Hk).
  do 9 (destruct k' as [|? k']; try discriminate Hk').
  do 3 (destruct n as [|? n]; try discriminate Hn).
  do 3 (destruct n' as [|? n']; try discriminate Hn').
  unfold build_state, Block.zero in H. cbn in H.
  injection H as E4 E5 E6 E7 E8 E9 E10 E11 E12 E13 E14 E15.
  subst. split; [done|]. split; [done|].
  rewrite (qword_parts c Hc), (qword_parts c' Hc'). congruence.
Qed.

Lemma build_state_injective_witness :
  build_state (Block.zero 8) [1; 2] 5 = build_state (Block.zero 8) [1; 2] 6
  <-> Block.zero 8 = Block.zero 8 /\ [1; 2] = [1; 2] /\ 5 = 6.
Proof.
  apply (build_state_injective (Block.zero 8) [1; 2] (Block.zero 8) [1; 2] 5 6);
    first [reflexivity | word_consts; lia].
Defined.

(** X7: the two layouts agree on a shared reading of words 12 to 15. The
    RFC 8439 state of a 32-bit counter c and a nonce (n0, n1, n2) is the
    Bernstein state of the 64-bit counter c + 2^32 n0 and the nonce
    (n1, n2). *)
Theorem build_state96_as_bernstein (key : list Z) (n0 n1 n2 c : Z) :
  is_u32 c -> is_u32 n0 ->
  build_state96 key [n0; n1; n2] c = build_state key [n1; n2] (c + 2 ^ 32 * n0).
Proof.
  intros Hc Hn. unfold build_state96, build_state.
  rewrite qword_low, qword_high, (wrap32_small n0) by done.
  reflexivity.
Qed.

Lemma build_state96_as_bernstein_witness :
  build_state96 (Block.zero 8) [9; 1; 2] 7
  = build_state (Block.zero 8) [1; 2] (7 + 2 ^ 32 * 9).
Proof.
  apply (build_state96_as_bernstein (Block.zero 8) 9 1 2 7); word_consts; lia.
Defined.
End StateLayout.

Section Avalanche.
Import Word ChaCha.

Lemma wrap64_lxor a b : wrap64 (Z.lxor a b) = Z.lxor (wrap64 a) (wrap64 b).
Proof.
  unfold wrap64. apply Z.bits_inj'. intros n Hn.
  rewrite Z.lxor_spec, !Z.testbit_mod_pow2, Z.lxor_spec by lia.
  destruct (n <? 64); [reflexivity|]. cbn [andb]. reflexivity.
Qed.

Lemma lxor_u64 a b : is_u64 a -> is_u64 b -> is_u64 (Z.lxor a b).
Proof.
  intros Ha Hb.
  rewrite <- (Z.mod_small a (2 ^ 64) Ha), <- (Z.mod_small b (2 ^ 64) Hb).
  change (is_u64 (Z.lxor (wrap64 a) (wrap64 b))).
  rewrite <- wrap64_lxor. unfold wrap64, is_u64. apply Z.mod_pos_bound. lia.
Qed.

Lemma shiftr_u64 a k : is_u64 a -> 0 <= k -> is_u64 (Z.shiftr a k).
Proof.
  intros Ha Hk. rewrite Z.shiftr_div_pow2 by lia. unfold is_u64 in *.
  pose proof (Z.pow_pos_nonneg 2 k ltac:(lia) Hk).
  split; [apply Z.div_pos; lia|].
  apply Z.le_lt_trans with a; [|lia]. apply Z.div_le_upper_bound; nia.
Qed.

(* hash ^= hash >> k loses nothing *)
Lemma xorshift_inj x y k :
  0 <= x -> 0 <= y -> 0 < k ->
  Z.lxor x (Z.shiftr x k) = Z.lxor y (Z.shiftr y k) -> x = y.
Proof.
  intros Hx Hy Hk H. apply Z.lxor_eq.
  set (z := Z.lxor x y).
  assert (Hz : 0 <= z) by (apply Z.lxor_nonneg; tauto).
  assert (Hfix : z = Z.shiftr z k).
  { apply Z.lxor_eq. subst z. rewrite Z.shiftr_lxor.
    apply (f_equal (fun v => Z.lxor v (Z.lxor y (Z.shiftr y k)))) in H.
    rewrite Z.lxor_nilpotent in H. rewrite <- H.
    apply Z.bits_inj'. intros n Hn. rewrite !Z.lxor_spec.
    destruct (Z.testbit x n), (Z.testbit y n), (Z.testbit (Z.shiftr x k) n),
      (Z.testbit (Z.shiftr y k) n); reflexivity. }
  rewrite Z.shiftr_div_pow2 in Hfix by lia.
  assert (2 <= 2 ^ k).
  { change 2 with (2 ^ 1) at 1. apply Z.pow_le_mono_r; lia. }
  destruct (Z.eq_dec z 0) as [|Hne]; [done|].
  assert (z / 2 ^ k < z) by (apply Z.div_lt; lia). lia.
Qed.

(* hash *= p loses nothing when p has an inverse modulo 2^64 *)
Lemma mul64_inj x y p q :
  is_u64 x -> is_u64 y -> (p * q) mod 2 ^ 64 = 1 ->
  mul64 x p = mul64 y p -> x = y.
Proof.
  intros Hx Hy Hpq H. unfold mul64, wrap64 in H.
  apply (f_equal (fun v => (v * q) mod 2 ^ 64)) in H. cbn beta in H.
  rewrite !Z.mul_mod_idemp_l, <- !Z.mul_assoc in H by lia.
  rewrite <- (Z.mul_mod_idemp_r x), <- (Z.mul_mod_idemp_r y), Hpq, !Z.mul_1_r in H by lia.
  by rewrite !Z.mod_small in H.
Qed.

Lemma mul64_is_u64 a b : is_u64 (mul64 a b).
Proof. unfold mul64, wrap64, is_u64. apply Z.mod_pos_bound. lia. Qed.

(** X8: XXH64_avalanche is a permutation of the 64-bit words: its result
    is a 64-bit word, and two 64-bit words with the same result are the
    same word. *)
Theorem XXH64_avalanche_injective (x y : Z) :
  is_u64 x -> is_u64 y ->
  is_u64 (XXH64_avalanche x)
  /\ (XXH64_avalanche x = XXH64_avalanche y -> x = y).
Proof.
  intros Hx Hy. unfold XXH64_avalanche. cbv zeta.
  set (x1 := Z.lxor x (Z.shiftr x 33)). set (x2 := mul64 x1 XXH_PRIME64_2).
  set (x3 := Z.lxor x2 (Z.shiftr x2 29)). set (x4 := mul64 x3 XXH_PRIME64_3).
  set (y1 := Z.lxor y (Z.shiftr y 33)). set (y2 := mul64 y1 XXH_PRIME64_2).
  set (y3 := Z.lxor y2 (Z.shiftr y2 29)). set (y4 := mul64 y3 XXH_PRIME64_3).
  assert (U1 : is_u64 x1) by (apply lxor_u64; [done|apply shiftr_u64; [done|lia]]).
  assert (V1 : is_u64 y1) by (apply lxor_u64; [done|apply shiftr_u64; [done|lia]]).
  assert (U2 : is_u64 x2) by apply mul64_is_u64.
  assert (V2 : is_u64 y2) by apply mul64_is_u64.
  assert (U3 : is_u64 x3) by (apply lxor_u64; [done|apply shiftr_u64; [done|lia]]).
  assert (V3 : is_u64 y3) by (apply lxor_u64; [done|apply shiftr_u64; [done|lia]]).
  assert (U4 : is_u64 x4) by apply mul64_is_u64.
  assert (V4 : is_u64 y4) by apply mul64_is_u64.
  split; [apply lxor_u64; [done|apply shiftr_u64; [done|lia]]|].
  intros H.
  apply xorshift_inj in H; [|unfold is_u64 in *; lia..].
  apply (mul64_inj x3 y3 XXH_PRIME64_3 16855272203555305545) in H;
    [|done|done|reflexivity].
  apply xorshift_inj in H; [|unfold is_u64 in *; lia..].
  apply (mul64_inj x1 y1 XXH_PRIME64_2 839798700976720815) in H;
    [|done|done|reflexivity].
  apply xorshift_inj in H; [done|unfold is_u64 in *; lia..].
Qed.

Lemma XXH64_avalanche_injective_witness :
  is_u64 (XXH64_avalanche 1)
  /\ (XXH64_avalanche 1 = XXH64_avalanche 1 -> 1 = 1).
Proof. apply (XXH64_avalanche_injective 1 1); word_consts; lia. Defined.
End Avalanche.

Section LengthInjection.
Import Word ChaCha Compressor.

Lemma finalize_digest tb c :
  length (state c) = 16%nat ->
  fst (finalize tb c) = permute_spec (finalize_block tb (state c)).
Proof.
  intros Hc. destruct c as [st]. cbn [state] in *.
  unfold finalize, finalize_mem. cbn [fst state].
  assert (Hm : length (st ++ Block.zero 16) = 32%nat).
  { unfold Block.zero. rewrite length_app, length_replicate. lia. }
  rewrite permute_block_load;
    [|rewrite !length_insert, !length_app, length_take, length_load16,
        length_drop by lia; lia..|by left].
  f_equal.
  do 17 (destruct st as [|? st]; try discriminate Hc).
  reflexivity.
Qed.

(** X9: Compressor::finalize permutes a copy of the state in which bit 0
    of word 0 is flipped and the byte count, rotated left by 3, is XOR-ed
    into words 12 and 13. The rotated count is the length in bits for
    fewer than 2^61 bytes, and for every 64-bit count it determines the
    count: finalize permutes different blocks for different lengths. *)
Theorem finalize_injects_length (c : Compressor.t) (total_bytes other : Z) :
  length (state c) = 16%nat -> is_u64 total_bytes -> is_u64 other ->
  fst (finalize total_bytes c)
    = permute_spec (finalize_block total_bytes (state c))
  /\ (total_bytes < 2 ^ 61 -> rotl64 total_bytes 3 = 8 * total_bytes)
  /\ (finalize_block total_bytes (state c) = finalize_block other (state c) ->
      total_bytes = other).
Proof.
  intros Hc Ht Ho. split; [by apply finalize_digest|]. split.
  - intros Hlt. apply (rotl64_small total_bytes 3); [lia|].
    unfold is_u64 in Ht. change (64 - 3) with 61. lia.
  - intros H. destruct c as [st]. cbn [state] in *.
    do 17 (destruct st as [|? st]; try discriminate Hc).
    unfold finalize_block in H. cbn in H.
    injection H as E12 E13.
    apply lxor_cancel_l in E12. apply lxor_cancel_l in E13.
    apply (rotl64_inj total_bytes other 3); [done|done|lia|].
    set (a := rotl64 total_bytes 3) in *. set (b := rotl64 other 3) in *.
    assert (Ha : is_u64 a)
      by (unfold a, rotl64, wrap64, is_u64; apply Z.mod_pos_bound; lia).
    assert (Hb : is_u64 b)
      by (unfold b, rotl64, wrap64, is_u64; apply Z.mod_pos_bound; lia).
    rewrite (qword_parts a Ha), (qword_parts b Hb). congruence.
Qed.

Lemma finalize_injects_length_witness :
  fst (finalize 5 init) = permute_spec (finalize_block 5 (state init))
  /\ (5 < 2 ^ 61 -> rotl64 5 3 = 8 * 5)
  /\ (finalize_block 5 (state init) = finalize_block 5 (state init) -> 5 = 5).
Proof.
  apply (finalize_injects_length init 5 5); [reflexivity|..]; word_consts; lia.
Defined.
End LengthInjection.

(** ** The butterfly network of StoneKey *)

Section LoopShapes.
(** The three shapes of loop in the butterfly section, as folds over the
    values that the loop variable takes. *)

Lemma for_loop_count {S : Type} (fuel i bound : nat)
    (body : nat -> S -> S) (s : S) :
  (bound - i <= fuel)%nat ->
  for_loop fuel i bound Datatypes.S body s
  = fold_left (fun s k => body k s) (seq i (bound - i)) s.
Proof.
  revert i s. induction fuel as [|fuel IH]; intros i s Hfuel.
  - replace (bound - i)%nat with 0%nat by lia. reflexivity.
  - cbn [for_loop]. destruct (Nat.ltb_spec i bound).
    + rewrite IH by lia.
      replace (bound - i)%nat with (Datatypes.S (bound - Datatypes.S i)) by lia.
      reflexivity.
    + replace (bound - i)%nat with 0%nat by lia. reflexivity.
Qed.

Lemma for_loop_stride {S : Type} (fuel d c q : nat)
    (body : nat -> S -> S) (s : S) :
  (0 < d)%nat -> (c - q <= fuel)%nat ->
  for_loop fuel (q * d) (c * d) (fun start => start + d)%nat body s
  = fold_left (fun s q => body (q * d)%nat s) (seq q (c - q)) s.
Proof.
  intros Hd. revert q s. induction fuel as [|fuel IH]; intros q s Hfuel.
  - replace (c - q)%nat with 0%nat by lia. reflexivity.
  - cbn [for_loop]. destruct (Nat.ltb_spec (q * d) (c * d)) as [Hlt|Hge].
    + assert (q < c)%nat by nia.
      replace (q * d + d)%nat with (Datatypes.S q * d)%nat by lia.
      rewrite IH by lia.
      replace (c - q)%nat with (Datatypes.S (c - Datatypes.S q)) by lia.
      reflexivity.
    + assert (c <= q)%nat by nia.
      replace (c - q)%nat with 0%nat by lia. reflexivity.
Qed.

Lemma for_loop_doubling {S : Type} (fuel m j : nat)
    (body : nat -> S -> S) (s : S) :
  (m - j <= fuel)%nat ->
  for_loop fuel (2 ^ j) (2 ^ m) (fun span => 2 * span)%nat body s
  = fold_left (fun s j => body (2 ^ j)%nat s) (seq j (m - j)) s.
Proof.
  revert j s. induction fuel as [|fuel IH]; intros j s Hfuel.
  - replace (m - j)%nat with 0%nat by lia. reflexivity.
  - cbn [for_loop]. destruct (Nat.ltb_spec (2 ^ j) (2 ^ m)) as [Hlt|Hge].
    + assert (j < m)%nat by (apply Nat.pow_lt_mono_r_iff in Hlt; lia).
      change (2 * 2 ^ j)%nat with (2 ^ Datatypes.S j)%nat.
      rewrite IH by lia.
      replace (m - j)%nat with (Datatypes.S (m - Datatypes.S j)) by lia.
      reflexivity.
    + assert (m <= j)%nat by (apply Nat.pow_le_mono_r_iff in Hge; lia).
      replace (m - j)%nat with 0%nat by lia. reflexivity.
Qed.

Lemma fold_left_flat_map {A B S : Type} (f : S -> B -> S) (g : A -> list B)
    (l : list A) (s : S) :
  fold_left f (flat_map g l) s
  = fold_left (fun s x => fold_left f (g x) s) l s.
Proof.
  revert s. induction l as [|x l IH]; intros s; [reflexivity|].
  cbn [flat_map fold_left]. by rewrite fold_left_app, IH.
Qed.

Lemma fold_left_map {A B S : Type} (f : S -> B -> S) (g : A -> B)
    (l : list A) (s : S) :
  fold_left f (map g l) s = fold_left (fun s x => f s (g x)) l s.
Proof.
  revert s. induction l as [|x l IH]; intros s; [reflexivity|].
  cbn [map fold_left]. by rewrite IH.
Qed.

Lemma fold_left_ext_in {A S : Type} (f g : S -> A -> S) (l : list A) (s : S) :
  (forall s x, In x l -> f s x = g s x) ->
  fold_left f l s = fold_left g l s.
Proof.
  revert s. induction l as [|x l IH]; intros s H; [reflexivity|].
  cbn [fold_left]. rewrite H by (by left). apply IH.
  intros s' y Hy. apply H. by right.
Qed.

Lemma length_flat_map_const {A B : Type} (g : A -> list B) (l : list A) (n : nat) :
  (forall x, In x l -> length (g x) = n) ->
  length (flat_map g l) = (length l * n)%nat.
Proof.
  induction l as [|x l IH]; intros H; [reflexivity|].
  cbn [flat_map length]. rewrite length_app, H by (by left).
  rewrite IH by (intros y Hy; apply H; by right). lia.
Qed.

Lemma pow2_split m j : (j < m)%nat -> (2 ^ (m - 1 - j) * (2 * 2 ^ j) = 2 ^ m)%nat.
Proof.
  intros Hj. change (2 * 2 ^ j)%nat with (2 ^ Datatypes.S j)%nat.
  rewrite <- Nat.pow_add_r. f_equal. lia.
Qed.
End LoopShapes.

Section Butterflies.
Import Word ChaCha StoneKey.

Lemma pow2_ge m : (m <= 2 ^ m)%nat.
Proof. pose proof (Nat.pow_gt_lin_r 2 m). lia. Qed.

Lemma mix_round_fold m counter memory :
  mix_round (2 ^ m) counter memory
  = fold_left (fun memory '(a, b) => butterfly counter a b memory)
      (butterfly_network m) memory.
Proof.
  unfold mix_round, butterfly_network.
  etrans; [apply (for_loop_doubling (2 ^ m) m 0); pose proof (pow2_ge m); lia|].
  rewrite Nat.sub_0_r, fold_left_flat_map.
  apply fold_left_ext_in. intros mem j Hj. apply in_seq in Hj.
  cbv zeta.
  etrans.
  { rewrite <- (pow2_split m j) at 2 by lia.
    apply (for_loop_stride (2 ^ m) (2 * 2 ^ j) (2 ^ (m - 1 - j)) 0).
    - pose proof (Nat.pow_nonzero 2 j). lia.
    - rewrite Nat.sub_0_r. apply Nat.pow_le_mono_r; lia. }
  rewrite Nat.sub_0_r, fold_left_flat_map.
  apply fold_left_ext_in. intros mem' q Hq.
  rewrite for_loop_count by lia.
  rewrite Nat.sub_0_r, fold_left_map. reflexivity.
Qed.

Lemma butterfly_network_bounds m :
  Forall (fun '(a, b) => (a < b < 2 ^ m)%nat) (butterfly_network m).
Proof.
  apply List.Forall_forall. intros [a b] H. unfold butterfly_network in H.
  apply in_flat_map in H as (j & Hj & H). apply in_seq in Hj.
  cbv zeta in H.
  apply in_flat_map in H as (q & Hq & H). apply in_seq in Hq.
  apply in_map_iff in H as (k & [= <- <-] & Hk). apply in_seq in Hk.
  pose proof (pow2_split m j ltac:(lia)) as Hm.
  pose proof (Nat.pow_nonzero 2 j ltac:(lia)).
  split; [lia|]. nia.
Qed.

Lemma length_butterfly_network m :
  length (butterfly_network m) = (m * 2 ^ (m - 1))%nat.
Proof.
  unfold butterfly_network.
  rewrite (length_flat_map_const _ _ (2 ^ (m - 1))), length_seq; [done|].
  intros j Hj. apply in_seq in Hj. cbv zeta.
  rewrite (length_flat_map_const _ _ (2 ^ j)), length_seq.
  - rewrite <- Nat.pow_add_r. f_equal. lia.
  - intros q _. by rewrite length_map, length_seq.
Qed.

(** X10: the butterfly section of one round over 2^m blocks. The three
    nested loops apply m * 2^(m-1) butterflies, at the index pairs of
    [butterfly_network] in that order; the fuel of the model cuts no
    loop short; and every pair (a, b) has a < b < 2^m, so that no
    butterfly reaches outside the arena. *)
Theorem mix_round_network (m : nat) (counter : Z) (memory : list (list Z)) :
  mix_round (2 ^ m) counter memory
  = fold_left (fun memory '(a, b) => butterfly counter a b memory)
      (butterfly_network m) memory
  /\ Forall (fun '(a, b) => (a < b < 2 ^ m)%nat) (butterfly_network m)
  /\ length (butterfly_network m) = (m * 2 ^ (m - 1))%nat.
Proof.
  split; [apply mix_round_fold|].
  split; [apply butterfly_network_bounds|apply length_butterfly_network].
Qed.

(* the network over eight blocks *)
Example butterfly_network_3 :
  butterfly_network 3
  = [(0, 1); (2, 3); (4, 5); (6, 7);
     (0, 2); (1, 3); (4, 6); (5, 7);
     (0, 4); (1, 5); (2, 6); (3, 7)]%nat.
Proof. reflexivity. Qed.

(** One butterfly *)

Lemma zip_lxor_cancel (x x' y : list Z) :
  length x = length y -> length x' = length y ->
  zip_with Z.lxor x y = zip_with Z.lxor x' y -> x = x'.
Proof.
  intros Hx Hx' H.
  rewrite <- (xor_cancel x y Hx), <- (xor_cancel x' y Hx').
  unfold Block.xor. by rewrite H.
Qed.

(* y[i] ^= x[i] ^ uint32_t(mix >> (i * 4)) *)
Lemma mask_u32 (x y : list Z) (mix : Z) :
  Forall is_u32 x -> Forall is_u32 y ->
  Forall is_u32
    (imap (fun i yi =>
             Z.lxor yi (Z.lxor (x !!! i) (wrap32 (Z.shiftr mix (Z.of_nat i * 4)))))
          y).
Proof.
  intros Hx Hy. apply Forall_lookup. intros i w Hw.
  rewrite list_lookup_imap in Hw.
  destruct (y !! i) as [yi|] eqn:Hyi; [|done]. injection Hw as <-.
  apply lxor_u32; [by eapply Forall_lookup_1|].
  apply lxor_u32; [by apply Forall_u32_lookup|apply wrap32_is_u32].
Qed.

Lemma mask_inj (x y y' : list Z) (mix : Z) :
  length y = length y' ->
  imap (fun i yi =>
          Z.lxor yi (Z.lxor (x !!! i) (wrap32 (Z.shiftr mix (Z.of_nat i * 4)))))
       y
  = imap (fun i yi =>
            Z.lxor yi (Z.lxor (x !!! i) (wrap32 (Z.shiftr mix (Z.of_nat i * 4)))))
         y' ->
  y = y'.
Proof.
  intros Hlen H. apply list_eq. intros i.
  apply (f_equal (fun l => l !! i)) in H. rewrite !list_lookup_imap in H.
  destruct (y !! i) as [yi|] eqn:Hy, (y' !! i) as [yi'|] eqn:Hy';
    cbn in H; try done.
  injection H as H. apply lxor_cancel_r in H. by subst.
Qed.

(* the four quarter rounds on the columns of y *)
Lemma columns_inj (y y' : list Z) :
  length y = 16%nat -> length y' = 16%nat ->
  Forall is_u32 y -> Forall is_u32 y' ->
  QR_at 3 7 11 15 (QR_at 2 6 10 14 (QR_at 1 5 9 13 (QR_at 0 4 8 12 y)))
  = QR_at 3 7 11 15 (QR_at 2 6 10 14 (QR_at 1 5 9 13 (QR_at 0 4 8 12 y'))) ->
  y = y'.
Proof.
  intros Hy Hy' Uy Uy' H.
  apply QR_at_inj in H;
    [|rewrite ?length_QR_at; first [done|lia|by repeat apply QR_at_u32]..].
  apply QR_at_inj in H;
    [|rewrite ?length_QR_at; first [done|lia|by repeat apply QR_at_u32]..].
  apply QR_at_inj in H;
    [|rewrite ?length_QR_at; first [done|lia|by repeat apply QR_at_u32]..].
  apply QR_at_inj in H;
    [|rewrite ?length_QR_at; first [done|lia|by repeat apply QR_at_u32]..].
  done.
Qed.

Lemma butterfly_lookup counter a b memory j :
  (a < length memory)%nat -> (b < length memory)%nat -> a <> b ->
  let x := memory !!! a in
  let y := memory !!! b in
  let mix := Z.lxor counter (Z.lor (shl64 (Z.of_nat a) 32) (Z.of_nat b)) in
  let y1 := imap (fun i yi =>
                    Z.lxor yi (Z.lxor (x !!! i)
                                 (wrap32 (Z.shiftr mix (Z.of_nat i * 4))))) y in
  let y2 := QR_at 3 7 11 15 (QR_at 2 6 10 14 (QR_at 1 5 9 13 (QR_at 0 4 8 12 y1))) in
  butterfly counter a b memory !! j =
    if decide (j = a) then Some (zip_with Z.lxor x y2)
    else if decide (j = b) then Some y2
    else memory !! j.
Proof.
  intros Ha Hb Hab. cbv zeta. unfold butterfly.
  destruct (decide (j = a)) as [->|Hja].
  - apply list_lookup_insert_eq. by rewrite length_insert.
  - rewrite list_lookup_insert_ne by done.
    destruct (decide (j = b)) as [->|Hjb].
    + by apply list_lookup_insert_eq.
    + by apply list_lookup_insert_ne.
Qed.

Lemma length_butterfly counter a b memory :
  length (butterfly counter a b memory) = length memory.
Proof. unfold butterfly. by rewrite !length_insert. Qed.

Lemma arena_lookup memory a :
  is_arena memory -> (a < length memory)%nat ->
  memory !! a = Some (memory !!! a) /\ is_mblock (memory !!! a).
Proof.
  intros Hm Ha. pose proof (list_lookup_lookup_total_lt memory a Ha) as H.
  split; [done|]. by eapply Forall_lookup_1.
Qed.

(** X11: a butterfly loses nothing. For a counter, two distinct indices
    a and b inside the arena, and two arenas of blocks of sixteen 32-bit
    words, the butterfly gives the same arena only if it was given the
    same arena: the step can be undone, and only blocks a and b differ
    before and after it. *)
Theorem butterfly_injective (counter : Z) (a b : nat)
    (memory memory' : list (list Z)) :
  a <> b -> (a < length memory)%nat -> (b < length memory)%nat ->
  is_arena memory -> is_arena memory' ->
  (forall j, j <> a -> j <> b ->
     butterfly counter a b memory !! j = memory !! j)
  /\ (butterfly counter a b memory = butterfly counter a b memory' ->
      memory = memory').
Proof.
  intros Hab Ha Hb Hm Hm'. split.
  { intros j Hja Hjb. rewrite butterfly_lookup by done. cbv zeta.
    by rewrite !decide_False by done. }
  intros H.
  assert (Hlen : length memory = length memory').
  { apply (f_equal length) in H. by rewrite !length_butterfly in H. }
  assert (Hj : forall j, butterfly counter a b memory !! j
                         = butterfly counter a b memory' !! j)
    by (by rewrite H).
  destruct (arena_lookup memory a Hm Ha) as [La [Lxa Uxa]].
  destruct (arena_lookup memory b Hm Hb) as [Lb [Lxb Uxb]].
  destruct (arena_lookup memory' a Hm' ltac:(lia)) as [La' [Lxa' Uxa']].
  destruct (arena_lookup memory' b Hm' ltac:(lia)) as [Lb' [Lxb' Uxb']].
  pose proof (Hj a) as Ea. pose proof (Hj b) as Eb.
  rewrite !butterfly_lookup in Ea, Eb by (done || lia). cbv zeta in Ea, Eb.
  rewrite !decide_True in Ea by done.
  rewrite !(decide_False (P := b = a)), !decide_True in Eb by done.
  injection Ea as Ea. injection Eb as Eb.
  set (mix := Z.lxor counter (Z.lor (shl64 (Z.of_nat a) 32) (Z.of_nat b))) in *.
  rewrite <- Eb in Ea.
  apply zip_lxor_cancel in Ea;
    [|rewrite !length_QR_at, length_imap; congruence..].
  rewrite <- Ea in Eb.
  apply columns_inj in Eb;
    [|rewrite ?length_imap; first [done|by apply mask_u32]..].
  apply mask_inj in Eb; [|congruence].
  apply list_eq. intros j.
  destruct (decide (j = a)) as [->|Hja]; [congruence|].
  destruct (decide (j = b)) as [->|Hjb]; [congruence|].
  specialize (Hj j). rewrite !butterfly_lookup in Hj by (done || lia).
  cbv zeta in Hj. by rewrite !decide_False in Hj by done.
Qed.

Lemma butterfly_injective_witness :
  (forall j, j <> 0%nat -> j <> 1%nat ->
     butterfly 5 0 1 [Block.zero 16; Block.zero 16; Block.zero 16] !! j
     = [Block.zero 16; Block.zero 16; Block.zero 16] !! j)
  /\ (butterfly 5 0 1 [Block.zero 16; Block.zero 16; Block.zero 16]
      = butterfly 5 0 1 [Block.zero 16; Block.zero 16; Block.zero 16] ->
      [Block.zero 16; Block.zero 16; Block.zero 16]
      = [Block.zero 16; Block.zero 16; Block.zero 16]).
Proof.
  assert (Hz : is_mblock (Block.zero 16)).
  { split; [reflexivity|]. apply Forall_replicate. word_consts. lia. }
  apply (butterfly_injective 5 0 1
           [Block.zero 16; Block.zero 16; Block.zero 16]
           [Block.zero 16; Block.zero 16; Block.zero 16]).
  - lia.
  - cbn [length]. lia.
  - cbn [length]. lia.
  - unfold is_arena. repeat (apply List.Forall_cons; [exact Hz|]).
    apply List.Forall_nil.
  - unfold is_arena. repeat (apply List.Forall_cons; [exact Hz|]).
    apply List.Forall_nil.
Defined.
End Butterflies.

(* From here on the permutation is used through the facts above. *)
Opaque ChaCha.permute_block ChaCha.permute_spec ChaCha.build_state
  ChaCha.double_round ChaCha.QR_at ChaCha.permute_into ChaCha.permute_inplace.
Opaque StoneKey.StoneKey.

(** ** The generator *)

Section RngFacts.
Import Word ChaCha StoneRNG.

Lemma wrap64_small z : is_u64 z -> wrap64 z = z.
Proof. intros H. unfold wrap64. apply Z.mod_small. exact H. Qed.

Lemma wrap64_pred_succ c : is_u64 c -> wrap64 (add64 c 1 - 1) = c.
Proof. intros H. word_arith. Qed.

Lemma add64_is_u64 a b : is_u64 (add64 a b).
Proof. word_arith. Qed.

Lemma wrap64_is_u64 a : is_u64 (wrap64 a).
Proof. word_arith. Qed.

Lemma refill_buffer_eq s :
  refill_buffer s =
    (if add64 (block_counter s) 1 =? 0 then Throw exhausted else Ok tt,
     refilled s).
Proof.
  unfold refill_buffer, bind, get, set_buffer, set_word_index,
    set_block_counter, throw, ret, refilled,
    with_block_counter, with_word_index, with_buffer.
  cbn [key nonce block_counter buffer word_index].
  destruct (add64 (block_counter s) 1 =? 0); reflexivity.
Qed.

Lemma next_eq s :
  next s =
    if 8 <=? word_index s
    then if add64 (block_counter s) 1 =? 0
         then (Throw exhausted, refilled s)
         else (Ok (Block.u64_at (buffer (refilled s)) 0), bump (refilled s))
    else (Ok (Block.u64_at (buffer s) (Z.to_nat (word_index s))), bump s).
Proof.
  unfold next, bind at 1, get at 1. cbn [word_index].
  destruct (8 <=? word_index s).
  - unfold bind at 1. rewrite refill_buffer_eq.
    destruct (add64 (block_counter s) 1 =? 0); reflexivity.
  - reflexivity.
Qed.

Lemma refilled_buffer s :
  length (buffer s) = 16%nat ->
  buffer (refilled s) = block_of s (block_counter s).
Proof.
  intros Hb. unfold refilled, block_of. cbn [buffer].
  apply permute_into_spec; [apply length_build_state|done].
Qed.

Lemma length_block_of s c : length (block_of s c) = 16%nat.
Proof. unfold block_of. apply length_permute_spec, length_build_state. Qed.

Lemma wf_refilled s :
  is_key (key s) -> is_nonce (nonce s) -> length (buffer s) = 16%nat ->
  wf (refilled s).
Proof.
  intros Hk Hn Hb. unfold wf, refilled. cbn [key nonce block_counter buffer word_index].
  split_and!; try done; try lia.
  - apply add64_is_u64.
  - rewrite length_permute_into; [done|apply length_build_state].
Qed.

Lemma inv_refilled s :
  is_key (key s) -> is_nonce (nonce s) -> is_u64 (block_counter s) ->
  length (buffer s) = 16%nat ->
  inv (refilled s).
Proof.
  intros Hk Hn Hc Hb. split; [by apply wf_refilled|]. intros _.
  rewrite refilled_buffer by done.
  unfold refilled at 2. cbn [block_counter].
  rewrite wrap64_pred_succ by done. reflexivity.
Qed.

Lemma inv_bump s : inv s -> word_index s < 8 -> inv (bump s).
Proof.
  intros [(Hk & Hn & Hc & Hb & Hw) Hbuf] Hlt.
  assert (Hw' : wrap64 (word_index s + 1) = word_index s + 1)
    by (apply wrap64_small; word_consts; lia).
  split.
  - unfold wf, bump, with_word_index. cbn [key nonce block_counter buffer word_index].
    rewrite Hw'. split_and!; first [assumption|lia].
  - intros _. unfold bump, with_word_index. cbn [block_counter buffer]. apply Hbuf. lia.
Qed.

Lemma inv_next s : inv s -> inv (snd (next s)).
Proof.
  intros Hs. pose proof Hs as [(Hk & Hn & Hc & Hb & Hw) Hbuf].
  rewrite next_eq.
  assert (Hr : inv (refilled s)) by (by apply inv_refilled).
  destruct (Z.leb_spec 8 (word_index s)).
  - destruct (add64 (block_counter s) 1 =? 0); cbn [snd]; [done|].
    apply inv_bump; [done|]. cbn. lia.
  - cbn [snd]. by apply inv_bump.
Qed.

Lemma inv_wf s : inv s -> wf s.
Proof. by intros [? _]. Qed.

Lemma words_left_bound s : inv s -> 0 <= words_left s <= 2 ^ 67 + 8.
Proof.
  intros [(Hk & Hn & Hc & Hb & Hw) _]. unfold words_left.
  change (2 ^ 67) with 147573952589676412928. word_consts. lia.
Qed.

(* the three ways a call of operator() on a consistent object ends *)
Lemma next_cases s :
  inv s ->
  (word_index s < 8 /\
   next s = (Ok (Block.u64_at (buffer s) (Z.to_nat (word_index s))), bump s))
  \/ (word_index s = 8 /\ block_counter s + 1 < 2 ^ 64 /\
      next s = (Ok (Block.u64_at (block_of s (block_counter s)) 0),
                bump (refilled s)))
  \/ (word_index s = 8 /\ block_counter s + 1 = 2 ^ 64 /\
      next s = (Throw exhausted, refilled s)).
Proof.
  intros [(Hk & Hn & Hc & Hb & Hw) _]. rewrite next_eq.
  destruct (Z.leb_spec 8 (word_index s)).
  - right. rewrite refilled_buffer by assumption.
    destruct (Z.eqb_spec (add64 (block_counter s) 1) 0) as [He|He].
    + right. split_and!; [lia| |reflexivity]. word_arith.
    + left. split_and!; [lia| |reflexivity]. word_arith.
  - left. split; [lia|reflexivity].
Qed.

Lemma words_left_bump s :
  word_index s < 8 -> 0 <= word_index s ->
  words_left (bump s) = words_left s - 1.
Proof.
  intros H1 H2. unfold words_left, bump, with_word_index. cbn [block_counter word_index].
  rewrite wrap64_small by (word_consts; lia). lia.
Qed.

Lemma words_left_refilled s :
  word_index s = 8 -> is_u64 (block_counter s) -> block_counter s + 1 < 2 ^ 64 ->
  words_left (bump (refilled s)) = words_left s - 1.
Proof.
  intros H1 H2 H3. unfold words_left, bump, with_word_index, refilled.
  cbn [block_counter word_index].
  rewrite H1. change (wrap64 (0 + 1)) with 1.
  unfold add64. rewrite wrap64_small by (word_consts; lia). lia.
Qed.

Lemma returns_next fuel s : inv s -> returns fuel (fun _ => True) (next s).
Proof.
  intros Hs. split; [by apply inv_next|].
  destruct (next_cases s Hs) as [[_ ->]|[(_ & _ & ->)|(_ & _ & ->)]]; done.
Qed.

Lemma returns_bind {A B} fuel (Q : A -> Prop) (R : B -> Prop) (m : M A) (k : A -> M B) s :
  returns fuel Q (m s) ->
  (forall a s', Q a -> inv s' -> returns fuel R (k a s')) ->
  returns fuel R (bind m k s).
Proof.
  unfold returns, bind. destruct (m s) as [[a|e| |] s']; cbn [fst snd];
    intros [Hi Hq] Hk; [by apply Hk|done..].
Qed.

Lemma returns_ret {A} fuel (Q : A -> Prop) a s : inv s -> Q a -> returns fuel Q (ret a s).
Proof. by split. Qed.

Lemma returns_weaken {A} fuel (Q R : A -> Prop) r :
  returns fuel Q r -> (forall a, Q a -> R a) -> returns fuel R r.
Proof.
  unfold returns. destruct r as [[a|e| |] s']; cbn [fst snd]; intros [Hi Hq] H;
    (split; [done|]); auto.
Qed.

(* the rejection loop: the measure is the keystream left *)
Lemma draw_until_spec fuel limit s :
  inv s ->
  inv (snd (draw_until fuel limit s)) /\
  match fst (draw_until fuel limit s) with
  | Ok v => v <= limit
  | Throw e => e = exhausted
  | Undefined => False
  | OutOfFuel => Z.of_nat fuel <= words_left s
  end.
Proof.
  revert s. induction fuel as [|fuel IH]; intros s Hs.
  - cbn [draw_until fst snd]. split; [done|].
    pose proof (words_left_bound s Hs). lia.
  - cbn [draw_until]. unfold bind.
    pose proof Hs as [(Hk & Hn & Hc & Hb & Hw) _].
    pose proof (inv_next s Hs) as Hn'.
    destruct (next_cases s Hs) as [[Hlt E]|[(Hw8 & Hc1 & E)|(Hw8 & Hc1 & E)]];
      rewrite E in *; cbn [snd] in Hn'.
    + destruct (Z.ltb_spec limit (Block.u64_at (buffer s) (Z.to_nat (word_index s)))).
      * destruct (IH _ Hn') as [Hi Hr]. split; [done|].
        destruct (fst (draw_until fuel limit (bump s))); try done.
        rewrite words_left_bump in Hr by lia. lia.
      * cbn [ret fst snd]. split; [done|lia].
    + destruct (Z.ltb_spec limit (Block.u64_at (block_of s (block_counter s)) 0)).
      * destruct (IH _ Hn') as [Hi Hr]. split; [done|].
        destruct (fst (draw_until fuel limit (bump (refilled s)))); try done.
        rewrite words_left_refilled in Hr by done. lia.
      * cbn [ret fst snd]. split; [done|lia].
    + cbn [fst snd]. done.
Qed.

Lemma returns_draw_until fuel limit s :
  inv s -> returns fuel (fun v => v <= limit) (draw_until fuel limit s).
Proof.
  intros Hs. destruct (draw_until_spec fuel limit s Hs) as [Hi Hr].
  split; [done|]. destruct (fst (draw_until fuel limit s)); try done.
  pose proof (words_left_bound s Hs). lia.
Qed.

(* the value returned for an accepted word lies between the bounds *)
Lemma unbiased_value_range lo hi v :
  is_u64 lo -> is_u64 hi -> lo < hi -> hi - lo < MAX64 ->
  unbiased_range lo hi = hi - lo + 1 /\
  unbiased_value lo hi v = lo + v mod (hi - lo + 1) /\
  lo <= unbiased_value lo hi v <= hi.
Proof.
  intros Hlo Hhi Hlt Hfull.
  assert (Hr : unbiased_range lo hi = hi - lo + 1).
  { unfold unbiased_range. apply wrap64_small. word_consts. lia. }
  unfold unbiased_value. rewrite Hr.
  pose proof (Z.mod_pos_bound v (hi - lo + 1) ltac:(lia)) as Hm.
  rewrite wrap64_small by (word_consts; lia). lia.
Qed.

Lemma unbiased_eq fuel lo hi s :
  is_u64 lo -> is_u64 hi -> lo <= hi ->
  unbiased fuel lo hi s =
    if lo =? hi then (Ok lo, s)
    else if hi - lo =? MAX64 then next s
    else bind (draw_until fuel (unbiased_limit lo hi))
           (fun value => ret (unbiased_value lo hi value)) s.
Proof.
  intros Hlo Hhi Hle. unfold unbiased.
  destruct (Z.ltb_spec hi lo); [lia|].
  rewrite (wrap64_small (hi - lo)) by (word_consts; lia).
  destruct (lo =? hi); [reflexivity|].
  destruct (hi - lo =? MAX64); reflexivity.
Qed.

Lemma returns_unbiased fuel lo hi s :
  inv s -> is_u64 lo -> is_u64 hi -> lo <= hi ->
  returns fuel (fun v => hi - lo < MAX64 -> lo <= v <= hi) (unbiased fuel lo hi s).
Proof.
  intros Hs Hlo Hhi Hle. rewrite unbiased_eq by assumption.
  destruct (Z.eqb_spec lo hi) as [->|Hne].
  - apply returns_ret; [done|lia].
  - destruct (Z.eqb_spec (hi - lo) MAX64) as [He|He].
    + eapply returns_weaken; [by apply returns_next|]. cbn beta. lia.
    + eapply returns_bind; [by apply returns_draw_until|].
      intros v s' _ Hs'. apply returns_ret; [done|]. intros Hf.
      apply unbiased_value_range; [done|done|lia|done].
Qed.

Lemma inv_draw_until fuel limit s : inv s -> inv (snd (draw_until fuel limit s)).
Proof. intros Hs. by apply draw_until_spec. Qed.

Lemma inv_unbiased fuel lo hi s : inv s -> inv (snd (unbiased fuel lo hi s)).
Proof.
  intros Hs. unfold unbiased.
  destruct (if hi <? lo then (hi, lo) else (lo, hi)) as [lo' hi'].
  destruct (lo' =? hi'); [done|].
  destruct (_ =? MAX64); [by apply inv_next|].
  unfold bind. pose proof (inv_draw_until fuel (unbiased_limit lo' hi') s Hs) as Hi.
  destruct (draw_until fuel (unbiased_limit lo' hi') s) as [[v|e| |] s']; done.
Qed.

Lemma discard_eq n s :
  discard n s =
    if n =? 0 then (Ok tt, s)
    else
      let remaining := wrap64 (8 - word_index s) in
      if n <? remaining
      then (Ok tt, with_word_index (wrap64 (word_index s + n)) s)
      else
        let n' := wrap64 (n - remaining) in
        let s8 := with_word_index 8 s in
        if (0 <? n' / 8) && (MAX64 - n' / 8 <? block_counter s)
        then (Throw discard_overflow, s8)
        else
          let s1 := if 0 <? n' / 8
                    then with_block_counter (add64 (block_counter s) (n' / 8)) s8
                    else s8 in
          if n' mod 8 =? 0 then (Ok tt, s1)
          else if add64 (block_counter s1) 1 =? 0
               then (Throw exhausted, refilled s1)
               else (Ok tt, with_word_index (n' mod 8) (refilled s1)).
Proof.
  unfold discard. destruct (n =? 0); [reflexivity|].
  unfold bind at 1, get at 1. cbv zeta.
  destruct (n <? wrap64 (8 - word_index s)); [reflexivity|].
  unfold bind at 1, set_word_index at 1.
  destruct (0 <? wrap64 (n - wrap64 (8 - word_index s)) / 8).
  - unfold bind at 1. unfold bind at 1. unfold get at 1.
    change (block_counter (with_word_index 8 s)) with (block_counter s).
    destruct (_ <? block_counter s); cbn [andb]; [reflexivity|].
    unfold set_block_counter.
    destruct (_ mod 8 =? 0); cbn [negb]; [reflexivity|].
    unfold bind at 1. rewrite refill_buffer_eq.
    destruct (add64 _ 1 =? 0); reflexivity.
  - cbn [andb]. unfold bind at 1, ret at 1.
    destruct (_ mod 8 =? 0); cbn [negb]; [reflexivity|].
    unfold bind at 1. rewrite refill_buffer_eq.
    destruct (add64 _ 1 =? 0); reflexivity.
Qed.

Lemma inv_with_word_index w s :
  inv s -> (w = 8 \/ word_index s <= w <= 8 /\ 0 <= w) -> inv (with_word_index w s).
Proof.
  intros [(Hk & Hn & Hc & Hb & Hw) Hbuf] Hcase. split.
  - unfold wf, with_word_index. cbn [key nonce block_counter buffer word_index].
    split_and!; first [assumption|lia].
  - unfold with_word_index. cbn [key nonce block_counter buffer word_index].
    intros Hlt. apply Hbuf. lia.
Qed.

Lemma inv_stale c s :
  inv s -> is_u64 c -> inv (with_block_counter c (with_word_index 8 s)).
Proof.
  intros [(Hk & Hn & Hc & Hb & Hw) Hbuf] Hc'. split.
  - unfold wf. fields. split_and!; first [assumption|lia].
  - fields. lia.
Qed.

Lemma inv_refilled_word_index w s :
  inv s -> 0 <= w <= 8 -> inv (with_word_index w (refilled s)).
Proof.
  intros Hs Hw. pose proof Hs as [(Hk & Hn & Hc & Hb & Hw') _].
  apply inv_with_word_index; [by apply inv_refilled|].
  cbn [refilled word_index]. lia.
Qed.

Lemma inv_discard n s : is_u64 n -> inv s -> inv (snd (discard n s)).
Proof.
  intros Hn Hs. pose proof Hs as [(Hk & Hnn & Hc & Hb & Hw) _].
  rewrite discard_eq. destruct (n =? 0); [done|]. cbv zeta.
  rewrite (wrap64_small (8 - word_index s)) by (word_consts; lia).
  destruct (Z.ltb_spec n (8 - word_index s)).
  { cbn [snd]. rewrite wrap64_small by (word_consts; lia).
    apply inv_with_word_index; [done|]. word_consts. lia. }
  set (n' := wrap64 _).
  assert (Hn' : 0 <= n' mod 8 < 8) by (apply Z.mod_pos_bound; lia).
  assert (Hs8 : inv (with_word_index 8 s)) by (apply inv_with_word_index; [done|by left]).
  destruct (_ && _); [done|].
  set (s1 := if 0 <? n' / 8 then _ else _).
  assert (Hs1 : inv s1).
  { subst s1. destruct (0 <? n' / 8); [|done].
    apply inv_stale; [done|apply add64_is_u64]. }
  destruct (n' mod 8 =? 0); [done|].
  destruct (_ =? 0); cbn [snd].
  - pose proof Hs1 as [(? & ? & ? & ? & ?) _]. by apply inv_refilled.
  - apply inv_refilled_word_index; [done|lia].
Qed.

Lemma inv_reseed k n s :
  is_key k -> is_nonce n -> inv s -> inv (snd (reseed k n s)).
Proof.
  intros Hk Hn [(_ & _ & _ & Hb & _) _]. unfold reseed.
  rewrite refill_buffer_eq. cbn [snd].
  apply inv_refilled; cbn [key nonce block_counter buffer];
    first [assumption|word_consts; lia].
Qed.

Lemma construct_eq k n c s :
  construct k n c = Ok s -> s = refilled (fresh k n c) /\ add64 c 1 <> 0.
Proof.
  unfold construct. rewrite refill_buffer_eq. cbn [fresh block_counter].
  destruct (Z.eqb_spec (add64 c 1) 0); [done|]. by intros [= <-].
Qed.

Lemma inv_construct k n c s :
  is_key k -> is_nonce n -> is_u64 c -> construct k n c = Ok s -> inv s.
Proof.
  intros Hk Hn Hc [-> _]%construct_eq. by apply inv_refilled.
Qed.

Lemma inv_run_call c s : valid_call c -> inv s -> inv (snd (run_call c s)).
Proof.
  intros Hv Hs. destruct c as [|fuel lo hi|n|k n]; unfold run_call.
  - pose proof (inv_next s Hs). by destruct (next s).
  - pose proof (inv_unbiased fuel lo hi s Hs). by destruct (unbiased fuel lo hi s).
  - pose proof (inv_discard n s Hv Hs). by destruct (discard n s).
  - destruct Hv as [Hk Hn]. pose proof (inv_reseed k n s Hk Hn Hs).
    by destruct (reseed k n s).
Qed.

Lemma reachable_inv s : reachable s -> inv s.
Proof.
  induction 1 as [k n c s Hk Hn Hc Hs|c s _ IH Hv].
  - by eapply inv_construct.
  - by apply inv_run_call.
Qed.

(** Equality of generators *)

Lemma list_eq_total (l r : list Z) :
  length l = length r ->
  (forall i, (i < length l)%nat -> l !!! i = r !!! i) -> l = r.
Proof.
  intros Hlen H. apply (list_eq_same_length l r (length l)); [done|done|].
  intros i x y Hi Hx Hy.
  apply list_lookup_total_correct in Hx, Hy. rewrite <- Hx, <- Hy. by apply H.
Qed.

Lemma key_diff_zero l r :
  is_key l -> is_key r -> key_diff l r = 0 <-> l = r.
Proof.
  unfold is_key. intros Hl Hr. split.
  - unfold key_diff. cbn [for_loop Nat.ltb Nat.leb].
    rewrite !Z.lor_eq_0_iff. intros [[[[[[[[_ H0] H1] H2] H3] H4] H5] H6] H7].
    apply Z.lxor_eq in H0, H1, H2, H3, H4, H5, H6, H7.
    apply list_eq_total; [congruence|]. rewrite Hl. intros i Hi.
    do 8 (destruct i as [|i]; [assumption|]). lia.
  - intros ->. unfold key_diff. cbn [for_loop Nat.ltb Nat.leb].
    by rewrite !Z.lxor_nilpotent.
Qed.

Lemma nonce_eqb_true a b :
  is_nonce a -> is_nonce b -> nonce_eqb a b = true <-> a = b.
Proof.
  unfold is_nonce, nonce_eqb. intros Ha Hb. split.
  - intros [H0 H1]%andb_true_iff. apply Z.eqb_eq in H0, H1.
    apply list_eq_total; [congruence|]. rewrite Ha. intros i Hi.
    do 2 (destruct i as [|i]; [assumption|]). lia.
  - intros ->. by rewrite !Z.eqb_refl.
Qed.

Lemma eqb_true s1 s2 :
  wf s1 -> wf s2 ->
  eqb s1 s2 = true <->
  key s1 = key s2 /\ nonce s1 = nonce s2
  /\ block_counter s1 = block_counter s2 /\ word_index s1 = word_index s2.
Proof.
  intros (Hk1 & Hn1 & _) (Hk2 & Hn2 & _). unfold eqb.
  rewrite !andb_true_iff, !Z.eqb_eq, key_diff_zero, nonce_eqb_true by assumption.
  tauto.
Qed.

Lemma eqb_equiv s1 s2 : inv s1 -> inv s2 -> eqb s1 s2 = true -> equiv s1 s2.
Proof.
  intros [Hw1 Hb1] [Hw2 Hb2] He.
  apply eqb_true in He as (Hk & Hn & Hc & Hw); [|done..].
  destruct Hw1 as (_ & _ & _ & Hl1 & Hi1), Hw2 as (_ & _ & _ & Hl2 & Hi2).
  destruct (decide (word_index s1 < 8)) as [Hlt|Hge].
  - left. specialize (Hb1 Hlt). specialize (Hb2 ltac:(lia)).
    unfold block_of in Hb1, Hb2. rewrite <- Hk, <- Hn, <- Hc, <- Hb1 in Hb2.
    destruct s1, s2. fields. congruence.
  - right. unfold stale_eq. split_and!; first [assumption|lia].
Qed.

Lemma refilled_same_seed s1 s2 :
  key s1 = key s2 -> nonce s1 = nonce s2 -> block_counter s1 = block_counter s2 ->
  length (buffer s1) = 16%nat -> length (buffer s2) = 16%nat ->
  refilled s1 = refilled s2.
Proof.
  intros Hk Hn Hc H1 H2. unfold refilled. rewrite Hk, Hn, Hc. f_equal.
  rewrite !permute_into_spec; first [reflexivity|assumption|apply length_build_state].
Qed.

Lemma next_stale s1 s2 : stale_eq s1 s2 -> next s1 = next s2.
Proof.
  intros (Hk & Hn & Hc & Hw1 & Hw2 & H1 & H2). rewrite !next_eq.
  rewrite Hw1, Hw2, Hc. rewrite (refilled_same_seed s1 s2) by assumption.
  reflexivity.
Qed.

Lemma respects_eq {A} (m : M A) :
  (forall s1 s2, stale_eq s1 s2 ->
     fst (m s1) = fst (m s2) /\ equiv (snd (m s1)) (snd (m s2))) ->
  respects m.
Proof.
  intros H s1 s2 [->|Hs]; [|by apply H]. split; [done|by left].
Qed.

Lemma respects_next : respects next.
Proof.
  apply respects_eq. intros s1 s2 Hs. rewrite (next_stale s1 s2 Hs).
  split; [done|by left].
Qed.

Lemma respects_ret {A} (a : A) : respects (ret a).
Proof. intros s1 s2 Hs. by split. Qed.

Lemma respects_bind {A B} (m : M A) (k : A -> M B) :
  respects m -> (forall a, respects (k a)) -> respects (bind m k).
Proof.
  intros Hm Hk s1 s2 Hs. unfold bind.
  destruct (Hm s1 s2 Hs) as [Hf He].
  destruct (m s1) as [o1 s1'], (m s2) as [o2 s2']. cbn [fst snd] in *. subst o2.
  destruct o1; [by apply Hk|done..].
Qed.

Lemma respects_draw_until fuel limit : respects (draw_until fuel limit).
Proof.
  induction fuel as [|fuel IH]; cbn [draw_until].
  - intros s1 s2 Hs. by split.
  - apply respects_bind; [apply respects_next|]. intros v.
    destruct (limit <? v); [done|apply respects_ret].
Qed.

Lemma respects_unbiased fuel lo hi : respects (unbiased fuel lo hi).
Proof.
  unfold unbiased. destruct (if hi <? lo then _ else _) as [lo' hi'].
  destruct (lo' =? hi'); [apply respects_ret|].
  destruct (_ =? MAX64); [apply respects_next|].
  apply respects_bind; [apply respects_draw_until|]. intros v. apply respects_ret.
Qed.

Lemma stale_eq_counter c s1 s2 :
  stale_eq s1 s2 ->
  stale_eq (with_block_counter c (with_word_index 8 s1))
    (with_block_counter c (with_word_index 8 s2)).
Proof.
  intros (Hk & Hn & Hc & Hw1 & Hw2 & H1 & H2). unfold stale_eq. fields.
  split_and!; first [assumption|reflexivity].
Qed.

Lemma stale_eq_word_index s1 s2 :
  stale_eq s1 s2 -> stale_eq (with_word_index 8 s1) (with_word_index 8 s2).
Proof.
  intros (Hk & Hn & Hc & Hw1 & Hw2 & H1 & H2). unfold stale_eq. fields.
  split_and!; first [assumption|reflexivity].
Qed.

Lemma refilled_stale s1 s2 : stale_eq s1 s2 -> refilled s1 = refilled s2.
Proof.
  intros (Hk & Hn & Hc & Hw1 & Hw2 & H1 & H2). by apply refilled_same_seed.
Qed.

Lemma respects_discard n : is_u64 n -> respects (discard n).
Proof.
  intros Hn. apply respects_eq. intros s1 s2 Hs.
  pose proof Hs as (Hk & Hnn & Hc & Hw1 & Hw2 & H1 & H2).
  rewrite !discard_eq. destruct (Z.eqb_spec n 0); [by split; [|right]|].
  cbv zeta. rewrite Hw1, Hw2, Hc. change (wrap64 (8 - 8)) with 0.
  destruct (Z.ltb_spec n 0); [word_consts; lia|].
  destruct (_ && _); cbn [fst snd].
  { split; [done|]. right. by apply stale_eq_word_index. }
  set (n' := wrap64 (n - 0)).
  set (t1 := if 0 <? n' / 8 then _ else with_word_index 8 s1).
  set (t2 := if 0 <? n' / 8 then _ else with_word_index 8 s2).
  assert (Ht : stale_eq t1 t2).
  { subst t1 t2. destruct (0 <? n' / 8);
      [by apply stale_eq_counter|by apply stale_eq_word_index]. }
  destruct (n' mod 8 =? 0); cbn [fst snd]; [by split; [|right]|].
  rewrite (refilled_stale t1 t2 Ht).
  destruct Ht as (_ & _ & -> & _).
  destruct (_ =? 0); (split; [done|by left]).
Qed.

Lemma respects_reseed k n : respects (reseed k n).
Proof.
  apply respects_eq. intros s1 s2 (Hk & Hnn & Hc & Hw1 & Hw2 & H1 & H2).
  unfold reseed. rewrite !refill_buffer_eq. cbn [fst snd block_counter].
  split; [done|]. left. by apply refilled_same_seed.
Qed.

Lemma run_call_equiv c s1 s2 :
  valid_call c -> equiv s1 s2 ->
  fst (run_call c s1) = fst (run_call c s2)
  /\ equiv (snd (run_call c s1)) (snd (run_call c s2)).
Proof.
  intros Hv Hs. destruct c as [|fuel lo hi|n|k n]; unfold run_call.
  - destruct (respects_next s1 s2 Hs) as [Hf He].
    destruct (next s1), (next s2). cbn [fst snd] in *. by subst.
  - destruct (respects_unbiased fuel lo hi s1 s2 Hs) as [Hf He].
    destruct (unbiased fuel lo hi s1), (unbiased fuel lo hi s2).
    cbn [fst snd] in *. by subst.
  - destruct (respects_discard n Hv s1 s2 Hs) as [Hf He].
    destruct (discard n s1), (discard n s2). cbn [fst snd] in *. by subst.
  - destruct (respects_reseed k n s1 s2 Hs) as [Hf He].
    destruct (reseed k n s1), (reseed k n s2). cbn [fst snd] in *. by subst.
Qed.

Lemma run_equiv calls s1 s2 :
  Forall valid_call calls -> equiv s1 s2 ->
  fst (run calls s1) = fst (run calls s2).
Proof.
  intros Hv. revert s1 s2. induction Hv as [|c calls Hc _ IH]; intros s1 s2 Hs.
  - reflexivity.
  - cbn [run]. destruct (run_call_equiv c s1 s2 Hc Hs) as [Hf He].
    destruct (run_call c s1) as [r1 s1'], (run_call c s2) as [r2 s2'].
    cbn [fst snd] in *. subst r2. specialize (IH s1' s2' He).
    destruct (run calls s1'), (run calls s2'). cbn [fst] in *. by subst.
Qed.

(** Positions in the keystream *)

Lemma rng_ext s1 s2 :
  key s1 = key s2 -> nonce s1 = nonce s2 ->
  block_counter s1 = block_counter s2 -> buffer s1 = buffer s2 ->
  word_index s1 = word_index s2 -> s1 = s2.
Proof. destruct s1, s2. fields. congruence. Qed.

Lemma block_of_same s1 s2 c :
  key s1 = key s2 -> nonce s1 = nonce s2 -> block_of s1 c = block_of s2 c.
Proof. intros Hk Hn. unfold block_of. by rewrite Hk, Hn. Qed.

Lemma next_at s :
  inv s -> block_counter s + word_index s / 8 < 2 ^ 64 ->
  next s = (Ok (stream_word s (word_index s)), state_at s (word_index s)).
Proof.
  intros Hs Hc. pose proof Hs as [(Hk & Hn & Hcu & Hb & Hw) Hbuf].
  destruct (next_cases s Hs) as [[Hlt ->]|[(Hw8 & Hc1 & ->)|(Hw8 & Hc1 & _)]].
  - assert (Hd : word_index s / 8 = 0) by (apply Z.div_small; lia).
    assert (Hm : word_index s mod 8 = word_index s) by (apply Z.mod_small; lia).
    unfold stream_word, state_at. rewrite Hd, Hm, !Z.add_0_r, <- Hbuf by done.
    f_equal. apply rng_ext; unfold bump; fields; try reflexivity.
    apply wrap64_small. word_consts. lia.
  - unfold stream_word, state_at. rewrite Hw8.
    change (8 / 8) with 1. change (8 mod 8) with 0.
    replace (block_counter s - 1 + 1) with (block_counter s) by lia.
    rewrite (wrap64_small (block_counter s)) by done.
    f_equal. apply rng_ext; unfold bump; fields; try reflexivity.
    + cbn [refilled block_counter]. unfold add64. apply wrap64_small.
      word_consts. lia.
    + by apply refilled_buffer.
  - rewrite Hw8 in Hc. change (8 / 8) with 1 in Hc. lia.
Qed.

Lemma inv_state_at s :
  inv s -> block_counter s + word_index s / 8 < 2 ^ 64 ->
  inv (state_at s (word_index s)).
Proof.
  intros Hs Hc. pose proof (inv_next s Hs) as Hn.
  by rewrite next_at in Hn.
Qed.

Lemma div8_step w k :
  (w mod 8 + 1 + k) / 8 + w / 8 = (w + k + 1) / 8
  /\ (w mod 8 + 1 + k) mod 8 = (w + k + 1) mod 8.
Proof. Z.div_mod_to_equations. lia. Qed.

Lemma div8_mono a b : 0 <= a <= b -> a / 8 <= b / 8.
Proof. intros H. apply Z.div_le_mono; lia. Qed.

(* drawing k + 1 words returns word w + k and leaves the object there *)
Lemma next_n_at k s first :
  inv s ->
  block_counter s + (word_index s + Z.of_nat k) / 8 < 2 ^ 64 ->
  next_n (S k) first s =
    (Ok (stream_word s (word_index s + Z.of_nat k)),
     state_at s (word_index s + Z.of_nat k)).
Proof.
  revert s first. induction k as [|k IH]; intros s first Hs Hc.
  - rewrite Z.add_0_r in *. cbn [next_n]. unfold bind.
    rewrite next_at by done. reflexivity.
  - pose proof Hs as [(Hk & Hn & Hcu & Hb & Hw) Hbuf].
    assert (Hc0 : block_counter s + word_index s / 8 < 2 ^ 64).
    { pose proof (div8_mono (word_index s) (word_index s + Z.of_nat (S k))). lia. }
    change (next_n (S (S k)) first) with (bind next (fun v => next_n (S k) v)).
    unfold bind. rewrite next_at by done.
    pose proof (inv_state_at s Hs Hc0) as Hs1.
    destruct (div8_step (word_index s) (Z.of_nat k)) as [Hd Hm].
    rewrite IH; [|done|].
    + unfold stream_word, state_at. fields.
      replace (word_index s + Z.of_nat (S k)) with (word_index s + Z.of_nat k + 1) by lia.
      rewrite Hm.
      replace (block_counter s + word_index s / 8 - 1
               + (word_index s mod 8 + 1 + Z.of_nat k) / 8)
        with (block_counter s - 1 + (word_index s + Z.of_nat k + 1) / 8) by lia.
      replace (block_counter s + word_index s / 8
               + (word_index s mod 8 + 1 + Z.of_nat k) / 8)
        with (block_counter s + (word_index s + Z.of_nat k + 1) / 8) by lia.
      reflexivity.
    + unfold state_at. fields.
      replace (word_index s + Z.of_nat (S k)) with (word_index s + Z.of_nat k + 1) in Hc by lia.
      lia.
Qed.

Lemma stream_word_same s1 s2 p :
  key s1 = key s2 -> nonce s1 = nonce s2 ->
  block_counter s1 = block_counter s2 ->
  stream_word s1 p = stream_word s2 p.
Proof.
  intros Hk Hn Hc. unfold stream_word. by rewrite Hc, (block_of_same s1 s2).
Qed.

Lemma state_at_same s1 s2 p :
  key s1 = key s2 -> nonce s1 = nonce s2 ->
  block_counter s1 = block_counter s2 ->
  state_at s1 p = state_at s2 p.
Proof.
  intros Hk Hn Hc. unfold state_at. by rewrite Hk, Hn, Hc, (block_of_same s1 s2).
Qed.

(* skipping n words and drawing one returns word w + n as well *)
Lemma discard_next_at n s :
  inv s -> is_u64 n ->
  block_counter s + (word_index s + n) / 8 < 2 ^ 64 ->
  bind (discard n) (fun _ => next) s =
    (Ok (stream_word s (word_index s + n)), state_at s (word_index s + n)).
Proof.
  intros Hs Hn Hc. pose proof Hs as [(Hk & Hnn & Hcu & Hb & Hw) Hbuf].
  unfold bind. rewrite discard_eq.
  destruct (Z.eqb_spec n 0) as [->|Hn0].
  { rewrite Z.add_0_r in *. by apply next_at. }
  cbv zeta. rewrite (wrap64_small (8 - word_index s)) by (word_consts; lia).
  destruct (Z.ltb_spec n (8 - word_index s)) as [Hlt|Hge].
  { rewrite wrap64_small by (word_consts; lia).
    set (s' := with_word_index (word_index s + n) s).
    assert (Hs' : inv s').
    { apply inv_with_word_index; [done|]. word_consts. lia. }
    rewrite (next_at s' Hs').
    - change (word_index s') with (word_index s + n).
      by rewrite (stream_word_same s' s), (state_at_same s' s).
    - change (word_index s') with (word_index s + n).
      change (block_counter s') with (block_counter s). done. }
  set (n' := wrap64 (n - (8 - word_index s))).
  assert (En' : n' = n - (8 - word_index s)).
  { subst n'. apply wrap64_small. word_consts. lia. }
  assert (Hsum : word_index s + n = 8 + n') by lia.
  assert (Hdiv : (word_index s + n) / 8 = 1 + n' / 8).
  { rewrite Hsum. Z.div_mod_to_equations. lia. }
  assert (Hmod : (word_index s + n) mod 8 = n' mod 8).
  { rewrite Hsum. Z.div_mod_to_equations. lia. }
  assert (Hfull : 0 <= n' / 8) by (apply Z.div_pos; lia).
  assert (Hrem : 0 <= n' mod 8 < 8) by (apply Z.mod_pos_bound; lia).
  rewrite Hdiv in Hc.
  assert (Hov : (0 <? n' / 8) && (MAX64 - n' / 8 <? block_counter s) = false).
  { apply andb_false_iff. right. apply Z.ltb_ge. word_consts. lia. }
  rewrite Hov.
  set (s1 := if 0 <? n' / 8 then _ else _).
  assert (Hs1 : inv s1 /\ key s1 = key s /\ nonce s1 = nonce s
                /\ block_counter s1 = block_counter s + n' / 8
                /\ word_index s1 = 8).
  { subst s1. destruct (Z.ltb_spec 0 (n' / 8)).
    - split; [apply inv_stale; [done|apply add64_is_u64]|]. fields.
      split_and!; try reflexivity. unfold add64. apply wrap64_small.
      word_consts. lia.
    - split; [apply inv_with_word_index; [done|by left]|]. fields.
      split_and!; try reflexivity. lia. }
  clearbody s1. destruct Hs1 as (Hi1 & Hk1 & Hn1 & Hc1 & Hw1).
  pose proof Hi1 as [(_ & _ & Hcu1 & Hb1 & _) _].
  assert (Hadd : add64 (block_counter s1) 1 = block_counter s + n' / 8 + 1).
  { rewrite Hc1. unfold add64. apply wrap64_small. word_consts. lia. }
  assert (Hblk : buffer (refilled s1)
                 = block_of s (wrap64 (block_counter s - 1 + (1 + n' / 8)))).
  { rewrite refilled_buffer by done. rewrite Hc1.
    replace (block_counter s - 1 + (1 + n' / 8)) with (block_counter s + n' / 8) by lia.
    rewrite wrap64_small by (word_consts; lia). by apply block_of_same. }
  unfold stream_word, state_at. rewrite Hdiv, Hmod, <- Hblk.
  assert (Hc0 : 0 <= block_counter s) by apply Hcu.
  destruct (Z.eqb_spec (n' mod 8) 0) as [Hz|Hnz].
  - rewrite next_eq, Hw1, Hadd. change (8 <=? 8) with true. cbv iota.
    destruct (Z.eqb_spec (block_counter s + n' / 8 + 1) 0); [lia|].
    rewrite Hz. change (Z.to_nat 0) with 0%nat.
    f_equal. apply rng_ext; unfold bump; fields; cbn [refilled key nonce block_counter buffer word_index];
      first [assumption|reflexivity|lia].
  - rewrite Hadd. destruct (Z.eqb_spec (block_counter s + n' / 8 + 1) 0); [lia|].
    rewrite next_eq. fields.
    destruct (Z.leb_spec 8 (n' mod 8)); [lia|].
    f_equal. apply rng_ext; unfold bump; fields; cbn [refilled key nonce block_counter buffer word_index];
      first [assumption|reflexivity|lia|apply wrap64_small; word_consts; lia].
Qed.
End RngFacts.

Section Counting.
Import Word StoneRNG.

Lemma count_words_ext p q n :
  (forall v, 0 <= v < Z.of_nat n -> p v = q v) ->
  count_words p n = count_words q n.
Proof.
  induction n as [|n IH]; intros H; [reflexivity|].
  cbn [count_words]. rewrite IH, (H (Z.of_nat n)) by (intros; try apply H; lia).
  reflexivity.
Qed.

Lemma count_words_none p n :
  (forall v, 0 <= v < Z.of_nat n -> p v = false) -> count_words p n = 0.
Proof.
  induction n as [|n IH]; intros H; [reflexivity|].
  cbn [count_words]. rewrite IH, (H (Z.of_nat n)) by (intros; try apply H; lia).
  reflexivity.
Qed.

Lemma count_words_add p n m :
  count_words p (n + m) =
    count_words p n + count_words (fun v => p (v + Z.of_nat n)) m.
Proof.
  induction m as [|m IH].
  - rewrite Nat.add_0_r. cbn [count_words]. lia.
  - rewrite Nat.add_succ_r. cbn [count_words]. rewrite IH.
    replace (Z.of_nat (n + m)) with (Z.of_nat m + Z.of_nat n) by lia. lia.
Qed.

(* one period of the residues holds each residue once *)
Lemma count_residue_period R rho a j :
  0 <= rho < R -> 0 <= a -> a mod R = 0 -> Z.of_nat j <= R ->
  count_words (fun v => (v + a) mod R =? rho) j =
    if rho <? Z.of_nat j then 1 else 0.
Proof.
  intros Hrho Ha Hmod. induction j as [|j IH]; intros Hj.
  - cbn [count_words]. destruct (Z.ltb_spec rho (Z.of_nat 0)); lia.
  - cbn [count_words]. rewrite IH by lia.
    assert (E : (Z.of_nat j + a) mod R = Z.of_nat j).
    { rewrite Z.add_mod, Hmod, Z.add_0_r, Z.mod_mod by lia.
      apply Z.mod_small. lia. }
    rewrite E.
    destruct (Z.ltb_spec rho (Z.of_nat j)), (Z.eqb_spec (Z.of_nat j) rho),
      (Z.ltb_spec rho (Z.of_nat (S j))); lia.
Qed.

Lemma count_residue_multiple R rho k :
  0 <= rho < R ->
  count_words (fun v => v mod R =? rho) (k * Z.to_nat R) = Z.of_nat k.
Proof.
  intros Hrho. induction k as [|k IH]; [reflexivity|].
  replace (S k * Z.to_nat R)%nat with (k * Z.to_nat R + Z.to_nat R)%nat by lia.
  rewrite count_words_add, IH, count_residue_period; try lia.
  - destruct (Z.ltb_spec rho (Z.of_nat (Z.to_nat R))); lia.
  - replace (Z.of_nat (k * Z.to_nat R)) with (Z.of_nat k * R) by lia.
    apply Z.mod_mul. lia.
Qed.

(* the words accepted for the result r: one more for r = lo *)
Lemma accepted_words_formula lo hi r :
  is_u64 lo -> is_u64 hi -> lo < hi -> hi - lo < MAX64 -> lo <= r <= hi ->
  accepted_words lo hi r = MAX64 / (hi - lo + 1) + (if r =? lo then 1 else 0).
Proof.
  intros Hlo Hhi Hlt Hfull Hr.
  destruct (unbiased_value_range lo hi 0 Hlo Hhi Hlt Hfull) as (HR & _ & _).
  set (R := hi - lo + 1) in *.
  set (K := MAX64 / R).
  assert (HRpos : 2 <= R <= MAX64) by (subst R; lia).
  assert (HK : 0 <= K) by (apply Z.div_pos; [done|lia]).
  assert (Hlim : unbiased_limit lo hi = K * R).
  { unfold unbiased_limit. rewrite HR. subst K.
    pose proof (Z.div_mod MAX64 R ltac:(lia)). lia. }
  assert (HKR : K * R <= MAX64).
  { subst K. pose proof (Z.mul_div_le MAX64 R ltac:(lia)). lia. }
  unfold accepted_words.
  replace (Z.to_nat (2 ^ 64))
    with ((Z.to_nat K * Z.to_nat R + 1) + Z.to_nat (2 ^ 64 - K * R - 1))%nat.
  2:{ change (2 ^ 64) with (MAX64 + 1). lia. }
  rewrite count_words_add, (count_words_none _ (Z.to_nat (2 ^ 64 - K * R - 1))).
  2:{ intros v Hv. unfold unbiased_accepts. rewrite Hlim.
      destruct (Z.ltb_spec (K * R) (v + Z.of_nat (Z.to_nat K * Z.to_nat R + 1)));
        [reflexivity|lia]. }
  rewrite (count_words_ext _ (fun v => v mod R =? r - lo)).
  2:{ intros v Hv. unfold unbiased_accepts. rewrite Hlim.
      destruct (Z.ltb_spec (K * R) v); [lia|]. cbn [negb andb].
      destruct (unbiased_value_range lo hi v Hlo Hhi Hlt Hfull) as (_ & -> & _).
      fold R. destruct (Z.eqb_spec (lo + v mod R) r), (Z.eqb_spec (v mod R) (r - lo));
        first [reflexivity|lia]. }
  rewrite Nat.add_1_r. cbn [count_words].
  rewrite count_residue_multiple by lia.
  replace (Z.of_nat (Z.to_nat K * Z.to_nat R)) with (K * R) by lia.
  rewrite Z.mod_mul by lia.
  destruct (Z.eqb_spec 0 (r - lo)), (Z.eqb_spec r lo); lia.
Qed.
End Counting.

Section FirstAccepted.
Import Word StoneRNG.

(* positions seen from the object that one draw leaves *)
Lemma stream_shift s j :
  let s1 := state_at s (word_index s) in
  stream_word s1 (word_index s1 + j) = stream_word s (word_index s + j + 1)
  /\ state_at s1 (word_index s1 + j) = state_at s (word_index s + j + 1)
  /\ block_counter s1 + (word_index s1 + j) / 8
     = block_counter s + (word_index s + j + 1) / 8.
Proof.
  cbv zeta. destruct (div8_step (word_index s) j) as [Hd Hm].
  unfold stream_word, state_at. fields.
  rewrite Hm.
  replace (block_counter s + word_index s / 8 - 1
           + (word_index s mod 8 + 1 + j) / 8)
    with (block_counter s - 1 + (word_index s + j + 1) / 8) by lia.
  replace (block_counter s + word_index s / 8
           + (word_index s mod 8 + 1 + j) / 8)
    with (block_counter s + (word_index s + j + 1) / 8) by lia.
  done.
Qed.

(* the loop returns the first word of the keystream that is not above
   the limit *)
Lemma draw_until_first fuel limit k s :
  inv s -> (k < fuel)%nat ->
  block_counter s + (word_index s + Z.of_nat k) / 8 < 2 ^ 64 ->
  (forall j, (j < k)%nat -> limit < stream_word s (word_index s + Z.of_nat j)) ->
  stream_word s (word_index s + Z.of_nat k) <= limit ->
  draw_until fuel limit s
  = (Ok (stream_word s (word_index s + Z.of_nat k)),
     state_at s (word_index s + Z.of_nat k)).
Proof.
  revert fuel s. induction k as [|k IH]; intros fuel s Hs Hf Hc Hrej Hacc;
    (destruct fuel as [|fuel]; [lia|]); cbn [draw_until]; unfold bind.
  - rewrite Z.add_0_r in *. rewrite next_at by done.
    destruct (Z.ltb_spec limit (stream_word s (word_index s))); [lia|].
    reflexivity.
  - pose proof Hs as [(_ & _ & _ & _ & Hw) _].
    assert (Hc0 : block_counter s + word_index s / 8 < 2 ^ 64).
    { pose proof (div8_mono (word_index s) (word_index s + Z.of_nat (S k))). lia. }
    rewrite next_at by done.
    pose proof (Hrej 0%nat ltac:(lia)) as H0. rewrite Z.add_0_r in H0.
    destruct (Z.ltb_spec limit (stream_word s (word_index s))); [|lia].
    destruct (stream_shift s (Z.of_nat k)) as (E1 & E2 & E3). cbv zeta in *.
    replace (word_index s + Z.of_nat (S k))
      with (word_index s + Z.of_nat k + 1) in * by lia.
    rewrite <- E1, <- E2. apply IH.
    + by apply inv_state_at.
    + lia.
    + rewrite E3. done.
    + intros j Hj. destruct (stream_shift s (Z.of_nat j)) as (F1 & _ & _).
      cbv zeta in F1. rewrite F1.
      specialize (Hrej (S j) ltac:(lia)).
      replace (word_index s + Z.of_nat (S j))
        with (word_index s + Z.of_nat j + 1) in Hrej by lia.
      done.
    + rewrite E1. done.
Qed.

(* unbiased(lo, hi) returns lo + value mod range for the first keystream
   word that is not above the limit, and leaves the generator behind it *)
Lemma unbiased_first_accepted fuel lo hi k s :
  inv s -> is_u64 lo -> is_u64 hi -> lo < hi -> hi - lo < MAX64 ->
  (k < fuel)%nat ->
  block_counter s + (word_index s + Z.of_nat k) / 8 < 2 ^ 64 ->
  (forall j, (j < k)%nat ->
     MAX64 - MAX64 mod (hi - lo + 1) < stream_word s (word_index s + Z.of_nat j)) ->
  stream_word s (word_index s + Z.of_nat k) <= MAX64 - MAX64 mod (hi - lo + 1) ->
  unbiased fuel lo hi s
  = (Ok (lo + stream_word s (word_index s + Z.of_nat k) mod (hi - lo + 1)),
     state_at s (word_index s + Z.of_nat k)).
Proof.
  intros Hs Hlo Hhi Hlt Hfull Hf Hc Hrej Hacc.
  rewrite unbiased_eq by (first [assumption|lia]).
  destruct (Z.eqb_spec lo hi); [lia|].
  destruct (Z.eqb_spec (hi - lo) MAX64); [lia|].
  destruct (unbiased_value_range lo hi 0 Hlo Hhi Hlt Hfull) as (HR & _ & _).
  unfold bind. unfold unbiased_limit. rewrite HR.
  rewrite (draw_until_first fuel _ k s) by assumption.
  unfold ret.
  destruct (unbiased_value_range lo hi (stream_word s (word_index s + Z.of_nat k))
              Hlo Hhi Hlt Hfull) as (_ & -> & _).
  reflexivity.
Qed.
End FirstAccepted.

Opaque StoneRNG.accepted_words StoneRNG.count_words.

Section RngClaims.
Import Word StoneRNG.

(** C3: the generator of the zero key and nonce constructed at counter
    2^64 - 2 returns its eight buffered words, then throws the exhaustion
    error on the ninth call, the counter having wrapped to 0; the calls
    that follow (operator(), discard, unbiased) succeed, and after the
    words of the last block the generator returns the first word of the
    keystream of counter 0 again, the word a fresh generator starts with. *)
Theorem exhausted_generator_keeps_running :
  exists s0 s1,
    make (Block.zero 8) (Block.zero 2) (MAX64 - 1) = Ok s0
    /\ run (repeat Next 9) s0
       = (map (fun v => Word (Ok v))
            [17485791420029543043; 3613745733526595470; 11379703125317357616;
             6719832296720270812; 13788254747042503194; 6364224686066543091;
             17350862674479124409; 13267733541123028307]
            ++ [Word (Throw exhausted)], s1)
    /\ block_counter s1 = 0
    /\ fst (run [Next; Discard 6; Unbiased 1 0 9; Next] s1)
       = [Word (Ok 3672699114800058839); Done (Ok tt); Word (Ok 3);
          Word (Ok 10393729187455219830)]
    /\ fst (next sample) = Ok 10393729187455219830.
Proof.
  eexists. eexists. split; [vm_compute; reflexivity|].
  split; [vm_compute; reflexivity|].
  split; [reflexivity|]. split; vm_compute; reflexivity.
Qed.

(* in general: the call that wraps the counter throws, and the next
   call finds a full buffer *)
Lemma wrap_is_forgotten s :
  inv s -> word_index s = 8 -> block_counter s = MAX64 ->
  exists s1 v s2,
    next s = (Throw exhausted, s1) /\ block_counter s1 = 0
    /\ next s1 = (Ok v, s2).
Proof.
  intros Hs Hw Hc. pose proof Hs as [(Hk & Hn & Hcu & Hb & _) _].
  destruct (next_cases s Hs) as [[Hlt _]|[(_ & Hc1 & _)|(_ & _ & E)]].
  - lia.
  - rewrite Hc in Hc1. unfold MAX64 in Hc1. lia.
  - assert (Hr : inv (refilled s)) by (by apply inv_refilled).
    destruct (next_cases (refilled s) Hr) as [[_ E1]|[(Hw1 & _)|(Hw1 & _)]];
      [|discriminate Hw1..].
    eexists _, _, _. split; [exact E|]. split; [|exact E1].
    cbn [refilled block_counter]. rewrite Hc. reflexivity.
Qed.

Lemma reachable_run calls s :
  reachable s -> Forall valid_call calls -> reachable (snd (run calls s)).
Proof.
  intros Hs Hv. revert s Hs. induction Hv as [|c calls Hc _ IH]; intros s Hs.
  - exact Hs.
  - cbn [run]. pose proof (reach_call c s Hs Hc) as H1.
    destruct (run_call c s) as [r s']. cbn [snd] in H1.
    specialize (IH s' H1). destruct (run calls s'). exact IH.
Qed.

(** C7: for generators in states reachable through the public interface,
    operator== returns true exactly when keys, nonces, block counters and
    word indices are equal; and two generators that compare equal return
    the same results under every sequence of calls, although the buffer
    is not compared. *)
Theorem operator_eq_decides_future (s1 s2 : t) :
  reachable s1 -> reachable s2 ->
  (eqb s1 s2 = true <->
   key s1 = key s2 /\ nonce s1 = nonce s2
   /\ block_counter s1 = block_counter s2 /\ word_index s1 = word_index s2)
  /\ (eqb s1 s2 = true ->
      forall calls, Forall valid_call calls ->
        fst (run calls s1) = fst (run calls s2)).
Proof.
  intros H1%reachable_inv H2%reachable_inv. split.
  - apply eqb_true; by apply inv_wf.
  - intros He calls Hv. apply run_equiv; [done|]. by apply eqb_equiv.
Qed.

Lemma sample_reachable : reachable sample.
Proof.
  apply (reach_construct (Block.zero 8) (Block.zero 2) 0);
    [reflexivity|reflexivity|word_consts; lia|reflexivity].
Qed.

Lemma sample_skipped_reachable : reachable sample_skipped.
Proof.
  apply (reach_call (Discard 16) sample sample_reachable).
  cbn [valid_call]. word_consts. lia.
Qed.

Lemma sample_drained_reachable : reachable sample_drained.
Proof.
  apply reachable_run.
  - apply (reach_construct (Block.zero 8) (Block.zero 2) 1);
      [reflexivity|reflexivity|word_consts; lia|reflexivity].
  - repeat constructor.
Qed.

(* the two sample objects compare equal although their buffers differ *)
Example samples_equal_buffers_differ :
  eqb sample_skipped sample_drained = true
  /\ buffer sample_skipped <> buffer sample_drained.
Proof. split; [vm_compute; reflexivity|]. vm_compute. discriminate. Qed.

(* on the two sample objects *)
Lemma operator_eq_decides_future_witness :
  (eqb sample_skipped sample_drained = true <->
   key sample_skipped = key sample_drained
   /\ nonce sample_skipped = nonce sample_drained
   /\ block_counter sample_skipped = block_counter sample_drained
   /\ word_index sample_skipped = word_index sample_drained)
  /\ (eqb sample_skipped sample_drained = true ->
      forall calls, Forall valid_call calls ->
        fst (run calls sample_skipped) = fst (run calls sample_drained)).
Proof.
  apply (operator_eq_decides_future sample_skipped sample_drained).
  - exact sample_skipped_reachable.
  - exact sample_drained_reachable.
Defined.

(** C8: for a reachable generator and n such that the block counter
    does not overflow, n + 1 calls of operator() succeed, and discard(n)
    followed by one call of operator() returns the value of the last of
    them and leaves the generator in the same state. *)
Theorem discard_then_next (s : t) (n : Z) :
  reachable s -> is_u64 n ->
  block_counter s + (word_index s + n) / 8 < 2 ^ 64 ->
  exists v s',
    next_n (S (Z.to_nat n)) 0 s = (Ok v, s')
    /\ bind (discard n) (fun _ => next) s = (Ok v, s').
Proof.
  intros Hs%reachable_inv Hn Hc.
  exists (stream_word s (word_index s + n)), (state_at s (word_index s + n)).
  split.
  - rewrite next_n_at; [|done|].
    + rewrite Z2Nat.id by apply Hn. reflexivity.
    + rewrite Z2Nat.id by apply Hn. done.
  - by apply discard_next_at.
Qed.

(* discard(20) on the sample generator *)
Lemma discard_then_next_witness :
  exists v s',
    next_n (S (Z.to_nat 20)) 0 sample = (Ok v, s')
    /\ bind (discard 20) (fun _ => next) sample = (Ok v, s').
Proof.
  apply (discard_then_next sample 20).
  - exact sample_reachable.
  - word_consts. lia.
  - vm_compute. reflexivity.
Defined.

(** C2: the rejection loop of unbiased(lo, hi) accepts one keystream word
    too many. The word equal to [limit] is accepted and returns lo, so lo
    is the result for one more of the 2^64 keystream words than any other
    value of the range: the sampling is not exactly uniform. *)
Theorem unbiased_favours_lower_bound (lo hi r : Z) :
  is_u64 lo -> is_u64 hi -> lo < r <= hi -> hi - lo < MAX64 ->
  accepted_words lo hi lo = accepted_words lo hi r + 1
  /\ unbiased_accepts lo hi (unbiased_limit lo hi) = true
  /\ unbiased_value lo hi (unbiased_limit lo hi) = lo.
Proof.
  intros Hlo Hhi Hr Hfull.
  rewrite (accepted_words_formula lo hi lo), (accepted_words_formula lo hi r)
    by (first [assumption|lia]).
  rewrite Z.eqb_refl. destruct (Z.eqb_spec r lo); [lia|].
  split; [lia|]. split.
  - unfold unbiased_accepts. by rewrite Z.ltb_irrefl.
  - destruct (unbiased_value_range lo hi (unbiased_limit lo hi))
      as (HR & -> & _); [done|done|lia|done|].
    unfold unbiased_limit. rewrite HR.
    assert (HRpos : 0 < hi - lo + 1) by lia.
    pose proof (Z.div_mod MAX64 (hi - lo + 1) ltac:(lia)) as Hdm.
    replace (MAX64 - MAX64 mod (hi - lo + 1))
      with (MAX64 / (hi - lo + 1) * (hi - lo + 1)) by lia.
    rewrite Z.mod_mul by lia. lia.
Qed.

(* unbiased(0, 2): the limit is 2^64 - 1 and no word is rejected *)
Lemma unbiased_favours_lower_bound_witness :
  accepted_words 0 2 0 = accepted_words 0 2 1 + 1
  /\ unbiased_accepts 0 2 (unbiased_limit 0 2) = true
  /\ unbiased_value 0 2 (unbiased_limit 0 2) = 0.
Proof.
  apply (unbiased_favours_lower_bound 0 2 1).
  - word_consts. lia.
  - word_consts. lia.
  - lia.
  - unfold MAX64. lia.
Defined.
End RngClaims.

(** ** The password composer *)

Section PassFacts.
Import Word StoneRNG StonePass.

(** The context string *)

Lemma c_str_nul rest : c_str (NUL :: rest) = [].
Proof. reflexivity. Qed.

Lemma c_str_flag (b : bool) :
  c_str (lit (if b then "1" else "0")) = lit (if b then "1" else "0").
Proof. by destruct b. Qed.

Lemma context_eq V U S L ru rl rd rs :
  context V U S L ru rl rd rs =
    lit "StonePassword_v1.0" ++ to_string V ++ [NUL]
      ++ U ++ [NUL] ++ S ++ [NUL]
      ++ lit "len:" ++ to_string L
      ++ lit (if ru then "1" else "0") ++ lit (if rl then "1" else "0")
      ++ lit (if rd then "1" else "0") ++ lit (if rs then "1" else "0").
Proof.
  unfold context. rewrite !c_str_nul, !c_str_flag. reflexivity.
Qed.

Lemma length_flag (b : bool) : length (lit (if b then "1" else "0")) = 1%nat.
Proof. by destruct b. Qed.

Lemma context_differs V U S L ru rl rd rs :
  context V U S L ru rl rd rs <> context_spec V U S L ru rl rd rs.
Proof.
  intros H. apply (f_equal length) in H. rewrite context_eq in H.
  unfold context_spec in H. revert H.
  generalize (to_string V) (to_string L). intros v l.
  rewrite !length_app, !length_flag. cbn [length lit list_ascii_of_string].
  lia.
Qed.

(** Drawing characters *)

Lemma returns_draw fuel (characters : list ascii) s :
  inv s -> characters <> [] -> Z.of_nat (length characters) < 2 ^ 64 ->
  returns fuel (fun c => c ∈ characters) (draw fuel characters s).
Proof.
  intros Hs Hne Hlen. unfold draw.
  assert (Hpos : (0 < length characters)%nat) by (destruct characters; [done|cbn; lia]).
  rewrite (wrap64_small (Z.of_nat (length characters) - 1)) by (word_consts; lia).
  eapply returns_bind.
  - apply returns_unbiased; [done| | |lia]; word_consts; lia.
  - cbn beta. intros i s' Hi Hs'.
    specialize (Hi ltac:(word_consts; lia)).
    destruct (Z.ltb_spec i (Z.of_nat (length characters))); [|lia].
    destruct (characters !! Z.to_nat i) as [c|] eqn:Hc.
    + apply returns_ret; [done|]. by eapply list_elem_of_lookup_2.
    + apply lookup_ge_None_1 in Hc. lia.
Qed.

Lemma returns_draw_required fuel (require : bool) (set password : list ascii) s :
  inv s ->
  (require = true -> set <> [] /\ Z.of_nat (length set) < 2 ^ 64) ->
  returns fuel
    (fun p => if require then exists c, c ∈ set /\ p = password ++ [c]
              else p = password)
    (draw_required fuel require set password s).
Proof.
  intros Hs Hset. unfold draw_required. destruct require.
  - destruct (Hset eq_refl) as [Hne Hlen].
    eapply returns_bind; [by apply returns_draw|].
    intros c s' Hc Hs'. apply returns_ret; [done|]. by exists c.
  - by apply returns_ret.
Qed.

Lemma returns_fill fuel n L (all password : list ascii) s :
  inv s -> all <> [] -> Z.of_nat (length all) < 2 ^ 64 ->
  Z.of_nat (length password) <= L -> L - Z.of_nat (length password) <= Z.of_nat n ->
  returns fuel
    (fun p => exists q, p = password ++ q /\ Z.of_nat (length p) = L
                        /\ forall c, c ∈ q -> c ∈ all)
    (fill fuel n L all password s).
Proof.
  intros Hs Hne Hlen. revert password s Hs.
  induction n as [|n IH]; intros password s Hs Hle Hn; cbn [fill].
  - apply returns_ret; [done|]. exists []. rewrite app_nil_r.
    split_and!; [done|lia|]. intros c []%elem_of_nil.
  - destruct (Z.ltb_spec (Z.of_nat (length password)) L).
    + eapply returns_bind; [by apply returns_draw|].
      intros c s' Hc Hs'. eapply returns_weaken.
      * apply IH; [done| |]; rewrite length_app; cbn [length]; lia.
      * cbn beta. intros p (q & -> & Hl & Hq). exists (c :: q).
        rewrite <- app_assoc in *. split_and!; [done|done|].
        by intros c' [->|?]%elem_of_cons; [|apply Hq].
    + apply returns_ret; [done|]. exists []. rewrite app_nil_r.
      split_and!; [done|lia|]. intros c []%elem_of_nil.
Qed.

(** The shuffle *)

Lemma swap_lookup i j (password p : list ascii) k :
  swap i j password = Some p -> p !! k = password !! transpose i j k.
Proof.
  unfold swap, transpose.
  destruct (password !! i) as [a|] eqn:Ha; [|done].
  destruct (password !! j) as [b|] eqn:Hb; [|done]. intros [= <-].
  pose proof (lookup_lt_Some _ _ _ Ha). pose proof (lookup_lt_Some _ _ _ Hb).
  destruct (decide (k = j)) as [->|Hkj].
  - rewrite list_lookup_insert_eq by (rewrite length_insert; lia). done.
  - rewrite list_lookup_insert_ne by done.
    destruct (decide (k = i)) as [->|Hki].
    + by rewrite list_lookup_insert_eq.
    + by rewrite list_lookup_insert_ne.
Qed.

Lemma transpose_involutive i j k : transpose i j (transpose i j k) = k.
Proof. unfold transpose. repeat case_decide; congruence. Qed.

Lemma swap_elem_of i j (password p : list ascii) c :
  swap i j password = Some p -> c ∈ p <-> c ∈ password.
Proof.
  intros Hs. rewrite !list_elem_of_lookup. split; intros [k Hk].
  - exists (transpose i j k). by rewrite <- (swap_lookup i j password p).
  - exists (transpose i j k).
    by rewrite (swap_lookup i j password p), transpose_involutive.
Qed.

Lemma swap_length i j (password p : list ascii) :
  swap i j password = Some p -> length p = length password.
Proof.
  unfold swap. destruct (password !! i); [|done].
  destruct (password !! j); [|done]. intros [= <-]. by rewrite !length_insert.
Qed.

Lemma swap_defined i j (password : list ascii) :
  (i < length password)%nat -> (j < length password)%nat ->
  is_Some (swap i j password).
Proof.
  intros [a Ha]%lookup_lt_is_Some_2 [b Hb]%lookup_lt_is_Some_2.
  unfold swap. rewrite Ha, Hb. by eexists.
Qed.

Lemma returns_shuffle fuel i (password : list ascii) s :
  inv s -> (i < length password)%nat -> Z.of_nat (length password) < 2 ^ 64 ->
  returns fuel
    (fun p => length p = length password /\ forall c, c ∈ p <-> c ∈ password)
    (shuffle fuel i password s).
Proof.
  revert password s. induction i as [|i IH]; intros password s Hs Hi Hlen;
    cbn [shuffle].
  - by apply returns_ret.
  - eapply returns_bind.
    + apply returns_unbiased; [done| | |lia]; word_consts; lia.
    + cbn beta. intros j s' Hj Hs'.
      specialize (Hj ltac:(word_consts; lia)).
      destruct (swap_defined (S i) (Z.to_nat j) password) as [p Hp]; [lia|lia|].
      rewrite Hp. pose proof (swap_length _ _ _ _ Hp) as Hl.
      eapply returns_weaken; [apply IH; [done|lia|lia]|].
      cbn beta. intros p' [Hl' Hin]. split; [congruence|].
      intros c. rewrite Hin. by apply (swap_elem_of (S i) (Z.to_nat j)).
Qed.

(** The composer *)

Lemma all_chars_in_required c upper lower digits symbols ru rl rd rs :
  c ∈ all_chars upper lower digits symbols ru rl rd rs <->
  in_required c upper lower digits symbols ru rl rd rs.
Proof.
  unfold all_chars, in_required. rewrite !elem_of_app.
  destruct ru, rl, rd, rs; rewrite ?elem_of_nil; intuition congruence.
Qed.

Lemma has_one_mono require (set p p' : list ascii) :
  (forall c, c ∈ p -> c ∈ p') -> has_one require set p -> has_one require set p'.
Proof. intros Hsub H Hr. destruct (H Hr) as (c & Hc & Hs). exists c. auto. Qed.

Lemma returns_required fuel (require : bool) (set password : list ascii)
    (allowed : ascii -> Prop) s :
  inv s ->
  (require = true -> set <> [] /\ Z.of_nat (length set) < 2 ^ 64) ->
  (require = true -> forall c, c ∈ set -> allowed c) ->
  (forall c, c ∈ password -> allowed c) ->
  returns fuel
    (fun p => (forall c, c ∈ password -> c ∈ p)
              /\ Z.of_nat (length p) =
                   Z.of_nat (length password) + (if require then 1 else 0)
              /\ (forall c, c ∈ p -> allowed c)
              /\ has_one require set p)
    (draw_required fuel require set password s).
Proof.
  intros Hs Hset Hall Hpw. eapply returns_weaken.
  - by apply returns_draw_required.
  - cbn beta. intros p Hp. destruct require.
    + destruct Hp as (c & Hc & ->). split_and!.
      * intros c' ?. apply elem_of_app. by left.
      * rewrite length_app. cbn [length]. lia.
      * intros c' [?|Hc'%list_elem_of_singleton]%elem_of_app; [auto|].
        subst c'. auto.
      * intros _. exists c. split; [|done]. apply elem_of_app. right.
        by apply list_elem_of_singleton.
    + subst p. split_and!; [done|lia|done|]. by intros ?.
Qed.

Lemma all_chars_length_ge upper lower digits symbols ru rl rd rs :
  (ru = true -> length upper <= length (all_chars upper lower digits symbols ru rl rd rs))%nat
  /\ (rl = true -> length lower <= length (all_chars upper lower digits symbols ru rl rd rs))%nat
  /\ (rd = true -> length digits <= length (all_chars upper lower digits symbols ru rl rd rs))%nat
  /\ (rs = true -> length symbols <= length (all_chars upper lower digits symbols ru rl rd rs))%nat.
Proof.
  unfold all_chars. rewrite !length_app.
  split_and!; intros ->; lia.
Qed.

Lemma returns_compose fuel L upper lower digits symbols ru rl rd rs s :
  inv s ->
  L <= 128 -> required_count ru rl rd rs <= L -> 1 <= L ->
  (ru = true -> upper <> []) -> (rl = true -> lower <> []) ->
  (rd = true -> digits <> []) -> (rs = true -> symbols <> []) ->
  ru || rl || rd || rs = true ->
  Z.of_nat (length (all_chars upper lower digits symbols ru rl rd rs)) < 2 ^ 64 ->
  returns fuel
    (fun p => conforms p L upper lower digits symbols ru rl rd rs)
    (compose fuel L upper lower digits symbols ru rl rd rs s).
Proof.
  intros Hs HL Hcnt HL1 Hu Hl Hd Hsy Hany Hlen.
  destruct (all_chars_length_ge upper lower digits symbols ru rl rd rs)
    as (Lu & Ll & Ld & Ls).
  set (allowed := fun c => in_required c upper lower digits symbols ru rl rd rs).
  assert (Hne : all_chars upper lower digits symbols ru rl rd rs <> []).
  { unfold all_chars. destruct ru, rl, rd, rs; try done;
      intros H; repeat apply app_eq_nil in H as [? H]; intuition. }
  unfold compose.
  eapply returns_bind.
  { apply (returns_required fuel ru upper [] allowed); [done| | |].
    - intros Hr. split; [auto|]. specialize (Lu Hr). lia.
    - intros Hr c Hc. left. done.
    - by intros c ?%elem_of_nil. }
  cbn beta. intros p1 s1 (_ & Hn1 & Ha1 & Ho1) Hs1.
  eapply returns_bind.
  { apply (returns_required fuel rl lower p1 allowed); [done| | |done].
    - intros Hr. split; [auto|]. specialize (Ll Hr). lia.
    - intros Hr c Hc. right. left. done. }
  cbn beta. intros p2 s2 (Hs12 & Hn2 & Ha2 & Ho2) Hs2.
  eapply returns_bind.
  { apply (returns_required fuel rd digits p2 allowed); [done| | |done].
    - intros Hr. split; [auto|]. specialize (Ld Hr). lia.
    - intros Hr c Hc. right. right. left. done. }
  cbn beta. intros p3 s3 (Hs23 & Hn3 & Ha3 & Ho3) Hs3.
  eapply returns_bind.
  { apply (returns_required fuel rs symbols p3 allowed); [done| | |done].
    - intros Hr. split; [auto|]. specialize (Ls Hr). lia.
    - intros Hr c Hc. right. right. right. done. }
  cbn beta. intros p4 s4 (Hs34 & Hn4 & Ha4 & Ho4) Hs4.
  assert (Hlen4 : Z.of_nat (length p4) = required_count ru rl rd rs).
  { unfold required_count. cbn [length] in Hn1. lia. }
  eapply returns_bind.
  { apply returns_fill; [done|done|done|lia|lia]. }
  cbn beta. intros p5 s5 (q & -> & Hl5 & Hq) Hs5.
  eapply returns_weaken.
  { apply returns_shuffle; [done|lia|lia]. }
  cbn beta. intros p [Hlp Hin].
  assert (Hsub : forall c, c ∈ p4 -> c ∈ p).
  { intros c Hc. apply Hin, elem_of_app. by left. }
  unfold conforms. split_and!.
  - lia.
  - eapply has_one_mono; [|exact Ho1]. auto.
  - eapply has_one_mono; [|exact Ho2]. auto.
  - eapply has_one_mono; [|exact Ho3]. auto.
  - eapply has_one_mono; [|exact Ho4]. auto.
  - intros c [Hc|Hc]%Hin%elem_of_app; [by apply Ha4|].
    by apply all_chars_in_required, Hq.
Qed.

(** What the composer can throw *)

Lemma only_exhausted_ret {A} (a : A) : throws_only_exhausted (ret a).
Proof. by intros s e. Qed.

Lemma only_exhausted_undefined {A} : throws_only_exhausted (@undefined A).
Proof. by intros s e. Qed.

Lemma only_exhausted_bind {A B} (m : M A) (k : A -> M B) :
  throws_only_exhausted m -> (forall a, throws_only_exhausted (k a)) ->
  throws_only_exhausted (bind m k).
Proof.
  intros Hm Hk s e. unfold bind. specialize (Hm s).
  destruct (m s) as [[a|e'| |] s']; cbn [fst] in *; try done.
  - apply Hk.
  - intros [= <-]. by apply Hm.
Qed.

Lemma only_exhausted_next : throws_only_exhausted next.
Proof.
  intros s e. rewrite next_eq.
  destruct (8 <=? word_index s); [|done].
  destruct (_ =? 0); [|done]. by intros [= <-].
Qed.

Lemma only_exhausted_draw_until fuel limit :
  throws_only_exhausted (draw_until fuel limit).
Proof.
  induction fuel as [|fuel IH]; cbn [draw_until]; [by intros s e|].
  apply only_exhausted_bind; [apply only_exhausted_next|]. intros v.
  destruct (limit <? v); [done|apply only_exhausted_ret].
Qed.

Lemma only_exhausted_unbiased fuel lo hi :
  throws_only_exhausted (unbiased fuel lo hi).
Proof.
  unfold unbiased. destruct (if hi <? lo then _ else _) as [lo' hi'].
  destruct (lo' =? hi'); [apply only_exhausted_ret|].
  destruct (_ =? MAX64); [apply only_exhausted_next|].
  apply only_exhausted_bind; [apply only_exhausted_draw_until|].
  intros v. apply only_exhausted_ret.
Qed.

Lemma only_exhausted_draw fuel characters :
  throws_only_exhausted (draw fuel characters).
Proof.
  unfold draw. apply only_exhausted_bind; [apply only_exhausted_unbiased|].
  intros i. destruct (i <? _); [|apply only_exhausted_undefined].
  destruct (characters !! Z.to_nat i);
    [apply only_exhausted_ret|apply only_exhausted_undefined].
Qed.

Lemma only_exhausted_draw_required fuel require set password :
  throws_only_exhausted (draw_required fuel require set password).
Proof.
  unfold draw_required. destruct require; [|apply only_exhausted_ret].
  apply only_exhausted_bind; [apply only_exhausted_draw|].
  intros c. apply only_exhausted_ret.
Qed.

Lemma only_exhausted_fill fuel n L all password :
  throws_only_exhausted (fill fuel n L all password).
Proof.
  revert password. induction n as [|n IH]; intros password; cbn [fill];
    [apply only_exhausted_ret|].
  destruct (_ <? L); [|apply only_exhausted_ret].
  apply only_exhausted_bind; [apply only_exhausted_draw|]. intros c. apply IH.
Qed.

Lemma only_exhausted_shuffle fuel i password :
  throws_only_exhausted (shuffle fuel i password).
Proof.
  revert password. induction i as [|i IH]; intros password; cbn [shuffle];
    [apply only_exhausted_ret|].
  apply only_exhausted_bind; [apply only_exhausted_unbiased|]. intros j.
  destruct (swap _ _ _); [apply IH|apply only_exhausted_undefined].
Qed.

Lemma only_exhausted_compose fuel L upper lower digits symbols ru rl rd rs :
  throws_only_exhausted (compose fuel L upper lower digits symbols ru rl rd rs).
Proof.
  unfold compose.
  repeat (apply only_exhausted_bind;
          [apply only_exhausted_draw_required|intros ?]).
  apply only_exhausted_bind; [apply only_exhausted_fill|intros ?].
  apply only_exhausted_shuffle.
Qed.

(* with no category required the pool is empty, and the first character
   is read past its end *)
Lemma compose_no_category fuel L upper lower digits symbols s :
  inv s -> word_index s < 8 -> 1 <= L ->
  fst (compose fuel L upper lower digits symbols false false false false s)
    = Undefined.
Proof.
  intros Hs Hw HL. unfold compose, all_chars, draw_required.
  cbn [app]. unfold bind at 1 2 3 4 5, ret at 1 2 3 4.
  destruct (Z.to_nat L) as [|n] eqn:En; [lia|]. cbn [fill length].
  destruct (Z.ltb_spec (Z.of_nat 0) L); [|lia].
  unfold bind at 1. unfold draw. cbn [length].
  change (wrap64 (Z.of_nat 0 - 1)) with MAX64.
  unfold bind at 1. rewrite unbiased_eq by (word_consts; lia).
  change (0 =? MAX64) with false. change (MAX64 - 0 =? MAX64) with true. cbv iota.
  destruct (next_cases s Hs) as [[_ ->]|[(? & _)|(? & _)]]; [|lia..].
  destruct (_ <? Z.of_nat 0); reflexivity.
Qed.

(** Validation *)

Lemma generate_password_rejects fuel U P S L V upper lower digits symbols
    ru rl rd rs :
  must_reject U P S L V upper lower digits symbols ru rl rd rs ->
  invalid_argument_thrown
    (generate_password fuel U P S L V upper lower digits symbols ru rl rd rs).
Proof.
  unfold must_reject, invalid_argument_thrown, generate_password, is_empty.
  intros H.
  destruct U as [|u U]; [by eexists|]. cbn [length Nat.eqb].
  destruct P as [|p P]; [by eexists|]. cbn [length Nat.eqb].
  destruct S as [|s S]; [by eexists|]. cbn [length Nat.eqb].
  destruct (Z.ltb_spec L 6); [by eexists|].
  destruct (Z.ltb_spec 128 L); [by eexists|]. cbn [orb].
  destruct (Z.ltb_spec V 1); [by eexists|].
  destruct ru, upper as [|? ?]; cbn [andb length Nat.eqb]; try by eexists.
  all: destruct rl, lower as [|? ?]; cbn [andb length Nat.eqb]; try by eexists.
  all: destruct rd, digits as [|? ?]; cbn [andb length Nat.eqb]; try by eexists.
  all: destruct rs, symbols as [|? ?]; cbn [andb length Nat.eqb]; try by eexists.
  all: match goal with
       | |- context [?l <? ?x] => destruct (Z.ltb_spec l x); [by eexists|]
       end.
  all: exfalso; cbn [required_count] in *; intuition (try discriminate; try lia).
Qed.

Lemma of_block32_ok (hash1 : list Z) :
  length hash1 = 8%nat ->
  exists rng, of_block32 hash1 = Ok rng /\ inv rng /\ word_index rng = 0.
Proof.
  intros Hlen. unfold of_block32.
  set (temp := ChaCha.permute_inplace _).
  assert (Ht : length temp = 16%nat).
  { subst temp. rewrite length_permute_inplace, length_app, length_take.
    unfold Block.zero. rewrite length_replicate. lia. }
  unfold construct. rewrite refill_buffer_eq. cbn [fresh block_counter].
  change (add64 0 1 =? 0) with false. cbv iota.
  eexists. split; [reflexivity|]. split; [|reflexivity].
  apply inv_refilled; cbn [fresh key nonce block_counter buffer].
  - unfold is_key. rewrite length_take. lia.
  - unfold is_nonce. rewrite length_take, length_drop. lia.
  - word_consts. lia.
  - reflexivity.
Qed.

Lemma generate_password_accepts fuel U P S L V upper lower digits symbols
    ru rl rd rs :
  ~ must_reject U P S L V upper lower digits symbols ru rl rd rs ->
  exists rng,
    inv rng /\ word_index rng = 0 /\
    generate_password fuel U P S L V upper lower digits symbols ru rl rd rs
    = fst (compose fuel L upper lower digits symbols ru rl rd rs rng).
Proof.
  unfold must_reject. intros H.
  destruct (StoneKey_accepts P (context V U S L ru rl rd rs)
              StoneKey.STONEKEY_V2_M_COST StoneKey.STONEKEY_V2_T_COST)
    as (hash1 & Hk & Hlen).
  { unfold StoneKey.STONEKEY_V2_M_COST. lia. }
  { unfold StoneKey.STONEKEY_V2_T_COST. lia. }
  { intros ->. apply H. tauto. }
  destruct (of_block32_ok hash1 Hlen) as (rng & Hr & Hi & Hw).
  exists rng. split; [done|]. split; [done|].
  unfold generate_password, is_empty.
  destruct U as [|u U]; [exfalso; apply H; tauto|]. cbn [length Nat.eqb].
  destruct P as [|p P]; [exfalso; apply H; tauto|]. cbn [length Nat.eqb].
  destruct S as [|s S]; [exfalso; apply H; tauto|]. cbn [length Nat.eqb].
  destruct (Z.ltb_spec L 6); [exfalso; apply H; tauto|].
  destruct (Z.ltb_spec 128 L); [exfalso; apply H; tauto|]. cbn [orb].
  destruct (Z.ltb_spec V 1); [exfalso; apply H; tauto|].
  assert (Eu : ru && (length upper =? 0)%nat = false).
  { destruct ru, upper; try reflexivity. exfalso; apply H; tauto. }
  assert (El : rl && (length lower =? 0)%nat = false).
  { destruct rl, lower; try reflexivity. exfalso; apply H; tauto. }
  assert (Ed : rd && (length digits =? 0)%nat = false).
  { destruct rd, digits; try reflexivity. exfalso; apply H; tauto. }
  assert (Es : rs && (length symbols =? 0)%nat = false).
  { destruct rs, symbols; try reflexivity. exfalso; apply H; tauto. }
  rewrite Eu, El, Ed, Es.
  destruct (Z.ltb_spec L (required_count ru rl rd rs)); [exfalso; apply H; tauto|].
  rewrite Hk. cbn [outcome_bind]. rewrite Hr. reflexivity.
Qed.
End PassFacts.

(** ** Drawing from an accepted keystream *)

Section Acceptance.
Import Word StoneRNG StonePass.

(** Calls that return: when the keystream words that a call draws are
    accepted by its rejection loops, the call returns. *)

Lemma accepted_prefix n bound s :
  accepted (S n) bound s -> accepted n bound s.
Proof.
  revert s. induction n as [|n IH]; intros s; [done|].
  intros (v & E & Hv & H). exists v. split; [done|]. split; [done|].
  by apply IH.
Qed.

Lemma accepted_drop k n bound s :
  accepted (k + n) bound s -> accepted n bound s.
Proof.
  induction k as [|k IH]; [done|]. intros H. apply IH.
  by apply accepted_prefix.
Qed.

Lemma accepted_step n bound s v s' :
  next s = (Ok v, s') -> v <= bound -> accepted n bound s' ->
  accepted (S n) bound s.
Proof. intros E Hv H. exists v. by rewrite E. Qed.

Lemma draws_ret {A} (a : A) bound (Q : A -> Prop) :
  Q a -> draws 0 bound Q (ret a).
Proof. intros HQ n s H. by exists a, s. Qed.

Lemma draws_bind {A B} k1 k2 bound (Q1 : A -> Prop) (Q2 : B -> Prop)
    (m : M A) (f : A -> M B) :
  draws k1 bound Q1 m -> (forall a, Q1 a -> draws k2 bound Q2 (f a)) ->
  draws (k1 + k2) bound Q2 (bind m f).
Proof.
  intros Hm Hf n s H. rewrite <- Nat.add_assoc in H.
  destruct (Hm _ _ H) as (a & s1 & E & HQ & H1).
  destruct (Hf a HQ _ _ H1) as (b & s2 & E2 & HQ2 & H2).
  exists b, s2. unfold bind. rewrite E. done.
Qed.

Lemma draws_weaken {A} k k' bound (Q : A -> Prop) (m : M A) :
  draws k bound Q m -> (k <= k')%nat -> draws k' bound Q m.
Proof.
  intros Hm Hk n s H.
  replace (k' + n)%nat with (k + ((k' - k) + n))%nat in H by lia.
  destruct (Hm _ _ H) as (a & s1 & E & HQ & H1).
  exists a, s1. split; [done|]. split; [done|]. by eapply accepted_drop.
Qed.

Lemma draws_next bound : draws 1 bound (fun v => v <= bound) next.
Proof.
  intros n s (v & E & Hv & H). exists v, (snd (next s)).
  split; [|done]. rewrite <- E. apply surjective_pairing.
Qed.

Lemma draws_draw_until fuel limit bound :
  (1 <= fuel)%nat -> bound <= limit ->
  draws 1 bound (fun v => v <= limit) (draw_until fuel limit).
Proof.
  intros Hf Hb n s H. destruct fuel as [|fuel]; [lia|].
  destruct (draws_next bound n s H) as (v & s1 & E & Hv & H1).
  exists v, s1. cbn [draw_until]. unfold bind. rewrite E.
  destruct (Z.ltb_spec limit v); [lia|]. split; [done|]. split; [lia|done].
Qed.

(* unbiased(0, hi) for a range that is not the full one *)
Lemma draws_unbiased fuel hi bound :
  (1 <= fuel)%nat -> 0 <= hi < MAX64 -> bound <= MAX64 - hi ->
  draws 1 bound (fun v => 0 <= v <= hi) (unbiased fuel 0 hi).
Proof.
  intros Hf Hhi Hb n s H.
  assert (H0 : is_u64 0) by (word_consts; lia).
  assert (H1 : is_u64 hi) by (word_consts; lia).
  rewrite unbiased_eq by (first [assumption|lia]).
  destruct (Z.eqb_spec 0 hi) as [<-|Hne].
  { exists 0, s. split; [done|]. split; [lia|]. by apply accepted_prefix. }
  destruct (Z.eqb_spec (hi - 0) MAX64); [lia|].
  destruct (unbiased_value_range 0 hi 0 H0 H1 ltac:(lia) ltac:(lia))
    as (HR & _ & _).
  assert (Hlim : bound <= unbiased_limit 0 hi).
  { unfold unbiased_limit. rewrite HR.
    pose proof (Z.mod_pos_bound MAX64 (hi - 0 + 1) ltac:(lia)). lia. }
  destruct (draws_draw_until fuel _ bound Hf Hlim n s H)
    as (v & s1 & E & Hv & Hs1).
  exists (unbiased_value 0 hi v), s1. unfold bind. rewrite E.
  split; [done|]. split; [|done].
  destruct (unbiased_value_range 0 hi v H0 H1 ltac:(lia) ltac:(lia))
    as (_ & _ & ?). done.
Qed.

Lemma draws_draw fuel characters bound :
  (1 <= fuel)%nat -> characters <> [] ->
  Z.of_nat (length characters) < 2 ^ 64 ->
  bound <= MAX64 - Z.of_nat (length characters) ->
  draws 1 bound (fun _ => True) (draw fuel characters).
Proof.
  intros Hf Hne Hlen Hb n s H. unfold draw.
  assert (Hpos : 0 < Z.of_nat (length characters)).
  { destruct characters; [done|]. cbn [length]. lia. }
  rewrite (wrap64_small (Z.of_nat (length characters) - 1))
    by (word_consts; lia).
  destruct (draws_unbiased fuel (Z.of_nat (length characters) - 1) bound Hf
              ltac:(word_consts; lia) ltac:(lia) n s H)
    as (i & s1 & E & Hi & Hs1).
  unfold bind. rewrite E.
  destruct (Z.ltb_spec i (Z.of_nat (length characters))); [|lia].
  destruct (lookup_lt_is_Some_2 characters (Z.to_nat i)) as [c Hc]; [lia|].
  rewrite Hc. by exists c, s1.
Qed.

Lemma draws_draw_required fuel (require : bool) set password bound :
  (1 <= fuel)%nat -> (require = true -> set <> []) ->
  Z.of_nat (length set) < 2 ^ 64 ->
  (require = true -> bound <= MAX64 - Z.of_nat (length set)) ->
  draws (if require then 1 else 0) bound
    (fun p => length p = (length password + (if require then 1 else 0))%nat)
    (draw_required fuel require set password).
Proof.
  intros Hf Hne Hlen Hb. unfold draw_required. destruct require.
  - change 1%nat with (1 + 0)%nat at 1.
    eapply draws_bind; [apply draws_draw; auto|].
    intros c _. apply draws_ret. rewrite length_app. reflexivity.
  - apply draws_ret. lia.
Qed.

Lemma draws_fill fuel L all bound :
  (1 <= fuel)%nat -> all <> [] -> Z.of_nat (length all) < 2 ^ 64 ->
  bound <= MAX64 - Z.of_nat (length all) ->
  forall n password,
    Z.of_nat (length password) <= L ->
    L - Z.of_nat (length password) <= Z.of_nat n ->
    draws (Z.to_nat (L - Z.of_nat (length password))) bound
      (fun p => Z.of_nat (length p) = L)
      (fill fuel n L all password).
Proof.
  intros Hf Hne Hlen Hb. induction n as [|n IH]; intros password Hp Hn;
    cbn [fill].
  - replace (Z.to_nat (L - Z.of_nat (length password))) with 0%nat by lia.
    apply draws_ret. lia.
  - destruct (Z.ltb_spec (Z.of_nat (length password)) L).
    + replace (Z.to_nat (L - Z.of_nat (length password)))
        with (1 + Z.to_nat (L - Z.of_nat (length (password ++ [NUL]))))%nat
        by (rewrite length_app; cbn [length]; lia).
      eapply draws_bind; [by apply draws_draw|].
      intros c _.
      replace (length (password ++ [NUL])) with (length (password ++ [c]))
        by (by rewrite !length_app).
      apply IH; rewrite length_app; cbn [length]; lia.
    + replace (Z.to_nat (L - Z.of_nat (length password))) with 0%nat by lia.
      apply draws_ret. lia.
Qed.

Lemma draws_shuffle fuel bound :
  (1 <= fuel)%nat ->
  forall i (password : list ascii),
    (i < length password)%nat -> Z.of_nat i < MAX64 ->
    bound <= MAX64 - Z.of_nat i ->
    draws i bound (fun p => length p = length password)
      (shuffle fuel i password).
Proof.
  intros Hf. induction i as [|i IH]; intros password Hi Hmax Hb;
    cbn [shuffle].
  - by apply draws_ret.
  - change (S i) with (1 + i)%nat at 1.
    eapply draws_bind; [apply (draws_unbiased fuel (Z.of_nat (S i))); [done|lia|lia]|].
    intros j Hj. cbv beta in Hj |- *.
    destruct (swap_defined (S i) (Z.to_nat j) password) as [p Hp]; [lia|lia|].
    rewrite Hp. pose proof (swap_length _ _ _ _ Hp) as Hl.
    eapply (draws_weaken i i); [|lia].
    intros n s H. rewrite <- Hl. revert n s H.
    apply IH; lia.
Qed.

(* the composer returns a password when the 2 L - 1 words that it draws at
   most are accepted *)
Lemma draws_compose fuel L upper lower digits symbols ru rl rd rs :
  (1 <= fuel)%nat -> 4 <= L < 2 ^ 63 ->
  (ru = true -> upper <> []) -> (rl = true -> lower <> []) ->
  (rd = true -> digits <> []) -> (rs = true -> symbols <> []) ->
  ru || rl || rd || rs = true ->
  Z.of_nat (length (all_chars upper lower digits symbols ru rl rd rs)) < 2 ^ 64 ->
  draws (Z.to_nat (2 * L - 1))
    (MAX64 - Z.max L (Z.of_nat (length (all_chars upper lower digits symbols
                                          ru rl rd rs))))
    (fun p => Z.of_nat (length p) = L)
    (compose fuel L upper lower digits symbols ru rl rd rs).
Proof.
  intros Hf HL Hu Hl Hd Hs Hany Hlen.
  destruct (all_chars_length_ge upper lower digits symbols ru rl rd rs)
    as (Lu & Ll & Ld & Ls).
  set (all := all_chars upper lower digits symbols ru rl rd rs) in *.
  set (bound := MAX64 - Z.max L (Z.of_nat (length all))).
  assert (Hne : all <> []).
  { subst all. unfold all_chars. destruct ru, rl, rd, rs; try done;
      intros H; repeat apply app_eq_nil in H as [? H]; intuition. }
  assert (Hreq : forall (r : bool) set p,
            (r = true -> set <> []) ->
            (r = true -> (length set <= length all)%nat) ->
            draws (if r then 1 else 0) bound
              (fun p' => length p' = (length p + (if r then 1 else 0))%nat)
              (draw_required fuel r set p)).
  { intros r set p Hr Hle. destruct r.
    - apply (draws_draw_required fuel true set p bound); [done|done| |];
        specialize (Hle eq_refl); subst bound; lia.
    - unfold draw_required. apply draws_ret. lia. }
  unfold compose. fold all.
  set (k := ((if ru then 1 else 0) + (if rl then 1 else 0)
             + (if rd then 1 else 0) + (if rs then 1 else 0))%nat).
  apply (draws_weaken
           ((if ru then 1 else 0)
            + ((if rl then 1 else 0)
               + ((if rd then 1 else 0)
                  + ((if rs then 1 else 0)
                     + (Z.to_nat (L - Z.of_nat k)
                        + Z.to_nat (L - 1))))))%nat);
    [|subst k; destruct ru, rl, rd, rs; lia].
  eapply draws_bind; [by apply (Hreq ru upper [])|]. intros p1 H1.
  eapply draws_bind; [by apply (Hreq rl lower p1)|]. intros p2 H2.
  eapply draws_bind; [by apply (Hreq rd digits p2)|]. intros p3 H3.
  eapply draws_bind; [by apply (Hreq rs symbols p3)|]. intros p4 H4.
  assert (Hk : length p4 = k).
  { subst k. rewrite H4, H3, H2, H1. cbn [length]. lia. }
  eapply draws_bind.
  { rewrite <- Hk. apply draws_fill; first [done | subst bound; lia | idtac].
    rewrite Hk. subst k. destruct ru, rl, rd, rs; lia. }
  intros p5 H5. cbv beta in H5 |- *.
  eapply (draws_weaken (Z.to_nat (L - 1))); [|lia].
  intros n s H.
  destruct (draws_shuffle fuel bound Hf (Z.to_nat (L - 1)) p5
              ltac:(lia) ltac:(word_consts; lia) ltac:(subst bound; lia) n s H)
    as (p & s' & E & Hp & Hs').
  exists p, s'. split; [done|]. split; [lia|done].
Qed.

(* the generator of the zero key: the eight characters of a password and
   the seven indices of the shuffle take its first fifteen words *)
Example compose_on_sample :
  accepted 15 (MAX64 - 73) sample
  /\ fst (compose 1 8 STONEPASS_UPPERCASE STONEPASS_LOWERCASE STONEPASS_DIGITS
            STONEPASS_SYMBOLS true true true true sample)
     = Ok (lit "7]wiA:G[").
Proof.
  split; [|by vm_compute].
  do 15 (eapply accepted_step; [vm_compute; reflexivity|by vm_compute|]).
  exact I.
Qed.

(* the generator that generate_password draws from *)
Lemma generate_password_generator fuel U P S L V upper lower digits symbols
    ru rl rd rs :
  ~ must_reject U P S L V upper lower digits symbols ru rl rd rs ->
  exists hash1 rng,
    StoneKey.StoneKey P (context V U S L ru rl rd rs)
      StoneKey.STONEKEY_V2_M_COST StoneKey.STONEKEY_V2_T_COST = Ok hash1
    /\ of_block32 hash1 = Ok rng
    /\ inv rng /\ word_index rng = 0
    /\ generate_password fuel U P S L V upper lower digits symbols ru rl rd rs
       = fst (compose fuel L upper lower digits symbols ru rl rd rs rng).
Proof.
  unfold must_reject. intros H.
  destruct (StoneKey_accepts P (context V U S L ru rl rd rs)
              StoneKey.STONEKEY_V2_M_COST StoneKey.STONEKEY_V2_T_COST)
    as (hash1 & Hk & Hlen).
  { unfold StoneKey.STONEKEY_V2_M_COST. lia. }
  { unfold StoneKey.STONEKEY_V2_T_COST. lia. }
  { intros ->. apply H. tauto. }
  destruct (of_block32_ok hash1 Hlen) as (rng & Hr & Hi & Hw).
  exists hash1, rng. split; [done|]. split; [done|]. split; [done|].
  split; [done|].
  unfold generate_password, is_empty.
  destruct U as [|u U]; [exfalso; apply H; tauto|]. cbn [length Nat.eqb].
  destruct P as [|p P]; [exfalso; apply H; tauto|]. cbn [length Nat.eqb].
  destruct S as [|s S]; [exfalso; apply H; tauto|]. cbn [length Nat.eqb].
  destruct (Z.ltb_spec L 6); [exfalso; apply H; tauto|].
  destruct (Z.ltb_spec 128 L); [exfalso; apply H; tauto|]. cbn [orb].
  destruct (Z.ltb_spec V 1); [exfalso; apply H; tauto|].
  assert (Eu : ru && (length upper =? 0)%nat = false).
  { destruct ru, upper; try reflexivity. exfalso; apply H; tauto. }
  assert (El : rl && (length lower =? 0)%nat = false).
  { destruct rl, lower; try reflexivity. exfalso; apply H; tauto. }
  assert (Ed : rd && (length digits =? 0)%nat = false).
  { destruct rd, digits; try reflexivity. exfalso; apply H; tauto. }
  assert (Es : rs && (length symbols =? 0)%nat = false).
  { destruct rs, symbols; try reflexivity. exfalso; apply H; tauto. }
  rewrite Eu, El, Ed, Es.
  destruct (Z.ltb_spec L (required_count ru rl rd rs)); [exfalso; apply H; tauto|].
  rewrite Hk. cbn [outcome_bind]. rewrite Hr. reflexivity.
Qed.
End Acceptance.

(** ** The composer's claims *)

Section PassClaims.
Import Word StoneRNG StonePass.

(** C1: the context string that generate_password builds. The quoted
    operands are taken as C strings, which end at their first NUL: the
    context has no NUL after "StonePassword_v1.0" and none of the labels
    "\0upper:", "\0lower:", "\0digits:", "\0symbols:"; it is never the
    string of the specification. *)
Theorem context_drops_separators (V : Z) (U S : list ascii) (L : Z)
    (upper lower digits symbols : bool) :
  context V U S L upper lower digits symbols
  = lit "StonePassword_v1.0" ++ to_string V ++ [NUL]
      ++ U ++ [NUL] ++ S ++ [NUL]
      ++ lit "len:" ++ to_string L
      ++ lit (if upper then "1" else "0") ++ lit (if lower then "1" else "0")
      ++ lit (if digits then "1" else "0") ++ lit (if symbols then "1" else "0")
  /\ context V U S L upper lower digits symbols
     <> context_spec V U S L upper lower digits symbols.
Proof. split; [apply context_eq|apply context_differs]. Qed.

Example context_of_alice :
  context 1 (lit "alice") (lit "github.com") 20 true true true true
  = lit "StonePassword_v1.01" ++ [NUL] ++ lit "alice" ++ [NUL]
      ++ lit "github.com" ++ [NUL] ++ lit "len:201111".
Proof. vm_compute. reflexivity. Qed.

Lemma or_decided (A B : Prop) :
  A \/ ~ A -> B \/ ~ B -> (A \/ B) \/ ~ (A \/ B).
Proof. tauto. Qed.

Lemma and_decided (A B : Prop) :
  A \/ ~ A -> B \/ ~ B -> (A /\ B) \/ ~ (A /\ B).
Proof. tauto. Qed.

Lemma nil_decided (l : list ascii) : l = [] \/ l <> [].
Proof. destruct l; [by left|by right]. Qed.

Lemma lt_decided (a b : Z) : a < b \/ ~ a < b.
Proof. lia. Qed.

Lemma true_decided (b : bool) : b = true \/ b <> true.
Proof. destruct b; [by left|by right]. Qed.

Lemma classic_must_reject U P S L V upper lower digits symbols ru rl rd rs :
  must_reject U P S L V upper lower digits symbols ru rl rd rs
  \/ ~ must_reject U P S L V upper lower digits symbols ru rl rd rs.
Proof.
  unfold must_reject.
  repeat first [ apply or_decided | apply and_decided | apply nil_decided
               | apply lt_decided | apply true_decided ].
Qed.

Lemma alice_not_rejected :
  ~ must_reject (lit "alice") (lit "correct horse battery staple")
      (lit "github.com") 20 1
      STONEPASS_UPPERCASE STONEPASS_LOWERCASE STONEPASS_DIGITS STONEPASS_SYMBOLS
      true true true true.
Proof.
  unfold must_reject, required_count.
  intros [H|[H|[H|[H|[H|[H|[[_ H]|[[_ H]|[[_ H]|[[_ H]|H]]]]]]]]]];
    first [discriminate H|lia].
Qed.

(* with no category required nothing is rejected and nothing returned:
   the first character is drawn from the empty pool *)
Lemma no_category_is_not_rejected :
  ~ must_reject (lit "alice") (lit "correct horse battery staple")
      (lit "github.com") 20 1
      STONEPASS_UPPERCASE STONEPASS_LOWERCASE STONEPASS_DIGITS STONEPASS_SYMBOLS
      false false false false
  /\ forall fuel,
       generate_password fuel (lit "alice") (lit "correct horse battery staple")
         (lit "github.com") 20 1
         STONEPASS_UPPERCASE STONEPASS_LOWERCASE STONEPASS_DIGITS
         STONEPASS_SYMBOLS false false false false
       = Undefined.
Proof.
  assert (Hv : ~ must_reject (lit "alice") (lit "correct horse battery staple")
      (lit "github.com") 20 1
      STONEPASS_UPPERCASE STONEPASS_LOWERCASE STONEPASS_DIGITS STONEPASS_SYMBOLS
      false false false false).
  { unfold must_reject, required_count.
    intros [H|[H|[H|[H|[H|[H|[[H _]|[[H _]|[[H _]|[[H _]|H]]]]]]]]]];
      first [discriminate H|lia]. }
  split; [exact Hv|]. intros fuel.
  destruct (generate_password_accepts fuel _ _ _ _ _ _ _ _ _ _ _ _ _ Hv)
    as (rng & Hi & Hw & ->).
  apply compose_no_category; [done|lia|lia].
Qed.

(* no string conforms to a policy that requires no category *)
Lemma no_category_no_conforming password L upper lower digits symbols :
  1 <= L -> ~ conforms password L upper lower digits symbols
               false false false false.
Proof.
  intros HL (Hlen & _ & _ & _ & _ & Hin).
  destruct password as [|c password]; [cbn [length] in Hlen; lia|].
  destruct (Hin c) as [[H _]|[[H _]|[[H _]|[H _]]]];
    [apply list_elem_of_here|discriminate H..].
Qed.

(** C5: policy conformance of generate_password, and where it fails.
    For every input that the validation lets pass: when at least one
    category is required, a returned password has length L, holds a
    character of every required category and only characters of the
    required sets, the call is never undefined and throws nothing but
    the generator's exhaustion error, and it does return a password when
    the first 2L - 1 words of the derived generator's keystream pass the
    rejection sampling; when no category is required, the first
    character is drawn from the empty pool, which is read out of bounds,
    and no string could conform. *)
Theorem generated_password_conforms (fuel : nat)
    (username master_password site_name : list ascii)
    (password_length password_version : Z)
    (uppercase_chars lowercase_chars digit_chars symbol_chars : list ascii)
    (require_uppercase require_lowercase require_digits require_symbols : bool) :
  ~ must_reject username master_password site_name
      password_length password_version
      uppercase_chars lowercase_chars digit_chars symbol_chars
      require_uppercase require_lowercase require_digits require_symbols ->
  Z.of_nat (length (all_chars uppercase_chars lowercase_chars digit_chars
                      symbol_chars require_uppercase require_lowercase
                      require_digits require_symbols)) < 2 ^ 64 ->
  exists hash1 rng,
    StoneKey.StoneKey master_password
      (context password_version username site_name password_length
         require_uppercase require_lowercase require_digits require_symbols)
      StoneKey.STONEKEY_V2_M_COST StoneKey.STONEKEY_V2_T_COST = Ok hash1
    /\ of_block32 hash1 = Ok rng
    /\ if require_uppercase || require_lowercase || require_digits
            || require_symbols
       then
         match generate_password fuel username master_password site_name
                 password_length password_version
                 uppercase_chars lowercase_chars digit_chars symbol_chars
                 require_uppercase require_lowercase require_digits
                 require_symbols
         return Prop with
         | Ok password =>
             conforms password password_length
               uppercase_chars lowercase_chars digit_chars symbol_chars
               require_uppercase require_lowercase require_digits
               require_symbols
         | Throw e => e = exhausted
         | Undefined => False
         | OutOfFuel => Z.of_nat fuel <= 2 ^ 67 + 8
         end
         /\ ((1 <= fuel)%nat ->
             accepted (Z.to_nat (2 * password_length - 1))
               (MAX64
                - Z.max password_length
                    (Z.of_nat
                       (length (all_chars uppercase_chars lowercase_chars
                                  digit_chars symbol_chars require_uppercase
                                  require_lowercase require_digits
                                  require_symbols))))
               rng ->
             exists password,
               generate_password fuel username master_password site_name
                 password_length password_version
                 uppercase_chars lowercase_chars digit_chars symbol_chars
                 require_uppercase require_lowercase require_digits
                 require_symbols
               = Ok password)
       else
         generate_password fuel username master_password site_name
           password_length password_version
           uppercase_chars lowercase_chars digit_chars symbol_chars
           require_uppercase require_lowercase require_digits require_symbols
         = Undefined
         /\ ~ (exists password,
                 conforms password password_length
                   uppercase_chars lowercase_chars digit_chars symbol_chars
                   require_uppercase require_lowercase require_digits
                   require_symbols).
Proof.
  intros Hv Hlen.
  destruct (generate_password_generator fuel _ _ _ _ _ _ _ _ _ _ _ _ _ Hv)
    as (hash1 & rng & Hk & Hr & Hi & Hw & ->).
  exists hash1, rng. split; [exact Hk|]. split; [exact Hr|].
  unfold must_reject in Hv.
  destruct (require_uppercase || require_lowercase || require_digits
            || require_symbols) eqn:Hany; cycle 1.
  { apply orb_false_iff in Hany
      as [[[-> ->]%orb_false_iff ->]%orb_false_iff ->].
    split; [apply compose_no_category; [done|lia|lia]|].
    intros [password Hc]. revert Hc. apply no_category_no_conforming. lia. }
  split.
  - pose proof (returns_compose fuel password_length
                  uppercase_chars lowercase_chars digit_chars symbol_chars
                  require_uppercase require_lowercase require_digits
                  require_symbols rng Hi) as [_ Hret].
    + lia.
    + lia.
    + lia.
    + intros Hq ->. apply Hv. tauto.
    + intros Hq ->. apply Hv. tauto.
    + intros Hq ->. apply Hv. tauto.
    + intros Hq ->. apply Hv. tauto.
    + exact Hany.
    + exact Hlen.
    + destruct (fst _); done.
  - intros Hf Hacc.
    destruct (draws_compose fuel password_length
                uppercase_chars lowercase_chars digit_chars symbol_chars
                require_uppercase require_lowercase require_digits
                require_symbols Hf) with (n := 0%nat) (s := rng)
      as (password & s' & E & _ & _).
    + lia.
    + intros Hq ->. apply Hv. tauto.
    + intros Hq ->. apply Hv. tauto.
    + intros Hq ->. apply Hv. tauto.
    + intros Hq ->. apply Hv. tauto.
    + exact Hany.
    + exact Hlen.
    + by rewrite Nat.add_0_r.
    + exists password. by rewrite E.
Qed.

(* the defaults, with every category required *)
Lemma generated_password_conforms_witness :
  exists hash1 rng,
    StoneKey.StoneKey (lit "correct horse battery staple")
      (context 1 (lit "alice") (lit "github.com") 20 true true true true)
      StoneKey.STONEKEY_V2_M_COST StoneKey.STONEKEY_V2_T_COST = Ok hash1
    /\ of_block32 hash1 = Ok rng
    /\ match generate_password 64 (lit "alice")
               (lit "correct horse battery staple") (lit "github.com") 20 1
               STONEPASS_UPPERCASE STONEPASS_LOWERCASE STONEPASS_DIGITS
               STONEPASS_SYMBOLS true true true true
       return Prop with
       | Ok password =>
           conforms password 20
             STONEPASS_UPPERCASE STONEPASS_LOWERCASE STONEPASS_DIGITS
             STONEPASS_SYMBOLS true true true true
       | Throw e => e = exhausted
       | Undefined => False
       | OutOfFuel => Z.of_nat 64 <= 2 ^ 67 + 8
       end
    /\ ((1 <= 64)%nat ->
        accepted (Z.to_nat (2 * 20 - 1))
          (MAX64
           - Z.max 20
               (Z.of_nat
                  (length (all_chars STONEPASS_UPPERCASE STONEPASS_LOWERCASE
                             STONEPASS_DIGITS STONEPASS_SYMBOLS
                             true true true true))))
          rng ->
        exists password,
          generate_password 64 (lit "alice")
            (lit "correct horse battery staple") (lit "github.com") 20 1
            STONEPASS_UPPERCASE STONEPASS_LOWERCASE STONEPASS_DIGITS
            STONEPASS_SYMBOLS true true true true
          = Ok password).
Proof.
  refine (generated_password_conforms 64 (lit "alice")
            (lit "correct horse battery staple") (lit "github.com") 20 1
            STONEPASS_UPPERCASE STONEPASS_LOWERCASE STONEPASS_DIGITS
            STONEPASS_SYMBOLS true true true true alice_not_rejected _).
  vm_compute. reflexivity.
Defined.

(* where no category is required: the call is valid, nothing is
   returned, and no password could conform *)
Example no_category_has_no_password :
  ~ must_reject (lit "alice") (lit "correct horse battery staple")
      (lit "github.com") 20 1
      STONEPASS_UPPERCASE STONEPASS_LOWERCASE STONEPASS_DIGITS STONEPASS_SYMBOLS
      false false false false
  /\ generate_password 64 (lit "alice") (lit "correct horse battery staple")
       (lit "github.com") 20 1
       STONEPASS_UPPERCASE STONEPASS_LOWERCASE STONEPASS_DIGITS
       STONEPASS_SYMBOLS false false false false
     = Undefined
  /\ ~ (exists password,
          conforms password 20
            STONEPASS_UPPERCASE STONEPASS_LOWERCASE STONEPASS_DIGITS
            STONEPASS_SYMBOLS false false false false).
Proof.
  destruct no_category_is_not_rejected as [Hv Hu].
  split; [exact Hv|]. split; [apply Hu|].
  intros [password Hc]. revert Hc. apply no_category_no_conforming. lia.
Qed.

(** C6: the validation of generate_password. The invalid-argument error
    is thrown exactly under the listed conditions. An input that is not
    rejected and requires a category returns a password of length L when
    the first 2L - 1 words of the derived generator's keystream pass the
    rejection sampling; an input that is not rejected and requires no
    category returns nothing: the first character is read from the
    empty pool, out of bounds. *)
Theorem generate_password_validation (fuel : nat)
    (username master_password site_name : list ascii)
    (password_length password_version : Z)
    (uppercase_chars lowercase_chars digit_chars symbol_chars : list ascii)
    (require_uppercase require_lowercase require_digits require_symbols : bool) :
  (invalid_argument_thrown
     (generate_password fuel username master_password site_name
        password_length password_version
        uppercase_chars lowercase_chars digit_chars symbol_chars
        require_uppercase require_lowercase require_digits require_symbols)
   <-> must_reject username master_password site_name
         password_length password_version
         uppercase_chars lowercase_chars digit_chars symbol_chars
         require_uppercase require_lowercase require_digits require_symbols)
  /\ (~ must_reject username master_password site_name
          password_length password_version
          uppercase_chars lowercase_chars digit_chars symbol_chars
          require_uppercase require_lowercase require_digits require_symbols ->
      if require_uppercase || require_lowercase || require_digits
           || require_symbols
      then
        Z.of_nat (length (all_chars uppercase_chars lowercase_chars
                            digit_chars symbol_chars require_uppercase
                            require_lowercase require_digits
                            require_symbols)) < 2 ^ 64 ->
        exists hash1 rng,
          StoneKey.StoneKey master_password
            (context password_version username site_name password_length
               require_uppercase require_lowercase require_digits
               require_symbols)
            StoneKey.STONEKEY_V2_M_COST StoneKey.STONEKEY_V2_T_COST = Ok hash1
          /\ of_block32 hash1 = Ok rng
          /\ ((1 <= fuel)%nat ->
              accepted (Z.to_nat (2 * password_length - 1))
                (MAX64
                 - Z.max password_length
                     (Z.of_nat
                        (length (all_chars uppercase_chars lowercase_chars
                                   digit_chars symbol_chars require_uppercase
                                   require_lowercase require_digits
                                   require_symbols))))
                rng ->
              exists password,
                generate_password fuel username master_password site_name
                  password_length password_version
                  uppercase_chars lowercase_chars digit_chars symbol_chars
                  require_uppercase require_lowercase require_digits
                  require_symbols
                = Ok password
                /\ Z.of_nat (length password) = password_length)
      else
        generate_password fuel username master_password site_name
          password_length password_version
          uppercase_chars lowercase_chars digit_chars symbol_chars
          require_uppercase require_lowercase require_digits require_symbols
        = Undefined).
Proof.
  split; [split|].
  - intros [msg Hthrown].
    destruct (classic_must_reject username master_password site_name
                password_length password_version
                uppercase_chars lowercase_chars digit_chars symbol_chars
                require_uppercase require_lowercase require_digits
                require_symbols) as [Hr|Hr]; [exact Hr|].
    destruct (generate_password_accepts fuel _ _ _ _ _ _ _ _ _ _ _ _ _ Hr)
      as (rng & _ & _ & E).
    rewrite E in Hthrown.
    apply only_exhausted_compose in Hthrown. discriminate Hthrown.
  - apply generate_password_rejects.
  - intros Hv.
    destruct (require_uppercase || require_lowercase || require_digits
              || require_symbols) eqn:Hany.
    + intros Hlen.
      destruct (generate_password_generator fuel _ _ _ _ _ _ _ _ _ _ _ _ _ Hv)
        as (hash1 & rng & Hk & Hr & Hi & Hw & ->).
      exists hash1, rng. split; [exact Hk|]. split; [exact Hr|].
      intros Hf Hacc. unfold must_reject in Hv.
      destruct (draws_compose fuel password_length
                  uppercase_chars lowercase_chars digit_chars symbol_chars
                  require_uppercase require_lowercase require_digits
                  require_symbols Hf) with (n := 0%nat) (s := rng)
        as (password & s' & E & HQ & _).
      * lia.
      * intros Hq ->. apply Hv. tauto.
      * intros Hq ->. apply Hv. tauto.
      * intros Hq ->. apply Hv. tauto.
      * intros Hq ->. apply Hv. tauto.
      * exact Hany.
      * exact Hlen.
      * by rewrite Nat.add_0_r.
      * exists password. rewrite E. split; [reflexivity|exact HQ].
    + apply orb_false_iff in Hany
        as [[[-> ->]%orb_false_iff ->]%orb_false_iff ->].
      destruct (generate_password_accepts fuel _ _ _ _ _ _ _ _ _ _ _ _ _ Hv)
        as (rng & Hi & Hw & ->).
      unfold must_reject in Hv.
      apply compose_no_category; [done|lia|lia].
Qed.

(* nothing is rejected, and the first character is read from the empty
   pool *)
Lemma generate_password_validation_witness :
  generate_password 64 (lit "alice") (lit "correct horse battery staple")
    (lit "github.com") 20 1
    STONEPASS_UPPERCASE STONEPASS_LOWERCASE STONEPASS_DIGITS STONEPASS_SYMBOLS
    false false false false
  = Undefined.
Proof.
  exact (proj2 (generate_password_validation 64 (lit "alice")
           (lit "correct horse battery staple") (lit "github.com") 20 1
           STONEPASS_UPPERCASE STONEPASS_LOWERCASE STONEPASS_DIGITS
           STONEPASS_SYMBOLS false false false false)
           (proj1 no_category_is_not_rejected)).
Defined.
End PassClaims.

(** ** The generator: keystream, bounds, skipping *)

Section Keystream.
Import Word StoneRNG.

Lemma Ok_inj {A : Type} (a b : A) : Ok a = Ok b -> a = b.
Proof. by intros [= ->]. Qed.

Lemma nonce_words n : is_nonce n -> [n !!! 0%nat; n !!! 1%nat] = n.
Proof.
  intros Hn. unfold is_nonce in Hn.
  do 3 (destruct n as [|? n]; try discriminate Hn). reflexivity.
Qed.

Lemma make_ok k n c :
  is_key k -> is_nonce n -> is_u64 c -> c < MAX64 ->
  make k n c = Ok (refilled (fresh k n c))
  /\ inv (refilled (fresh k n c)).
Proof.
  intros Hk Hn Hc Hlt.
  assert (E : make k n c = Ok (refilled (fresh k n c))).
  { unfold make, construct. rewrite refill_buffer_eq.
    cbn [fresh block_counter].
    destruct (Z.eqb_spec (add64 c 1) 0) as [E|E]; [word_arith|reflexivity]. }
  split; [done|]. by apply (inv_construct k n c).
Qed.

Lemma u64_at_is_u64 b i : Forall is_u32 b -> is_u64 (Block.u64_at b i).
Proof.
  intros Hb. unfold Block.u64_at.
  pose proof (Forall_u32_lookup b (2 * i) Hb).
  pose proof (Forall_u32_lookup b (2 * i + 1) Hb).
  word_consts. lia.
Qed.

Lemma block_of_u32 s c : Forall is_u32 (block_of s c).
Proof. unfold block_of. apply permute_spec_u32. Qed.

(* what operator() returns is a 64-bit word *)
Lemma next_is_u64 s v : inv s -> fst (next s) = Ok v -> is_u64 v.
Proof.
  intros Hs. pose proof Hs as [_ Hbuf].
  destruct (next_cases s Hs) as [[Hw E]|[(Hw & Hc & E)|(Hw & Hc & E)]];
    rewrite E; cbn [fst]; intros H; [| |discriminate H];
    apply Ok_inj in H; subst v.
  - rewrite Hbuf by done. apply u64_at_is_u64, block_of_u32.
  - apply u64_at_is_u64, block_of_u32.
Qed.

(** X12: the generator returns the ChaCha20 keystream. After the
    construction from a key, a nonce and a counter c, call number i + 1
    of operator() returns the 64-bit word i mod 8 of the block that the
    permutation makes of the state of (key, nonce, c + i / 8), as long as
    the counter has not reached its last value. *)
Theorem keystream_is_chacha (k n : list Z) (c : Z) (i : nat) :
  is_key k -> is_nonce n -> is_u64 c -> c + Z.of_nat i / 8 < MAX64 ->
  exists s0,
    make k n c = Ok s0
    /\ fst (next_n (S i) 0 s0)
       = Ok (Block.u64_at
               (ChaCha.permute_spec (ChaCha.build_state k n (c + Z.of_nat i / 8)))
               (i mod 8)).
Proof.
  intros Hk Hn Hc Hi.
  assert (Hlt : c < MAX64).
  { pose proof (Z.div_pos (Z.of_nat i) 8). lia. }
  destruct (make_ok k n c Hk Hn Hc Hlt) as [Hm Hs].
  exists (refilled (fresh k n c)). split; [done|].
  rewrite next_n_at; [|done|].
  - cbn [fst]. unfold stream_word, block_of, refilled, fresh. fields.
    rewrite nonce_words by done. rewrite Z.add_0_l.
    replace (wrap64 (add64 c 1 - 1 + Z.of_nat i / 8)) with (c + Z.of_nat i / 8)
      by word_arith.
    do 2 f_equal. rewrite <- (Nat2Z.id (i mod 8)), Nat2Z.inj_mod. reflexivity.
  - unfold refilled, fresh. fields. rewrite Z.add_0_l. word_arith.
Qed.

Lemma keystream_is_chacha_witness :
  exists s0,
    make (Block.zero 8) (Block.zero 2) 0 = Ok s0
    /\ fst (next_n 10 0 s0)
       = Ok (Block.u64_at
               (ChaCha.permute_spec
                  (ChaCha.build_state (Block.zero 8) (Block.zero 2)
                     (0 + Z.of_nat 9 / 8)))
               (9 mod 8)).
Proof.
  apply (keystream_is_chacha (Block.zero 8) (Block.zero 2) 0 9).
  all: first [reflexivity | vm_compute; intuition congruence].
Defined.
End Keystream.

Section Contracts.
Import Word StoneRNG.

Lemma unbiased_swap fuel lo hi : unbiased fuel lo hi = unbiased fuel hi lo.
Proof.
  unfold unbiased.
  destruct (Z.ltb_spec hi lo), (Z.ltb_spec lo hi); try lia; try reflexivity.
  by replace hi with lo by lia.
Qed.

Lemma unbiased_sorted fuel lo hi s :
  inv s -> is_u64 lo -> is_u64 hi -> lo <= hi ->
  match fst (unbiased fuel lo hi s) with
  | Ok v => lo <= v <= hi
  | Throw e => e = exhausted
  | Undefined => False
  | OutOfFuel => Z.of_nat fuel <= 2 ^ 67 + 8
  end.
Proof.
  intros Hs Hlo Hhi Hle.
  destruct (returns_unbiased fuel lo hi s Hs Hlo Hhi Hle) as [_ Hr].
  destruct (fst (unbiased fuel lo hi s)) as [v| | |] eqn:E; try done.
  destruct (decide (hi - lo < MAX64)) as [Hlt|Hge]; [by apply Hr|].
  rewrite unbiased_eq in E by done.
  destruct (Z.eqb_spec lo hi); [word_consts; lia|].
  destruct (Z.eqb_spec (hi - lo) MAX64); [|word_consts; lia].
  apply next_is_u64 in E; [|done]. word_consts. lia.
Qed.

(** X14: unbiased(lo, hi) keeps to its bounds, in either order. On a
    generator reached through the public interface and for 64-bit
    bounds, the call with the bounds transposed is the same call, and a
    value that is returned lies between the smaller and the larger
    bound; the call throws nothing but the exhaustion error and reads
    nothing out of bounds. *)
Theorem unbiased_within_bounds (fuel : nat) (lo hi : Z) (s : t) :
  reachable s -> is_u64 lo -> is_u64 hi ->
  unbiased fuel lo hi s = unbiased fuel hi lo s
  /\ match fst (unbiased fuel lo hi s) with
     | Ok v => Z.min lo hi <= v <= Z.max lo hi
     | Throw e => e = exhausted
     | Undefined => False
     | OutOfFuel => Z.of_nat fuel <= 2 ^ 67 + 8
     end.
Proof.
  intros Hr Hlo Hhi. pose proof (reachable_inv s Hr) as Hs.
  split; [by rewrite unbiased_swap|].
  destruct (Z.le_ge_cases lo hi) as [Hle|Hle].
  - rewrite Z.min_l, Z.max_r by lia. by apply unbiased_sorted.
  - rewrite unbiased_swap, Z.min_r, Z.max_l by lia. by apply unbiased_sorted.
Qed.

Lemma unbiased_within_bounds_witness :
  unbiased 64 9 3 sample = unbiased 64 3 9 sample
  /\ match fst (unbiased 64 9 3 sample) with
     | Ok v => Z.min 9 3 <= v <= Z.max 9 3
     | Throw e => e = exhausted
     | Undefined => False
     | OutOfFuel => Z.of_nat 64 <= 2 ^ 67 + 8
     end.
Proof.
  refine (unbiased_within_bounds 64 9 3 sample sample_reachable _ _);
    word_consts; lia.
Defined.

(** X15: reseed(k, n) leaves the generator that the constructor makes of
    k, n and the counter 0: whatever the generator was before, nothing of
    its key, nonce, counter, buffer or position is left. *)
Theorem reseed_is_fresh_generator (k n : list Z) (s : t) :
  is_key k -> is_nonce n -> reachable s ->
  exists s', make k n 0 = Ok s' /\ reseed k n s = (Ok tt, s').
Proof.
  intros Hk Hn Hr. pose proof (reachable_inv s Hr) as [(_ & _ & _ & Hb & _) _].
  destruct (make_ok k n 0 Hk Hn) as [Hm _]; [word_consts; lia..|].
  exists (refilled (fresh k n 0)). split; [done|].
  unfold reseed. rewrite refill_buffer_eq. cbn [block_counter].
  change (add64 0 1 =? 0) with false. cbv iota. f_equal.
  by apply refilled_same_seed.
Qed.

Lemma reseed_is_fresh_generator_witness :
  exists s', make (Block.zero 8) [1; 2] 0 = Ok s'
             /\ reseed (Block.zero 8) [1; 2] sample_skipped = (Ok tt, s').
Proof.
  apply (reseed_is_fresh_generator (Block.zero 8) [1; 2] sample_skipped);
    [reflexivity|reflexivity|apply sample_skipped_reachable].
Defined.
End Contracts.

Section Skipping.
Import Word StoneRNG.

Lemma same_fields_equiv s1 s2 :
  inv s1 -> inv s2 ->
  key s1 = key s2 -> nonce s1 = nonce s2 ->
  block_counter s1 = block_counter s2 -> word_index s1 = word_index s2 ->
  equiv s1 s2.
Proof.
  intros H1 H2 Hk Hn Hc Hw. apply eqb_equiv; [done..|].
  apply eqb_true; [by apply inv_wf..|done].
Qed.

(* discard(n) moves the position by n *)
Lemma discard_position n s :
  inv s -> is_u64 n -> 0 < n ->
  block_counter s + (word_index s + n) / 8 < 2 ^ 64 ->
  exists s',
    discard n s = (Ok tt, s') /\ inv s'
    /\ key s' = key s /\ nonce s' = nonce s
    /\ position s' = position s + n /\ 1 <= word_index s' <= 8.
Proof.
  intros Hs Hn Hpos Hc.
  pose proof (inv_discard n s Hn Hs) as Hinv.
  pose proof Hs as [(Hk & Hnn & Hcu & Hb & Hw) _].
  assert (Hc0 : 0 <= block_counter s) by (unfold is_u64 in Hcu; lia).
  revert Hinv. rewrite discard_eq.
  destruct (Z.eqb_spec n 0); [lia|]. cbv zeta.
  rewrite (wrap64_small (8 - word_index s)) by (word_consts; lia).
  destruct (Z.ltb_spec n (8 - word_index s)).
  { intros Hinv. eexists. split; [reflexivity|]. cbn [snd] in Hinv.
    split; [done|]. unfold position. fields.
    rewrite wrap64_small by (word_consts; lia).
    split_and!; first [done|lia]. }
  rewrite (wrap64_small (n - (8 - word_index s))) by (word_consts; lia).
  set (n' := n - (8 - word_index s)).
  assert (Hn' : 0 <= n') by (subst n'; lia).
  assert (Hdiv : (word_index s + n) / 8 = 1 + n' / 8).
  { replace (word_index s + n) with (1 * 8 + n') by (subst n'; lia).
    rewrite Z.div_add_l by lia. reflexivity. }
  assert (Hq : 0 <= n' / 8) by (apply Z.div_pos; lia).
  assert (Hm : 0 <= n' mod 8 < 8) by (apply Z.mod_pos_bound; lia).
  pose proof (Z.div_mod n' 8 ltac:(lia)) as Hdm.
  destruct (Z.ltb_spec (MAX64 - n' / 8) (block_counter s)) as [Hov|Hov];
    [word_consts; lia|].
  rewrite andb_false_r.
  assert (Hadd : add64 (block_counter s) (n' / 8) = block_counter s + n' / 8)
    by (word_consts; rewrite Z.mod_small; lia).
  destruct (Z.ltb_spec 0 (n' / 8)) as [Hfull|Hfull].
  - destruct (Z.eqb_spec (n' mod 8) 0) as [Hr|Hr].
    + intros Hinv. eexists. split; [reflexivity|]. cbn [snd] in Hinv.
      split; [done|]. unfold position. fields. rewrite Hadd.
      split_and!; first [done|lia].
    + fields.
      destruct (Z.eqb_spec (add64 (add64 (block_counter s) (n' / 8)) 1) 0) as [E|E].
      { rewrite Hadd in E. word_consts. rewrite Z.mod_small in E; lia. }
      intros Hinv. eexists. split; [reflexivity|]. cbn [snd] in Hinv.
      split; [done|]. unfold position, refilled. fields. rewrite Hadd.
      split_and!; [done|done| |lia|lia].
      word_consts. rewrite Z.mod_small; lia.
  - assert (Hz : n' / 8 = 0) by lia.
    destruct (Z.eqb_spec (n' mod 8) 0) as [Hr|Hr].
    + intros Hinv. eexists. split; [reflexivity|]. cbn [snd] in Hinv.
      split; [done|]. unfold position. fields.
      split_and!; first [done|lia].
    + fields.
      destruct (Z.eqb_spec (add64 (block_counter s) 1) 0) as [E|E].
      { word_consts. rewrite Z.mod_small in E; lia. }
      intros Hinv. eexists. split; [reflexivity|]. cbn [snd] in Hinv.
      split; [done|]. unfold position, refilled. fields.
      split_and!; [done|done| |lia|lia].
      word_consts. rewrite Z.mod_small; lia.
Qed.

(** X16: discards add up. On a generator reached through the public
    interface, discard(a) followed by discard(b) and the single call
    discard(a + b) both succeed, as long as the counter does not pass
    its last value, and leave generators that no sequence of calls can
    tell apart. *)
Theorem discard_composes (s : t) (a b : Z) :
  reachable s -> is_u64 a -> is_u64 b -> is_u64 (a + b) ->
  block_counter s + (word_index s + (a + b)) / 8 < 2 ^ 64 ->
  exists s1 s2,
    bind (discard a) (fun _ => discard b) s = (Ok tt, s1)
    /\ discard (a + b) s = (Ok tt, s2)
    /\ equiv s1 s2
    /\ forall calls, Forall valid_call calls ->
         fst (run calls s1) = fst (run calls s2).
Proof.
  intros Hr Ha Hb Hab Hc. pose proof (reachable_inv s Hr) as Hs.
  pose proof Hs as [(Hk & Hnn & Hcu & Hbuf & Hw) _].
  assert (Hfuture : forall s1 s2, equiv s1 s2 ->
            forall calls, Forall valid_call calls ->
              fst (run calls s1) = fst (run calls s2)).
  { intros s1 s2 He calls Hv. by apply run_equiv. }
  destruct (Z.eq_dec a 0) as [->|Ha0].
  { exists (snd (discard b s)), (snd (discard b s)).
    assert (Hok : discard b s = (Ok tt, snd (discard b s))).
    { destruct (Z.eq_dec b 0) as [->|Hb0]; [reflexivity|].
      destruct (discard_position b s) as (s' & E & _);
        [done|done|unfold is_u64 in Hb; lia|by rewrite Z.add_0_l in Hc|].
      by rewrite E. }
    rewrite Z.add_0_l. unfold bind. cbn [discard Z.eqb ret].
    split_and!; [done|done|by left|]. apply Hfuture. by left. }
  destruct (Z.eq_dec b 0) as [->|Hb0].
  { destruct (discard_position a s) as (s' & E & _);
      [done|done|unfold is_u64 in Ha; lia|by rewrite Z.add_0_r in Hc|].
    exists s', s'. rewrite Z.add_0_r. unfold bind. rewrite E.
    split_and!; [done|done|by left|]. apply Hfuture. by left. }
  assert (Hapos : 0 < a) by (unfold is_u64 in Ha; lia).
  assert (Hbpos : 0 < b) by (unfold is_u64 in Hb; lia).
  destruct (discard_position a s) as (sa & Ea & Hsa & Ka & Na & Pa & Wa);
    [done|done|done| |].
  { pose proof (div8_mono (word_index s + a) (word_index s + (a + b))). lia. }
  assert (Hca : block_counter sa + (word_index sa + b) / 8
                = block_counter s + (word_index s + (a + b)) / 8).
  { unfold position in Pa.
    replace (word_index sa + b)
      with ((block_counter s - block_counter sa) * 8 + (word_index s + (a + b)))
      by lia.
    rewrite Z.div_add_l by lia. lia. }
  destruct (discard_position b sa) as (s1 & E1 & Hs1 & K1 & N1 & P1 & W1);
    [done|done|done|lia|].
  destruct (discard_position (a + b) s) as (s2 & E2 & Hs2 & K2 & N2 & P2 & W2);
    [done|done|lia|done|].
  exists s1, s2. unfold bind. rewrite Ea.
  assert (He : equiv s1 s2).
  { unfold position in *.
    apply same_fields_equiv; [done|done|congruence|congruence|lia|lia]. }
  split_and!; [done|done|done|by apply Hfuture].
Qed.

Lemma discard_composes_witness :
  exists s1 s2,
    bind (discard 5) (fun _ => discard 20) sample = (Ok tt, s1)
    /\ discard (5 + 20) sample = (Ok tt, s2)
    /\ equiv s1 s2
    /\ forall calls, Forall valid_call calls ->
         fst (run calls s1) = fst (run calls s2).
Proof.
  apply (discard_composes sample 5 20);
    [apply sample_reachable|word_consts; lia..|].
  vm_compute. reflexivity.
Defined.
End Skipping.

Section Limits.
Import Word StoneRNG.

(** X17: when discard fails. On a generator reached through the public
    interface, discard(n) throws the overflow error exactly when n
    reaches past the buffered words and the whole blocks to be skipped
    would carry the counter past its last value; it throws the
    exhaustion error exactly when the skip ends inside the block of the
    last counter value; every other call succeeds. A call that throws
    the overflow error has marked the buffered words as used and has
    changed nothing else. *)
Theorem discard_failures (s : t) (n : Z) :
  reachable s -> is_u64 n ->
  let beyond := n - (8 - word_index s) in
  (fst (discard n s) = Throw discard_overflow
   <-> 0 <= beyond /\ MAX64 < block_counter s + beyond / 8)
  /\ (fst (discard n s) = Throw exhausted
      <-> 0 <= beyond /\ block_counter s + beyond / 8 = MAX64
          /\ beyond mod 8 <> 0)
  /\ (fst (discard n s) = Ok tt
      <-> beyond < 0 \/ block_counter s + beyond / 8 < MAX64
          \/ (block_counter s + beyond / 8 = MAX64 /\ beyond mod 8 = 0))
  /\ (fst (discard n s) = Throw discard_overflow ->
      snd (discard n s) = with_word_index 8 s).
Proof.
  intros Hr Hn. pose proof (reachable_inv s Hr) as Hs.
  pose proof Hs as [(Hk & Hnn & Hcu & Hb & Hw) _].
  assert (Hc0 : 0 <= block_counter s <= MAX64) by (word_consts; lia).
  assert (Hn0 : 0 <= n) by (unfold is_u64 in Hn; lia).
  cbv zeta. rewrite discard_eq.
  destruct (Z.eqb_spec n 0) as [->|Hne].
  { cbn [fst snd]. assert (0 - (8 - word_index s) <= 0) by lia.
    destruct (Z.eq_dec (word_index s) 8) as [E|E].
    - rewrite E. change (0 - (8 - 8)) with 0. change (0 / 8) with 0.
      change (0 mod 8) with 0. rewrite Z.add_0_r.
      split_and!; [split; [done|lia]|split; [done|lia]| |done].
      split; [|done]. intros _. lia.
    - split_and!; [split; [done|lia]|split; [done|lia]| |done].
      split; [|done]. intros _. lia. }
  cbv zeta. rewrite (wrap64_small (8 - word_index s)) by (word_consts; lia).
  destruct (Z.ltb_spec n (8 - word_index s)).
  { cbn [fst snd].
    split_and!; [split; [done|lia]|split; [done|lia]| |done].
    split; [|done]. intros _. lia. }
  rewrite (wrap64_small (n - (8 - word_index s))) by (word_consts; lia).
  set (n' := n - (8 - word_index s)).
  assert (Hn' : 0 <= n') by (subst n'; lia).
  assert (Hq : 0 <= n' / 8) by (apply Z.div_pos; lia).
  assert (Hqu : n' / 8 < 2 ^ 64).
  { apply Z.div_lt_upper_bound; [lia|]. subst n'. word_consts. lia. }
  assert (Hm : 0 <= n' mod 8 < 8) by (apply Z.mod_pos_bound; lia).
  destruct (Z.ltb_spec (MAX64 - n' / 8) (block_counter s)) as [Hov|Hov].
  - (* the counter would overflow *)
    destruct (Z.ltb_spec 0 (n' / 8)) as [Hfull|Hfull]; [|lia].
    cbn [andb fst snd].
    split_and!; [split; [lia|done]| | |done].
    + split; [done|lia].
    + split; [done|]. lia.
  - rewrite andb_false_r.
    assert (Hadd : add64 (block_counter s) (n' / 8) = block_counter s + n' / 8)
      by (word_consts; rewrite Z.mod_small; lia).
    assert (Hc1 : block_counter
                    (if 0 <? n' / 8
                     then with_block_counter (add64 (block_counter s) (n' / 8))
                            (with_word_index 8 s)
                     else with_word_index 8 s)
                  = block_counter s + n' / 8).
    { destruct (Z.ltb_spec 0 (n' / 8)); fields; [done|lia]. }
    destruct (Z.eqb_spec (n' mod 8) 0) as [Hr0|Hr0].
    + cbn [fst].
      split_and!; [split; [done|lia]|split; [done|lia]| |done].
      split; [|done]. intros _. lia.
    + rewrite Hc1.
      destruct (Z.eqb_spec (add64 (block_counter s + n' / 8) 1) 0) as [E|E];
        cbn [fst].
      * assert (block_counter s + n' / 8 = MAX64) by word_arith.
        split_and!; [split; [done|lia]| | |done].
        -- split; [lia|done].
        -- split; [done|lia].
      * assert (block_counter s + n' / 8 <> MAX64).
        { intros E'. apply E. rewrite E'. reflexivity. }
        split_and!; [split; [done|lia]|split; [done|lia]| |done].
        split; [|done]. intros _. lia.
Qed.

Lemma discard_failures_witness :
  let beyond := 20 - (8 - word_index sample) in
  (fst (discard 20 sample) = Throw discard_overflow
   <-> 0 <= beyond /\ MAX64 < block_counter sample + beyond / 8)
  /\ (fst (discard 20 sample) = Throw exhausted
      <-> 0 <= beyond /\ block_counter sample + beyond / 8 = MAX64
          /\ beyond mod 8 <> 0)
  /\ (fst (discard 20 sample) = Ok tt
      <-> beyond < 0 \/ block_counter sample + beyond / 8 < MAX64
          \/ (block_counter sample + beyond / 8 = MAX64 /\ beyond mod 8 = 0))
  /\ (fst (discard 20 sample) = Throw discard_overflow ->
      snd (discard 20 sample) = with_word_index 8 sample).
Proof.
  refine (discard_failures sample 20 sample_reachable _). word_consts. lia.
Defined.

(* the last of n + 1 calls comes after the first n *)
Lemma next_n_snoc n first s :
  next_n (S (S n)) first s = bind (next_n (S n) first) (fun _ => next) s.
Proof.
  revert first s. induction n as [|n IH]; intros first s.
  - cbn [next_n]. unfold bind, ret.
    destruct (next s) as [[v|e| |] s1]; [|done..].
    destruct (next s1) as [[v'|e'| |] s2]; done.
  - change (next_n (S (S (S n))) first s)
      with (bind next (fun v => next_n (S (S n)) v) s).
    change (next_n (S (S n)) first)
      with (bind next (fun v => next_n (S n) v)).
    unfold bind at 1 2 3.
    destruct (next s) as [[v|e| |] s1]; [|done..].
    rewrite IH. reflexivity.
Qed.

(** X18: how far the keystream reaches before the error. The constructor
    throws the exhaustion error for the last counter value, 2^64 - 1.
    For a smaller counter c it makes a generator whose first
    8 (2^64 - 1 - c) calls of operator() each return a word, and whose
    next call throws the exhaustion error. *)
Theorem keystream_capacity (k n : list Z) (c : Z) :
  is_key k -> is_nonce n -> is_u64 c ->
  (c = MAX64 -> make k n c = Throw exhausted)
  /\ (c < MAX64 ->
      exists s0,
        make k n c = Ok s0
        /\ (forall i, (i < Z.to_nat (8 * (MAX64 - c)))%nat ->
              exists v, fst (next_n (S i) 0 s0) = Ok v)
        /\ fst (next_n (S (Z.to_nat (8 * (MAX64 - c)))) 0 s0)
           = Throw exhausted).
Proof.
  intros Hk Hn Hc. split.
  { intros ->. unfold make, construct. rewrite refill_buffer_eq.
    cbn [fresh block_counter]. reflexivity. }
  intros Hlt. destruct (make_ok k n c Hk Hn Hc Hlt) as [Hm Hs].
  set (s0 := refilled (fresh k n c)) in *.
  assert (Hc0 : block_counter s0 = c + 1).
  { unfold s0, refilled, fresh. fields. word_consts.
    rewrite Z.mod_small; lia. }
  assert (Hw0 : word_index s0 = 0) by reflexivity.
  assert (Hcc : 0 <= c) by (unfold is_u64 in Hc; lia).
  exists s0. split; [done|]. split.
  - intros i Hi. eexists. rewrite next_n_at; [reflexivity|done|].
    rewrite Hc0, Hw0, Z.add_0_l.
    assert (Z.of_nat i / 8 < MAX64 - c).
    { apply Z.div_lt_upper_bound; lia. }
    word_consts. lia.
  - set (N := Z.to_nat (8 * (MAX64 - c))).
    assert (HN : Z.of_nat N = 8 * (MAX64 - c)) by (subst N; lia).
    destruct N as [|N'] eqn:EN; [lia|].
    rewrite next_n_snoc. unfold bind.
    assert (Hdiv : Z.of_nat N' / 8 = MAX64 - c - 1).
    { replace (Z.of_nat N') with ((MAX64 - c - 1) * 8 + 7) by lia.
      rewrite Z.div_add_l by lia. change (7 / 8) with 0. lia. }
    assert (Hmod : Z.of_nat N' mod 8 = 7).
    { replace (Z.of_nat N') with (7 + (MAX64 - c - 1) * 8) by lia.
      rewrite Z.mod_add by lia. reflexivity. }
    rewrite next_n_at; [|done|].
    + rewrite next_eq. unfold state_at. fields.
      rewrite Hw0, Hc0, Z.add_0_l, Hdiv, Hmod.
      change (8 <=? 7 + 1) with true. cbv iota.
      replace (c + 1 + (MAX64 - c - 1)) with MAX64 by lia.
      reflexivity.
    + rewrite Hc0, Hw0, Z.add_0_l, Hdiv. word_consts. lia.
Qed.

Lemma keystream_capacity_witness :
  (MAX64 - 1 = MAX64 -> make (Block.zero 8) (Block.zero 2) (MAX64 - 1) = Throw exhausted)
  /\ (MAX64 - 1 < MAX64 ->
      exists s0,
        make (Block.zero 8) (Block.zero 2) (MAX64 - 1) = Ok s0
        /\ (forall i, (i < Z.to_nat (8 * (MAX64 - (MAX64 - 1))))%nat ->
              exists v, fst (next_n (S i) 0 s0) = Ok v)
        /\ fst (next_n (S (Z.to_nat (8 * (MAX64 - (MAX64 - 1))))) 0 s0)
           = Throw exhausted).
Proof.
  apply (keystream_capacity (Block.zero 8) (Block.zero 2) (MAX64 - 1));
    first [reflexivity | word_consts; lia].
Defined.
End Limits.

(** ** The generator: saving and restoring *)

Section Bytes.
Import Word.

(* the four bytes of a word, put together again *)
Lemma bytes_word w :
  is_u32 w ->
  Z.land w 255 + 2 ^ 8 * Z.land (Z.shiftr w 8) 255
  + 2 ^ 16 * Z.land (Z.shiftr w 16) 255 + 2 ^ 24 * Z.land (Z.shiftr w 24) 255
  = w.
Proof.
  intros Hw. change 255 with (Z.ones 8).
  rewrite !Z.land_ones, !Z.shiftr_div_pow2 by lia. word_arith.
Qed.

(* memcpy of the bytes of a block into a block *)
Lemma of_bytes_bytes b rest :
  Forall is_u32 b ->
  Block.of_bytes (length b) (Block.bytes b ++ rest) = b.
Proof.
  induction 1 as [|w b Hw Hb IH]; [reflexivity|].
  unfold Block.bytes. cbn [map concat length].
  unfold Block.word_bytes at 1. rewrite <- app_assoc.
  cbn [Block.of_bytes app drop].
  f_equal; [|exact IH]. cbn. by apply bytes_word.
Qed.

Lemma of_bytes_own_bytes n b :
  Forall is_u32 b -> length b = n -> Block.of_bytes n (Block.bytes b) = b.
Proof.
  intros Hb <-. rewrite <- (app_nil_r (Block.bytes b)). by apply of_bytes_bytes.
Qed.

Lemma length_word_bytes w : length (Block.word_bytes w) = 4%nat.
Proof. reflexivity. Qed.

Lemma length_bytes b : length (Block.bytes b) = (4 * length b)%nat.
Proof. apply length_block_bytes. Qed.
End Bytes.

Section Streams.
Import Word StoneRNG.

Lemma read_app n pre rest :
  length pre = n ->
  read n {| input := pre ++ rest; good := true |}
  = (pre, {| input := rest; good := true |}).
Proof.
  intros <-. unfold read. cbn [good input].
  rewrite take_app_length, drop_app_length.
  replace (length pre <=? length (pre ++ rest))%nat with true; [done|].
  symmetry. apply Nat.leb_le. rewrite length_app. lia.
Qed.

Lemma store_all extracted old :
  (length old <= length extracted)%nat -> store extracted old = extracted.
Proof.
  intros H. unfold store. rewrite drop_ge by done. apply app_nil_r.
Qed.

Lemma u64_of_bytes_bytes c rest :
  is_u64 c -> u64_of_bytes (u64_bytes c ++ rest) = c.
Proof.
  intros Hc. unfold u64_of_bytes, u64_bytes.
  pose proof (of_bytes_bytes [wrap32 c; Z.shiftr c 32] rest) as H.
  unfold Block.bytes in H. cbn [map concat length] in H.
  rewrite app_nil_r in H. rewrite H.
  - unfold Block.u64_at. cbn. symmetry.
    rewrite <- (wrap32_small (Z.shiftr c 32)) at 1.
    + apply (qword_parts c Hc).
    + rewrite Z.shiftr_div_pow2 by lia. word_arith.
  - apply List.Forall_cons; [apply wrap32_is_u32|].
    apply List.Forall_cons; [|apply List.Forall_nil].
    rewrite Z.shiftr_div_pow2 by lia. word_arith.
Qed.

Lemma length_u64_bytes c : length (u64_bytes c) = 8%nat.
Proof. reflexivity. Qed.

Lemma length_magic : length magic = 8%nat.
Proof. reflexivity. Qed.
End Streams.

Section RoundTrip.
Import Word StoneRNG.

(* the first 58 bytes that operator<< writes: all but the padding *)
Lemma serialize_split s :
  serialize s
  = (magic ++ [1] ++ Block.bytes (key s) ++ Block.bytes (nonce s)
       ++ u64_bytes (block_counter s) ++ [word_index s mod 256])
    ++ replicate 7 0.
Proof. unfold serialize. by rewrite <- !app_assoc. Qed.

Lemma length_serialize_head s :
  is_key (key s) -> is_nonce (nonce s) ->
  length (magic ++ [1] ++ Block.bytes (key s) ++ Block.bytes (nonce s)
            ++ u64_bytes (block_counter s) ++ [word_index s mod 256])
  = 58%nat.
Proof.
  intros Hk Hn. rewrite !length_app, !length_bytes, length_magic,
    length_u64_bytes. cbn [length]. unfold is_key, is_nonce in *. lia.
Qed.

(* operator>> up to the padding, on what operator<< wrote up to there *)
Lemma deserialize_head s r tail :
  inv s -> Forall is_u32 (key s) -> Forall is_u32 (nonce s) -> wf r ->
  deserialize
    {| input := (magic ++ [1] ++ Block.bytes (key s) ++ Block.bytes (nonce s)
                   ++ u64_bytes (block_counter s) ++ [word_index s mod 256])
                ++ tail;
       good := true |} r
  = (let '(_, ins) := read 7 {| input := tail; good := true |} in
     if negb (good ins) then throw read_error
     else bind (regenerate (word_index s)) (fun _ => ret ins))
      {| key := key s; nonce := nonce s; block_counter := block_counter s;
         buffer := buffer r; word_index := word_index s |}.
Proof.
  intros Hs Uk Un Hr. pose proof Hs as [(Hk & Hn & Hc & Hb & Hw) _].
  destruct Hr as (Hkr & Hnr & _).
  unfold deserialize. rewrite <- !app_assoc.
  rewrite (read_app 8 magic) by reflexivity.
  cbv beta iota. cbn [good negb orb].
  rewrite store_all by reflexivity.
  rewrite bool_decide_eq_true_2 by reflexivity. cbn [negb].
  cbn [app get_byte good input]. cbv beta iota.
  change (1 mod 256 =? 1) with true. cbn [negb orb].
  rewrite (read_app 32 (Block.bytes (key s)))
    by (rewrite length_bytes; unfold is_key in Hk; lia).
  cbv beta iota.
  unfold bind at 1 2. unfold get at 1. unfold set_key at 1. cbv beta iota.
  rewrite store_all
    by (rewrite !length_bytes; unfold is_key in *; lia).
  rewrite (of_bytes_own_bytes 8 (key s)) by done.
  rewrite (read_app 8 (Block.bytes (nonce s)))
    by (rewrite length_bytes; unfold is_nonce in Hn; lia).
  cbv beta iota.
  unfold bind at 1 2. unfold get at 1. unfold set_nonce at 1. cbv beta iota.
  cbn [key nonce block_counter buffer word_index].
  rewrite store_all
    by (rewrite !length_bytes; unfold is_nonce in *; lia).
  rewrite (of_bytes_own_bytes 2 (nonce s)) by done.
  rewrite (read_app 8 (u64_bytes (block_counter s))) by reflexivity.
  cbv beta iota.
  unfold bind at 1 2. unfold get at 1. unfold set_block_counter at 1.
  cbv beta iota. fields.
  rewrite store_all by reflexivity.
  rewrite <- (app_nil_r (u64_bytes (block_counter s))), u64_of_bytes_bytes by done.
  cbn [get_byte good input]. cbv beta iota.
  rewrite (Z.mod_small (word_index s) 256) by lia.
  destruct (Z.ltb_spec (word_index s) 0); [lia|].
  destruct (Z.ltb_spec 8 (word_index s)); [lia|]. cbn [negb orb].
  unfold bind at 1. unfold set_word_index at 1. cbv beta iota.
  unfold with_block_counter, with_word_index. fields. reflexivity.
Qed.

Lemma deserialize_serialized s r rest :
  inv s -> Forall is_u32 (key s) -> Forall is_u32 (nonce s) -> wf r ->
  deserialize {| input := serialize s ++ rest; good := true |} r
  = bind (regenerate (word_index s))
      (fun _ => ret {| input := rest; good := true |})
      {| key := key s; nonce := nonce s; block_counter := block_counter s;
         buffer := buffer r; word_index := word_index s |}.
Proof.
  intros Hs Uk Un Hr.
  rewrite serialize_split, <- app_assoc, deserialize_head by done.
  rewrite (read_app 7 (replicate 7 0)) by reflexivity. reflexivity.
Qed.

(** X19: a serialized generator comes back. For a generator reached
    through the public interface that is not in the middle of the block
    of a wrapped counter, operator>> reads what operator<< wrote, into
    any generator, consumes exactly those 65 bytes and leaves a generator
    that no sequence of calls can tell from the one written; inside a
    block it is that generator, buffer included. *)
Theorem serialize_round_trip (s r : t) (rest : list Z) :
  reachable s -> reachable r ->
  Forall is_u32 (key s) -> Forall is_u32 (nonce s) ->
  word_index s = 8 \/ block_counter s <> 0 ->
  length (serialize s) = 65%nat
  /\ exists s',
       deserialize {| input := serialize s ++ rest; good := true |} r
       = (Ok {| input := rest; good := true |}, s')
       /\ equiv s s'
       /\ (word_index s < 8 -> s' = s)
       /\ forall calls, Forall valid_call calls ->
            fst (run calls s') = fst (run calls s).
Proof.
  intros Hrs Hrr Uk Un Hmid.
  pose proof (reachable_inv s Hrs) as Hs.
  pose proof (reachable_inv r Hrr) as [Hwr _].
  pose proof Hs as [(Hk & Hn & Hc & Hb & Hw) Hbuf].
  split.
  { unfold serialize. rewrite !length_app, !length_bytes, length_magic,
      length_u64_bytes, length_replicate. cbn [length].
    unfold is_key, is_nonce in *. lia. }
  rewrite deserialize_serialized by done.
  set (s1 := {| key := key s; nonce := nonce s;
                block_counter := block_counter s;
                buffer := buffer r; word_index := word_index s |}).
  assert (Hfuture : forall s', equiv s s' ->
            forall calls, Forall valid_call calls ->
              fst (run calls s') = fst (run calls s)).
  { intros s' He calls Hv. symmetry. by apply run_equiv. }
  unfold bind, regenerate. unfold bind at 1, get at 1. cbv beta iota.
  cbn [word_index s1].
  destruct (Z.ltb_spec (word_index s) 8) as [Hlt|Hge].
  - (* inside a block: the buffer is generated again *)
    destruct Hmid as [?|Hc0]; [lia|].
    unfold bind at 1, get at 1. cbv beta iota. cbn [block_counter s1].
    destruct (Z.eqb_spec (block_counter s) 0); [contradiction|].
    unfold bind at 1 2 3, set_block_counter at 1 2, set_word_index. cbv beta iota.
    rewrite refill_buffer_eq. fields.
    assert (Hpred : wrap64 (block_counter s - 1) = block_counter s - 1)
      by (word_consts; rewrite Z.mod_small; lia).
    rewrite Hpred.
    destruct (Z.eqb_spec (add64 (block_counter s - 1) 1) 0) as [E|E].
    { word_consts. rewrite Z.mod_small in E; lia. }
    cbv beta iota. unfold ret.
    assert (Hsame : with_word_index (word_index s)
                      (with_block_counter (block_counter s)
                         (refilled (with_block_counter (block_counter s - 1) s1)))
                    = s).
    { apply rng_ext; unfold refilled; fields; try reflexivity.
      rewrite (Hbuf Hlt), Hpred. unfold block_of.
      apply permute_into_spec; [apply length_build_state|apply Hwr]. }
    rewrite Hsame. exists s.
    split_and!; [done|by left|done|]. apply Hfuture. by left.
  - (* the buffer was used up: it is not needed *)
    unfold ret. exists s1.
    assert (He : equiv s s1).
    { right. unfold stale_eq. subst s1. fields.
      destruct Hwr as (_ & _ & _ & Hbr & _).
      split_and!; first [reflexivity|assumption|lia]. }
    split_and!; [reflexivity|exact He|lia|by apply Hfuture].
Qed.

Lemma serialize_round_trip_witness :
  length (serialize sample) = 65%nat
  /\ exists s',
       deserialize {| input := serialize sample ++ [42]; good := true |}
         sample_skipped
       = (Ok {| input := [42]; good := true |}, s')
       /\ equiv sample s'
       /\ (word_index sample < 8 -> s' = sample)
       /\ forall calls, Forall valid_call calls ->
            fst (run calls s') = fst (run calls sample).
Proof.
  apply (serialize_round_trip sample sample_skipped [42]
           sample_reachable sample_skipped_reachable).
  - change (key sample) with (replicate 8 0).
    apply Forall_replicate. word_consts. lia.
  - change (nonce sample) with (replicate 2 0).
    apply Forall_replicate. word_consts. lia.
  - right. vm_compute. discriminate.
Defined.
End RoundTrip.

Section Rejection.
Import Word StoneRNG.

(* a read that leaves the stream good has found its bytes *)
Lemma read_good n ins x ins' :
  read n ins = (x, ins') -> good ins' = true ->
  good ins = true /\ (length (input ins') + n = length (input ins))%nat.
Proof.
  unfold read. destruct (good ins) eqn:G.
  - intros [= <- <-]. cbn [good input]. intros Hle%Nat.leb_le.
    split; [done|]. rewrite length_drop. lia.
  - intros [= <- <-] G'. congruence.
Qed.

Lemma get_byte_good ins c ins' :
  get_byte ins = (c, ins') -> good ins' = true ->
  good ins = true /\ (length (input ins') + 1 = length (input ins))%nat.
Proof.
  unfold get_byte. destruct (good ins) eqn:G.
  - destruct (input ins) as [|b rest]; intros [= <- <-]; cbn [good input];
      [done|]. intros _. split; [done|]. cbn [length]. lia.
  - intros [= <- <-] G'. congruence.
Qed.

Lemma not_bad_good (g : bool) (b : bool) : negb g || b = false -> g = true.
Proof. by destruct g. Qed.

Lemma deserialize_short bytes r :
  (length bytes < 65)%nat ->
  exists e, fst (deserialize {| input := bytes; good := true |} r) = Throw e.
Proof.
  intros Hlen. unfold deserialize.
  destruct (read 8 _) as [e1 i1] eqn:R1.
  destruct (negb (good i1) || _) eqn:C1; [by eexists|].
  apply not_bad_good in C1. apply (read_good _ _ _ _ R1) in C1 as [_ L1].
  cbn [input] in L1.
  destruct (get_byte i1) as [c i2] eqn:R2.
  destruct (negb (good i2) || _) eqn:C2; [by eexists|].
  apply not_bad_good in C2. apply (get_byte_good _ _ _ R2) in C2 as [_ L2].
  destruct (read 32 i2) as [kb i3] eqn:R3.
  unfold bind at 1 2. unfold get at 1. unfold set_key at 1. cbv beta iota.
  destruct (read 8 i3) as [nb i4] eqn:R4.
  unfold bind at 1 2. unfold get at 1. unfold set_nonce at 1. cbv beta iota.
  destruct (read 8 i4) as [cb i5] eqn:R5.
  unfold bind at 1 2. unfold get at 1. unfold set_block_counter at 1.
  cbv beta iota.
  destruct (get_byte i5) as [idx i6] eqn:R6.
  destruct (negb (good i6) || (idx <? 0) || (8 <? idx)) eqn:C6; [by eexists|].
  assert (G6 : good i6 = true) by (by destruct (good i6)).
  apply (get_byte_good _ _ _ R6) in G6 as [G5 L6].
  apply (read_good _ _ _ _ R5) in G5 as [G4 L5].
  apply (read_good _ _ _ _ R4) in G4 as [G3 L4].
  apply (read_good _ _ _ _ R3) in G3 as [_ L3].
  unfold bind at 1. unfold set_word_index at 1. cbv beta iota.
  destruct (read 7 i6) as [pad i7] eqn:R7.
  destruct (good i7) eqn:G7; cbn [negb]; [|by eexists].
  apply (read_good _ _ _ _ R7) in G7 as [_ L7]. lia.
Qed.

Lemma deserialize_bad_magic bytes r :
  take 8 bytes <> magic ->
  deserialize {| input := bytes; good := true |} r = (Throw bad_magic, r).
Proof.
  intros Hm. unfold deserialize, read. cbn [good input].
  destruct (Nat.leb_spec 8 (length bytes)) as [Hle|Hlt]; cbn [negb orb];
    [|reflexivity].
  rewrite store_all by (rewrite length_take, length_replicate; lia).
  by rewrite bool_decide_eq_false_2 by done.
Qed.

(** X20: what operator>> refuses. A stream that does not start with the
    eight bytes of the header is refused with the bad-magic error and the
    generator is left as it was; and a stream of fewer than 65 bytes is
    never accepted: the call throws. *)
Theorem deserialize_rejects (bytes : list Z) (r : t) :
  (take 8 bytes <> magic ->
   deserialize {| input := bytes; good := true |} r = (Throw bad_magic, r))
  /\ ((length bytes < 65)%nat ->
      exists e, fst (deserialize {| input := bytes; good := true |} r) = Throw e).
Proof.
  split; [apply deserialize_bad_magic|apply deserialize_short].
Qed.

(** X21: a restore that fails late is not undone. When the stream ends
    inside the padding, operator>> throws the read error after it has
    taken key, nonce, counter and word index from the stream, and before
    it has generated the buffer again: the generator is left with the
    new key and the old buffer, and inside a block its next call returns
    a word of the old buffer. *)
Theorem deserialize_truncated_padding (s r : t) (pad : list Z) :
  reachable s -> reachable r ->
  Forall is_u32 (key s) -> Forall is_u32 (nonce s) ->
  (length pad < 7)%nat ->
  let hybrid := {| key := key s; nonce := nonce s;
                   block_counter := block_counter s;
                   buffer := buffer r; word_index := word_index s |} in
  deserialize {| input := take 58 (serialize s) ++ pad; good := true |} r
  = (Throw read_error, hybrid)
  /\ (word_index s < 8 ->
      fst (next hybrid)
      = Ok (Block.u64_at (buffer r) (Z.to_nat (word_index s)))).
Proof.
  intros Hrs Hrr Uk Un Hpad. cbv zeta.
  pose proof (reachable_inv s Hrs) as Hs.
  pose proof (reachable_inv r Hrr) as [Hwr _].
  pose proof Hs as [(Hk & Hn & Hc & Hb & Hw) _].
  split.
  - rewrite serialize_split.
    rewrite <- (length_serialize_head s Hk Hn) at 1.
    rewrite take_app_length, deserialize_head by done.
    unfold read. cbn [good input].
    destruct (Nat.leb_spec 7 (length pad)); [lia|]. reflexivity.
  - intros Hlt. rewrite next_eq. fields.
    destruct (Z.leb_spec 8 (word_index s)); [lia|]. reflexivity.
Qed.

Lemma deserialize_truncated_padding_witness :
  let hybrid := {| key := key sample; nonce := nonce sample;
                   block_counter := block_counter sample;
                   buffer := buffer sample_skipped;
                   word_index := word_index sample |} in
  deserialize {| input := take 58 (serialize sample) ++ [0; 0]; good := true |}
    sample_skipped
  = (Throw read_error, hybrid)
  /\ (word_index sample < 8 ->
      fst (next hybrid)
      = Ok (Block.u64_at (buffer sample_skipped) (Z.to_nat (word_index sample)))).
Proof.
  apply (deserialize_truncated_padding sample sample_skipped [0; 0]
           sample_reachable sample_skipped_reachable).
  - change (key sample) with (replicate 8 0).
    apply Forall_replicate. word_consts. lia.
  - change (nonce sample) with (replicate 2 0).
    apply Forall_replicate. word_consts. lia.
  - cbn [length]. lia.
Defined.
End Rejection.

(** ** The composer and its helpers *)

Section Trimming.
Import StonePass.

Lemma rev_reverse {A : Type} (l : list A) : rev l = reverse l.
Proof. unfold reverse. apply rev_alt. Qed.

(* what find_if steps over fails the predicate, and what it stops at
   satisfies it *)
Lemma find_if_decomp pred range :
  exists l r,
    range = l ++ r /\ length l = find_if pred range
    /\ Forall (fun c => pred c = false) l
    /\ (forall c, head r = Some c -> pred c = true).
Proof.
  induction range as [|c range (l & r & -> & Hlen & Hl & Hr)].
  - exists [], []. split_and!; [done|done|constructor|done].
  - cbn [find_if]. destruct (pred c) eqn:Hc.
    + exists [], (c :: l ++ r). split_and!; [done|done|constructor|].
      by intros c' [= <-].
    + exists (c :: l), r. split_and!; [done|cbn; lia|by constructor|done].
Qed.

Lemma find_if_miss pred l r :
  Forall (fun c => pred c = false) l ->
  find_if pred (l ++ r) = (length l + find_if pred r)%nat.
Proof.
  induction 1 as [|c l Hc Hl IH]; [reflexivity|].
  cbn [app find_if length]. rewrite Hc, IH. reflexivity.
Qed.

Lemma find_if_hit pred c r : pred c = true -> find_if pred (c :: r) = 0%nat.
Proof. intros H. cbn [find_if]. by rewrite H. Qed.

Lemma find_if_none pred : find_if pred [] = 0%nat.
Proof. reflexivity. Qed.

(* a string whose first and last characters are no spaces is trimmed to
   itself *)
Lemma trim_tight t :
  (forall c, head t = Some c -> isspace c = false) ->
  (forall c, last t = Some c -> isspace c = false) ->
  trim t = t.
Proof.
  intros Hh Hl. unfold trim. cbv zeta.
  destruct t as [|c t]; [reflexivity|].
  rewrite find_if_hit by (by rewrite (Hh c)).
  destruct (rev (c :: t)) as [|d u] eqn:Hrev.
  { apply (f_equal (@length ascii)) in Hrev. rewrite length_rev in Hrev. done. }
  assert (Hd : isspace d = false).
  { apply Hl. pose proof (f_equal (@rev ascii) Hrev) as Hl'.
    rewrite rev_involutive in Hl'. cbn [rev] in Hl'. rewrite Hl'.
    apply last_snoc. }
  rewrite find_if_hit by (by rewrite Hd).
  rewrite !Nat.sub_0_r. cbn [drop].
  destruct (Nat.ltb_spec 0 (length (c :: t))) as [_|H];
    [apply firstn_all|cbn [length] in H; lia].
Qed.

Lemma not_space_false c : negb (isspace c) = false -> isspace c = true.
Proof. by destruct (isspace c). Qed.

Lemma not_space_true c : negb (isspace c) = true -> isspace c = false.
Proof. by destruct (isspace c). Qed.

Lemma trim_decomp str :
  exists l r,
    str = l ++ trim str ++ r
    /\ Forall (fun c => isspace c = true) l
    /\ Forall (fun c => isspace c = true) r
    /\ (forall c, head (trim str) = Some c -> isspace c = false)
    /\ (forall c, last (trim str) = Some c -> isspace c = false).
Proof.
  set (ns := fun c => negb (isspace c)).
  destruct (find_if_decomp ns str) as (l & m & -> & Hl & Fl & Hm).
  assert (Sl : Forall (fun c => isspace c = true) l).
  { eapply Forall_impl; [exact Fl|]. intros c. apply not_space_false. }
  destruct m as [|c m].
  - (* nothing but white space *)
    assert (E : trim (l ++ []) = []).
    { unfold trim. cbv zeta. fold ns. rewrite app_nil_r.
      rewrite <- (app_nil_r l) at 1. rewrite find_if_miss by done.
      rewrite <- (app_nil_r (rev l)), find_if_miss by (by apply Forall_rev).
      rewrite length_rev, find_if_none, Nat.add_0_r, Nat.sub_diag.
      by destruct (Nat.ltb_spec (length l) 0); [lia|]. }
    rewrite E. exists l, []. split_and!; [done|done|constructor|done|done].
  - specialize (Hm c eq_refl).
    destruct (find_if_decomp ns (rev (c :: m))) as (l' & r' & Hrm & Hl' & Fl' & Hr').
    assert (Sl' : Forall (fun c => isspace c = true) (rev l')).
    { apply Forall_rev. eapply Forall_impl; [exact Fl'|].
      intros d. apply not_space_false. }
    assert (Hm' : c :: m = rev r' ++ rev l').
    { rewrite <- rev_app_distr, <- Hrm. symmetry. apply rev_involutive. }
    destruct r' as [|d r'].
    { (* the first character of m is no space, so the search from the
         back stops *)
      exfalso. cbn [rev app] in Hm'.
      assert (Hc : In c (rev l')) by (rewrite <- Hm'; by left).
      apply List.Forall_forall with (x := c) in Sl'; [|done].
      unfold ns in Hm. rewrite Sl' in Hm. done. }
    specialize (Hr' d eq_refl).
    assert (E : trim (l ++ c :: m) = rev (d :: r')).
    { unfold trim. cbv zeta. fold ns.
      rewrite find_if_miss, find_if_hit by done. rewrite Nat.add_0_r.
      rewrite rev_app_distr, Hrm, <- app_assoc, find_if_miss by done.
      cbn [app]. rewrite find_if_hit, Nat.add_0_r by done.
      rewrite Hm', !length_app, !length_rev.
      replace (length l + (length (d :: r') + length l') - length l')%nat
        with (length l + length (d :: r'))%nat by lia.
      destruct (Nat.ltb_spec (length l) (length l + length (d :: r')));
        [|cbn [length] in *; lia].
      rewrite drop_app_length.
      replace (length l + length (d :: r') - length l)%nat
        with (length (rev (d :: r'))) by (rewrite length_rev; lia).
      apply take_app_length. }
    rewrite E. exists l, (rev l').
    split_and!; [by rewrite Hm'|done|done| |].
    + intros x Hx. cbn [rev] in Hx, Hm'.
      assert (x = c); [|subst x; by apply not_space_true].
      destruct (rev r') as [|y u]; cbn [app head] in *; congruence.
    + intros x Hx. cbn [rev] in Hx. rewrite last_snoc in Hx.
      injection Hx as <-. by apply not_space_true.
Qed.

(** X22: trim removes the white space at the two ends of a string and
    nothing else. The string is the result with white space before and
    after it; the result neither starts nor ends with white space; and
    trimming the result changes nothing. *)
Theorem trim_removes_surrounding_space (str : list ascii) :
  (exists l r,
     str = l ++ trim str ++ r
     /\ Forall (fun c => isspace c = true) l
     /\ Forall (fun c => isspace c = true) r)
  /\ (forall c, head (trim str) = Some c -> isspace c = false)
  /\ (forall c, last (trim str) = Some c -> isspace c = false)
  /\ trim (trim str) = trim str.
Proof.
  destruct (trim_decomp str) as (l & r & E & Hl & Hr & Hh & Ht).
  split_and!; [by exists l, r|done|done|by apply trim_tight].
Qed.

Example trim_example :
  trim (lit "  alice@example.com	 ") = lit "alice@example.com"
  /\ trim (lit " 	 ") = [].
Proof. split; reflexivity. Qed.
End Trimming.

Section ContextSeparation.
Import Word StoneRNG StonePass.

(* two strings cut at their first NUL *)
Lemma split_at_first (x : ascii) (l1 l2 r1 r2 : list ascii) :
  x ∉ l1 -> x ∉ l2 -> l1 ++ x :: r1 = l2 ++ x :: r2 -> l1 = l2 /\ r1 = r2.
Proof.
  revert l2. induction l1 as [|a l1 IH]; intros l2 H1 H2 H.
  - destruct l2 as [|b l2]; [by injection H|].
    injection H as <- _. exfalso. apply H2. by left.
  - destruct l2 as [|b l2].
    + injection H as -> _. exfalso. apply H1. by left.
    + injection H as <- H.
      apply IH in H as [-> ->]; [done| |].
      * intros ?. apply H1. by right.
      * intros ?. apply H2. by right.
Qed.

(* the digits of a number *)
Lemma uint_digits_not_nul d :
  NUL ∉ list_ascii_of_string (NilEmpty.string_of_uint d).
Proof.
  induction d; cbn [NilEmpty.string_of_uint list_ascii_of_string];
    [by intros ?%elem_of_nil|..];
    (intros [E|?]%elem_of_cons; [discriminate E|done]).
Qed.

Lemma to_string_not_nul n : NUL ∉ to_string n.
Proof.
  unfold to_string, lit, NilZero.string_of_int, NilZero.string_of_uint.
  destruct (Z.to_int n) as [d|d]; destruct d;
    cbn [list_ascii_of_string];
    repeat (intros [E|H]%elem_of_cons; [discriminate E|revert H]);
    first [by intros ?%elem_of_nil | apply uint_digits_not_nul].
Qed.

Lemma to_string_inj a b : to_string a = to_string b -> a = b.
Proof.
  unfold to_string, lit. intros H.
  apply (f_equal string_of_list_ascii) in H.
  rewrite !string_of_list_ascii_of_string in H.
  apply (f_equal NilZero.int_of_string) in H.
  assert (Hnn : forall z, Z.to_int z <> Decimal.Pos Decimal.Nil
                          /\ Z.to_int z <> Decimal.Neg Decimal.Nil).
  { intros [|p|p]; cbn [Z.to_int]; split; try discriminate;
      intros [= E]; by apply Unsigned.to_uint_nonnil in E. }
  rewrite !NilZero.isi in H by apply Hnn.
  injection H as H. apply (f_equal Z.of_int) in H.
  by rewrite !DecimalZ.of_to in H.
Qed.

Lemma flag_inj (a b : bool) :
  lit (if a then "1" else "0") = lit (if b then "1" else "0") -> a = b.
Proof. by destruct a, b. Qed.

(** X23: the context string separates its inputs as long as the names
    hold no NUL. With user and site names free of NUL characters, two
    calls whose context strings are equal have the same version, user
    name, site name, length and category flags. The condition cannot be
    dropped: moving a piece of a user name that follows a NUL over to the
    site name leaves the context, and so the password, unchanged. *)
Theorem context_separates_inputs (V V' L L' : Z) (U U' S S' : list ascii)
    (ru rl rd rs ru' rl' rd' rs' : bool) :
  NUL ∉ U -> NUL ∉ U' -> NUL ∉ S -> NUL ∉ S' ->
  (context V U S L ru rl rd rs = context V' U' S' L' ru' rl' rd' rs'
   <-> V = V' /\ U = U' /\ S = S' /\ L = L'
       /\ ru = ru' /\ rl = rl' /\ rd = rd' /\ rs = rs')
  /\ (forall X : list ascii,
        context V (U ++ [NUL] ++ X) S L ru rl rd rs
        = context V U (X ++ [NUL] ++ S) L ru rl rd rs).
Proof.
  intros HU HU' HS HS'. split; [split|].
  - rewrite !context_eq. intros H.
    apply app_inv_head in H.
    cbn [app] in H.
    apply split_at_first in H as [HV H]; [|apply to_string_not_nul..].
    apply split_at_first in H as [-> H]; [|done..].
    apply split_at_first in H as [-> H]; [|done..].
    apply to_string_inj in HV as ->.
    apply app_inv_head in H.
    apply app_inj_2 in H as [HL H]; [|by rewrite !length_app, !length_flag].
    apply to_string_inj in HL as ->.
    apply app_inj_1 in H as [->%flag_inj H]; [|by rewrite !length_flag].
    apply app_inj_1 in H as [->%flag_inj H]; [|by rewrite !length_flag].
    apply app_inj_1 in H as [->%flag_inj ->%flag_inj]; [|by rewrite !length_flag].
    done.
  - by intros (-> & -> & -> & -> & -> & -> & -> & ->).
  - intros X. rewrite !context_eq, <- !app_assoc. reflexivity.
Qed.

Lemma context_separates_inputs_witness :
  (context 1 (lit "alice") (lit "github.com") 20 true true true true
   = context 2 (lit "alice") (lit "github.com") 20 true true true true
   <-> 1 = 2 /\ lit "alice" = lit "alice" /\ lit "github.com" = lit "github.com"
       /\ 20 = 20 /\ true = true /\ true = true /\ true = true /\ true = true)
  /\ (forall X : list ascii,
        context 1 (lit "alice" ++ [NUL] ++ X) (lit "github.com") 20
          true true true true
        = context 1 (lit "alice") (X ++ [NUL] ++ lit "github.com") 20
            true true true true).
Proof.
  apply (context_separates_inputs 1 2 20 20 (lit "alice") (lit "alice")
           (lit "github.com") (lit "github.com")
           true true true true true true true true);
    compute; intros H; repeat (apply elem_of_cons in H as [H|H]; [discriminate H|]);
    by apply elem_of_nil in H.
Defined.
End ContextSeparation.

Section ComposerFacts.
Import Word StoneRNG StonePass.

Lemma required_count_le ru rl rd rs : required_count ru rl rd rs <= 4.
Proof. unfold required_count. destruct ru, rl, rd, rs; lia. Qed.

(** X24: the last check of the validation can never fire. Whatever the
    arguments, generate_password does not throw "password_length too
    short for required categories": a length that has passed the range
    check is at least 6, and at most four categories can be required. *)
Theorem length_check_never_fires (fuel : nat)
    (U P S : list ascii) (L V : Z) (upper lower digits symbols : list ascii)
    (ru rl rd rs : bool) :
  required_count ru rl rd rs <= 4
  /\ generate_password fuel U P S L V upper lower digits symbols ru rl rd rs
     <> Throw (invalid_argument
                 "password_length too short for required categories").
Proof.
  split; [apply required_count_le|].
  destruct (classic_must_reject U P S L V upper lower digits symbols
              ru rl rd rs) as [H|H].
  - pose proof (required_count_le ru rl rd rs) as Hrc.
    unfold must_reject in H. unfold generate_password, is_empty.
    destruct U as [|u U]; [discriminate|]. cbn [length Nat.eqb].
    destruct P as [|p P]; [discriminate|]. cbn [length Nat.eqb].
    destruct S as [|s S]; [discriminate|]. cbn [length Nat.eqb].
    destruct (Z.ltb_spec L 6); [discriminate|].
    destruct (Z.ltb_spec 128 L); [discriminate|]. cbn [orb].
    destruct (Z.ltb_spec V 1); [discriminate|].
    destruct ru, upper as [|? ?]; cbn [andb length Nat.eqb]; try discriminate.
    all: destruct rl, lower as [|? ?]; cbn [andb length Nat.eqb];
      try discriminate.
    all: destruct rd, digits as [|? ?]; cbn [andb length Nat.eqb];
      try discriminate.
    all: destruct rs, symbols as [|? ?]; cbn [andb length Nat.eqb];
      try discriminate.
    all: match goal with
         | |- context [?l <? ?x] => destruct (Z.ltb_spec l x); [exfalso; lia|]
         end.
    all: exfalso; cbn [required_count] in *;
      intuition (try discriminate; try lia).
  - destruct (generate_password_accepts fuel U P S L V upper lower digits
                symbols ru rl rd rs H) as (rng & _ & _ & ->).
    intros E.
    apply (only_exhausted_compose fuel L upper lower digits symbols
             ru rl rd rs rng) in E.
    discriminate E.
Qed.

(** The shuffle *)

Lemma transpose_inj i j : Inj (=) (=) (transpose i j).
Proof.
  intros x y H. apply (f_equal (transpose i j)) in H.
  by rewrite !transpose_involutive in H.
Qed.

Lemma swap_perm i j (password p : list ascii) :
  swap i j password = Some p -> p ≡ₚ password.
Proof.
  intros Hs. apply Permutation_inj. split; [by eapply swap_length|].
  exists (transpose i j). split; [apply transpose_inj|].
  intros k. by apply swap_lookup.
Qed.

Lemma returns_shuffle_perm fuel i (password : list ascii) s :
  inv s -> (i < length password)%nat -> Z.of_nat (length password) < 2 ^ 64 ->
  returns fuel (fun p => p ≡ₚ password) (shuffle fuel i password s).
Proof.
  revert password s. induction i as [|i IH]; intros password s Hs Hi Hlen;
    cbn [shuffle].
  - by apply returns_ret.
  - eapply returns_bind.
    + apply returns_unbiased; [done| | |lia]; word_consts; lia.
    + cbn beta. intros j s' Hj Hs'.
      specialize (Hj ltac:(word_consts; lia)).
      destruct (swap_defined (S i) (Z.to_nat j) password) as [p Hp]; [lia|lia|].
      rewrite Hp. pose proof (swap_length _ _ _ _ Hp) as Hl.
      eapply returns_weaken; [apply IH; [done|lia|lia]|].
      cbn beta. intros p' Hp'. rewrite Hp'. by eapply swap_perm.
Qed.

(** X25: the shuffle rearranges and does nothing else. On a generator
    reached through the public interface, the Fisher-Yates loop run from
    an index inside the password returns a permutation of the password:
    no character is lost, added or changed, and every index that the
    loop swaps lies inside the password. The loop throws nothing but the
    exhaustion error. *)
Theorem shuffle_is_permutation (fuel : nat) (i : nat) (password : list ascii)
    (s : t) :
  reachable s -> (i < length password)%nat ->
  Z.of_nat (length password) < 2 ^ 64 ->
  match fst (shuffle fuel i password s) with
  | Ok p => p ≡ₚ password
  | Throw e => e = exhausted
  | Undefined => False
  | OutOfFuel => Z.of_nat fuel <= 2 ^ 67 + 8
  end.
Proof.
  intros Hr Hi Hlen.
  destruct (returns_shuffle_perm fuel i password s) as [_ H];
    [by apply reachable_inv|done|done|exact H].
Qed.

Lemma shuffle_is_permutation_witness :
  match fst (shuffle 64 3 (lit "a1B?") sample) with
  | Ok p => p ≡ₚ lit "a1B?"
  | Throw e => e = exhausted
  | Undefined => False
  | OutOfFuel => Z.of_nat 64 <= 2 ^ 67 + 8
  end.
Proof.
  refine (shuffle_is_permutation 64 3 (lit "a1B?") sample sample_reachable _ _).
  - cbn. lia.
  - cbn. lia.
Defined.
End ComposerFacts.

(** ** The form and the two interfaces *)

Section Focus.
Import UI.

Lemma at_index_Some fields i f :
  at_index fields i = Some f <-> 0 <= i /\ fields !! Z.to_nat i = Some f.
Proof.
  unfold at_index. destruct (Z.ltb_spec i 0); split.
  - discriminate.
  - intros [? _]. lia.
  - done.
  - by intros [_ ?].
Qed.

Lemma at_index_in_range fields i :
  0 <= i < size fields -> exists f, at_index fields i = Some f.
Proof.
  intros Hi. unfold size in Hi.
  destruct (lookup_lt_is_Some_2 fields (Z.to_nat i)) as [f Hf]; [lia|].
  exists f. apply at_index_Some. split; [lia|done].
Qed.

Lemma at_index_range fields i f :
  at_index fields i = Some f -> 0 <= i < size fields.
Proof.
  intros [Hi Hf]%at_index_Some. apply lookup_lt_Some in Hf. unfold size. lia.
Qed.

(* where a pass of the loop of move_focus puts the index *)
Lemma wrapped_in_range fields a :
  fields <> [] ->
  let a1 := if a <? 0 then size fields - 1 else a in
  0 <= (if size fields <=? a1 then 0 else a1) < size fields.
Proof.
  intros Hne. assert (0 < size fields).
  { unfold size. destruct fields; [done|]. cbn [length]. lia. }
  cbv zeta. destruct (Z.ltb_spec a 0).
  - destruct (Z.leb_spec (size fields) (size fields - 1)); lia.
  - destruct (Z.leb_spec (size fields) a); lia.
Qed.

Lemma wrapped_mod n cur d :
  0 <= cur < n -> d = 1 \/ d = -1 ->
  (let a := cur + d in
   let a := if a <? 0 then n - 1 else a in
   if n <=? a then 0 else a) = (cur + d) mod n.
Proof.
  intros Hc Hd. cbv zeta. destruct (Z.ltb_spec (cur + d) 0).
  - destruct (Z.leb_spec n (n - 1)); [lia|].
    assert (cur + d = -1) as -> by lia.
    apply (Z.mod_unique_pos _ _ (-1)); lia.
  - destruct (Z.leb_spec n (cur + d)).
    + assert (cur + d = n) as -> by lia. by rewrite Z.mod_same by lia.
    + by rewrite Z.mod_small by lia.
Qed.

Ltac int_consts :=
  unfold INT_MIN, INT_MAX in *; change (2 ^ 31) with 2147483648 in *.

(* the test of the sum for the range of int *)
Lemma sum_in_range fields sum :
  (size fields <= INT_MAX -> INT_MIN <= sum <= INT_MAX) ->
  (size fields <=? INT_MAX) && ((sum <? INT_MIN) || (INT_MAX <? sum)) = false.
Proof.
  intros H. destruct (Z.leb_spec (size fields) INT_MAX); [|done].
  destruct (Z.ltb_spec sum INT_MIN); [lia|].
  destruct (Z.ltb_spec INT_MAX sum); [lia|]. done.
Qed.

Lemma sum_out_of_range fields sum :
  size fields <= INT_MAX -> sum < INT_MIN \/ INT_MAX < sum ->
  (size fields <=? INT_MAX) && ((sum <? INT_MIN) || (INT_MAX <? sum)) = true.
Proof.
  intros Hs H. destruct (Z.leb_spec (size fields) INT_MAX); [|lia].
  destruct (Z.ltb_spec sum INT_MIN); [done|].
  destruct (Z.ltb_spec INT_MAX sum); [done|lia].
Qed.

(* the loop returns an index of the vector when no sum overflows *)
Lemma move_focus_loop_in_range direction fields :
  fields <> [] ->
  INT_MIN <= direction <= INT_MAX + 1 - size fields ->
  forall fuel steps active,
    (1 <= fuel)%nat -> size fields - steps <= Z.of_nat fuel ->
    (size fields <= INT_MAX -> INT_MIN <= active + direction <= INT_MAX) ->
    exists a, move_focus_loop fuel direction fields steps active = Ok a
              /\ 0 <= a < size fields.
Proof.
  intros Hne Hd. induction fuel as [|fuel IH]; intros steps active H1 Hf Hsum;
    [lia|].
  cbn [move_focus_loop]. cbv zeta.
  rewrite sum_in_range by done.
  pose proof (wrapped_in_range fields (active + direction) Hne) as Hr.
  cbv zeta in Hr.
  set (a := if size fields <=? _ then 0 else _) in *.
  destruct (at_index_in_range fields a Hr) as [f ->].
  destruct (is_focusable f); [by exists a|].
  destruct (Z.ltb_spec (steps + 1) (size fields)); [|by exists a].
  apply IH; lia.
Qed.

(* the loop in steps of one through the fields in a circle *)
Lemma move_focus_loop_cyclic d fields active :
  d = 1 \/ d = -1 -> 0 <= active < size fields ->
  forall fuel steps,
    0 <= steps < size fields ->
    size fields - steps <= Z.of_nat fuel ->
    (forall j, 1 <= j <= steps ->
       exists f, at_index fields ((active + d * j) mod size fields) = Some f
                 /\ is_focusable f = false) ->
    exists k,
      steps < k <= size fields
      /\ move_focus_loop fuel d fields steps
           ((active + d * steps) mod size fields)
         = Ok ((active + d * k) mod size fields)
      /\ (forall j, 1 <= j < k ->
            exists f, at_index fields ((active + d * j) mod size fields) = Some f
                      /\ is_focusable f = false)
      /\ (k < size fields ->
            exists f, at_index fields ((active + d * k) mod size fields) = Some f
                      /\ is_focusable f = true).
Proof.
  intros Hd Ha. induction fuel as [|fuel IH]; intros steps Hs Hf Hno; [lia|].
  cbn [move_focus_loop]. cbv zeta.
  rewrite sum_in_range.
  2:{ intros Hsize.
      pose proof (Z.mod_pos_bound (active + d * steps) (size fields) ltac:(lia)).
      int_consts. lia. }
  rewrite (wrapped_mod (size fields) _ d) by (try apply Z.mod_pos_bound; lia).
  rewrite Z.add_mod_idemp_l by lia.
  replace (active + d * steps + d) with (active + d * (steps + 1)) by lia.
  set (a := (active + d * (steps + 1)) mod size fields).
  assert (0 <= a < size fields) as Hr by (apply Z.mod_pos_bound; lia).
  destruct (at_index_in_range fields a Hr) as [f Hf'].
  rewrite Hf'. destruct (is_focusable f) eqn:Hfoc.
  - exists (steps + 1). split; [lia|]. split; [done|]. split.
    + intros j Hj. apply Hno. lia.
    + intros _. by exists f.
  - assert (forall j, 1 <= j <= steps + 1 ->
              exists f, at_index fields ((active + d * j) mod size fields) = Some f
                        /\ is_focusable f = false) as Hno'.
    { intros j Hj. destruct (decide (j = steps + 1)) as [->|];
        [by exists f|apply Hno; lia]. }
    destruct (Z.ltb_spec (steps + 1) (size fields)).
    + destruct (IH (steps + 1)) as (k & Hk & E & Hb & Hk'); [lia|lia|done|].
      exists k. split; [lia|]. by split.
    + exists (steps + 1). split; [lia|]. split; [done|]. split.
      * intros j Hj. apply Hno'. lia.
      * lia.
Qed.

(** X26: where the focus goes. The sum of the index and the direction is
    one of ints: where it leaves their range move_focus has undefined
    behaviour. Where no sum can leave it, on a form that has a field,
    move_focus returns an index of the form. Called with a step of one
    and an index of the form, it goes through the fields in a circle,
    stops at the first one that is focusable, and is back where it
    started once it has looked at every field and found none. *)
Theorem move_focus_cyclic (direction : Z) (fields : FIELDS) (active : Z) :
  fields <> [] ->
  (size fields <= INT_MAX ->
   active + direction < INT_MIN \/ INT_MAX < active + direction ->
   move_focus direction fields active = Undefined)
  /\ (INT_MIN <= direction <= INT_MAX + 1 - size fields ->
      INT_MIN <= active + direction <= INT_MAX ->
      exists a, move_focus direction fields active = Ok a
                /\ 0 <= a < size fields)
  /\ (direction = 1 \/ direction = -1 -> 0 <= active < size fields ->
      exists k,
        1 <= k <= size fields
        /\ move_focus direction fields active
           = Ok ((active + direction * k) mod size fields)
        /\ (forall j, 1 <= j < k ->
              exists f,
                at_index fields ((active + direction * j) mod size fields)
                = Some f
                /\ is_focusable f = false)
        /\ (k < size fields ->
              exists f,
                at_index fields ((active + direction * k) mod size fields)
                = Some f
                /\ is_focusable f = true)
        /\ (k = size fields ->
              move_focus direction fields active = Ok active)).
Proof.
  intros Hne. split; [|split].
  - intros Hsize Hsum. unfold move_focus. cbn [move_focus_loop]. cbv zeta.
    by rewrite sum_out_of_range.
  - intros Hd Hsum.
    apply move_focus_loop_in_range; [done|done|lia|unfold size; lia|done].
  - intros Hd Ha.
    destruct (move_focus_loop_cyclic direction fields active Hd Ha
                (S (length fields)) 0) as (k & Hk & E & Hb & Hk');
      [lia|unfold size; lia|intros j Hj; lia|].
    rewrite Z.mul_0_r, Z.add_0_r, (Z.mod_small active) in E by lia.
    exists k. split; [lia|]. split; [done|]. split; [done|]. split; [done|].
    intros ->. unfold move_focus. rewrite E. f_equal.
    rewrite Z.mod_add by lia. apply Z.mod_small. lia.
Qed.

Lemma move_focus_cyclic_witness :
  (size StonePass.form <= INT_MAX ->
   6 + 1 < INT_MIN \/ INT_MAX < 6 + 1 ->
   move_focus 1 StonePass.form 6 = Undefined)
  /\ (INT_MIN <= 1 <= INT_MAX + 1 - size StonePass.form ->
      INT_MIN <= 6 + 1 <= INT_MAX ->
      exists a, move_focus 1 StonePass.form 6 = Ok a
                /\ 0 <= a < size StonePass.form)
  /\ (1 = 1 \/ 1 = -1 -> 0 <= 6 < size StonePass.form ->
      exists k,
        1 <= k <= size StonePass.form
        /\ move_focus 1 StonePass.form 6
           = Ok ((6 + 1 * k) mod size StonePass.form)
        /\ (forall j, 1 <= j < k ->
              exists f,
                at_index StonePass.form ((6 + 1 * j) mod size StonePass.form)
                = Some f
                /\ is_focusable f = false)
        /\ (k < size StonePass.form ->
              exists f,
                at_index StonePass.form ((6 + 1 * k) mod size StonePass.form)
                = Some f
                /\ is_focusable f = true)
        /\ (k = size StonePass.form ->
              move_focus 1 StonePass.form 6 = Ok 6)).
Proof.
  apply (move_focus_cyclic 1 StonePass.form 6).
  unfold StonePass.form. discriminate.
Defined.

(* from the Length field of the StonePass form, forward and backward; and
   a direction that carries the sum past INT_MAX *)
Example move_focus_skips_display :
  move_focus 1 StonePass.form 6 = Ok 8
  /\ move_focus (-1) StonePass.form 8 = Ok 6
  /\ move_focus 1 StonePass.form 9 = Ok 2
  /\ move_focus 1 StonePass.form INT_MAX = Undefined.
Proof. by vm_compute. Qed.
End Focus.

Section Form.
Import UI.

Lemma layout_type f g : layout f = layout g -> type f = type g.
Proof. unfold layout. congruence. Qed.

Lemma is_focusable_layout f g :
  layout f = layout g -> is_focusable f = is_focusable g.
Proof. intros H. unfold is_focusable. by rewrite (layout_type f g H). Qed.

Lemma is_input_focusable f : is_input f = true -> is_focusable f = true.
Proof.
  unfold is_input, is_focusable. intros ->%orb_true_iff%orb_true_iff.
  done.
Qed.

(** The relation [kept] *)

Lemma kept_refl f : kept f f.
Proof. unfold kept. by split_and!. Qed.

Lemma kept_trans f g h : kept f g -> kept g h -> kept f h.
Proof.
  intros (L1 & I1 & F1 & N1) (L2 & I2 & F2 & N2). unfold kept. split_and!.
  - congruence.
  - intros Hi. pose proof (I1 Hi) as ->. by apply I2.
  - auto.
  - intros Ht Hn. apply N2; [|by apply N1].
    rewrite <- Ht. by apply layout_type.
Qed.

Lemma kept_with_value_int f v :
  type f = INT_INPUT -> kept f (with_value_int f v).
Proof.
  intros Ht. unfold kept, layout, fits, is_input. cbn. split_and!; try done.
  rewrite Ht. rewrite (bool_decide_eq_true_2 (INT_INPUT = INT_INPUT)) by done.
  by rewrite orb_true_r.
Qed.

Lemma kept_with_value_str f s :
  is_input f = true ->
  (fits f -> Z.of_nat (length s) <= max_len f) ->
  (type f = INT_INPUT -> is_number_text (value_str f) = true ->
   is_number_text s = true) ->
  kept f (with_value_str f s).
Proof.
  intros Hi Hf Hn. unfold kept, layout, fits. cbn. split_and!; try done.
  rewrite Hi. discriminate.
Qed.

Lemma kept_paint_field f : kept f (paint_field f).
Proof.
  unfold paint_field. case_bool_decide as Ht; [|apply kept_refl].
  destruct (value_str f); [by apply kept_with_value_int|].
  destruct (stoi _); [by apply kept_with_value_int|apply kept_refl].
Qed.

(** Number texts *)

Lemma is_number_text_cons c r :
  is_number_text (c :: r)
  = if Ascii.eqb c "-"
    then forallb (fun c => isdigit (Z.of_N (N_of_ascii c))) r
    else forallb (fun c => isdigit (Z.of_N (N_of_ascii c))) (c :: r).
Proof. by destruct c as [[] [] [] [] [] [] [] []]. Qed.

Lemma forallb_removelast {A} (p : A -> bool) l :
  forallb p l = true -> forallb p (removelast l) = true.
Proof.
  induction l as [|x l IH]; [done|]. cbn [forallb removelast].
  intros [Hx Hl]%andb_true_iff. destruct l; [done|].
  cbn [forallb] in *. rewrite Hx. by apply IH.
Qed.

Lemma number_text_removelast s :
  is_number_text s = true -> is_number_text (removelast s) = true.
Proof.
  destruct s as [|c r]; [done|]. destruct r as [|d r]; [done|].
  change (removelast (c :: d :: r)) with (c :: removelast (d :: r)).
  rewrite !is_number_text_cons. destruct (Ascii.eqb c "-").
  - apply forallb_removelast.
  - apply (forallb_removelast _ (c :: d :: r)).
Qed.

Lemma number_text_snoc s c :
  is_number_text s = true ->
  isdigit (Z.of_N (N_of_ascii c)) = true -> Ascii.eqb c "-" = false ->
  is_number_text (s ++ [c]) = true.
Proof.
  intros Hs Hc Hm. destruct s as [|d r].
  - cbn [app]. rewrite is_number_text_cons, Hm. cbn [forallb]. by rewrite Hc.
  - cbn [app]. rewrite is_number_text_cons in *. destruct (Ascii.eqb d "-").
    + rewrite forallb_app, Hs. cbn [forallb]. by rewrite Hc.
    + change (d :: r ++ [c]) with ((d :: r) ++ [c]).
      rewrite forallb_app, Hs. cbn [forallb]. by rewrite Hc.
Qed.

Lemma digit_char ch :
  isdigit ch = true ->
  isdigit (Z.of_N (N_of_ascii (ascii_of_nat (Z.to_nat ch)))) = true
  /\ Ascii.eqb (ascii_of_nat (Z.to_nat ch)) "-" = false.
Proof.
  unfold isdigit at 1. intros [?%Z.leb_le ?%Z.leb_le]%andb_true_iff.
  assert (ch = 48 \/ ch = 49 \/ ch = 50 \/ ch = 51 \/ ch = 52 \/ ch = 53
          \/ ch = 54 \/ ch = 55 \/ ch = 56 \/ ch = 57) as Hch by lia.
  destruct_or!; subst ch; by vm_compute.
Qed.

Lemma empty_nil s : empty s = true -> s = [].
Proof. by destruct s. Qed.

Lemma length_removelast_le {A} (l : list A) :
  (length (removelast l) <= length l)%nat.
Proof.
  induction l as [|x l IH]; [done|]. destruct l; [cbn; lia|].
  change (removelast (x :: a :: l)) with (x :: removelast (a :: l)).
  cbn [length] in *. lia.
Qed.

Lemma kept_backspace f : kept f (backspace f).
Proof.
  unfold backspace.
  assert (forall t, type f = t -> t = STRING_INPUT \/ t = INT_INPUT ->
            kept f (with_value_str f (removelast (value_str f)))) as H.
  { intros t Ht Hor. apply kept_with_value_str.
    - unfold is_input. rewrite Ht.
      destruct Hor as [-> | ->]; by vm_compute.
    - unfold fits. pose proof (length_removelast_le (value_str f)). lia.
    - intros _. apply number_text_removelast. }
  case_bool_decide as H1; cbn [andb].
  - destruct (negb _); [by eapply H; [|left]|].
    case_bool_decide as H2; cbn [andb]; [congruence|apply kept_refl].
  - case_bool_decide as H2; cbn [andb]; [|apply kept_refl].
    destruct (negb _); [by eapply H; [|right]|apply kept_refl].
Qed.

Lemma kept_type_char ch f : kept f (type_char ch f).
Proof.
  unfold type_char. case_bool_decide as H1; cbn [andb].
  - destruct (Z.ltb_spec (Z.of_nat (length (value_str f))) (max_len f)).
    + apply kept_with_value_str.
      * unfold is_input. rewrite H1. by vm_compute.
      * intros _. rewrite length_app. cbn [length]. lia.
      * congruence.
    + case_bool_decide; [congruence|apply kept_refl].
  - case_bool_decide as H2; [|apply kept_refl].
    destruct (_ || _) eqn:Hc; [|apply kept_refl].
    destruct (Z.ltb_spec (Z.of_nat (length (value_str f)))
                (max_len f mod 2 ^ 64)); [|apply kept_refl].
    apply kept_with_value_str.
    + unfold is_input. rewrite H2. by vm_compute.
    + unfold fits. intros Hf. rewrite length_app. cbn [length].
      pose proof (Z.mod_le (max_len f) (2 ^ 64)). lia.
    + intros _ Hn. apply orb_true_iff in Hc as [Hc|Hc].
      * apply andb_true_iff in Hc as [->%Z.eqb_eq ->%empty_nil]. by vm_compute.
      * apply digit_char in Hc as [? ?]. by apply number_text_snoc.
Qed.

(** Forms *)

Lemma Forall2_kept_refl fields : Forall2 kept fields fields.
Proof. induction fields; constructor; [apply kept_refl|done]. Qed.

Lemma Forall2_kept_trans l k m :
  Forall2 kept l k -> Forall2 kept k m -> Forall2 kept l m.
Proof. apply Forall2_trans. apply kept_trans. Qed.

Lemma Forall2_kept_paint fields a : Forall2 kept fields (paint fields a).
Proof.
  unfold paint. induction fields; constructor; [apply kept_paint_field|done].
Qed.

Lemma Forall2_kept_set fields a f g :
  at_index fields a = Some f -> kept f g ->
  Forall2 kept fields (set_index fields a g).
Proof.
  intros [_ Hf]%at_index_Some Hk. unfold set_index.
  rewrite <- (list_insert_id fields (Z.to_nat a) f) at 1 by done.
  apply Forall2_insert; [apply Forall2_kept_refl|done].
Qed.

Lemma at_index_set fields a f g :
  at_index fields a = Some f -> at_index (set_index fields a g) a = Some g.
Proof.
  intros [Ha Hf]%at_index_Some. apply at_index_Some. split; [done|].
  unfold set_index. apply list_lookup_insert_eq. by eapply lookup_lt_Some.
Qed.

Lemma at_index_paint fields a b f :
  at_index fields a = Some f ->
  at_index (paint fields b) a = Some (paint_field f).
Proof.
  intros [Ha Hf]%at_index_Some. apply at_index_Some. split; [done|].
  unfold paint, FIELDS in *.
  change (map paint_field fields) with (paint_field <$> fields).
  by rewrite list_lookup_fmap, Hf.
Qed.

Lemma at_index_kept fields fields' a f :
  Forall2 kept fields fields' -> at_index fields a = Some f ->
  exists f', at_index fields' a = Some f' /\ kept f f'.
Proof.
  intros HK [Ha Hf]%at_index_Some.
  destruct (Forall2_lookup_l _ _ _ _ _ HK Hf) as (f' & Hf' & Hk).
  exists f'. split; [|done]. by apply at_index_Some.
Qed.

Lemma kept_focusable f f' :
  kept f f' -> is_focusable f' = is_focusable f.
Proof. intros (L & _). by apply is_focusable_layout. Qed.

(** Painted fields *)

Lemma paint_field_idem f : paint_field (paint_field f) = paint_field f.
Proof.
  unfold paint_field at 2. case_bool_decide as Ht.
  - destruct (value_str f) as [|c r] eqn:E.
    + unfold paint_field. cbn [type value_str with_value_int].
      rewrite bool_decide_eq_true_2 by done. by rewrite E.
    + destruct (stoi (c :: r)) as [v|] eqn:Ev.
      * unfold paint_field. cbn [type value_str with_value_int].
        rewrite bool_decide_eq_true_2 by done. by rewrite E, Ev.
      * unfold paint_field. rewrite bool_decide_eq_true_2 by done.
        by rewrite E, Ev.
  - unfold paint_field. by rewrite bool_decide_eq_false_2.
Qed.

Lemma painted_paint fields a :
  Forall (fun f => paint_field f = f) (paint fields a).
Proof.
  unfold paint. induction fields; constructor; [apply paint_field_idem|done].
Qed.

Lemma painted_in_sync f : paint_field f = f -> in_sync f.
Proof.
  intros Hp Ht. unfold paint_field in Hp.
  rewrite bool_decide_eq_true_2 in Hp by done.
  destruct (value_str f) as [|c r] eqn:E.
  - split; [|by intros v [=]]. intros _. by rewrite <- Hp.
  - split; [done|]. intros v Hv. rewrite Hv in Hp. by rewrite <- Hp.
Qed.

(** The loop of run_ui *)

Lemma move_focus_focusable d fields active f :
  d = 1 \/ d = -1 ->
  at_index fields active = Some f -> is_focusable f = true ->
  exists a f', move_focus d fields active = Ok a
               /\ at_index fields a = Some f' /\ is_focusable f' = true.
Proof.
  intros Hd Hf Hfoc. pose proof (at_index_range _ _ _ Hf) as Ha.
  destruct (move_focus_loop_cyclic d fields active Hd Ha
              (S (length fields)) 0) as (k & Hk & E & _ & Hk');
    [lia|unfold size; lia|intros j Hj; lia|].
  rewrite Z.mul_0_r, Z.add_0_r, (Z.mod_small active) in E by lia.
  destruct (decide (k = size fields)) as [->|Hne].
  - exists active, f. split; [|done]. unfold move_focus. rewrite E. f_equal.
    rewrite Z.mod_add by lia. apply Z.mod_small. lia.
  - destruct Hk' as (f' & Hf' & Hfoc'); [lia|]. by eexists _, f'.
Qed.

Lemma run_ui_step_inv ch ch2 fields active f :
  at_index fields active = Some f -> is_focusable f = true ->
  run_ui_step ch ch2 fields active = Ok (Returns active)
  \/ exists fields1 a f',
       run_ui_step ch ch2 fields active = Ok (Continues (paint fields1 a) a)
       /\ Forall2 kept fields fields1
       /\ at_index fields1 a = Some f' /\ is_focusable f' = true.
Proof.
  intros Hf Hfoc. unfold run_ui_step.
  destruct (_ || _ || _).
  { destruct (move_focus_focusable 1 fields active f) as (a & f' & -> & ? & ?);
      [by left|done|done|].
    right. exists fields, a, f'. cbn [outcome_bind].
    split_and!; [done|apply Forall2_kept_refl|done|done]. }
  destruct (_ || _).
  { destruct (move_focus_focusable (-1) fields active f)
      as (a & f' & -> & ? & ?); [by right|done|done|].
    right. exists fields, a, f'. cbn [outcome_bind].
    split_and!; [done|apply Forall2_kept_refl|done|done]. }
  destruct (ch =? 27); [by left|].
  rewrite Hf. cbn [option_map].
  set (rest := if ch =? 8 then _ else _).
  assert (exists fields1 a f',
            rest = Ok (Continues (paint fields1 a) a)
            /\ Forall2 kept fields fields1
            /\ at_index fields1 a = Some f' /\ is_focusable f' = true)
    as Hrest.
  { subst rest. destruct (ch =? 8).
    - exists (set_index fields active (backspace f)), active, (backspace f).
      split_and!; [done| |by eapply at_index_set|].
      + eapply Forall2_kept_set; [done|apply kept_backspace].
      + by rewrite (kept_focusable f _ (kept_backspace f)).
    - destruct (_ && _).
      + exists (set_index fields active (type_char ch f)), active,
          (type_char ch f).
        split_and!; [done| |by eapply at_index_set|].
        * eapply Forall2_kept_set; [done|apply kept_type_char].
        * by rewrite (kept_focusable f _ (kept_type_char ch f)).
      + exists fields, active, f.
        split_and!; [done|apply Forall2_kept_refl|done|done]. }
  destruct (ch =? 13); [|by right].
  destruct (bool_decide _); [by left|by right].
Qed.

Lemma run_ui_loop_inv keys :
  forall fields active f,
    at_index fields active = Some f -> is_focusable f = true ->
    Forall (fun f => paint_field f = f) fields ->
    Forall2 kept fields (snd (run_ui_loop keys fields active))
    /\ Forall (fun f => paint_field f = f) (snd (run_ui_loop keys fields active))
    /\ (fst (run_ui_loop keys fields active) = OutOfFuel
        \/ exists a f',
             fst (run_ui_loop keys fields active) = Ok a
             /\ at_index (snd (run_ui_loop keys fields active)) a = Some f'
             /\ is_focusable f' = true).
Proof.
  induction keys as [|[ch ch2] keys IH]; intros fields active f Hf Hfoc Hp.
  - cbn. split_and!; [apply Forall2_kept_refl|done|by left].
  - cbn [run_ui_loop].
    destruct (run_ui_step_inv ch ch2 fields active f Hf Hfoc)
      as [-> | (fields1 & a & f' & -> & K & Hf' & Hfoc')].
    + cbn. split_and!; [apply Forall2_kept_refl|done|].
      right. by exists active, f.
    + destruct (IH (paint fields1 a) a (paint_field f')) as (K2 & P2 & R2).
      * by apply at_index_paint.
      * by rewrite (kept_focusable f' _ (kept_paint_field f')).
      * apply painted_paint.
      * split_and!; [|done|done].
        eapply Forall2_kept_trans; [exact K|].
        eapply Forall2_kept_trans; [apply Forall2_kept_paint|exact K2].
Qed.

Lemma first_focus_spec fields :
  forall fuel a,
    0 <= a -> size fields - a <= Z.of_nat fuel ->
    (first_focus fuel fields a = Undefined
     /\ forall i f, a <= i -> at_index fields i = Some f ->
          is_focusable f = false)
    \/ exists a' f, first_focus fuel fields a = Ok a'
                    /\ at_index fields a' = Some f /\ is_focusable f = true.
Proof.
  induction fuel as [|fuel IH]; intros a Ha Hfuel.
  - cbn [first_focus]. destruct (at_index fields a) as [f|] eqn:Hf.
    + apply at_index_range in Hf. lia.
    + left. split; [done|]. intros i f Hi Hif.
      apply at_index_range in Hif. lia.
  - cbn [first_focus]. destruct (at_index fields a) as [f|] eqn:Hf.
    + destruct (is_focusable f) eqn:Hfoc; [right; by exists a, f|].
      destruct (IH (a + 1)) as [[E Hall] | R]; [lia|lia| |by right].
      left. split; [done|]. intros i g Hi Hg.
      destruct (decide (i = a)) as [->|]; [congruence|].
      apply (Hall i); [lia|done].
    + left. split; [done|]. intros i g Hi Hg.
      apply at_index_range in Hg.
      unfold at_index in Hf. destruct (Z.ltb_spec a 0); [lia|].
      apply lookup_ge_None in Hf. unfold size in *. lia.
Qed.

Lemma run_ui_cases keys fields :
  (run_ui keys fields = (Undefined, fields)
   /\ Forall (fun f => is_focusable f = false) fields)
  \/ (exists f, f ∈ fields /\ is_focusable f = true)
     /\ Forall2 kept fields (snd (run_ui keys fields))
     /\ Forall (fun f => paint_field f = f) (snd (run_ui keys fields))
     /\ (fst (run_ui keys fields) = OutOfFuel
         \/ exists a f',
              fst (run_ui keys fields) = Ok a
              /\ at_index (snd (run_ui keys fields)) a = Some f'
              /\ is_focusable f' = true).
Proof.
  unfold run_ui.
  destruct (first_focus_spec fields (length fields) 0)
    as [[-> Hall] | (a & f & -> & Hf & Hfoc)]; [lia|unfold size; lia| |].
  - left. split; [done|]. apply Forall_forall. intros f Hin.
    apply list_elem_of_lookup in Hin as [i Hi].
    apply (Hall (Z.of_nat i)); [lia|].
    apply at_index_Some. split; [lia|]. by rewrite Nat2Z.id.
  - right. split.
    { exists f. split; [|done]. apply at_index_Some in Hf as [_ Hf].
      apply list_elem_of_lookup. by eexists. }
    destruct (run_ui_loop_inv keys (paint fields a) a (paint_field f))
      as (K & P & R).
    + by apply at_index_paint.
    + by rewrite (kept_focusable f _ (kept_paint_field f)).
    + apply painted_paint.
    + split_and!; [|done|done].
      eapply Forall2_kept_trans; [apply Forall2_kept_paint|exact K].
Qed.

(* a session at the StonePass form: three texts, the length 20 replaced by
   12, and Enter on the Generate button; the second byte of a key that
   is no arrow is dropped *)
Example run_ui_session :
  let keys := [(97, 0); (9, 0); (98, 99); (9, 0); (100, 0); (9, 0); (9, 0);
               (8, 0); (8, 0); (49, 0); (50, 0); (224, 80); (13, 0)] in
  fst (run_ui keys StonePass.form) = Ok 8
  /\ map value_str (snd (run_ui keys StonePass.form))
     = map lit [EmptyString; EmptyString; "a"; "b"; "d"; "1"; "12";
                EmptyString; EmptyString; EmptyString]%string
  /\ map value_int (snd (run_ui keys StonePass.form))
     = [0; 0; 0; 0; 0; 1; 12; 0; 0; 0].
Proof. by vm_compute. Qed.

Example stoi_examples :
  stoi (lit "20") = Some 20 /\ stoi (lit " -7x") = Some (-7)
  /\ stoi (lit "-") = None /\ stoi (lit "2147483648") = None.
Proof. by vm_compute. Qed.

(** X27: a form needs a field that can have the focus. run_ui reads past
    the end of the fields exactly when none of them is focusable. It
    throws nothing, and the index it returns is the index of a focusable
    field of the form. *)
Theorem run_ui_returns_focusable (keys : list (Z * Z)) (fields : FIELDS) :
  (fst (run_ui keys fields) = Undefined
   <-> Forall (fun f => is_focusable f = false) fields)
  /\ (forall e, fst (run_ui keys fields) <> Throw e)
  /\ (forall a, fst (run_ui keys fields) = Ok a ->
        exists f, at_index (snd (run_ui keys fields)) a = Some f
                  /\ is_focusable f = true).
Proof.
  destruct (run_ui_cases keys fields)
    as [[-> Hall] | ((f & Hin & Hfoc) & _ & _ & R)].
  - cbn [fst snd]. split_and!; [done|done|done].
  - split_and!.
    + split.
      * intros E. destruct R as [R | (a & f' & R & _)]; congruence.
      * intros Hall. rewrite Forall_forall in Hall.
        rewrite (Hall f Hin) in Hfoc. discriminate.
    + intros e E. destruct R as [R | (a & f' & R & _)]; congruence.
    + intros a E. destruct R as [R | (a' & f' & R & Hf' & Hfoc')];
        [congruence|].
      exists f'. split; [|done]. congruence.
Qed.

(** X28: what run_ui does to the fields. Each field keeps its place, its
    layout and its type; a field that takes no input is left as it was;
    a text that had no more than max_len characters still has, and the
    text of a number field that was a number still is one. When run_ui
    has not failed, the value_int of every number field is 0 for the
    empty text and the result of stoi for a text that stoi reads. *)
Theorem run_ui_keeps_fields (keys : list (Z * Z)) (fields : FIELDS) :
  Forall2 kept fields (snd (run_ui keys fields))
  /\ (fst (run_ui keys fields) <> Undefined ->
      Forall in_sync (snd (run_ui keys fields))).
Proof.
  destruct (run_ui_cases keys fields) as [[-> Hall] | (_ & K & P & _)].
  - cbn [fst snd]. split; [apply Forall2_kept_refl|done].
  - split; [done|]. intros _. eapply Forall_impl; [exact P|].
    intros f. apply painted_in_sync.
Qed.
End Form.

Section FrontEnds.
Import Word StoneRNG StonePass.

Lemma bind_invalid_argument {A B} (o : outcome A) (k : A -> outcome B) msg :
  (forall a, exists b, k a = Ok b) ->
  outcome_bind o k = Throw (invalid_argument msg) ->
  o = Throw (invalid_argument msg).
Proof.
  intros Hk. destruct o as [a|e| |]; cbn [outcome_bind].
  - destruct (Hk a) as [b ->]. discriminate.
  - by intros [= ->].
  - discriminate.
  - discriminate.
Qed.

(** X29: the portable interface. The version that is typed is not used:
    the password is the one of version 1, and 1 is the version printed.
    With a length from 8 to 64, as prompt_geti returns it, the call of
    generate_password throws an invalid_argument exactly when one of the
    three answers is empty once its surrounding space is trimmed. *)
Theorem interactive_ignores_version (fuel : nat)
    (username_line master_password_line site_name_line : list ascii)
    (password_version password_length : Z) :
  8 <= password_length <= 64 ->
  generate_password_interactive fuel username_line master_password_line
    site_name_line password_version password_length
  = generate_password_interactive fuel username_line master_password_line
      site_name_line 1 password_length
  /\ (forall password version,
        generate_password_interactive fuel username_line master_password_line
          site_name_line password_version password_length
        = Ok (password, version) -> version = 1)
  /\ ((exists msg,
         generate_password_interactive fuel username_line master_password_line
           site_name_line password_version password_length
         = Throw (invalid_argument msg))
      <-> trim username_line = [] \/ trim master_password_line = []
          \/ trim site_name_line = []).
Proof.
  intros HL. split; [reflexivity|]. split.
  { unfold generate_password_interactive. intros password version.
    destruct (generate_password _ _ _ _ _ _ _ _ _ _ _ _ _ _);
      cbn [outcome_bind]; congruence. }
  unfold generate_password_interactive, prompt_gets. split.
  - intros [msg E].
    apply bind_invalid_argument in E; [|by eexists].
    destruct (trim username_line) as [|u U] eqn:EU; [by left|].
    destruct (trim master_password_line) as [|p P] eqn:EP; [by right; left|].
    destruct (trim site_name_line) as [|s S] eqn:ES; [by right; right|].
    exfalso.
    destruct (generate_password_accepts fuel (u :: U) (p :: P) (s :: S)
                password_length 1
                (lit "ABCDEFGHJKLMNPQRSTUVWXYZ") (lit "abcdefghijkmnpqrstuvwxyz")
                (lit "23456789") (lit "@#$%&*()[]{};:,.?")
                true true true true) as (rng & _ & _ & Hacc).
    { unfold must_reject. cbn [required_count].
      intros H. destruct_or!; try discriminate; try lia.
      all: first [ unfold required_count in H; cbn in H; lia
                 | destruct H as [_ H]; vm_compute in H; discriminate H ]. }
    rewrite Hacc in E.
    apply (only_exhausted_compose fuel password_length
             (lit "ABCDEFGHJKLMNPQRSTUVWXYZ") (lit "abcdefghijkmnpqrstuvwxyz")
             (lit "23456789") (lit "@#$%&*()[]{};:,.?")
             true true true true rng) in E.
    discriminate E.
  - intros H.
    destruct (generate_password_rejects fuel (trim username_line)
                (trim master_password_line) (trim site_name_line)
                password_length 1
                (lit "ABCDEFGHJKLMNPQRSTUVWXYZ") (lit "abcdefghijkmnpqrstuvwxyz")
                (lit "23456789") (lit "@#$%&*()[]{};:,.?")
                true true true true) as [msg E].
    { unfold must_reject. tauto. }
    exists msg. by rewrite E.
Qed.

Lemma interactive_ignores_version_witness :
  generate_password_interactive 64 (lit " alice ") (lit "secret")
    (lit "github.com") 7 20
  = generate_password_interactive 64 (lit " alice ") (lit "secret")
      (lit "github.com") 1 20
  /\ (forall password version,
        generate_password_interactive 64 (lit " alice ") (lit "secret")
          (lit "github.com") 7 20
        = Ok (password, version) -> version = 1)
  /\ ((exists msg,
         generate_password_interactive 64 (lit " alice ") (lit "secret")
           (lit "github.com") 7 20
         = Throw (invalid_argument msg))
      <-> trim (lit " alice ") = [] \/ trim (lit "secret") = []
          \/ trim (lit "github.com") = []).
Proof.
  apply (interactive_ignores_version 64 (lit " alice ") (lit "secret")
           (lit "github.com") 7 20).
  lia.
Defined.

(** The Windows interface *)

Lemma form_kept (F : UI.FIELDS) :
  Forall2 UI.kept form F ->
  exists f0 f1 f2 f3 f4 f5 f6 f7 f8 f9,
    F = [f0; f1; f2; f3; f4; f5; f6; f7; f8; f9]
    /\ Forall2 UI.kept form [f0; f1; f2; f3; f4; f5; f6; f7; f8; f9].
Proof.
  intros K. pose proof K as K0. unfold form in K.
  do 10 (apply Forall2_cons_inv_l in K as (? & ? & _ & K & ->)).
  apply Forall2_nil_inv_l in K as ->. by eexists _, _, _, _, _, _, _, _, _, _.
Qed.

(** X30: the Windows interface. Nothing is generated and nothing printed
    unless run_ui returns the index of the Generate button; then
    generate_password is called with the three texts, the number of the
    Length field, whatever it is, and version 1, whatever the Version
    field holds, and its result is printed with version 1. The test
    [active != 9] that guards the printing never fails. *)
Theorem interactive_windows_generates (fuel : nat) (keys : list (Z * Z)) :
  match fst (UI.run_ui keys form) with
  | Ok active =>
      if active =? 8
      then
        exists f2 f3 f4 f6,
          snd (UI.run_ui keys form) !! 2%nat = Some f2
          /\ snd (UI.run_ui keys form) !! 3%nat = Some f3
          /\ snd (UI.run_ui keys form) !! 4%nat = Some f4
          /\ snd (UI.run_ui keys form) !! 6%nat = Some f6
          /\ generate_password_interactive_windows fuel keys
             = outcome_bind
                 (generate_password fuel (UI.value_str f2) (UI.value_str f3)
                    (UI.value_str f4) (UI.value_int f6) 1
                    (lit "ABCDEFGHJKLMNPQRSTUVWXYZ")
                    (lit "abcdefghijkmnpqrstuvwxyz")
                    (lit "23456789") (lit "@#$%&*()[]{};:,.?")
                    true true true true)
                 (fun result => Ok (Some (result, 1)))
      else generate_password_interactive_windows fuel keys = Ok None
  | OutOfFuel => generate_password_interactive_windows fuel keys = OutOfFuel
  | Throw _ | Undefined => False
  end.
Proof.
  unfold generate_password_interactive_windows.
  destruct (run_ui_cases keys form) as [[_ Hall] | (_ & K & _ & R)].
  { exfalso. unfold form in Hall.
    pose proof (Forall_lookup_1 _ _ 2%nat _ Hall eq_refl) as H.
    discriminate H. }
  destruct (UI.run_ui keys form) as [o F]. cbn [fst snd] in *.
  destruct R as [-> | (a & f' & -> & Hf' & Hfoc')]; [reflexivity|].
  destruct (form_kept F K) as (f0 & f1 & f2 & f3 & f4 & f5 & f6 & f7 & f8 & f9
                               & -> & K').
  clear K. rewrite Hf'.
  pose proof (at_index_range _ _ _ Hf') as Ha. unfold UI.size in Ha.
  cbn [length] in Ha.
  assert (forall i c f, form !! i = Some c ->
            [f0; f1; f2; f3; f4; f5; f6; f7; f8; f9] !! i = Some f ->
            UI.is_focusable f = UI.is_focusable c
            /\ UI.button_text f = UI.button_text c) as Hi.
  { intros i c f Hc Hf.
    destruct (Forall2_lookup_l _ _ _ _ _ K' Hc) as (g & Hg & L & _).
    assert (g = f) as -> by congruence.
    split; [by apply is_focusable_layout|].
    unfold UI.layout in L. congruence. }
  apply at_index_Some in Hf' as [_ Hf'].
  assert (a = 0 \/ a = 1 \/ a = 2 \/ a = 3 \/ a = 4 \/ a = 5 \/ a = 6
          \/ a = 7 \/ a = 8 \/ a = 9) as Hcases by lia.
  destruct_or!; subst a;
    match type of Hf' with
    | _ !! ?i = _ =>
        destruct (Hi i _ _ eq_refl Hf') as [Hfoc Hbt]
    end;
    rewrite Hfoc' in Hfoc; try discriminate Hfoc;
    rewrite Hbt; cbn [Z.eqb Pos.eqb].
  all: try (rewrite bool_decide_eq_false_2 by (by vm_compute); reflexivity).
  exists f2, f3, f4, f6. split_and!; reflexivity.
Qed.
End FrontEnds.
